(** * The read-to-graph mapper of vg: a shallow embedding of [src/mapper.cpp]

    The development has two parts.  Part I embeds the data model and the
    functions of the mapper that the specification talks about, one module
    per subsystem.  Part II states and proves the properties.

    Conventions of the embedding.
    - C++ [int], [int32_t], [int64_t] and [size_t] values are integers in [Z].
      Signed overflow is undefined behaviour in C++, so the embedding covers
      the runs that stay inside the machine range; conversions between signed
      and unsigned values that the source relies on are written out
      ([to_size_t]).
    - C++ [double] values are idealised as exact rationals in [Q]; the
      functions on doubles that live outside the embedded file (standard
      deviation, mapping-quality estimation) are collaborators given as
      class fields.
    - Pointers into a [vector] are indices into the list that models it.
    - Collaborators that the mapper only calls (the graph index, the suffix
      index, the dynamic-programming aligner) are type classes whose fields
      are the calls. *)

From Stdlib Require Import ZArith QArith Qabs List Sorted Bool String Ascii Lia Lqa.
From stdpp Require Import base option list sorting gmap strings fin_maps.

Open Scope Z_scope.

(* ===================================================================== *)
(** * Part I: the embedding                                               *)
(* ===================================================================== *)

(** ** Machine integers and strings *)

(** Conversion of a signed integer to [size_t] (64 bits). *)
Definition to_size_t (z : Z) : Z := z mod 2 ^ 64.

(** [if (x % 4) { x -= x % 4; x += 4; }] on an [int]. *)
Definition round_up_4 (x : Z) : Z :=
  if Z.rem x 4 =? 0 then x else x - Z.rem x 4 + 4.

Definition size (s : string) : Z := Z.of_nat (String.length s).

Definition empty (s : string) : bool :=
  match s with EmptyString => true | _ => false end.

(** [std::string::substr(pos, n)]: throws [std::out_of_range] ([None]) when
    [pos] is past the end, and clips [n] to the rest of the string. *)
Definition substr (s : string) (pos n : Z) : option string :=
  let p := to_size_t pos in
  if size s <? p then None
  else Some (substring (Z.to_nat p) (Z.to_nat (Z.min (to_size_t n) (size s - p))) s).

(** ** The data model (the protobuf messages of [vg.pb.h]) *)

Module Edit.
Record t := mk { from_length : Z; to_length : Z; sequence : string }.
End Edit.

Module Position.
Record t := mk { node_id : Z; offset : Z; is_reverse : bool }.
Definition set_offset (p : t) (o : Z) : t :=
  mk (node_id p) o (is_reverse p).
(** [reverse(pos, node_length)]: the same base seen from the other strand. *)
Definition reverse (pos : t) (node_length : Z) : t :=
  mk (node_id pos) (node_length - offset pos) (negb (is_reverse pos)).
End Position.

Module Mapping.
Record t := mk { position : Position.t; edit : list Edit.t }.
End Mapping.

Module Alignment.
Record t := mk {
  sequence : string;
  quality : string;
  path : list Mapping.t;
  score : Z;
  identity : Q;
  mapping_quality : Z;
  is_secondary : bool;
  name : string;
  fragment_prev : string;   (* fragment_prev().name() *)
  fragment_next : string;   (* fragment_next().name() *)
  fragment : list (string * Z) (* the fragment records: path name, length *)
}.

Definition set_path (a : t) (p : list Mapping.t) : t :=
  mk (sequence a) (quality a) p (score a) (identity a) (mapping_quality a)
     (is_secondary a) (name a) (fragment_prev a) (fragment_next a) (fragment a).
Definition set_score (a : t) (s : Z) : t :=
  mk (sequence a) (quality a) (path a) s (identity a) (mapping_quality a)
     (is_secondary a) (name a) (fragment_prev a) (fragment_next a) (fragment a).
Definition set_identity (a : t) (i : Q) : t :=
  mk (sequence a) (quality a) (path a) (score a) i (mapping_quality a)
     (is_secondary a) (name a) (fragment_prev a) (fragment_next a) (fragment a).
Definition set_mapping_quality (a : t) (q : Z) : t :=
  mk (sequence a) (quality a) (path a) (score a) (identity a) q
     (is_secondary a) (name a) (fragment_prev a) (fragment_next a) (fragment a).
Definition set_is_secondary (a : t) (b : bool) : t :=
  mk (sequence a) (quality a) (path a) (score a) (identity a) (mapping_quality a)
     b (name a) (fragment_prev a) (fragment_next a) (fragment a).
Definition set_quality (a : t) (q : string) : t :=
  mk (sequence a) q (path a) (score a) (identity a) (mapping_quality a)
     (is_secondary a) (name a) (fragment_prev a) (fragment_next a) (fragment a).
Definition set_sequence (a : t) (s : string) : t :=
  mk s (quality a) (path a) (score a) (identity a) (mapping_quality a)
     (is_secondary a) (name a) (fragment_prev a) (fragment_next a) (fragment a).
Definition set_name (a : t) (n : string) : t :=
  mk (sequence a) (quality a) (path a) (score a) (identity a) (mapping_quality a)
     (is_secondary a) n (fragment_prev a) (fragment_next a) (fragment a).
Definition set_fragment_prev (a : t) (n : string) : t :=
  mk (sequence a) (quality a) (path a) (score a) (identity a) (mapping_quality a)
     (is_secondary a) (name a) n (fragment_next a) (fragment a).
Definition set_fragment_next (a : t) (n : string) : t :=
  mk (sequence a) (quality a) (path a) (score a) (identity a) (mapping_quality a)
     (is_secondary a) (name a) (fragment_prev a) n (fragment a).
Definition add_fragment (a : t) (f : string * Z) : t :=
  mk (sequence a) (quality a) (path a) (score a) (identity a) (mapping_quality a)
     (is_secondary a) (name a) (fragment_prev a) (fragment_next a) (fragment a ++ [f]).
Definition clear_path (a : t) : t := set_path a [].
Definition clear_score (a : t) : t := set_score a 0.
Definition clear_identity (a : t) : t := set_identity a 0%Q.
(** A default-constructed message. *)
Definition default : t := mk "" "" [] 0 0 0 false "" "" "" [].
End Alignment.

(** Modelled from the spec: the edit classifiers of [path.hpp] are not in the
    embedded sources.  Section 3 of the specification: "match has
    [from == to > 0] and empty sequence, substitution has [from == to > 0]
    and non-empty sequence, insertion has [from == 0], deletion has
    [to == 0]". *)
Definition edit_is_match (e : Edit.t) : bool :=
  (Edit.from_length e =? Edit.to_length e) && (0 <? Edit.to_length e)
  && empty (Edit.sequence e).
Definition edit_is_sub (e : Edit.t) : bool :=
  (Edit.from_length e =? Edit.to_length e) && (0 <? Edit.to_length e)
  && negb (empty (Edit.sequence e)).
Definition edit_is_deletion (e : Edit.t) : bool := Edit.to_length e =? 0.
Definition edit_is_insertion (e : Edit.t) : bool := Edit.from_length e =? 0.

(** Modelled from the spec: [mapping_from_length] of [path.hpp] is the total
    [from_length] of a mapping (section 8: "sum from-lengths of M.edits"). *)
Definition mapping_from_length (m : Mapping.t) : Z :=
  fold_right (fun e acc => Edit.from_length e + acc) 0 (Mapping.edit m).

(** [edit_count] of [alignment.hpp]: the number of edit operations. *)
Definition edit_count (a : Alignment.t) : Z :=
  fold_right (fun m acc => Z.of_nat (length (Mapping.edit m)) + acc) 0 (Alignment.path a).

(** [softclip_start] and [softclip_end]: the length of the insertion that
    opens (closes) the alignment, 0 when there is none. *)
Definition softclip_start (a : Alignment.t) : Z :=
  match Alignment.path a with
  | first_mapping :: _ =>
      match Mapping.edit first_mapping with
      | first_edit :: _ =>
          if (Edit.from_length first_edit =? 0) && (0 <? Edit.to_length first_edit)
          then Edit.to_length first_edit else 0
      | [] => 0
      end
  | [] => 0
  end.

Definition softclip_end (a : Alignment.t) : Z :=
  match last (Alignment.path a) with
  | Some last_mapping =>
      match last (Mapping.edit last_mapping) with
      | Some last_edit =>
          if (Edit.from_length last_edit =? 0) && (0 <? Edit.to_length last_edit)
          then Edit.to_length last_edit else 0
      | None => 0
      end
  | None => 0
  end.

(** ** Collaborators *)

(** The scoring parameters of the dynamic-programming aligner
    ([aligner->match] and so on). *)
Class Aligner := {
  match' : Z;
  mismatch : Z;
  gap_open : Z;
  gap_extension : Z
}.

(** The quality-adjusted aligner: [score_exact_match(sequence, quality)]. *)
Class QualAdjAligner := {
  score_exact_match : string -> string -> Z;
  (** its own [match], [gap_open] and [gap_extension] *)
  qual_adj_match : Z;
  qual_adj_gap_open : Z;
  qual_adj_gap_extension : Z
}.

(** The graph index behind [cached_position.hpp]. *)
Class XG := {
  xg_cached_node_length : Z -> Z;
  xg_cached_node_start : Z -> Z;
  xg_cached_distance : Position.t -> Position.t -> Z -> Z;
  (** [position_in_paths(id, is_rev, offset)]: for each reference path that
      visits the node, its name and the offsets of the visits; the pairs are
      in the order of the [map] (ascending names). *)
  position_in_paths : Z -> bool -> Z -> list (string * list Z)
}.

Module MappingQualityMethod.
Inductive t := Approx | Exact | None.
End MappingQualityMethod.

(** The members of [Mapper] that are set once and then only read; the
    estimate of the fragment length, which the mapper updates while it runs,
    is a state of its own (see [FragmentModel]). *)
Class Mapper := {
  has_xindex : bool;                      (* xindex != nullptr *)
  hit_max : Z;
  kmer_sensitivity_step : Z;
  max_multimaps : Z;
  min_mem_length : Z;
  extra_multimaps : Z;
  fragment_max : Z;
  fragment_sigma : Q;
  fragment_length_cache_size : Z;
  fragment_length_estimate_interval : Z;
  perfect_pair_identity_threshold : Q;
  mapping_quality_method : MappingQualityMethod.t;
  adjust_alignments_for_base_quality : bool;
  mem_reseed_length : Z;
  full_length_alignment_bonus : Z
}.

(** ** Positions on the graph ([Mapper::approx_position] and friends) *)

Section Positions.
Context `{XG}.

Definition graph_distance (pos1 pos2 : Position.t) (maximum : Z) : Z :=
  xg_cached_distance pos1 pos2 maximum.

Definition approx_position (pos : Position.t) : Z :=
  let pos := if Position.is_reverse pos
             then Position.reverse pos (xg_cached_node_length (Position.node_id pos))
             else pos in
  xg_cached_node_start (Position.node_id pos) + Position.offset pos.

Definition approx_distance (pos1 pos2 : Position.t) : Z :=
  approx_position pos1 - approx_position pos2.

Definition get_node_length (node_id : Z) : Z := xg_cached_node_length node_id.
End Positions.

(** ** Canonical rescoring ([Mapper::score_alignment]) *)

Module Rescore.
Section Rescore.
Context `{Aligner} `{QualAdjAligner} `{XG} `{Mapper}.

(** The body of the inner loop: the running [score] and [read_offset]
    after edit [j] of mapping [i]. *)
Definition score_edit (aln : Alignment.t) (mapping_size i edit_size j : Z)
           (st : Z * Z) (edit : Edit.t) : option (Z * Z) :=
  let '(score, read_offset) := st in
  score' ←
    (if edit_is_match edit then
       if negb (empty (Alignment.quality aln)) && adjust_alignments_for_base_quality then
         s ← substr (Alignment.sequence aln) read_offset (Edit.to_length edit);
         q ← substr (Alignment.quality aln) read_offset (Edit.to_length edit);
         Some (score + score_exact_match s q)
       else Some (score + Edit.from_length edit * match')
     else if edit_is_sub edit then
       Some (score - mismatch * size (Edit.sequence edit))
     else if edit_is_deletion edit then
       Some (score - (gap_open + Edit.from_length edit * gap_extension))
     else if edit_is_insertion edit
              && negb ((i =? 0) && (j =? 0)
                       || (i =? mapping_size - 1) && (j =? edit_size - 1)) then
       Some (score - (gap_open + Edit.to_length edit * gap_extension))
     else Some score);
  Some (score', read_offset + Edit.to_length edit).

(** [for (int j = 0; j < mapping.edit_size(); ++j)], from edit [j] on. *)
Fixpoint score_edits (aln : Alignment.t) (mapping_size i edit_size j : Z)
         (edits : list Edit.t) (st : Z * Z) : option (Z * Z) :=
  match edits with
  | [] => Some st
  | edit :: rest =>
      st' ← score_edit aln mapping_size i edit_size j st edit;
      score_edits aln mapping_size i edit_size (j + 1) rest st'
  end.

(** The length of the jump from the end of [mapping] to the start of the
    next one: the graph distance, or the approximate distance when the
    search gave up (it then returns its bound, the read length). *)
Definition jump_distance (aln : Alignment.t) (mapping next : Mapping.t) : Z :=
  let last_pos :=
    Position.set_offset (Mapping.position mapping)
      (Position.offset (Mapping.position mapping) + mapping_from_length mapping) in
  let next_pos := Mapping.position next in
  let dist := graph_distance last_pos next_pos (size (Alignment.sequence aln)) in
  if to_size_t dist =? size (Alignment.sequence aln)
  then Z.abs (approx_distance last_pos next_pos)
  else dist.

Definition score_jump (aln : Alignment.t) (mapping next : Mapping.t) (score : Z) : Z :=
  let dist := jump_distance aln mapping next in
  if 0 <? dist then score - (gap_open + dist * gap_extension) else score.

(** [for (int i = 0; i < path.mapping_size(); ++i)], from mapping [i] on;
    [path.mapping(i+1)] is the head of the rest. *)
Fixpoint score_mappings (aln : Alignment.t) (mapping_size i : Z)
         (mappings : list Mapping.t) (st : Z * Z) : option (Z * Z) :=
  match mappings with
  | [] => Some st
  | mapping :: rest =>
      st' ← score_edits aln mapping_size i
               (Z.of_nat (length (Mapping.edit mapping))) 0 (Mapping.edit mapping) st;
      let score :=
        match rest with
        | next :: _ => score_jump aln mapping next (fst st')
        | [] => fst st'
        end in
      score_mappings aln mapping_size (i + 1) rest (score, snd st')
  end.

Definition score_alignment (aln : Alignment.t) : option Z :=
  st ← score_mappings aln (Z.of_nat (length (Alignment.path aln))) 0
          (Alignment.path aln) (0, 0);
  Some (Z.max 0 (fst st)).

(** [aln.set_score(score_alignment(aln))]: the statement with which
    [pair_rescue] (twice), [align_banded] and [patch_alignment] store the
    rescore in an alignment. *)
Definition set_rescore (aln : Alignment.t) : option Alignment.t :=
  score ← score_alignment aln;
  Some (Alignment.set_score aln score).

(** [Mapper::rescore_without_full_length_bonus]. *)
Definition rescore_without_full_length_bonus (aln : Alignment.t) : Z :=
  let score := Alignment.score aln in
  let score := if softclip_start aln =? 0
               then score - full_length_alignment_bonus else score in
  if softclip_end aln =? 0 then score - full_length_alignment_bonus else score.

(** *** The rescore of the specification

    Section 4.5, written as sums: every edit contributes its
    match/mismatch/gap charge, the insertions that open or close the read
    are free, every pair of consecutive mappings contributes the charge of
    a deletion as long as the jump between them, and each end of the read
    that is not soft-clipped earns the full-length bonus. *)

(** The charge of one edit that starts at [read_offset]; [endpoint] says
    that the edit is the first of the first mapping or the last of the last
    mapping. *)
Definition edit_charge (aln : Alignment.t) (read_offset : Z) (endpoint : bool)
           (edit : Edit.t) : option Z :=
  if edit_is_match edit then
    if negb (empty (Alignment.quality aln)) && adjust_alignments_for_base_quality then
      s ← substr (Alignment.sequence aln) read_offset (Edit.to_length edit);
      q ← substr (Alignment.quality aln) read_offset (Edit.to_length edit);
      Some (score_exact_match s q)
    else Some (Edit.from_length edit * match')
  else if edit_is_sub edit then Some (- (mismatch * size (Edit.sequence edit)))
  else if edit_is_deletion edit then
    Some (- (gap_open + Edit.from_length edit * gap_extension))
  else if edit_is_insertion edit && negb endpoint then
    Some (- (gap_open + Edit.to_length edit * gap_extension))
  else Some 0.

(** The edits of a path with their coordinates: mapping index, edit index,
    number of edits of the mapping, and the edit. *)
Definition indexed_edits (p : list Mapping.t) : list (nat * nat * nat * Edit.t) :=
  concat (imap (fun i m =>
                  imap (fun j e => (i, j, length (Mapping.edit m), e)) (Mapping.edit m))
               p).

Definition is_endpoint (mapping_size : nat) (c : nat * nat * nat * Edit.t) : bool :=
  let '(i, j, edit_size, _) := c in
  (Nat.eqb i 0 && Nat.eqb j 0)
  || (Nat.eqb (S i) mapping_size && Nat.eqb (S j) edit_size).

(** The sum of the edit charges; the read offset of an edit is the total
    [to_length] of the edits before it. *)
Fixpoint edit_charges (aln : Alignment.t) (mapping_size : nat)
         (cs : list (nat * nat * nat * Edit.t)) (read_offset : Z) : option Z :=
  match cs with
  | [] => Some 0
  | c :: rest =>
      x ← edit_charge aln read_offset (is_endpoint mapping_size c) (snd c);
      y ← edit_charges aln mapping_size rest (read_offset + Edit.to_length (snd c));
      Some (x + y)
  end.

(** The charge of the jump between two consecutive mappings: a deletion of
    the length of the jump, nothing when the mappings abut. *)
Definition jump_charge (aln : Alignment.t) (mapping next : Mapping.t) : Z :=
  let dist := jump_distance aln mapping next in
  if 0 <? dist then - (gap_open + dist * gap_extension) else 0.

Fixpoint jump_charges (aln : Alignment.t) (mappings : list Mapping.t) : Z :=
  match mappings with
  | mapping :: ((next :: _) as rest) => jump_charge aln mapping next + jump_charges aln rest
  | _ => 0
  end.

Definition full_length_bonuses (aln : Alignment.t) : Z :=
  (if softclip_start aln =? 0 then full_length_alignment_bonus else 0)
  + (if softclip_end aln =? 0 then full_length_alignment_bonus else 0).

(** The rescore as the specification words it, bonus included. *)
Definition rescore_spec (aln : Alignment.t) : option Z :=
  edits ← edit_charges aln (length (Alignment.path aln))
             (indexed_edits (Alignment.path aln)) 0;
  Some (edits + jump_charges aln (Alignment.path aln) + full_length_bonuses aln).

(** The rescore without the bonus and clamped at zero. *)
Definition rescore_clamped (aln : Alignment.t) : option Z :=
  edits ← edit_charges aln (length (Alignment.path aln))
             (indexed_edits (Alignment.path aln)) 0;
  Some (Z.max 0 (edits + jump_charges aln (Alignment.path aln))).
End Rescore.

(** Vocabulary of the proofs about rescoring. *)

(** The total [to_length] of a list of edits: how far they advance the
    read offset. *)
Definition advance (edits : list Edit.t) : Z :=
  fold_right (fun e acc => Edit.to_length e + acc) 0 edits.

Definition coordinates_advance (cs : list (nat * nat * nat * Edit.t)) : Z :=
  advance (map snd cs).

(** The coordinates of the edits of the mappings from index [i] on. *)
Definition indexed_edits_from (i : nat) (mappings : list Mapping.t)
  : list (nat * nat * nat * Edit.t) :=
  concat (imap (fun k m =>
                  imap (fun j e => ((i + k)%nat, j, length (Mapping.edit m), e))
                       (Mapping.edit m))
               mappings).

End Rescore.

(** *** Example collaborators *)

(** The default scoring parameters of the [Mapper] constructor, and a graph
    of one node ["ACGTACGT"] with no reference path. *)
Definition default_aligner : Aligner :=
  {| match' := 1; mismatch := 4; gap_open := 6; gap_extension := 1 |}.
(** The values that the constructor of [Mapper] gives to the members. *)
Definition default_mapper : Mapper :=
  {| has_xindex := true;
     hit_max := 0;
     kmer_sensitivity_step := 5;
     max_multimaps := 1;
     min_mem_length := 0;
     extra_multimaps := 100;
     fragment_max := 100000;
     fragment_sigma := 4;
     fragment_length_cache_size := 1000;
     fragment_length_estimate_interval := 10;
     perfect_pair_identity_threshold := 98 # 100;
     mapping_quality_method := MappingQualityMethod.Approx;
     adjust_alignments_for_base_quality := false;
     mem_reseed_length := 0;
     full_length_alignment_bonus := 5 |}.
Definition flat_qualities : QualAdjAligner :=
  {| score_exact_match := fun s _ => size s;
     qual_adj_match := 1; qual_adj_gap_open := 6; qual_adj_gap_extension := 1 |}.
Definition one_node_graph : XG :=
  {| xg_cached_node_length := fun _ => 8;
     xg_cached_node_start := fun _ => 0;
     xg_cached_distance := fun _ _ maximum => maximum;
     position_in_paths := fun _ _ _ => [] |}.

(** The read ["ACGT"] matched at the start of the node (scenario 1 of the
    specification). *)
Definition perfect_hit : Alignment.t :=
  Alignment.mk "ACGT" "" [Mapping.mk (Position.mk 1 0 false) [Edit.mk 4 4 ""]]
               14 1 60 false "read" "" "" [].



(** ** Seeds *)

(** [MaximalExactMatch]: a half-open interval of the read (offsets from the
    start of the read), its range in the suffix index, the number of hits and
    the graph positions that were located. *)
Module MaximalExactMatch.
Record t := mk {
  begin : Z;
  end' : Z;
  range : Z * Z;
  match_count : Z;
  fragment : Z;
  nodes : list Position.t
}.
Definition length (m : t) : Z := end' m - begin m.
End MaximalExactMatch.

(** ** Multi-mapping of one read ([Mapper::align_multi]) *)

(** The aligners that produce the candidate alignments of a read.  They are
    called by [align_multi_internal] and are not embedded here. *)
Class Engines := {
  (** [align_banded(read, kmer_size, stride, max_mem_length, band_width)]
      once its opening assertion has passed *)
  align_banded : Alignment.t -> Z -> Z -> Z -> Z -> Alignment.t;
  (** [align_multi_kmers(aln, kmer_size, stride, band_width)] *)
  align_multi_kmers : Alignment.t -> Z -> Z -> Z -> list Alignment.t;
  (** [find_mems_deep(begin, end, max_mem_length, min_mem_length, reseed_length)] *)
  find_mems_deep : string -> Z -> Z -> Z -> list MaximalExactMatch.t;
  (** [align_mem_multi(aln, mems, cluster_mq, additional_multimaps)]: the
      alignments and the value left in the reference [cluster_mq]. *)
  align_mem_multi :
    Alignment.t -> list MaximalExactMatch.t -> Q -> Z -> list Alignment.t * Q
}.

(** Modelled from the spec: [BaseAligner::compute_mapping_quality] is not in
    the embedded sources.  Section 4.10: from the list of alternative
    alignments it derives a mapping quality for each of them.  The field
    gives the quality of the alignment at an index; nothing else changes. *)
Class MappingQualityEstimator := {
  estimated_mapping_quality : list Alignment.t -> bool -> Q -> nat -> Z
}.

Module Multi.

(** Equality of the serialized messages ([SerializeToString]).  *)
Definition edit_eqb (e1 e2 : Edit.t) : bool :=
  (Edit.from_length e1 =? Edit.from_length e2)
  && (Edit.to_length e1 =? Edit.to_length e2)
  && String.eqb (Edit.sequence e1) (Edit.sequence e2).

Definition position_eqb (p1 p2 : Position.t) : bool :=
  (Position.node_id p1 =? Position.node_id p2)
  && (Position.offset p1 =? Position.offset p2)
  && Bool.eqb (Position.is_reverse p1) (Position.is_reverse p2).

Fixpoint list_eqb {A} (eqb : A -> A -> bool) (l1 l2 : list A) : bool :=
  match l1, l2 with
  | [], [] => true
  | x :: r1, y :: r2 => eqb x y && list_eqb eqb r1 r2
  | _, _ => false
  end.

Definition mapping_eqb (m1 m2 : Mapping.t) : bool :=
  position_eqb (Mapping.position m1) (Mapping.position m2)
  && list_eqb edit_eqb (Mapping.edit m1) (Mapping.edit m2).

Definition fragment_eqb (f1 f2 : string * Z) : bool :=
  String.eqb (fst f1) (fst f2) && (snd f1 =? snd f2).

Definition serialized_eqb (a b : Alignment.t) : bool :=
  String.eqb (Alignment.sequence a) (Alignment.sequence b)
  && String.eqb (Alignment.quality a) (Alignment.quality b)
  && list_eqb mapping_eqb (Alignment.path a) (Alignment.path b)
  && (Alignment.score a =? Alignment.score b)
  && Qeq_bool (Alignment.identity a) (Alignment.identity b)
  && (Alignment.mapping_quality a =? Alignment.mapping_quality b)
  && Bool.eqb (Alignment.is_secondary a) (Alignment.is_secondary b)
  && String.eqb (Alignment.name a) (Alignment.name b)
  && String.eqb (Alignment.fragment_prev a) (Alignment.fragment_prev b)
  && String.eqb (Alignment.fragment_next a) (Alignment.fragment_next b)
  && list_eqb fragment_eqb (Alignment.fragment a) (Alignment.fragment b).

(** [set<Alignment*>]: the pointers are indices into [all_alns], kept in
    ascending order. *)
Fixpoint set_insert (x : nat) (s : list nat) : list nat :=
  match s with
  | [] => [x]
  | y :: rest =>
      if (x <? y)%nat then x :: s
      else if (x =? y)%nat then s
      else y :: set_insert x rest
  end.

(** [map<int, set<Alignment*>>]: the entries are kept in ascending order of
    the key; [alignment_by_score[k].insert(x)]. *)
Fixpoint map_insert (k : Z) (x : nat) (m : list (Z * list nat)) : list (Z * list nat) :=
  match m with
  | [] => [(k, [x])]
  | (k', s) :: rest =>
      if k <? k' then (k, [x]) :: m
      else if k =? k' then (k', set_insert x s) :: rest
      else (k', s) :: map_insert k x rest
  end.

(** [for (auto& ta : all_alns) alignment_by_score[aln->score()].insert(aln)],
    from index [i] on. *)
Fixpoint group_by_score (i : nat) (alns : list Alignment.t) (m : list (Z * list nat))
  : list (Z * list nat) :=
  match alns with
  | [] => m
  | ta :: rest => group_by_score (S i) rest (map_insert (Alignment.score ta) i m)
  end.

(** The inner loop over the alignments of one score: an alignment is copied
    unless an equal serialization was produced for this score already.  The
    result is the indices that are copied, with the serializations used. *)
Fixpoint copy_unique (all_alns : list Alignment.t) (pointers : list nat)
         (used : list Alignment.t) : list nat :=
  match pointers with
  | [] => []
  | pointer :: rest =>
      match all_alns !! pointer with
      | Some a =>
          if existsb (serialized_eqb a) used
          then copy_unique all_alns rest used
          else pointer :: copy_unique all_alns rest (a :: used)
      | None => copy_unique all_alns rest used
      end
  end.

(** The indices of the alignments that are copied to
    [sorted_unique_alignments], in the order of the copies: the scores are
    walked from [rbegin] to [rend]. *)
Definition sorted_unique_indices (all_alns : list Alignment.t) : list nat :=
  concat (map (fun entry => copy_unique all_alns (snd entry) [])
              (reverse (group_by_score 0 all_alns []))).

Definition score_sort_and_deduplicate_alignments
           (all_alns : list Alignment.t) (original_alignment : Alignment.t)
  : list Alignment.t :=
  match all_alns with
  | [] => [Alignment.set_score (Alignment.clear_path original_alignment) 0]
  | _ => omap (fun i => all_alns !! i) (sorted_unique_indices all_alns)
  end.

Section Multi.
Context `{XG} `{Engines} `{MappingQualityEstimator} `{Mapper}.

(** [vector::resize(n)] when it shrinks the vector. *)
Definition resize {A} (l : list A) (n : Z) : list A :=
  take (Z.to_nat (to_size_t n)) l.

Definition filter_and_process_multimaps
           (sorted_unique_alignments : list Alignment.t) (additional_multimaps : Z)
  : list Alignment.t :=
  let total_multimaps := max_multimaps + additional_multimaps in
  let l := if to_size_t total_multimaps <? Z.of_nat (length sorted_unique_alignments)
           then resize sorted_unique_alignments total_multimaps
           else sorted_unique_alignments in
  imap (fun i a => Alignment.set_is_secondary a (0 <? i)%nat) l.

Definition compute_mapping_qualities (alns : list Alignment.t) (cluster_mq : Q)
  : list Alignment.t :=
  match mapping_quality_method with
  | MappingQualityMethod.Approx =>
      imap (fun i a => Alignment.set_mapping_quality a
                         (estimated_mapping_quality alns true cluster_mq i)) alns
  | MappingQualityMethod.Exact =>
      imap (fun i a => Alignment.set_mapping_quality a
                         (estimated_mapping_quality alns false cluster_mq i)) alns
  | MappingQualityMethod.None => alns
  end.

(** What [filter_and_process_multimaps] keeps: a prefix of the list. *)
Definition kept (n : nat) (additional_multimaps : Z) : nat :=
  if to_size_t (max_multimaps + additional_multimaps) <? Z.of_nat n
  then Z.to_nat (to_size_t (max_multimaps + additional_multimaps))
  else n.

(** The assertion at the end of [align_multi_internal]: every mapping on a
    node fits in the node. *)
Definition mapping_in_node (mapping : Mapping.t) : bool :=
  if Position.node_id (Mapping.position mapping) =? 0 then true
  else
    let node_size := to_size_t (get_node_length (Position.node_id (Mapping.position mapping))) in
    to_size_t (Position.offset (Mapping.position mapping) + mapping_from_length mapping)
    <=? node_size.

Definition alignments_in_graph (alignments : list Alignment.t) : bool :=
  forallb (fun aln => forallb mapping_in_node (Alignment.path aln)) alignments.

Definition is_method_none (m : MappingQualityMethod.t) : bool :=
  match m with MappingQualityMethod.None => true | _ => false end.

(** The candidate alignments of a read that is not banded, with the value
    left in [cluster_mq]: the legacy kmer mapper when a kmer size is given
    or there is no xg index, the MEM mapper otherwise. *)
Definition candidate_alignments
           (aln : Alignment.t) (kmer_size stride max_mem_length band_width : Z)
           (cluster_mq : Q) (additional_multimaps : Z)
           (restricted_mems : option (list MaximalExactMatch.t))
  : list Alignment.t * Q :=
  let additional_multimaps_for_quality :=
    if (additional_multimaps =? 0) && (max_multimaps =? 1)
       && negb (is_method_none mapping_quality_method)
    then 1 else additional_multimaps in
  if negb (kmer_size =? 0) || negb has_xindex then
    (align_multi_kmers aln kmer_size stride band_width, cluster_mq)
  else
    match restricted_mems with
    | Some mems => align_mem_multi aln mems cluster_mq additional_multimaps_for_quality
    | None =>
        let mems := find_mems_deep (Alignment.sequence aln) max_mem_length
                                   min_mem_length mem_reseed_length in
        align_mem_multi aln mems cluster_mq additional_multimaps_for_quality
    end.

(** The call of [align_banded]: the function rounds the band width up to a
    multiple of 4 and asserts that the read is longer; [None] is the failure
    of that assertion. *)
Definition call_align_banded (aln : Alignment.t)
           (kmer_size stride max_mem_length band_width : Z) : option Alignment.t :=
  let rounded := round_up_4 band_width in
  if size (Alignment.sequence aln) <=? to_size_t rounded then None
  else Some (align_banded aln kmer_size stride max_mem_length band_width).

(** [None] is the failure of an assertion: the opening one of
    [align_banded], or the closing one of the function. *)
Definition align_multi_internal
           (compute_unpaired_quality : bool) (aln : Alignment.t)
           (kmer_size stride max_mem_length band_width : Z)
           (cluster_mq : Q) (additional_multimaps : Z)
           (restricted_mems : option (list MaximalExactMatch.t))
  : option (list Alignment.t) :=
  if to_size_t band_width <? size (Alignment.sequence aln) then
    banded ← call_align_banded aln kmer_size stride max_mem_length band_width;
    Some [banded]
  else
    let '(alignments, cluster_mq) :=
      candidate_alignments aln kmer_size stride max_mem_length band_width
                           cluster_mq additional_multimaps restricted_mems in
    let alignments := score_sort_and_deduplicate_alignments alignments aln in
    let alignments :=
      if compute_unpaired_quality then
        filter_and_process_multimaps (compute_mapping_qualities alignments cluster_mq) 0
      else filter_and_process_multimaps alignments additional_multimaps in
    if alignments_in_graph alignments then Some alignments else None.

Definition align_multi (aln : Alignment.t) (kmer_size stride max_mem_length band_width : Z)
  : option (list Alignment.t) :=
  align_multi_internal true aln kmer_size stride max_mem_length band_width
                       0%Q extra_multimaps None.
End Multi.

(** The order of the copies: by score, highest first, and within one score
    by the position in the candidate list. *)
Definition copied_before (all_alns : list Alignment.t) (i j : nat) : Prop :=
  match all_alns !! i, all_alns !! j with
  | Some a, Some b =>
      Alignment.score b < Alignment.score a
      \/ (Alignment.score a = Alignment.score b /\ (i < j)%nat)
  | _, _ => False
  end.

(** An alignment of the result comes from the candidate at index [i]: the
    mapper only sets its mapping quality and its secondary flag. *)
Definition came_from (all_alns : list Alignment.t) (a : Alignment.t) (i : nat) : Prop :=
  exists c, all_alns !! i = Some c
            /\ Alignment.score a = Alignment.score c
            /\ Alignment.path a = Alignment.path c
            /\ Alignment.sequence a = Alignment.sequence c.

(** The order that the specification claims for ties: of two alignments
    with the same score, the one with more edit operations comes first. *)
Definition ties_by_edit_count (r : list Alignment.t) : Prop :=
  forall i j a b, (i < j)%nat -> r !! i = Some a -> r !! j = Some b ->
                  Alignment.score a = Alignment.score b ->
                  edit_count b <= edit_count a.

(** The entries of [alignment_by_score]: ascending keys, and under each key
    the ascending indices of candidates with that score. *)
Definition entry_ok (all_alns : list Alignment.t) (entry : Z * list nat) : Prop :=
  snd entry <> []
  /\ StronglySorted lt (snd entry)
  /\ Forall (fun i => exists a, all_alns !! i = Some a /\ Alignment.score a = fst entry)
            (snd entry).

Definition map_ok (all_alns : list Alignment.t) (m : list (Z * list nat)) : Prop :=
  StronglySorted (fun e1 e2 => fst e1 < fst e2) m /\ Forall (entry_ok all_alns) m.

Definition copies (all_alns : list Alignment.t) (entries : list (Z * list nat)) : list nat :=
  concat (map (fun entry => copy_unique all_alns (snd entry) []) entries).

End Multi.

(** A read of ten bases with two placements of the same score: all of it on
    node 1, or split over nodes 2 and 3. *)
Definition tie_read : Alignment.t :=
  Alignment.mk "ACGTACGTAC" "" [] 0 0 0 false "read" "" "" [].
Definition tie_one_edit : Alignment.t :=
  Alignment.mk "ACGTACGTAC" ""
               [Mapping.mk (Position.mk 1 0 false) [Edit.mk 10 10 ""]]
               10 1 0 false "read" "" "" [].
Definition tie_two_edits : Alignment.t :=
  Alignment.mk "ACGTACGTAC" ""
               [Mapping.mk (Position.mk 2 0 false) [Edit.mk 5 5 ""];
                Mapping.mk (Position.mk 3 0 false) [Edit.mk 5 5 ""]]
               10 1 0 false "read" "" "" [].
Definition tie_candidates : list Alignment.t := [tie_one_edit; tie_two_edits].

Definition tie_graph : XG :=
  {| xg_cached_node_length := fun _ => 10;
     xg_cached_node_start := fun id => 10 * (id - 1);
     xg_cached_distance := fun _ _ maximum => maximum;
     position_in_paths := fun _ _ _ => [] |}.
Definition tie_engines : Engines :=
  {| align_banded := fun aln _ _ _ _ => aln;
     align_multi_kmers := fun _ _ _ _ => [];
     find_mems_deep := fun _ _ _ _ => [];
     align_mem_multi := fun _ _ cluster_mq _ => (tie_candidates, cluster_mq) |}.
Definition flat_estimator : MappingQualityEstimator :=
  {| estimated_mapping_quality := fun _ _ _ _ => 0 |}.
Definition two_multimaps : Mapper :=
  {| has_xindex := true;
     hit_max := 0;
     kmer_sensitivity_step := 5;
     max_multimaps := 2;
     min_mem_length := 0;
     extra_multimaps := 100;
     fragment_max := 100000;
     fragment_sigma := 4;
     fragment_length_cache_size := 1000;
     fragment_length_estimate_interval := 10;
     perfect_pair_identity_threshold := 98 # 100;
     mapping_quality_method := MappingQualityMethod.Approx;
     adjust_alignments_for_base_quality := false;
     mem_reseed_length := 0;
     full_length_alignment_bonus := 5 |}.

(** ** The banded split aligner: the layout of the bands ([Mapper::align_banded]) *)

Module Banded.

(** [std::string::npos] as the signed value that converts to it. *)
Definition npos : Z := -1.

(** [while (read.sequence().size()/div > band_width) ++div;] run for at most
    [fuel] steps. *)
Fixpoint grow_div (fuel : nat) (read_size band_width div : Z) : Z :=
  match fuel with
  | O => div
  | S fuel' =>
      if to_size_t band_width <? read_size / to_size_t div
      then grow_div fuel' read_size band_width (div + 1)
      else div
  end.

(** The loop stops before [div] passes the read length, so that many steps
    are enough. *)
Definition choose_div (read_size band_width : Z) : Z :=
  grow_div (Z.to_nat read_size) read_size band_width 2.

(** One turn of [for (int i = 0; i < div; ++i)]: the band at [2*i], and the
    band at [2*i+1] that straddles the next boundary. *)
Definition band_iteration (read : Alignment.t) (div segment_size i : Z)
           (st : list Alignment.t * list (Z * Z))
  : option (list Alignment.t * list (Z * Z)) :=
  let '(bands, to_strip) := st in
  let sequence := Alignment.sequence read in
  let off := to_size_t (i * segment_size) in
  '(aln, addl_seq) ←
    (if i + 1 =? div then
       let last_off := to_size_t (size sequence - segment_size) in
       if last_off <? off then
         s ← substr sequence last_off npos;
         Some (Alignment.set_sequence read s, off - last_off)
       else
         s ← substr sequence off npos;
         Some (Alignment.set_sequence read s, 0)
     else
       s ← substr sequence off segment_size;
       Some (Alignment.set_sequence read s, 0));
  let idx := Z.to_nat (2 * i) in
  let to_strip :=
    <[idx := (if i =? 0 then 0 else to_size_t (Z.quot segment_size 4 + addl_seq),
              if i + 1 =? div then 0 else Z.quot segment_size 4)]> to_strip in
  let bands := <[idx := aln]> bands in
  if negb (i =? div - 1) then
    s ← substr sequence (off + Z.quot segment_size 2) segment_size;
    let aln := Alignment.set_sequence aln s in
    let idx := Z.to_nat (2 * i + 1) in
    let to_strip :=
      <[idx := (Z.quot segment_size 4,
                to_size_t (Z.quot segment_size 4 - (segment_size - size s)))]> to_strip in
    Some (<[idx := aln]> bands, to_strip)
  else Some (bands, to_strip).

Fixpoint band_loop (read : Alignment.t) (div segment_size : Z) (turns : nat) (i : Z)
         (st : list Alignment.t * list (Z * Z))
  : option (list Alignment.t * list (Z * Z)) :=
  match turns with
  | O => Some st
  | S turns' =>
      st' ← band_iteration read div segment_size i st;
      band_loop read div segment_size turns' (i + 1) st'
  end.

Record Layout := {
  layout_div : Z;
  layout_segment_size : Z;
  layout_bands : list Alignment.t;
  layout_to_strip : list (Z * Z)
}.

(** The first part of [align_banded], up to the alignment of the bands:
    [None] is the failure of the assertion or an exception of [substr]. *)
Definition align_banded_layout (read : Alignment.t) (band_width : Z) : option Layout :=
  let band_width := round_up_4 band_width in
  let read_size := size (Alignment.sequence read) in
  if read_size <=? to_size_t band_width then None
  else
    let div := choose_div read_size band_width in
    let segment_size := round_up_4 (read_size / to_size_t div) in
    let to_align := Z.to_nat (to_size_t (div * 2 - 1)) in
    st ← band_loop read div segment_size (Z.to_nat div) 0
          (replicate to_align Alignment.default, replicate to_align (0, 0));
    Some {| layout_div := div; layout_segment_size := segment_size;
            layout_bands := fst st; layout_to_strip := snd st |}.

(** *** The layout in closed form *)

(** Where band [k] starts in the read: every band but the last starts half
    a segment after the one before it; the last band is moved left when a
    whole segment would not fit. *)
Definition band_start (read_size div segment_size : Z) (k : Z) : Z :=
  if k =? 2 * div - 2
  then Z.min ((div - 1) * segment_size) (read_size - segment_size)
  else k * (segment_size / 2).

(** The last band runs to the end of the read, the others are a segment
    long unless the read ends before. *)
Definition band_length (read_size div segment_size : Z) (k : Z) : Z :=
  if k =? 2 * div - 2
  then read_size - band_start read_size div segment_size k
  else Z.min segment_size (read_size - band_start read_size div segment_size k).

(** How much is stripped from the start and from the end of band [k]. *)
Definition band_strip (read_size div segment_size : Z) (k : Z) : Z * Z :=
  (if k =? 0 then 0
   else segment_size / 4
        + (if k =? 2 * div - 2
           then (div - 1) * segment_size - band_start read_size div segment_size k
           else 0),
   if k =? 2 * div - 2 then 0
   else segment_size / 4 - (segment_size - band_length read_size div segment_size k)).

Definition band_sequence (read : Alignment.t) (div segment_size : Z) (k : Z) : string :=
  let read_size := size (Alignment.sequence read) in
  substring (Z.to_nat (band_start read_size div segment_size k))
            (Z.to_nat (band_length read_size div segment_size k))
            (Alignment.sequence read).

(** The division that the specification words: the quotient rounded up. *)
Definition ceil_div (a b : Z) : Z := (a + b - 1) / b.

(** "[div] is the least integer such that [ceil(read_length / div) <= band_width]". *)
Definition claimed_div (read_length band_width div : Z) : Prop :=
  0 < div /\ ceil_div read_length div <= band_width
  /\ forall d, 0 < d < div -> band_width < ceil_div read_length d.

(** What the loop computes: the least integer from 2 on whose quotient,
    rounded down, fits the band width. *)
Definition least_div (read_size band_width div : Z) : Prop :=
  2 <= div /\ read_size / div <= band_width
  /\ forall d, 2 <= d < div -> band_width < read_size / d.

(** The facts about the numbers of a layout that the assertion
    [read.sequence().size() > band_width] secures. *)
Definition layout_numbers (read_size div segment_size : Z) : Prop :=
  0 <= read_size < 2 ^ 31
  /\ 2 <= div
  /\ 0 <= segment_size /\ segment_size mod 4 = 0
  /\ (div - 1) * (segment_size + 1) <= read_size
  /\ div * (segment_size - 3) <= read_size.

(** The bands and the strips below index [upto] have their final values. *)
Definition filled (read : Alignment.t) (div segment_size upto : Z)
           (st : list Alignment.t * list (Z * Z)) : Prop :=
  let read_size := size (Alignment.sequence read) in
  length (fst st) = Z.to_nat (2 * div - 1)
  /\ length (snd st) = Z.to_nat (2 * div - 1)
  /\ forall k, 0 <= k < upto -> k <= 2 * div - 2 ->
       fst st !! Z.to_nat k
       = Some (Alignment.set_sequence read (band_sequence read div segment_size k))
       /\ snd st !! Z.to_nat k = Some (band_strip read_size div segment_size k).

End Banded.

(** A read of nine bases, and one of nineteen. *)
Definition nine_bases : Alignment.t :=
  Alignment.set_sequence Alignment.default "ACGTACGTA".
Definition nineteen_bases : Alignment.t :=
  Alignment.set_sequence Alignment.default "ACGTACGTACGTACGTACG".

(** ** The fragment model ([Mapper::record_fragment_configuration]) *)

(** What the fragment model and the functions on mates ask of the protobuf
    messages and of the graph index beyond [XG]: the presence bit of the
    position of a mapping, which the records do not keep, and the layout of
    the nodes on the sequence of the graph. *)
Class Layout := {
  has_position : Mapping.t -> bool;
  node_at_seq_pos : Z -> Z;
  seq_length : Z
}.

(** The functions on doubles that the fragment model calls.  The declaration
    of [fragment_size] is in [mapper.hpp], which is not embedded: the
    conversion of [mean + sigma * stdev] to its type is a field. *)
Class FragmentStatistics := {
  stdev : list Z -> Q;
  fragment_size_of_double : Q -> Z
}.

Module FragmentModel.
Record t := mk {
  fragment_size : Z;
  fragment_lengths : list Z;
  fragment_orientations : list bool;
  fragment_directions : list bool;
  cached_fragment_length_mean : Q;
  cached_fragment_length_stdev : Q;
  cached_fragment_orientation : bool;
  cached_fragment_direction : bool;
  since_last_fragment_length_estimate : Z
}.

(** The state that the constructor of [Mapper] sets up. *)
Definition initial : t := mk 0 [] [] [] 0 0 false true 0.
End FragmentModel.

Module Fragment.
Import FragmentModel.

Section Fragment.
Context `{Mapper} `{FragmentStatistics} `{Layout}.

(** [d.push_front(x); if (d.size() > fragment_length_cache_size) d.pop_back();]
    The size is a [size_t], so the cache size is converted for the
    comparison. *)
Definition push_bounded {A} (x : A) (d : list A) : list A :=
  let d := x :: d in
  if to_size_t fragment_length_cache_size <? Z.of_nat (length d) then removelast d else d.

(** [std::accumulate(fragment_lengths.begin(), fragment_lengths.end(), 0.0)] *)
Definition accumulate_lengths (lengths : list Z) : Q :=
  fold_left (fun sum length => (sum + inject_Z length)%Q) lengths 0%Q.

(** [fragment_length_mean]; [None] for the empty buffer, where the result
    is [0.0 / 0]. *)
Definition fragment_length_mean (m : t) : option Q :=
  if Nat.eqb (length (fragment_lengths m)) 0 then None
  else Some (accumulate_lengths (fragment_lengths m)
             / inject_Z (Z.of_nat (length (fragment_lengths m))))%Q.

Definition fragment_length_stdev (m : t) : Q := stdev (fragment_lengths m).

Definition count_true (l : list bool) : Z := Z.of_nat (length (filter (fun b => b = true) l)).
Definition count_false (l : list bool) : Z := Z.of_nat (length (filter (fun b => b = false) l)).

Definition fragment_orientation (m : t) : bool :=
  count_false (fragment_orientations m) <? count_true (fragment_orientations m).

Definition fragment_direction (m : t) : bool :=
  count_false (fragment_directions m) <? count_true (fragment_directions m).

(** The chain of tests that sets [same_direction]; [None] is the
    [assert(false)] of the last branch. *)
Definition same_direction_of (aln1_is_rev : bool) (length : Z) : option bool :=
  if aln1_is_rev && (length <=? 0) then Some true
  else if negb aln1_is_rev && (0 <=? length) then Some true
  else if aln1_is_rev && (0 <=? length) then Some false
  else if negb aln1_is_rev && (length <=? 0) then Some false
  else None.

(** [None] is a failed assertion (an alignment without a first mapping, or
    whose first mapping has no position), or the mean of an empty buffer. *)
Definition record_fragment_configuration (m : t) (length : Z) (aln1 aln2 : Alignment.t)
  : option t :=
  mapping1 ← head (Alignment.path aln1);
  mapping2 ← head (Alignment.path aln2);
  if negb (has_position mapping1 && has_position mapping2) then None
  else
    let aln1_is_rev := Position.is_reverse (Mapping.position mapping1) in
    let aln2_is_rev := Position.is_reverse (Mapping.position mapping2) in
    let same_orientation := Bool.eqb aln1_is_rev aln2_is_rev in
    let orientations := push_bounded same_orientation (fragment_orientations m) in
    same_direction ← same_direction_of aln1_is_rev length;
    let directions := push_bounded same_direction (fragment_directions m) in
    let lengths := push_bounded (Z.abs length) (fragment_lengths m) in
    let m := mk (fragment_size m) lengths orientations directions
                (cached_fragment_length_mean m) (cached_fragment_length_stdev m)
                (cached_fragment_orientation m) (cached_fragment_direction m)
                (since_last_fragment_length_estimate m + 1) in
    if fragment_length_estimate_interval <? since_last_fragment_length_estimate m then
      mean ← fragment_length_mean m;
      let sd := fragment_length_stdev m in
      Some (mk (fragment_size_of_double (mean + fragment_sigma * sd)%Q)
               lengths orientations directions
               mean sd (fragment_orientation m) (fragment_direction m) 1)
    else Some m.

(** The samples of a run, one after the other. *)
Fixpoint record_all (m : t) (samples : list (Z * Alignment.t * Alignment.t)) : option t :=
  match samples with
  | [] => Some m
  | (length, aln1, aln2) :: rest =>
      m' ← record_fragment_configuration m length aln1 aln2;
      record_all m' rest
  end.

(** *** Vocabulary of the proofs *)

(** A sample triggers a recomputation when the counter, once incremented,
    exceeds the interval. *)
Definition recomputes (m : t) : bool :=
  fragment_length_estimate_interval <? since_last_fragment_length_estimate m + 1.

(** The value of the counter after [k] samples from the initial state. *)
Definition counter_after (k : Z) : Z :=
  if k <=? fragment_length_estimate_interval then k
  else (k - 1) mod fragment_length_estimate_interval + 1.

(** The number of the last sample, of the first [k], that recomputed the
    estimates: the samples [interval + 1], [2 * interval + 1] and so on do. *)
Definition last_recomputation (k : Z) : Z :=
  fragment_length_estimate_interval * ((k - 1) / fragment_length_estimate_interval) + 1.

(** A sample that can be recorded: the first mappings of the two mates
    exist and have a position. *)
Definition positioned (aln : Alignment.t) : Prop :=
  exists mapping, head (Alignment.path aln) = Some mapping /\ has_position mapping = true.

Definition recordable (sample : Z * Alignment.t * Alignment.t) : Prop :=
  positioned (snd (fst sample)) /\ positioned (snd sample).

(** A buffer after the values [pushed] went in, the oldest value first in
    [pushed]: the most recent ones, as many as the cache holds, the newest
    first. *)
Definition window {A} (pushed : list A) : list A :=
  take (Z.to_nat (to_size_t fragment_length_cache_size)) (reverse pushed).
End Fragment.

(** What a sample contributes to the three buffers: the absolute value of
    the length, whether the mates are on the same strand, and whether the
    second mate lies in the direction of the first. *)
Definition first_is_reverse (aln : Alignment.t) : bool :=
  match Alignment.path aln with
  | mapping :: _ => Position.is_reverse (Mapping.position mapping)
  | [] => false
  end.

Definition length_of (sample : Z * Alignment.t * Alignment.t) : Z :=
  Z.abs (fst (fst sample)).

Definition orientation_of (sample : Z * Alignment.t * Alignment.t) : bool :=
  Bool.eqb (first_is_reverse (snd (fst sample))) (first_is_reverse (snd sample)).

Definition direction_of (sample : Z * Alignment.t * Alignment.t) : bool :=
  if first_is_reverse (snd (fst sample))
  then fst (fst sample) <=? 0
  else 0 <=? fst (fst sample).

(** The mean of a list of lengths, and the majority of a list of flags. *)
Definition mean_of (lengths : list Z) : Q :=
  (inject_Z (foldr Z.add 0%Z lengths) / inject_Z (Z.of_nat (length lengths)))%Q.

Definition majority (flags : list bool) : bool :=
  (count_occ Bool.bool_dec flags false <? count_occ Bool.bool_dec flags true)%nat.

(** The estimates of a model are those of the samples [seen]: mean and
    standard deviation of the buffered lengths, the majorities of the
    buffered orientations and directions, and the fragment size. *)
Record estimated `{Mapper} `{FragmentStatistics}
       (seen : list (Z * Alignment.t * Alignment.t)) (m : t) : Prop := {
  estimated_mean :
    (cached_fragment_length_mean m == mean_of (window (length_of <$> seen)))%Q;
  estimated_stdev :
    cached_fragment_length_stdev m = stdev (window (length_of <$> seen));
  estimated_orientation :
    cached_fragment_orientation m = majority (window (orientation_of <$> seen));
  estimated_direction :
    cached_fragment_direction m = majority (window (direction_of <$> seen));
  estimated_size :
    fragment_size m
    = fragment_size_of_double
        (cached_fragment_length_mean m
         + fragment_sigma * cached_fragment_length_stdev m)%Q
}.

(** No sample has recomputed the estimates: they are those of the initial
    model. *)
Definition unestimated (m : t) : Prop :=
  fragment_size m = 0
  /\ cached_fragment_length_mean m = cached_fragment_length_mean initial
  /\ cached_fragment_length_stdev m = cached_fragment_length_stdev initial
  /\ cached_fragment_orientation m = cached_fragment_orientation initial
  /\ cached_fragment_direction m = cached_fragment_direction initial.

(** The model that the samples [seen] lead to from the initial one. *)
Record after `{Mapper} `{FragmentStatistics}
       (seen : list (Z * Alignment.t * Alignment.t)) (m : t) : Prop := {
  after_lengths : fragment_lengths m = window (length_of <$> seen);
  after_orientations : fragment_orientations m = window (orientation_of <$> seen);
  after_directions : fragment_directions m = window (direction_of <$> seen);
  after_counter :
    since_last_fragment_length_estimate m = counter_after (Z.of_nat (length seen));
  after_early :
    Z.of_nat (length seen) <= fragment_length_estimate_interval -> unestimated m;
  after_late :
    fragment_length_estimate_interval < Z.of_nat (length seen) ->
    estimated (take (Z.to_nat (last_recomputation (Z.of_nat (length seen)))) seen) m
}.

Definition mapped (a : Alignment.t) : Prop := Alignment.path a <> [].

End Fragment.

(** Twelve pairs of mates on the forward strand, with their fragment
    lengths. *)
Definition twelve_lengths : list Z :=
  [300; 310; 290; 305; 295; 300; 310; 290; 305; 295; 300; 400].

(** Statistics for the examples: the standard deviation rounded down to an
    integer, and the conversion of a double to an [int]. *)
Definition floor_statistics : FragmentStatistics :=
  {| stdev := fun l =>
       let n := Z.of_nat (length l) in
       let total := fold_right Z.add 0 l in
       inject_Z (Z.sqrt (fold_right (fun x acc => (n * x - total) ^ 2 + acc) 0 l / (n * n * n)));
     fragment_size_of_double := fun q => Z.quot (Qnum q) (Z.pos (Qden q)) |}.

(** A pair of mates on the forward strand of node 1. *)
Definition forward_mate : Alignment.t :=
  Alignment.mk "ACGT" "" [Mapping.mk (Position.mk 1 0 false) [Edit.mk 4 4 ""]]
               4 1 60 false "mate" "" "" [].

(** ** The chain model: transition weights *)

(** The weight of a transition: a double, or the sentinel
    [-std::numeric_limits<double>::max()] that forbids the transition. *)
Inductive Weight := Lowest | Finite (w : Q).


Module Transition.

Definition mems_overlap (mem1 mem2 : MaximalExactMatch.t) : bool :=
  (MaximalExactMatch.fragment mem1 =? MaximalExactMatch.fragment mem2)
  && negb ((MaximalExactMatch.end' mem1 <=? MaximalExactMatch.begin mem2)
           || (MaximalExactMatch.end' mem2 <=? MaximalExactMatch.begin mem1)).

Definition mems_overlap_length (mem1 mem2 : MaximalExactMatch.t) : Z :=
  if negb (mems_overlap mem1 mem2) then 0
  else if MaximalExactMatch.begin mem1 <? MaximalExactMatch.begin mem2 then
    if MaximalExactMatch.end' mem1 <? MaximalExactMatch.end' mem2
    then MaximalExactMatch.end' mem2 - MaximalExactMatch.begin mem1
    else MaximalExactMatch.end' mem1 - MaximalExactMatch.begin mem1
  else
    if MaximalExactMatch.end' mem2 <? MaximalExactMatch.end' mem1
    then MaximalExactMatch.end' mem1 - MaximalExactMatch.begin mem2
    else MaximalExactMatch.end' mem2 - MaximalExactMatch.begin mem2.

Section Transition.
Context `{Aligner} `{QualAdjAligner} `{XG} `{Mapper}.

(** The scores that [mems_pos_clusters_to_alignments] reads from the aligner
    in use: [match], [gap_extension], [gap_open]. *)
Definition chain_scores (aln : Alignment.t) : Z * Z * Z :=
  if empty (Alignment.quality aln) || negb adjust_alignments_for_base_quality
  then (match', gap_extension, gap_open)
  else (qual_adj_match, qual_adj_gap_extension, qual_adj_gap_open).

(** The lambda [transition_weight] of [mems_pos_clusters_to_alignments];
    [None] is [nodes.front()] on a MEM without a position. *)
Definition transition_weight (aln : Alignment.t) (m1 m2 : MaximalExactMatch.t)
  : option Weight :=
  let '(match_, gap_extension_, gap_open_) := chain_scores aln in
  let unique_coverage :=
    MaximalExactMatch.length m1 + MaximalExactMatch.length m2 - mems_overlap_length m1 m2 in
  m1_pos ← head (MaximalExactMatch.nodes m1);
  m2_pos ← head (MaximalExactMatch.nodes m2);
  let uniqueness :=
    (2 / inject_Z (MaximalExactMatch.match_count m1 + MaximalExactMatch.match_count m2))%Q in
  let max_length := size (Alignment.sequence aln) in
  let approx_dist := Z.abs (approx_distance m1_pos m2_pos) in
  if max_length <? approx_dist then Some Lowest
  else
    let distance := approx_dist in
    if distance =? max_length then Some Lowest
    else if negb (Bool.eqb (Position.is_reverse m1_pos) (Position.is_reverse m2_pos))
    then Some Lowest
    else
      let jump :=
        Z.abs ((MaximalExactMatch.begin m2 - MaximalExactMatch.begin m1) - distance) in
      if negb (jump =? 0) then
        Some (Finite (inject_Z unique_coverage * inject_Z match_ * uniqueness
                      - (inject_Z gap_open_ + inject_Z jump * inject_Z gap_extension_))%Q)
      else
        Some (Finite (inject_Z unique_coverage * inject_Z match_ * uniqueness)%Q).

(** *** The weight that the specification words *)

Definition gap (m1 m2 : MaximalExactMatch.t) (distance : Z) : Z :=
  Z.abs ((MaximalExactMatch.begin m2 - MaximalExactMatch.begin m1) - distance).

Definition unique_coverage (m1 m2 : MaximalExactMatch.t) : Z :=
  MaximalExactMatch.length m1 + MaximalExactMatch.length m2 - mems_overlap_length m1 m2.

Definition uniqueness (m1 m2 : MaximalExactMatch.t) : Q :=
  (2 / inject_Z (MaximalExactMatch.match_count m1 + MaximalExactMatch.match_count m2))%Q.



End Transition.
End Transition.

(** Two seeds of five bases of a read of ten bases, on the nodes 1 and 2 of
    a chain of nodes of ten bases: their positions are ten bases apart. *)
Definition seed_left : MaximalExactMatch.t :=
  MaximalExactMatch.mk 0 5 (0, 0) 1 1 [Position.mk 1 0 false].
Definition seed_right : MaximalExactMatch.t :=
  MaximalExactMatch.mk 5 10 (1, 1) 1 1 [Position.mk 2 0 false].

(** ** The seed finder: counts and positions of the MEMs ([Mapper::find_mems_deep]) *)

(** The suffix index: [count(range)], the number of hits of a range, and
    [locate(range, results)], the graph positions of the hits. *)
Class GCSA := {
  count : Z * Z -> Z;
  locate : Z * Z -> list Position.t
}.

Module Seeds.

Definition set_match_count (mem : MaximalExactMatch.t) (c : Z) : MaximalExactMatch.t :=
  MaximalExactMatch.mk (MaximalExactMatch.begin mem) (MaximalExactMatch.end' mem)
                       (MaximalExactMatch.range mem) c
                       (MaximalExactMatch.fragment mem) (MaximalExactMatch.nodes mem).

Definition set_nodes (mem : MaximalExactMatch.t) (nodes : list Position.t)
  : MaximalExactMatch.t :=
  MaximalExactMatch.mk (MaximalExactMatch.begin mem) (MaximalExactMatch.end' mem)
                       (MaximalExactMatch.range mem) (MaximalExactMatch.match_count mem)
                       (MaximalExactMatch.fragment mem) nodes.

(** The order of the final sort: by [begin], then by [end]. *)
Definition mem_le (m1 m2 : MaximalExactMatch.t) : Prop :=
  MaximalExactMatch.begin m1 < MaximalExactMatch.begin m2
  \/ (MaximalExactMatch.begin m1 = MaximalExactMatch.begin m2
      /\ MaximalExactMatch.end' m1 <= MaximalExactMatch.end' m2).

#[global] Instance mem_le_dec m1 m2 : Decision (mem_le m1 m2).
Proof. unfold mem_le. apply _. Defined.

Section Seeds.
Context `{GCSA} `{Mapper}.

(** [mem.match_count > 0 && (!hit_max || mem.match_count <= hit_max)]; the
    count is a [size_t]. *)
Definition wanted (match_count : Z) : bool :=
  (0 <? match_count) && ((hit_max =? 0) || (match_count <=? to_size_t hit_max)).

(** [gcsa->locate(mem.range, mem.nodes)] under the test on the count. *)
Definition fill_nodes (mem : MaximalExactMatch.t) : MaximalExactMatch.t :=
  if wanted (MaximalExactMatch.match_count mem)
  then set_nodes mem (locate (MaximalExactMatch.range mem))
  else mem.

(** "fill the MEMs' node lists": the count of the range, then the positions. *)
Definition fill_mem (mem : MaximalExactMatch.t) : MaximalExactMatch.t :=
  fill_nodes (set_match_count mem (count (MaximalExactMatch.range mem))).

(** "determine counts of matches": the count of the whole range, less the
    counts of the parents ([size_t] arithmetic). *)
Definition count_sub_mem (mems : list MaximalExactMatch.t)
           (sub_mem_and_parents : MaximalExactMatch.t * list nat) : MaximalExactMatch.t :=
  fold_left
    (fun sub parent_idx =>
       set_match_count sub
         (to_size_t (MaximalExactMatch.match_count sub
                     - default 0 (MaximalExactMatch.match_count <$> mems !! parent_idx))))
    (snd sub_mem_and_parents)
    (set_match_count (fst sub_mem_and_parents)
                     (count (MaximalExactMatch.range (fst sub_mem_and_parents)))).

(** The end of [find_mems_deep], from "fill the MEMs' node lists" on: the
    MEMs and the sub-MEMs that the search has emitted get their counts and
    positions and are returned in order along the read. *)
Definition finish_mems (mems : list MaximalExactMatch.t)
           (sub_mems : list (MaximalExactMatch.t * list nat)) (reseed_length : Z)
  : list MaximalExactMatch.t :=
  let mems := map fill_mem mems in
  let mems :=
    if negb (reseed_length =? 0)
    then mems ++ map (fun s => fill_nodes (count_sub_mem mems s)) sub_mems
    else mems in
  merge_sort mem_le mems.

Definition count_covers_positions (mem : MaximalExactMatch.t) : Prop :=
  Z.of_nat (length (MaximalExactMatch.nodes mem)) <= MaximalExactMatch.match_count mem.

(** The count that a sub-MEM ends with: the count of its range less the
    counts of its parents, one after the other in [size_t] arithmetic. *)
Definition sub_mem_count (mems : list MaximalExactMatch.t)
           (sub_mem_and_parents : MaximalExactMatch.t * list nat) : Z :=
  fold_left
    (fun c parent_idx =>
       to_size_t (c - default 0 (MaximalExactMatch.match_count <$> mems !! parent_idx)))
    (snd sub_mem_and_parents)
    (count (MaximalExactMatch.range (fst sub_mem_and_parents))).

(** The positions that the rule gives to a MEM of a range and a count. *)
Definition located (range : Z * Z) (match_count : Z) : list Position.t :=
  if wanted match_count then locate range else [].

(** What the suffix index promises: a count is a [size_t], the positions of
    a range are distinct and not more than its count. *)
Definition index_contract : Prop :=
  forall range, 0 <= count range < 2 ^ 64
                /\ NoDup (locate range)
                /\ Z.of_nat (length (locate range)) <= count range.
End Seeds.

(** A MEM or sub-MEM as the search emits it: no position yet. *)
Definition fresh (mem : MaximalExactMatch.t) : Prop := MaximalExactMatch.nodes mem = [].

End Seeds.

(** An index in which the read occurs once, on node 1, and its middle part
    three times: inside that occurrence and on the nodes 2 and 3. *)
Definition small_index : GCSA :=
  {| count := fun range => if fst range =? 10 then 1 else 3;
     locate := fun range =>
       if fst range =? 10 then [Position.mk 1 0 false]
       else [Position.mk 1 5 false; Position.mk 2 0 false; Position.mk 3 0 false] |}.
Definition whole_read_mem : MaximalExactMatch.t :=
  MaximalExactMatch.mk 0 20 (10, 10) 0 0 [].
Definition middle_sub_mem : MaximalExactMatch.t * list nat :=
  (MaximalExactMatch.mk 5 15 (0, 2) 0 0 [], [0%nat]).

(** ** Pairing the alignments of two mates ([Mapper::align_paired_multi_sep]) *)

(** [std::map<K, V>] as a list of entries in ascending order of the keys;
    [m[k] = f(m[k])], where a missing entry is default-constructed. *)
Fixpoint map_update {K V} (ltb eqb : K -> K -> bool) (k : K) (f : option V -> V)
         (m : list (K * V)) : list (K * V) :=
  match m with
  | [] => [(k, f None)]
  | (k', v) :: rest =>
      if ltb k k' then (k, f None) :: m
      else if eqb k k' then (k', f (Some v)) :: rest
      else (k', v) :: map_update ltb eqb k f rest
  end.

Fixpoint map_find {K V} (eqb : K -> K -> bool) (k : K) (m : list (K * V)) : option V :=
  match m with
  | [] => None
  | (k', v) :: rest => if eqb k k' then Some v else map_find eqb k rest
  end.

(** The conversion of a double to an [int]: towards zero. *)
Definition double_to_int (q : Q) : Z := Z.quot (Qnum q) (Z.pos (Qden q)).

Module Positions.
Section Positions.
Context `{XG}.

(** [set<id_t> ids]: the nodes that the alignment visits, ascending. *)
Fixpoint ids_insert (id : Z) (ids : list Z) : list Z :=
  match ids with
  | [] => [id]
  | id' :: rest =>
      if id <? id' then id :: ids
      else if id =? id' then ids
      else id' :: ids_insert id rest
  end.

Definition visited_ids (aln : Alignment.t) : list Z :=
  fold_left (fun ids mapping => ids_insert (Position.node_id (Mapping.position mapping)) ids)
            (Alignment.path aln) [].

(** [node_positions[name][pos].push_back(id)] *)
Definition add_node_position (name : string) (pos id : Z)
           (node_positions : list (string * list (Z * list Z)))
  : list (string * list (Z * list Z)) :=
  map_update String.ltb String.eqb name
             (fun by_pos => map_update Z.ltb Z.eqb pos
                                       (fun ids => default [] ids ++ [id])
                                       (default [] by_pos))
             node_positions.

(** The positions of one node on the paths that visit it. *)
Definition add_node (id : Z) (node_positions : list (string * list (Z * list Z)))
  : list (string * list (Z * list Z)) :=
  fold_left (fun np ref =>
               fold_left (fun np pos => add_node_position (fst ref) pos id np) (snd ref) np)
            (position_in_paths id false 0) node_positions.

(** [for (auto id : ids) { ...; if (first_hit_only && node_positions.size()) break; }] *)
Fixpoint collect_node_positions (first_hit_only : bool) (ids : list Z)
         (node_positions : list (string * list (Z * list Z)))
  : list (string * list (Z * list Z)) :=
  match ids with
  | [] => node_positions
  | id :: rest =>
      let node_positions := add_node id node_positions in
      if first_hit_only && negb (Nat.eqb (length node_positions) 0)
      then node_positions
      else collect_node_positions first_hit_only rest node_positions
  end.

(** The midpoint of a visit of node [n] at offset [p] of a path. *)
Definition midpoint (p n : Z) : Z := p + Z.quot (get_node_length n) 2.

(** The running count and sum after the visits of one path. *)
Definition accumulate_path (ids : list Z) (by_pos : list (Z * list Z)) (acc : Z * Q) : Z * Q :=
  fold_left (fun acc p =>
               fold_left (fun acc n =>
                            if existsb (Z.eqb n) ids
                            then (fst acc + 1, (snd acc + inject_Z (midpoint (fst p) n))%Q)
                            else acc)
                         (snd p) acc)
            by_pos acc.

(** The second loop: [idscount] and [idssum] are declared before it and run
    on from one path to the next. *)
Fixpoint mean_positions (ids : list Z) (node_positions : list (string * list (Z * list Z)))
         (acc : Z * Q) : list (string * Q) :=
  match node_positions with
  | [] => []
  | ref :: rest =>
      let acc := accumulate_path ids (snd ref) acc in
      (fst ref, (snd acc / inject_Z (fst acc))%Q) :: mean_positions ids rest acc
  end.

Definition alignment_mean_path_positions (aln : Alignment.t) (first_hit_only : bool)
  : list (string * Q) :=
  let ids := visited_ids aln in
  mean_positions ids (collect_node_positions first_hit_only ids []) (0, 0%Q).
End Positions.

(** [abs(mean1 - mean2) < fragment_size_bound] *)
Definition within_bound (mean1 mean2 : Q) (fragment_size_bound : Z) : bool :=
  negb (Qle_bool (inject_Z fragment_size_bound) (Qabs (mean1 - mean2))).

Definition alignments_consistent (pos1 pos2 : list (string * Q)) (fragment_size_bound : Z)
  : bool :=
  existsb (fun p => match map_find String.eqb (fst p) pos2 with
                    | Some mean2 => within_bound (snd p) mean2 fragment_size_bound
                    | None => false
                    end)
          pos1.

(** *** The position of the claim: the median *)

(** The midpoints of the visits of the nodes of an alignment on one path,
    ascending. *)
Definition path_midpoints `{XG} (aln : Alignment.t) (name : string) : list Z :=
  merge_sort Z.le
    (concat (map (fun id =>
                    concat (map (fun ref => if String.eqb (fst ref) name
                                            then map (fun p => midpoint p id) (snd ref)
                                            else [])
                                (position_in_paths id false 0)))
                 (visited_ids aln))).

(** The median of a list in ascending order (the mean of the two middle
    elements when there is no middle one). *)
Definition median (l : list Z) : option Q :=
  let n := length l in
  if Nat.eqb n 0 then None
  else if Nat.odd n then inject_Z <$> l !! (n / 2)%nat
  else a ← l !! (n / 2 - 1)%nat; b ← l !! (n / 2)%nat; Some ((inject_Z a + inject_Z b) / 2)%Q.

(** "the two alignments' median positions on some common reference path
    differ by less than [fragment_size]" *)
(** The reference paths that visit a node of the alignment. *)
Definition paths_of `{XG} (aln : Alignment.t) : list string :=
  concat (map (fun id => map fst (position_in_paths id false 0)) (visited_ids aln)).

Definition medians_within `{XG} (aln1 aln2 : Alignment.t) (fragment_size : Z) : bool :=
  existsb (fun name =>
             match median (path_midpoints aln1 name), median (path_midpoints aln2 name) with
             | Some m1, Some m2 => within_bound m1 m2 fragment_size
             | _, _ => false
             end)
          (paths_of aln1).
End Positions.

(** *** The walk over the grid of candidate pairs *)

Module Grid.
Import Positions.

(** The state of the loop: the priority queue, the set of pairs that have
    been pushed as neighbours, and two records of the run: the pairs in the
    order in which they were popped, and those that were accepted. *)
Record State := mk {
  pair_queue : list (nat * nat);
  considered_pairs : list (nat * nat);
  popped : list (nat * nat);
  accepted : list (nat * nat)
}.

Definition pair_eqb (p q : nat * nat) : bool :=
  Nat.eqb (fst p) (fst q) && Nat.eqb (snd p) (snd q).

Section Grid.
Variable alignments1 alignments2 : list Alignment.t.
(** [aln_pos]: the positions of each candidate on the reference paths. *)
Variable positions1 positions2 : nat -> list (string * Q).
Variable fragment_size : Z.
Variable num_pairs : Z.

Definition score_at (alns : list Alignment.t) (i : nat) : Z :=
  default 0 (Alignment.score <$> alns !! i).

(** The key of [ComparePairedAlignmentScores]. *)
Definition pair_score (p : nat * nat) : Z :=
  score_at alignments1 (fst p) + score_at alignments2 (snd p).

(** [top()] and [pop()]: a pair of greatest score leaves the queue.  Which
    of several pairs of the same score comes first is left to the heap; the
    embedding takes the one that entered first, and the proofs use only that
    the pair is one of greatest score. *)
Fixpoint extract_max (q : list (nat * nat)) : option ((nat * nat) * list (nat * nat)) :=
  match q with
  | [] => None
  | p :: rest =>
      match extract_max rest with
      | None => Some (p, [])
      | Some (m, rest') =>
          if pair_score p <? pair_score m then Some (m, p :: rest') else Some (p, rest)
      end
  end.

(** "add in the two adjacent indices if we haven't already" *)
Definition push_neighbor (in_grid : bool) (next : nat * nat)
           (st : list (nat * nat) * list (nat * nat)) : list (nat * nat) * list (nat * nat) :=
  if in_grid && negb (existsb (pair_eqb next) (snd st))
  then (fst st ++ [next], next :: snd st)
  else st.

(** One turn of the loop, given the pair that left the queue. *)
Definition visit (aln_pair : nat * nat) (rest : list (nat * nat)) (st : State) : State :=
  let consistent :=
    alignments_consistent (positions1 (fst aln_pair)) (positions2 (snd aln_pair))
                          fragment_size in
  let next_aln_pair_down := (S (fst aln_pair), snd aln_pair) in
  let next_aln_pair_right := (fst aln_pair, S (snd aln_pair)) in
  let qc := push_neighbor (S (fst aln_pair) <? length alignments1)%nat next_aln_pair_down
                          (rest, considered_pairs st) in
  let qc := push_neighbor (S (snd aln_pair) <? length alignments2)%nat next_aln_pair_right qc in
  mk (fst qc) (snd qc) (popped st ++ [aln_pair])
     (if consistent then accepted st ++ [aln_pair] else accepted st).

(** [while (!pair_queue.empty() && consistent_pairs.first.size() < num_pairs)];
    [None] when the turns run out. *)
Fixpoint pair_loop (turns : nat) (st : State) : option State :=
  if (Z.of_nat (length (accepted st)) <? num_pairs)
  then
    match extract_max (pair_queue st) with
    | None => Some st
    | Some (aln_pair, rest) =>
        match turns with
        | O => None
        | S turns' => pair_loop turns' (visit aln_pair rest st)
        end
    end
  else Some st.

(** The loop from [pair_queue.push(make_pair(0, 0))]; a pair of the grid is
    visited at most once, so as many turns as the grid has pairs are enough. *)
Definition walk_grid : option State :=
  pair_loop (length alignments1 * length alignments2) (mk [(0, 0)%nat] [] [] []).

(** *** Vocabulary of the proofs *)

Definition in_grid (p : nat * nat) : Prop :=
  (fst p < length alignments1)%nat /\ (snd p < length alignments2)%nat.

(** A pair is at least as early in both lists as another one. *)
Definition dominates (p q : nat * nat) : Prop :=
  (fst p <= fst q)%nat /\ (snd p <= snd q)%nat.

Definition sorted_by_score (alns : list Alignment.t) : Prop :=
  forall i j, (i <= j)%nat -> (j < length alns)%nat -> score_at alns j <= score_at alns i.

(** The invariant of the walk. *)
Record invariant (st : State) : Prop := {
  inv_in_grid : Forall in_grid (pair_queue st ++ popped st);
  inv_distinct : NoDup (pair_queue st ++ popped st);
  inv_considered :
    forall p, p ∈ considered_pairs st <->
              (p ∈ pair_queue st ++ popped st /\ p <> (0, 0)%nat);
  inv_origin : (0, 0)%nat ∈ pair_queue st ++ popped st;
  inv_closed :
    forall p, p ∈ popped st ->
              (in_grid (S (fst p), snd p) -> (S (fst p), snd p) ∈ pair_queue st ++ popped st)
              /\ (in_grid (fst p, S (snd p)) -> (fst p, S (snd p)) ∈ pair_queue st ++ popped st);
  inv_order :
    forall p q, p ∈ popped st -> in_grid q -> q ∉ popped st -> pair_score q <= pair_score p;
  inv_popped_sorted : StronglySorted (fun p q => pair_score q <= pair_score p) (popped st);
  inv_reached :
    forall p, p ∈ pair_queue st ++ popped st -> p <> (0, 0)%nat ->
              exists q, q ∈ popped st /\ (p = (S (fst q), snd q) \/ p = (fst q, S (snd q)));
  inv_seed :
    match popped st with
    | [] => pair_queue st = [(0, 0)%nat]
    | p :: _ => p = (0, 0)%nat
    end;
  inv_expanded :
    forall l1 p l2, popped st = l1 ++ p :: l2 -> p <> (0, 0)%nat ->
                    exists q, q ∈ l1 /\ (p = (S (fst q), snd q) \/ p = (fst q, S (snd q)));
  inv_accepted :
    accepted st
    = filter (fun p => alignments_consistent (positions1 (fst p)) (positions2 (snd p))
                                             fragment_size = true)
             (popped st)
}.
End Grid.

(** [aln_pos]: the positions of the candidates of one mate, by index. *)
Definition candidate_positions `{XG} (first_hit_only : bool) (alns : list Alignment.t)
           (i : nat) : list (string * Q) :=
  Positions.alignment_mean_path_positions (default Alignment.default (alns !! i))
                                          first_hit_only.

(** [int num_pairs = max_multimaps >= 2 ? max_multimaps : 2] *)
Definition num_pairs `{Mapper} : Z :=
  if 2 <=? max_multimaps then max_multimaps else 2.

(** The branch [if (fragment_size)] of [align_paired_multi_sep] up to the end
    of its loop. *)
Definition consistent_pairs `{XG} `{Mapper} (first_hit_only : bool)
           (alignments1 alignments2 : list Alignment.t) (fragment_size : Z) : option State :=
  walk_grid alignments1 alignments2
            (candidate_positions first_hit_only alignments1)
            (candidate_positions first_hit_only alignments2)
            fragment_size num_pairs.

(** The pair of candidates at a pair of indices is consistent. *)
Definition consistent_at `{XG} (first_hit_only : bool)
           (alignments1 alignments2 : list Alignment.t) (fragment_size : Z)
           (p : nat * nat) : bool :=
  alignments_consistent (candidate_positions first_hit_only alignments1 (fst p))
                        (candidate_positions first_hit_only alignments2 (snd p))
                        fragment_size.
End Grid.

(** A reference path ["ref"] over the nodes 2, 3 and 1, in this order, of
    2, 2 and 52 bases. *)
Definition three_node_path : XG :=
  {| xg_cached_node_length := fun id => if id =? 1 then 52 else 2;
     xg_cached_node_start := fun id => if id =? 1 then 4 else if id =? 2 then 0 else 2;
     xg_cached_distance := fun _ _ maximum => maximum;
     position_in_paths := fun id _ _ =>
       if id =? 1 then [("ref"%string, [4])]
       else if id =? 2 then [("ref"%string, [0])]
       else if id =? 3 then [("ref"%string, [2])]
       else [] |}.

(** A read over the three nodes, and its mate inside the long node. *)
Definition spanning_read : Alignment.t :=
  Alignment.mk "ACGTAC" ""
               [Mapping.mk (Position.mk 2 0 false) [Edit.mk 2 2 ""];
                Mapping.mk (Position.mk 3 0 false) [Edit.mk 2 2 ""];
                Mapping.mk (Position.mk 1 0 false) [Edit.mk 2 2 ""]]
               6 1 0 false "read/1" "" "" [].

Definition mate_read : Alignment.t :=
  Alignment.mk "ACGT" "" [Mapping.mk (Position.mk 1 40 false) [Edit.mk 4 4 ""]]
               4 1 0 false "read/2" "" "" [].

(** Two reference paths: ["a"] visits node 1 at offset 0 and ["b"] visits
    node 2 at offset 100; both nodes have 2 bases. *)
Definition two_paths : XG :=
  {| xg_cached_node_length := fun _ => 2;
     xg_cached_node_start := fun id => if id =? 1 then 0 else 100;
     xg_cached_distance := fun _ _ maximum => maximum;
     position_in_paths := fun id _ _ =>
       if id =? 1 then [("a"%string, [0])]
       else if id =? 2 then [("b"%string, [100])]
       else [] |}.

(** A read over the two nodes, and its mate on node 2. *)
Definition crossing_read : Alignment.t :=
  Alignment.mk "ACGT" ""
               [Mapping.mk (Position.mk 1 0 false) [Edit.mk 2 2 ""];
                Mapping.mk (Position.mk 2 0 false) [Edit.mk 2 2 ""]]
               4 1 0 false "read/1" "" "" [].

Definition second_path_mate : Alignment.t :=
  Alignment.mk "AC" "" [Mapping.mk (Position.mk 2 0 false) [Edit.mk 2 2 ""]]
               2 1 0 false "read/2" "" "" [].

(** Candidates of a second rank for the two mates of the example: the same
    placements with lower scores. *)
Definition second_candidate1 : Alignment.t := Alignment.set_score mate_read 3.
Definition second_candidate2 : Alignment.t := Alignment.set_score spanning_read 2.

(** ** Pairs of reads: [align_paired_multi_sep] *)

(** What [align_paired_multi_sep] gets from the rest of the mapper. *)
Class PairedEngines := {
  (** The candidates of the two mates for [max_mem_length] and the current
      fragment model, at the point where the lists have been sorted by score:
      [find_mems_deep], [resolve_paired_mems], [align_multi_internal] and the
      rescue of a mate are not embedded.  The third component is
      [cluster_mq1 + cluster_mq2]. *)
  paired_candidates :
    Alignment.t -> Alignment.t -> Z -> FragmentModel.t
    -> list Alignment.t * list Alignment.t * Q;
  (** Modelled from the spec: [BaseAligner::compute_paired_mapping_quality]
      is not in the embedded sources.  It derives a mapping quality for the
      alignments of the two lists; the field gives the quality of the
      alignment at an index of the first ([true]) or of the second list. *)
  estimated_paired_mapping_quality :
    list Alignment.t * list Alignment.t -> bool -> Q -> bool -> nat -> Z;
  (** [gcsa->order()] *)
  gcsa_order : Z
}.

(** The default arguments that [mapper.hpp] declares; the header is not
    embedded. *)
Class DefaultArguments := {
  default_first_hit_only : bool;
  default_only_top_scoring_pair : bool;
  default_retrying : bool
}.

Module Paired.
Import FragmentModel.

(** The members of the mapper that a call may change. *)
Record State := mk_state {
  model : FragmentModel.t;
  imperfect_pairs_to_retry : list (Alignment.t * Alignment.t)
}.

(** The returned pair, the reference [queued_resolve_later] and the mapper
    after the call. *)
Record Outcome := mk_outcome {
  results : list Alignment.t * list Alignment.t;
  queued_resolve_later : bool;
  state : State
}.

(** [vector::resize(n)] *)
Definition vector_resize (l : list Alignment.t) (n : Z) : list Alignment.t :=
  let n := Z.to_nat (to_size_t n) in
  take n l ++ replicate (n - length l) Alignment.default.

Definition front (l : list Alignment.t) : Alignment.t := default Alignment.default (head l).

Section Paired.
Context `{XG} `{Mapper} `{FragmentStatistics} `{Layout} `{PairedEngines} `{DefaultArguments}.

(** [compute_mapping_qualities(pair<vector<Alignment>, vector<Alignment>>&, double)] *)
Definition compute_mapping_qualities (pair_alns : list Alignment.t * list Alignment.t)
           (cluster_mq : Q) : list Alignment.t * list Alignment.t :=
  if (Nat.eqb (length (fst pair_alns)) 0 || Nat.eqb (length (snd pair_alns)) 0)%bool
  then pair_alns
  else
    let estimate fast :=
      (imap (fun i a => Alignment.set_mapping_quality a
                          (estimated_paired_mapping_quality pair_alns fast cluster_mq true i))
            (fst pair_alns),
       imap (fun i a => Alignment.set_mapping_quality a
                          (estimated_paired_mapping_quality pair_alns fast cluster_mq false i))
            (snd pair_alns)) in
    match mapping_quality_method with
    | MappingQualityMethod.Approx => estimate true
    | MappingQualityMethod.Exact => estimate false
    | MappingQualityMethod.None => pair_alns
    end.

(** The loop "mark primary and secondary" of the branch with a fragment size:
    one index runs over both vectors; [None] if the second one is shorter. *)
Fixpoint mark_pairs (read1 read2 : Alignment.t) (i : nat)
         (first second : list Alignment.t) : option (list Alignment.t * list Alignment.t) :=
  match first, second with
  | [], _ => Some ([], second)
  | _ :: _, [] => None
  | aln1 :: first', aln2 :: second' =>
      rest ← mark_pairs read1 read2 (S i) first' second';
      Some (Alignment.set_is_secondary
              (Alignment.set_fragment_next aln1 (Alignment.name read2)) (0 <? i)%nat
              :: fst rest,
            Alignment.set_is_secondary
              (Alignment.set_fragment_prev aln2 (Alignment.name read1)) (0 <? i)%nat
              :: snd rest)
  end.

(** The accepted pairs of the walk over the grid, as two vectors. *)
Definition pairs_of (alignments1 alignments2 : list Alignment.t) (accepted : list (nat * nat))
  : list Alignment.t * list Alignment.t :=
  (map (fun p => default Alignment.default (alignments1 !! fst p)) accepted,
   map (fun p => default Alignment.default (alignments2 !! snd p)) accepted).

(** The branch [if (fragment_size)]; [None] when a mate has no candidate
    ([alignments1[0]] does not exist). *)
Definition consistent_results (read1 read2 : Alignment.t)
           (alignments1 alignments2 : list Alignment.t) (cluster_mq : Q)
           (only_top_scoring_pair : bool) (fragment_size : Z)
  : option (list Alignment.t * list Alignment.t) :=
  if (Nat.eqb (length alignments1) 0 || Nat.eqb (length alignments2) 0)%bool then None
  else
    st ← Grid.consistent_pairs default_first_hit_only alignments1 alignments2 fragment_size;
    let consistent_pairs := pairs_of alignments1 alignments2 (Grid.accepted st) in
    let consistent_pairs := compute_mapping_qualities consistent_pairs cluster_mq in
    let consistent_pairs :=
      if to_size_t max_multimaps <? Z.of_nat (length (fst consistent_pairs))
      then (vector_resize (fst consistent_pairs) max_multimaps,
            vector_resize (snd consistent_pairs) max_multimaps)
      else consistent_pairs in
    consistent_pairs ← mark_pairs read1 read2 0 (fst consistent_pairs) (snd consistent_pairs);
    if only_top_scoring_pair
       && negb (Nat.eqb (length (fst consistent_pairs)) 0)
       && ((Alignment.score (front (fst consistent_pairs)) <? Alignment.score (front alignments1))
           || (Alignment.score (front (snd consistent_pairs))
               <? Alignment.score (front alignments2)))
    then Some ([], [])
    else if Nat.eqb (length (fst consistent_pairs)) 0 then Some ([], [])
         else Some consistent_pairs.

Definition truncate (alns : list Alignment.t) : list Alignment.t :=
  if to_size_t max_multimaps <? Z.of_nat (length alns)
  then vector_resize alns max_multimaps
  else alns.

(** The branch without a fragment size: the candidates of each mate on
    their own. *)
Definition independent_results (read1 read2 : Alignment.t)
           (alignments1 alignments2 : list Alignment.t) (cluster_mq : Q)
  : list Alignment.t * list Alignment.t :=
  let results := compute_mapping_qualities (alignments1, alignments2) cluster_mq in
  (imap (fun i a => Alignment.set_is_secondary
                      (Alignment.set_fragment_next a (Alignment.name read2)) (0 <? i)%nat)
        (truncate (fst results)),
   imap (fun i a => Alignment.set_is_secondary
                      (Alignment.set_fragment_prev a (Alignment.name read1)) (0 <? i)%nat)
        (truncate (snd results))).

(** The function up to the test that may start it again. *)
Definition first_results (read1 read2 : Alignment.t) (max_mem_length : Z)
           (only_top_scoring_pair : bool) (m : FragmentModel.t)
  : option (list Alignment.t * list Alignment.t) :=
  let '(alignments1, alignments2, cluster_mq) :=
    paired_candidates read1 read2 max_mem_length m in
  if fragment_size m =? 0
  then Some (independent_results read1 read2 alignments1 alignments2 cluster_mq)
  else consistent_results read1 read2 alignments1 alignments2 cluster_mq
                          only_top_scoring_pair (fragment_size m).

(** [results.first.empty() || results.second.empty()
     || !results.first.front().score() || !results.second.front().score()] *)
Definition failed (results : list Alignment.t * list Alignment.t) : bool :=
  Nat.eqb (length (fst results)) 0 || Nat.eqb (length (snd results)) 0
  || (Alignment.score (front (fst results)) =? 0)
  || (Alignment.score (front (snd results)) =? 0).

Definition new_mem_max (max_mem_length : Z) : Z :=
  Z.max min_mem_length
        ((if max_mem_length =? 0 then gcsa_order else max_mem_length) - kmer_sensitivity_step).

(** [approx_pair_fragment_length]: a [map<string, int>] of the differences of
    the positions on the common paths. *)
Definition approx_pair_fragment_length (aln1 aln2 : Alignment.t) : list (string * Z) :=
  let pos1 := Positions.alignment_mean_path_positions aln1 default_first_hit_only in
  let pos2 := Positions.alignment_mean_path_positions aln2 default_first_hit_only in
  omap (fun p => match map_find String.eqb (fst p) pos2 with
                 | Some x => Some (fst p, double_to_int (x - snd p)%Q)
                 | None => None
                 end)
       pos1.

(** What the loop over the results carries along. *)
Record Tagging := mk_tagging {
  tagged : list Alignment.t * list Alignment.t;
  fragment_model : FragmentModel.t;
  imperfect_pair : bool
}.

(** The test of a perfect pair for one fragment length. *)
Definition perfect_pair (results : list Alignment.t * list Alignment.t) (length : Z)
           (fragment_size : Z) : bool :=
  Nat.eqb (List.length (fst results)) 1
  && Nat.eqb (List.length (snd results)) 1
  && negb (Qle_bool (Alignment.identity (front (fst results))) perfect_pair_identity_threshold)
  && negb (Qle_bool (Alignment.identity (front (snd results))) perfect_pair_identity_threshold)
  && ((negb (fragment_size =? 0) && (length <? fragment_size))
      || ((fragment_size =? 0) && (length <? fragment_max))).

(** The body of [for (auto& j : approx_frag_lengths)] for the pair at index
    [i]; [None] for an index out of range or a failed assertion of
    [record_fragment_configuration]. *)
Definition tag_length (i : nat) (t : Tagging) (j : string * Z) : option Tagging :=
  aln1 ← fst (tagged t) !! i;
  aln2 ← snd (tagged t) !! i;
  let aln1 := Alignment.add_fragment aln1 j in
  let aln2 := Alignment.add_fragment aln2 j in
  let results := (<[i := aln1]> (fst (tagged t)), <[i := aln2]> (snd (tagged t))) in
  if perfect_pair results (snd j) (fragment_size (fragment_model t))
  then
    m ← Fragment.record_fragment_configuration (fragment_model t) (snd j) aln1 aln2;
    Some (mk_tagging results m (imperfect_pair t))
  else if fragment_size (fragment_model t) =? 0
       then Some (mk_tagging results (fragment_model t) true)
       else Some (mk_tagging results (fragment_model t) (imperfect_pair t)).

Fixpoint tag_lengths (i : nat) (t : Tagging) (lengths : list (string * Z)) : option Tagging :=
  match lengths with
  | [] => Some t
  | j :: rest => t' ← tag_length i t j; tag_lengths i t' rest
  end.

(** The pair at index [i]: its fragment lengths are computed before any of
    them is recorded. *)
Definition tag_pair (t : Tagging) (i : nat) : option Tagging :=
  aln1 ← fst (tagged t) !! i;
  aln2 ← snd (tagged t) !! i;
  tag_lengths i t (approx_pair_fragment_length aln1 aln2).

Fixpoint tag_pairs (t : Tagging) (indices : list nat) : option Tagging :=
  match indices with
  | [] => Some t
  | i :: rest => t' ← tag_pair t i; tag_pairs t' rest
  end.

(** An unmapped copy of the read. *)
Definition unmapped (read : Alignment.t) : Alignment.t :=
  Alignment.clear_identity (Alignment.clear_score (Alignment.clear_path read)).

Definition or_unmapped (alns : list Alignment.t) (read : Alignment.t) : list Alignment.t :=
  if Nat.eqb (length alns) 0 then alns ++ [unmapped read] else alns.

(** The function from the comment "we tried to align" on. *)
Definition finish (read1 read2 : Alignment.t) (queued : bool) (retrying : bool)
           (results : list Alignment.t * list Alignment.t) (st : State) : option Outcome :=
  t ← (if retrying then Some (mk_tagging results (model st) false)
       else tag_pairs (mk_tagging results (model st) false)
                      (seq 0 (Nat.min (length (fst results)) (length (snd results)))));
  let queue := negb retrying && imperfect_pair t && negb (fragment_max =? 0) in
  let results := if queue then ([], []) else tagged t in
  let first := or_unmapped (truncate (fst results)) read1 in
  let second := or_unmapped (truncate (snd results)) read2 in
  Some (mk_outcome
          (map (fun aln => Alignment.set_fragment_next aln (Alignment.name read2)) first,
           map (fun aln => Alignment.set_fragment_prev aln (Alignment.name read1)) second)
          (if queue then true else queued)
          (mk_state (fragment_model t)
                    (if queue then imperfect_pairs_to_retry st ++ [(read1, read2)]
                     else imperfect_pairs_to_retry st))).

(** [align_paired_multi_sep]; the fuel bounds the calls of the function by
    itself, with [max_mem_length] lowered by [kmer_sensitivity_step].  The
    call of itself leaves [only_top_scoring_pair] and [retrying] to their
    defaults. *)
Fixpoint align_paired_multi_sep (fuel : nat) (read1 read2 : Alignment.t) (queued : bool)
         (max_mem_length : Z) (only_top_scoring_pair retrying : bool) (st : State)
  : option Outcome :=
  results ← first_results read1 read2 max_mem_length only_top_scoring_pair (model st);
  if failed results
     && negb (kmer_sensitivity_step =? 0)
     && (min_mem_length <? new_mem_max max_mem_length)
  then
    match fuel with
    | O => None
    | S fuel' =>
        align_paired_multi_sep fuel' read1 read2 queued (new_mem_max max_mem_length)
                               default_only_top_scoring_pair default_retrying st
    end
  else finish read1 read2 queued retrying results st.

(** Calls enough for every [max_mem_length]. *)
Definition calls (max_mem_length : Z) : nat :=
  Z.to_nat (if max_mem_length =? 0 then gcsa_order else max_mem_length).

Definition align_paired (read1 read2 : Alignment.t) (queued : bool) (max_mem_length : Z)
           (only_top_scoring_pair retrying : bool) (st : State) : option Outcome :=
  align_paired_multi_sep (calls max_mem_length) read1 read2 queued max_mem_length
                         only_top_scoring_pair retrying st.

(** *** Vocabulary of the proofs *)

(** The candidates that the function works on: those of both mates exist when
    there is a fragment size, and they are sorted by score. *)
Definition candidates_ok (read1 read2 : Alignment.t) (m : FragmentModel.t) : Prop :=
  forall max_mem_length,
    fragment_size m <> 0 ->
    let alignments1 := fst (fst (paired_candidates read1 read2 max_mem_length m)) in
    let alignments2 := snd (fst (paired_candidates read1 read2 max_mem_length m)) in
    alignments1 <> [] /\ alignments2 <> []
    /\ Grid.sorted_by_score alignments1 /\ Grid.sorted_by_score alignments2.

(** The links to the mate. *)
Definition linked (read1 read2 : Alignment.t) (results : list Alignment.t * list Alignment.t)
  : Prop :=
  Forall (fun aln => Alignment.fragment_next aln = Alignment.name read2) (fst results)
  /\ Forall (fun aln => Alignment.fragment_prev aln = Alignment.name read1) (snd results).
End Paired.
End Paired.

(** Two candidates for the second mate and one for the first, in a graph
    without reference paths. *)
Definition second_candidate : Alignment.t :=
  Alignment.mk "ACGT" "" [Mapping.mk (Position.mk 1 4 false) [Edit.mk 4 4 ""]]
               4 1 0 false "mate" "" "" [].

Definition uneven_candidates : PairedEngines :=
  {| paired_candidates := fun _ _ _ _ => ([forward_mate], [forward_mate; second_candidate], 0%Q);
     estimated_paired_mapping_quality := fun _ _ _ _ _ => 0;
     gcsa_order := 16 |}.

(** One candidate for each mate: the read over three nodes and its mate. *)
Definition spanning_candidates : PairedEngines :=
  {| paired_candidates := fun _ _ _ _ => ([spanning_read], [mate_read], 0%Q);
     estimated_paired_mapping_quality := fun _ _ _ _ _ => 0;
     gcsa_order := 16 |}.

(** The same placements, the first with an identity of zero: the pair is
    not a perfect one. *)
Definition doubtful_candidates : PairedEngines :=
  {| paired_candidates := fun _ _ _ _ =>
       ([Alignment.set_identity spanning_read 0%Q], [mate_read], 0%Q);
     estimated_paired_mapping_quality := fun _ _ _ _ _ => 0;
     gcsa_order := 16 |}.

Definition plain_arguments : DefaultArguments :=
  {| default_first_hit_only := true;
     default_only_top_scoring_pair := false;
     default_retrying := false |}.

(** ** The chain model: [MEMChainModel::traceback] *)

Module Chain.

(** [MEMChainModelVertex].  A pointer to a vertex is its index in the vector
    [model]; [nullptr] is [None].  The fields [next_cost] and
    [approx_position] are not read by the functions below. *)
Record Vertex := mk_vertex {
  mem : MaximalExactMatch.t;
  weight : Q;
  prev : option nat;
  score : Q;
  prev_cost : list (option nat * Q)
}.

Definition set_score_prev (v : Vertex) (s : Q) (p : option nat) : Vertex :=
  mk_vertex (mem v) (weight v) p s (prev_cost v).

Definition set_prev_cost (v : Vertex) (costs : list (option nat * Q)) : Vertex :=
  mk_vertex (mem v) (weight v) (prev v) (score v) costs.

(** [x > y] on doubles. *)
Definition Qgtb (x y : Q) : bool := negb (Qle_bool x y).

(** [p->score] *)
Definition score_of (model : list Vertex) (p : nat) : Q :=
  default 0%Q (score <$> model !! p).

Definition clear_scores (model : list Vertex) : list Vertex :=
  (fun m => set_score_prev m 0 None) <$> model.

(** The body of [for (auto& p : m.prev_cost)] for the vertex [m] at index
    [i]: the vertex is updated in place. *)
Definition propose (i : nat) (model : list Vertex) (p : option nat * Q) : list Vertex :=
  match fst p, model !! i with
  | Some first, Some m =>
      let proposal := (weight m + snd p + score_of model first)%Q in
      if Qgtb proposal (score m)
      then <[i := set_score_prev m proposal (Some first)]> model
      else model
  | _, _ => model
  end.

(** The body of [for (auto& m : model)]. *)
Definition score_vertex (exclude : gset nat) (model : list Vertex) (i : nat) : list Vertex :=
  if bool_decide (i ∈ exclude) then model
  else match model !! i with
       | Some m =>
           fold_left (propose i) (prev_cost m)
                     (<[i := set_score_prev m (weight m) (prev m)]> model)
       | None => model
       end.

(** [MEMChainModel::score] *)
Definition score_model (exclude : gset nat) (model : list Vertex) : list Vertex :=
  fold_left (score_vertex exclude) (seq 0 (length model)) model.

(** [MEMChainModel::max_vertex] *)
Definition max_vertex (model : list Vertex) : option nat :=
  fold_left (fun maxv i =>
               match maxv with
               | None => Some i
               | Some k => if Qgtb (score_of model i) (score_of model k) then Some i else maxv
               end)
            (seq 0 (length model)) None.

(** "make trace": the walk along the [prev] pointers; [None] when the fuel
    runs out. *)
Fixpoint make_trace (fuel : nat) (model : list Vertex) (vertex : nat) : option (list nat) :=
  match fuel with
  | O => None
  | S fuel' =>
      match model !! vertex ≫= prev with
      | Some p => rest ← make_trace fuel' model p; Some (vertex :: rest)
      | None => Some [vertex]
      end
  end.

Definition fragment_of (model : list Vertex) (p : nat) : Z :=
  default 0 (MaximalExactMatch.fragment <$> (mem <$> model !! p)).

(** "mask out used transitions": one entry of [vertex.prev_cost]. *)
Definition mask_entry (paired : bool) (chain_members : gset nat) (model : list Vertex)
           (vertex previous : nat) (p : option nat * Q) : option nat * Q :=
  match fst p with
  | Some first =>
      if Nat.eqb first previous then (None, snd p)
      else if paired
              && negb (fragment_of model first =? fragment_of model vertex)
              && bool_decide (first ∈ chain_members)
           then (None, snd p)
           else p
  | None => p
  end.

Definition mask_vertex (paired : bool) (chain_members : gset nat) (model : list Vertex)
           (vertex previous : nat) : list Vertex :=
  match model !! vertex with
  | Some m =>
      <[vertex := set_prev_cost m (mask_entry paired chain_members model vertex previous
                                   <$> prev_cost m)]> model
  | None => model
  end.

(** The loop over the trace from its [rbegin()]: every vertex but the first
    of the loop masks the transitions from the one before it. *)
Fixpoint mask_trace (paired : bool) (chain_members : gset nat) (model : list Vertex)
         (previous : nat) (rest : list nat) : list Vertex :=
  match rest with
  | [] => model
  | vertex :: rest' =>
      mask_trace paired chain_members
                 (mask_vertex paired chain_members model vertex previous) vertex rest'
  end.

Definition mask_used (paired : bool) (chain_members : gset nat) (model : list Vertex)
           (reversed : list nat) : list Vertex :=
  match reversed with
  | [] => model
  | first :: rest => mask_trace paired chain_members model first rest
  end.

(** One trace: [vertex_trace] from the vertex of maximal score back along the
    [prev] pointers, that maximal score, and [mem_trace], the MEMs in the
    order of the read. *)
Record Trace := mk_trace {
  vertex_trace : list nat;
  trace_score : Q;
  mem_trace : list MaximalExactMatch.t
}.

(** [for (auto v = vertex_trace.rbegin(); ...) mem_trace.push_back(vertex.mem)] *)
Definition mems_of (model : list Vertex) (vertex_trace : list nat)
  : list MaximalExactMatch.t :=
  omap (fun vertex => mem <$> model !! vertex) (reverse vertex_trace).

(** The state of the loop of [traceback]; [exhausted] records the [break]. *)
Record Run := mk_run {
  model : list Vertex;
  exclude : gset nat;
  traces : list Trace;
  exhausted : bool
}.

(** The body of the loop once the model is scored, for the vertex of maximal
    score. *)
Definition emit (paired : bool) (scored : list Vertex) (run : Run) (vertex : nat)
  : option Run :=
  trace ← make_trace (length scored) scored vertex;
  let exclude1 :=
    if paired && Nat.eqb (length trace) 1
    then list_to_set (take 1 trace) ∪ exclude run
    else exclude run in
  let chain_members : gset nat := if paired then list_to_set trace else ∅ in
  let exclude2 := if paired then exclude1 else list_to_set trace ∪ exclude1 in
  Some (mk_run (mask_used paired chain_members scored (reverse trace))
               exclude2
               (traces run ++ [mk_trace trace (score_of scored vertex) (mems_of scored trace)])
               false).

(** [for (int i = 0; i < alt_alns; ++i)] *)
Fixpoint traceback_loop (alt_alns : nat) (paired : bool) (run : Run) : option Run :=
  match alt_alns with
  | O => Some run
  | S alt_alns' =>
      let scored := score_model (exclude run) (clear_scores (model run)) in
      match max_vertex scored with
      | None => Some (mk_run scored (exclude run) (traces run) true)
      | Some vertex =>
          if Qeq_bool (score_of scored vertex) 0
          then Some (mk_run scored (exclude run) (traces run) true)
          else run' ← emit paired scored run vertex;
               traceback_loop alt_alns' paired run'
      end
  end.

(** The loop from the empty set [exclude]; [None] also stands for the
    [std::length_error] of [traces.reserve] with a negative [alt_alns]. *)
Definition traceback_run (model : list Vertex) (alt_alns : Z) (paired : bool) : option Run :=
  if alt_alns <? 0 then None
  else traceback_loop (Z.to_nat alt_alns) paired (mk_run model ∅ [] false).

(** [MEMChainModel::traceback] *)
Definition traceback (model : list Vertex) (alt_alns : Z) (paired : bool)
  : option (list (list MaximalExactMatch.t)) :=
  run ← traceback_run model alt_alns paired;
  Some (map mem_trace (traces run)).

(** *** Vocabulary of the proofs *)

(** The fields of a vertex that scoring does not write. *)
Definition static (v : Vertex) : MaximalExactMatch.t * Q * list (option nat * Q) :=
  (mem v, weight v, prev_cost v).

(** The transition from [u] into [v] is open. *)
Definition open (model : list Vertex) (v u : nat) : Prop :=
  exists m cost, model !! v = Some m /\ (Some u, cost) ∈ prev_cost m.

(** The pointers of the model are vertices of the model, and the
    transitions have no cycle: they go up in a rank below the number of
    vertices. *)
Definition acyclic (rank : nat -> nat) (model : list Vertex) : Prop :=
  (forall v, (v < length model)%nat -> (rank v < length model)%nat)
  /\ forall v u, open model v u -> (u < length model)%nat /\ (rank u < rank v)%nat.

Definition weights_nonnegative (model : list Vertex) : Prop :=
  Forall (fun v => (0 <= weight v)%Q) model.

(** [u] follows [v] in a trace: the trace went from [v] to [u = v->prev]. *)
Definition adjacent (v u : nat) (trace : list nat) : Prop :=
  exists before after, trace = before ++ v :: u :: after.

(** Two traces share no transition. *)
Definition edge_disjoint (t1 t2 : Trace) : Prop :=
  forall v u, adjacent v u (vertex_trace t1) -> ~ adjacent v u (vertex_trace t2).

(** A later trace scores no more than an earlier one. *)
Definition descends (t1 t2 : Trace) : Prop := (trace_score t2 <= trace_score t1)%Q.

(** An entry of [prev_cost] is as it was or masked. *)
Definition entry_masked (p p' : option nat * Q) : Prop :=
  snd p' = snd p /\ (fst p' = fst p \/ fst p' = None).

(** A model differs from another one by masked transitions (and by scores
    and [prev] pointers). *)
Definition masked_from (model model' : list Vertex) : Prop :=
  Forall2 (fun v v' => mem v' = mem v /\ weight v' = weight v
                       /\ Forall2 entry_masked (prev_cost v) (prev_cost v'))
          model model'.

(** The loop stopped at a model without a vertex or without a score. *)
Definition nothing_left (run : Run) : Prop :=
  max_vertex (model run) = None
  \/ exists vertex, max_vertex (model run) = Some vertex
                    /\ (score_of (model run) vertex == 0)%Q.

(** The invariant of the loop of [traceback] on the model [model0]. *)
Record invariant (paired : bool) (model0 : list Vertex) (run : Run) : Prop := {
  inv_masked : masked_from model0 (model run);
  inv_descends : StronglySorted descends (traces run);
  inv_disjoint : StronglySorted edge_disjoint (traces run);
  inv_closed :
    forall t v u, t ∈ traces run -> adjacent v u (vertex_trace t) -> ~ open (model run) v u;
  inv_paths :
    forall t v u, t ∈ traces run -> adjacent v u (vertex_trace t) -> open model0 v u;
  inv_bound :
    forall t k, t ∈ traces run -> (k < length model0)%nat ->
                (score_of (score_model (exclude run) (clear_scores (model run))) k
                 <= trace_score t)%Q;
  inv_nonzero : forall t, t ∈ traces run -> ~ (trace_score t == 0)%Q;
  inv_singletons :
    paired = true ->
    forall t v, t ∈ traces run -> vertex_trace t = [v] -> v ∈ exclude run;
  inv_used :
    paired = false ->
    forall t v, t ∈ traces run -> v ∈ vertex_trace t -> v ∈ exclude run;
  inv_mems :
    forall t, t ∈ traces run ->
              vertex_trace t <> [] /\ mem_trace t = mems_of model0 (vertex_trace t)
}.
End Chain.

(** Two seeds of equal length that no transition joins. *)
Definition lone_vertex (begin : Z) : Chain.Vertex :=
  Chain.mk_vertex (MaximalExactMatch.mk begin (begin + 5) (0, 0) 1 1 [Position.mk 1 begin false])
                  5 None 0 [].

Definition two_lone_seeds : list Chain.Vertex := [lone_vertex 0; lone_vertex 10].

(** A chain of two seeds and a seed on its own. *)
Definition chained_seeds : list Chain.Vertex :=
  [lone_vertex 0;
   Chain.mk_vertex (MaximalExactMatch.mk 5 10 (0, 0) 1 1 [Position.mk 1 5 false])
                   5 None 0 [(Some 0%nat, 3%Q)];
   lone_vertex 20].

(* ===================================================================== *)
(** * Further functions of [src/mapper.cpp]                               *)
(* ===================================================================== *)

(** ** Clusters of MEMs *)

(** The members of [Mapper] that the functions on clusters read. *)
Class ClusterSettings := {
  drop_chain : Q
}.

Module Clusters.
Import Transition.

(** The iterators [begin] and [end] of the MEMs of a cluster point into the
    sequence of one read; they are offsets into it. *)

(** [while (c != mem.end) seen.insert(c++)]; [None] when the loop would run
    off the read ([end] before [begin]). *)
Definition cover (seen : gset Z) (mem : MaximalExactMatch.t) : option (gset Z) :=
  if MaximalExactMatch.end' mem <? MaximalExactMatch.begin mem then None
  else Some (fold_left (fun seen c => {[c]} ∪ seen)
                       (seqZ (MaximalExactMatch.begin mem)
                             (MaximalExactMatch.end' mem - MaximalExactMatch.begin mem))
                       seen).

Fixpoint cover_all (seen : gset Z) (cluster : list MaximalExactMatch.t) : option (gset Z) :=
  match cluster with
  | [] => Some seen
  | mem :: rest => seen' ← cover seen mem; cover_all seen' rest
  end.

(** [cluster_coverage] *)
Definition cluster_coverage (cluster : list MaximalExactMatch.t) : option Z :=
  seen ← cover_all ∅ cluster; Some (Z.of_nat (stdpp.base.size seen)).

(** [clusters_overlap] *)
Definition clusters_overlap (cluster1 cluster2 : list MaximalExactMatch.t) : bool :=
  existsb (fun mem1 => existsb (fun mem2 => mems_overlap mem1 mem2) cluster2) cluster1.

(** The body of [for (int j = i; j >= 0; --j)] for [j <> i]: the best
    overlapping cluster so far [b] (or -1) and its coverage [l]. *)
Definition compare_cluster (clusters : list (list MaximalExactMatch.t)) (cluster_cov : list Z)
           (this_cluster : list MaximalExactMatch.t) (bl : Z * Z) (j : nat) : Z * Z :=
  let other_cluster := default [] (clusters !! j) in
  if clusters_overlap this_cluster other_cluster
  then let c := default 0 (cluster_cov !! j) in
       if snd bl <? c then (Z.of_nat j, c) else bl
  else bl.

Section Clusters.
Context `{ClusterSettings}.

(** The body of the outer loop of [clusters_to_drop] for the cluster at
    index [i]. *)
Definition drops (clusters : list (list MaximalExactMatch.t)) (cluster_cov : list Z)
           (i : nat) : bool :=
  let this_cluster := default [] (clusters !! i) in
  let t := default 0 (cluster_cov !! i) in
  let '(b, l) := fold_left (compare_cluster clusters cluster_cov this_cluster)
                           (reverse (seq 0 i)) (-1, t) in
  (0 <=? b) && negb (Qle_bool drop_chain (inject_Z t / inject_Z l)).

(** [clusters_to_drop]: the indices of the clusters in the returned set, in
    ascending order. *)
Definition clusters_to_drop (clusters : list (list MaximalExactMatch.t)) : option (list nat) :=
  cluster_cov ← mapM cluster_coverage clusters;
  Some (filter (fun i => drops clusters cluster_cov i = true) (seq 0 (length clusters))).
End Clusters.

(** [v[i] += mem.match_count] for the positions of one MEM; [None] for an
    index outside of [v]. *)
Fixpoint add_counts (v : list Z) (match_count : Z) (positions : list Z) : option (list Z) :=
  match positions with
  | [] => Some v
  | i :: rest =>
      if (i <? 0) || (Z.of_nat (length v) <=? i) then None
      else
        let k := Z.to_nat i in
        add_counts (<[k := default 0 (v !! k) + match_count]> v) match_count rest
  end.

Fixpoint count_hits (v : list Z) (mems : list MaximalExactMatch.t) : option (list Z) :=
  match mems with
  | [] => Some v
  | mem :: rest =>
      v' ← add_counts v (MaximalExactMatch.match_count mem)
                      (seqZ (MaximalExactMatch.begin mem)
                            (MaximalExactMatch.end' mem - MaximalExactMatch.begin mem));
      count_hits v' rest
  end.

(** [std::accumulate] with [b > 1 ? a + 1 : a]. *)
Definition repeated (v : list Z) : Z :=
  fold_left (fun a b => if 1 <? b then a + 1 else a) v 0.

(** [compute_uniqueness]; [None] also for the empty read, where the result
    is [0.0 / 0]. *)
Definition compute_uniqueness (aln : Alignment.t) (mems : list MaximalExactMatch.t)
  : option Q :=
  let n := size (Alignment.sequence aln) in
  v ← count_hits (replicate (Z.to_nat n) 0) mems;
  if n =? 0 then None else Some (inject_Z (repeated v) / inject_Z n)%Q.

(** The split of a cluster of a pair into its two fragments in
    [align_paired_multi_simul]; [None] is the failed assertion
    ("misordered fragments in cluster"). *)
Fixpoint split_cluster (seen2 : bool) (cluster : list MaximalExactMatch.t)
  : option (list MaximalExactMatch.t * list MaximalExactMatch.t) :=
  match cluster with
  | [] => Some ([], [])
  | mem :: rest =>
      if negb seen2 && (MaximalExactMatch.fragment mem =? 1)
      then split ← split_cluster seen2 rest; Some (mem :: fst split, snd split)
      else if MaximalExactMatch.fragment mem =? 2
           then split ← split_cluster true rest; Some (fst split, mem :: snd split)
           else None
  end.

(** *** Vocabulary of the proofs *)

Definition well_formed (mem : MaximalExactMatch.t) : Prop :=
  MaximalExactMatch.begin mem <= MaximalExactMatch.end' mem.

(** The two MEMs share no position of the read. *)
Definition apart (mem1 mem2 : MaximalExactMatch.t) : Prop :=
  MaximalExactMatch.end' mem1 <= MaximalExactMatch.begin mem2
  \/ MaximalExactMatch.end' mem2 <= MaximalExactMatch.begin mem1.

Definition total_length (cluster : list MaximalExactMatch.t) : Z :=
  fold_right Z.add 0 (map MaximalExactMatch.length cluster).

(** The positions of the read that a MEM and a cluster cover. *)
Definition span (mem : MaximalExactMatch.t) : list Z :=
  seqZ (MaximalExactMatch.begin mem)
       (MaximalExactMatch.end' mem - MaximalExactMatch.begin mem).

Definition covered (cluster : list MaximalExactMatch.t) : gset Z :=
  list_to_set (concat (map span cluster)).

(** The clusters at two indices overlap, and the coverage at an index. *)
Definition overlap_at (clusters : list (list MaximalExactMatch.t)) (i j : nat) : Prop :=
  clusters_overlap (default [] (clusters !! i)) (default [] (clusters !! j)) = true.

Definition coverage_at (cluster_cov : list Z) (i : nat) : Z :=
  default 0 (cluster_cov !! i).

(** What [clusters_to_drop] decides for the cluster at index [i]: an earlier
    cluster [j] overlaps it, covers more of the read than it and than every
    other earlier cluster that overlaps it, and the ratio of the coverages
    is below [drop_chain]. *)
Definition overshadowed `{ClusterSettings} (clusters : list (list MaximalExactMatch.t))
           (cluster_cov : list Z) (i : nat) : Prop :=
  exists j, (j < i)%nat
            /\ overlap_at clusters i j
            /\ coverage_at cluster_cov i < coverage_at cluster_cov j
            /\ (forall k, (k < i)%nat -> overlap_at clusters i k ->
                          coverage_at cluster_cov k <= coverage_at cluster_cov j)
            /\ (inject_Z (coverage_at cluster_cov i) / inject_Z (coverage_at cluster_cov j)
                < drop_chain)%Q.

(** The MEM covers position [i] of the read. *)
Definition covers (i : Z) (mem : MaximalExactMatch.t) : bool :=
  (MaximalExactMatch.begin mem <=? i) && (i <? MaximalExactMatch.end' mem).

(** The hits of the MEMs that cover position [i]. *)
Definition hits_at (mems : list MaximalExactMatch.t) (i : Z) : Z :=
  fold_right Z.add 0 (map (fun mem => if covers i mem then MaximalExactMatch.match_count mem
                                      else 0) mems).

(** The MEM lies inside a read of [n] bases. *)
Definition inside (n : Z) (mem : MaximalExactMatch.t) : Prop :=
  0 <= MaximalExactMatch.begin mem
  /\ MaximalExactMatch.begin mem <= MaximalExactMatch.end' mem
  /\ MaximalExactMatch.end' mem <= n.

(** The positions of a read of [n] bases that MEMs with more than one hit in
    all cover. *)
Definition repeated_positions (mems : list MaximalExactMatch.t) (n : Z) : list Z :=
  filter (fun i => 1 < hits_at mems i) (seqZ 0 n).
End Clusters.

(** The settings of the constructor of [Mapper]. *)
Definition default_cluster_settings : ClusterSettings := {| drop_chain := 2 # 10 |}.

(** A cluster on the first twenty bases of a read and a short one inside. *)
Definition long_cluster : list MaximalExactMatch.t :=
  [MaximalExactMatch.mk 0 12 (0, 0) 1 1 []; MaximalExactMatch.mk 10 20 (0, 0) 1 1 []].

Definition short_cluster : list MaximalExactMatch.t :=
  [MaximalExactMatch.mk 4 7 (0, 0) 3 1 []].

(** ** Mates: approximate positions, [pair_consistent], [likely_mate_position] *)

Module Mates.
Import FragmentModel.

Section Mates.
Context `{XG} `{Mapper} `{Layout}.

(** [approx_alignment_position]: -1 for an alignment without a mapping or
    whose first mapping has no position. *)
Definition approx_alignment_position (aln : Alignment.t) : Z :=
  match Alignment.path aln with
  | mbeg :: _ => if has_position mbeg then approx_position (Mapping.position mbeg) else -1
  | [] => -1
  end.

(** [approx_fragment_length] *)
Definition approx_fragment_length (aln1 aln2 : Alignment.t) : Z :=
  let pos1 := approx_alignment_position aln1 in
  let pos2 := approx_alignment_position aln2 in
  if negb (pos1 =? -1) && negb (pos2 =? -1) then Z.abs (pos1 - pos2) else -1.

(** [len > 0 && len < fragment_size || !fragment_size && len > 0 && len < fragment_max] *)
Definition length_fits (m : FragmentModel.t) (len : Z) : bool :=
  ((0 <? len) && (len <? fragment_size m))
  || ((fragment_size m =? 0) && (0 <? len) && (len <? fragment_max)).

(** The first part of [pair_consistent]: [length_ok]; [None] is the failed
    assertion that both alignments have as many fragment records. *)
Definition length_ok (m : FragmentModel.t) (aln1 aln2 : Alignment.t) : option bool :=
  if Nat.eqb (length (Alignment.fragment aln1)) 0
  then Some (length_fits m (approx_fragment_length aln1 aln2))
  else if Nat.eqb (length (Alignment.fragment aln1)) (length (Alignment.fragment aln2))
       then Some (existsb (fun fragment => length_fits m (Z.abs (snd fragment)))
                          (Alignment.fragment aln1))
       else None.

(** [pair_consistent]; [None] also when [aln1] has no mapping
    ([aln1.path().mapping(0)]).  Both [aln1_is_rev] and [aln2_is_rev] are
    read from [aln1]. *)
Definition pair_consistent (m : FragmentModel.t) (aln1 aln2 : Alignment.t) : option bool :=
  if negb (negb (Alignment.score aln1 =? 0) && negb (Alignment.score aln2 =? 0))
  then Some false
  else
    ok ← length_ok m aln1 aln2;
    mapping ← head (Alignment.path aln1);
    let aln1_is_rev := Position.is_reverse (Mapping.position mapping) in
    let aln2_is_rev := Position.is_reverse (Mapping.position mapping) in
    let same_orientation := cached_fragment_orientation m in
    let orientation_ok :=
      (same_orientation && Bool.eqb aln1_is_rev aln2_is_rev)
      || (negb same_orientation && negb (Bool.eqb aln1_is_rev aln2_is_rev)) in
    Some (ok && orientation_ok).

(** [node_approximately_at] *)
Definition node_approximately_at (approx_pos : Z) : Z :=
  node_at_seq_pos (Z.min seq_length (to_size_t (Z.max approx_pos 1))).

(** [likely_mate_position]; [None] when the alignment has no mapping. *)
Definition likely_mate_position (m : FragmentModel.t) (aln : Alignment.t)
           (is_first_mate : bool) : option Position.t :=
  mapping ← head (Alignment.path aln);
  let aln_is_rev := Position.is_reverse (Mapping.position mapping) in
  let aln_pos := approx_alignment_position aln in
  let same_orientation := cached_fragment_orientation m in
  let forward_direction := cached_fragment_direction m in
  let delta := double_to_int (cached_fragment_length_mean m) in
  let target :=
    if forward_direction then
      if is_first_mate then
        if negb aln_is_rev then node_approximately_at (aln_pos + delta)
        else node_approximately_at (aln_pos - delta)
      else
        if negb aln_is_rev then node_approximately_at (aln_pos + delta)
        else node_approximately_at (aln_pos - delta)
    else
      if is_first_mate then
        if negb aln_is_rev then node_approximately_at (aln_pos - delta)
        else node_approximately_at (aln_pos + delta)
      else
        if negb aln_is_rev then node_approximately_at (aln_pos - delta)
        else node_approximately_at (aln_pos + delta) in
  if same_orientation
  then Some (Position.mk target 0 aln_is_rev)
  else Some (Position.mk target 0 (negb aln_is_rev)).

(** *** Vocabulary of the proofs *)

(** The side of the alignment on which the mate is looked for. *)
Definition mate_offset (m : FragmentModel.t) (aln_is_rev : bool) : Z :=
  if Bool.eqb (cached_fragment_direction m) aln_is_rev
  then - double_to_int (cached_fragment_length_mean m)
  else double_to_int (cached_fragment_length_mean m).
End Mates.
End Mates.

(** A layout for the examples: every mapping has a position, and the node
    at a position of the sequence is the position itself. *)
Definition plain_layout : Layout :=
  {| has_position := fun _ => true; node_at_seq_pos := fun p => p; seq_length := 1000 |}.

(** ** One alignment for a read *)

Module Single.
Section Single.
Context `{XG} `{Engines} `{MappingQualityEstimator} `{Mapper}.

(** [Mapper::align(const Alignment&, ...)]: the first alignment of
    [align_multi], or the read without a path and with score 0 when there is
    none. *)
Definition align (aln : Alignment.t) (kmer_size stride max_mem_length band_width : Z)
  : option Alignment.t :=
  best ← Multi.align_multi aln kmer_size stride max_mem_length band_width;
  match best with
  | [] => Some (Alignment.set_score (Alignment.clear_path aln) 0)
  | first :: _ => Some first
  end.
End Single.

(** *** Vocabulary of the proofs *)

(** The candidates at two indices have different serializations. *)
Definition differ (all_alns : list Alignment.t) (p q : nat) : Prop :=
  forall a b, all_alns !! p = Some a -> all_alns !! q = Some b ->
              Multi.serialized_eqb a b = false.

(** The candidates of [align_multi]. *)
Definition candidates `{XG} `{Engines} `{Mapper}
           (aln : Alignment.t) (kmer_size stride max_mem_length band_width : Z)
  : list Alignment.t :=
  fst (Multi.candidate_alignments aln kmer_size stride max_mem_length band_width
                                  0%Q extra_multimaps None).
End Single.

(** ** The chain model: [MEMChainModel::MEMChainModel] *)

(** [std::sort].  The language leaves the order of elements that compare
    equal open, so the sort is a collaborator of the constructor. *)
Class StdSort := {
  sort_by : (nat -> nat -> bool) -> list nat -> list nat
}.

Module Model.
Import Transition.

(** A vertex while the model is built: the fields that [traceback] reads
    ([chain]) with [approx_position] and [next_cost].  A pointer or an
    iterator to a vertex is its index in the vector [model]. *)
Record Built := mk_built {
  chain : Chain.Vertex;
  approx_position' : Z;
  next_cost : list (nat * Q)
}.

Definition mem_of (m : Built) : MaximalExactMatch.t := Chain.mem (chain m).

(** [v1->mem.end = end; v1->weight = v1->mem.length()] *)
Definition set_end (m : Built) (e : Z) : Built :=
  let mem' :=
    MaximalExactMatch.mk (MaximalExactMatch.begin (mem_of m)) e
                         (MaximalExactMatch.range (mem_of m))
                         (MaximalExactMatch.match_count (mem_of m))
                         (MaximalExactMatch.fragment (mem_of m))
                         (MaximalExactMatch.nodes (mem_of m)) in
  mk_built (Chain.mk_vertex mem' (inject_Z (MaximalExactMatch.length mem'))
                            (Chain.prev (chain m)) (Chain.score (chain m))
                            (Chain.prev_cost (chain m)))
           (approx_position' m) (next_cost m).

(** [v->next_cost.push_back(make_pair(u, weight))] *)
Definition push_next (v u : nat) (weight : Q) (model : list Built) : list Built :=
  match model !! v with
  | Some m => <[v := mk_built (chain m) (approx_position' m) (next_cost m ++ [(u, weight)])]> model
  | None => model
  end.

(** [v->prev_cost.push_back(make_pair(u, weight))] *)
Definition push_prev (v u : nat) (weight : Q) (model : list Built) : list Built :=
  match model !! v with
  | Some m =>
      <[v := mk_built (Chain.set_prev_cost (chain m)
                                           (Chain.prev_cost (chain m) ++ [(Some u, weight)]))
                      (approx_position' m) (next_cost m)]> model
  | None => model
  end.

(** [approx_positions[k].push_back(v)] on the map, whose entries are kept in
    ascending order of the key. *)
Fixpoint index_insert (k : Z) (v : nat) (m : list (Z * list nat)) : list (Z * list nat) :=
  match m with
  | [] => [(k, [v])]
  | (k', vs) :: rest =>
      if k <? k' then (k, [v]) :: m
      else if k =? k' then (k', vs ++ [v]) :: rest
      else (k', vs) :: index_insert k v rest
  end.

(** [while (++q != end && abs(p->first - q->first) < band_width)]: the
    entries after [p] that the loop visits. *)
Fixpoint in_band (band_width : Z) (p : Z) (rest : list (Z * list nat)) : list (Z * list nat) :=
  match rest with
  | [] => []
  | q :: rest' =>
      if Z.abs (p - fst q) <? band_width then q :: in_band band_width p rest' else []
  end.

(** The vertices and the set [redundant_vertexes] during the two scans. *)
Record Merging := mk_merging {
  model : list Built;
  redundant : gset nat
}.

(** The body of [for (auto& v2 : q->second)] in a scan; [gap] is the
    distance of the two approximate positions. *)
Definition merge (gap : Z) (v1 v2 : nat) (s : Merging) : Merging :=
  if bool_decide (v2 ∈ redundant s) then s
  else match model s !! v1, model s !! v2 with
       | Some m1, Some m2 =>
           if mems_overlap (mem_of m1) (mem_of m2)
              && (Z.abs (MaximalExactMatch.begin (mem_of m2) - MaximalExactMatch.begin (mem_of m1))
                  =? gap)
           then mk_merging (<[v1 := set_end m1 (MaximalExactMatch.end' (mem_of m2))]> (model s))
                           ({[v2]} ∪ redundant s)
           else s
       | _, _ => s
       end.

(** The body of [for (auto& v1 : p->second)] in a scan. *)
Definition scan_vertex (gap : Z -> Z -> Z) (band_width p : Z) (rest : list (Z * list nat))
           (s : Merging) (v1 : nat) : Merging :=
  if bool_decide (v1 ∈ redundant s) then s
  else fold_left (fun s q => fold_left (fun s v2 => merge (gap p (fst q)) v1 v2 s) (snd q) s)
                 (in_band band_width p rest) s.

(** A scan over the entries in the order of the list: from [begin()] for
    the forward scan, from [rbegin()] for the reverse scan. *)
Fixpoint scan (gap : Z -> Z -> Z) (band_width : Z) (entries : list (Z * list nat))
         (s : Merging) : Merging :=
  match entries with
  | [] => s
  | p :: rest =>
      scan gap band_width rest (fold_left (scan_vertex gap band_width (fst p) rest) (snd p) s)
  end.

(** [abs(q->first - p->first)] of the forward scan and
    [abs(p->first - q->first)] of the reverse scan. *)
Definition forward_gap (p q : Z) : Z := Z.abs (q - p).
Definition reverse_gap (p q : Z) : Z := Z.abs (p - q).

(** A loop whose body can fail. *)
Fixpoint fold_option {A B} (f : B -> A -> option B) (l : list A) (b : B) : option B :=
  match l with
  | [] => Some b
  | x :: rest => b' ← f b x; fold_option f rest b'
  end.

Section Model.
Context `{XG} `{StdSort}.
Variable transition_weight : MaximalExactMatch.t -> MaximalExactMatch.t -> option Weight.

(** The vertex of one hit of a MEM. *)
Definition vertex_of (frag_n : Z) (mem : MaximalExactMatch.t) (node : Position.t) : Built :=
  mk_built (Chain.mk_vertex
              (MaximalExactMatch.mk (MaximalExactMatch.begin mem) (MaximalExactMatch.end' mem)
                                    (MaximalExactMatch.range mem)
                                    (MaximalExactMatch.match_count mem) frag_n [node])
              (inject_Z (MaximalExactMatch.length mem)) None 0 [])
           (approx_position node) [].

(** "store the MEMs in the model": [frag_n] counts the fragments from 1. *)
Definition vertices (matches : list (list MaximalExactMatch.t)) : list Built :=
  concat (imap (fun i fragment =>
                  concat (map (fun mem => map (vertex_of (Z.of_nat i + 1) mem)
                                              (MaximalExactMatch.nodes mem))
                              fragment))
               matches).

(** "index the model with the positions" *)
Definition index (model : list Built) : list (Z * list nat) :=
  fold_left (fun m iv => index_insert (approx_position' (snd iv)) (fst iv) m)
            (imap pair model) [].

Definition match_count_of (model : list Built) (v : nat) : Z :=
  default 0 (MaximalExactMatch.match_count <$> (mem_of <$> model !! v)).

(** "sort the vertexes at each approx position by their matches and trim" *)
Definition sort_and_trim (model : list Built) (position_depth : Z) (pos : Z * list nat)
  : Z * list nat :=
  let sorted := sort_by (fun v1 v2 => match_count_of model v1 <? match_count_of model v2)
                        (snd pos) in
  (fst pos,
   take (Z.to_nat (Z.min (Z.of_nat (length sorted)) (to_size_t position_depth))) sorted).

(** The member [approx_positions] when the model is built. *)
Definition approx_positions (matches : list (list MaximalExactMatch.t)) (position_depth : Z)
  : list (Z * list nat) :=
  sort_and_trim (vertices matches) position_depth <$> index (vertices matches).

(** The forward scan and the reverse scan. *)
Definition merged (matches : list (list MaximalExactMatch.t)) (band_width position_depth : Z)
  : Merging :=
  let entries := approx_positions matches position_depth in
  scan reverse_gap band_width (reverse entries)
       (scan forward_gap band_width entries (mk_merging (vertices matches) ∅)).

(** The body of [for (auto& v2 : q->second)] in "now build up the model";
    [None] when the weighting function fails. *)
Definition connect (max_connections : Z) (dropped : gset nat) (v1 : nat)
           (model : list Built) (v2 : nat) : option (list Built) :=
  if bool_decide (v2 ∈ dropped) then Some model
  else match model !! v1, model !! v2 with
       | Some m1, Some m2 =>
           if (Z.of_nat (length (next_cost m1)) <? to_size_t max_connections)
              && (Z.of_nat (length (Chain.prev_cost (chain m2))) <? to_size_t max_connections)
           then
             if (MaximalExactMatch.fragment (mem_of m1) <? MaximalExactMatch.fragment (mem_of m2))
                || (MaximalExactMatch.begin (mem_of m1) <? MaximalExactMatch.begin (mem_of m2))
             then
               weight ← transition_weight (mem_of m1) (mem_of m2);
               match weight with
               | Finite w => Some (push_prev v2 v1 w (push_next v1 v2 w model))
               | Lowest => Some model
               end
             else if (MaximalExactMatch.fragment (mem_of m1) >? MaximalExactMatch.fragment (mem_of m2))
                     || (MaximalExactMatch.begin (mem_of m1) >? MaximalExactMatch.begin (mem_of m2))
             then
               weight ← transition_weight (mem_of m2) (mem_of m1);
               match weight with
               | Finite w => Some (push_prev v1 v2 w (push_next v2 v1 w model))
               | Lowest => Some model
               end
             else Some model
           else Some model
       | _, _ => Some model
       end.

(** The body of [for (auto& v1 : p->second)]. *)
Definition connect_vertex (max_connections band_width : Z) (dropped : gset nat)
           (p : Z) (rest : list (Z * list nat)) (model : list Built) (v1 : nat)
  : option (list Built) :=
  if bool_decide (v1 ∈ dropped) then Some model
  else fold_option (fun model q => fold_option (connect max_connections dropped v1) (snd q) model)
                   (in_band band_width p rest) model.

(** "now build up the model using the positional bandwidth" *)
Fixpoint connect_all (max_connections band_width : Z) (dropped : gset nat)
         (entries : list (Z * list nat)) (model : list Built) : option (list Built) :=
  match entries with
  | [] => Some model
  | p :: rest =>
      model' ← fold_option (connect_vertex max_connections band_width dropped (fst p) rest)
                           (snd p) model;
      connect_all max_connections band_width dropped rest model'
  end.

(** [MEMChainModel::MEMChainModel]: the vector [model] of the object. *)
Definition MEMChainModel (matches : list (list MaximalExactMatch.t))
           (band_width position_depth max_connections : Z) : option (list Built) :=
  let s := merged matches band_width position_depth in
  connect_all max_connections band_width (redundant s)
              (approx_positions matches position_depth) (model s).
End Model.

(** *** Vocabulary of the proofs *)

(** The vector that [traceback] runs on. *)
Definition chains (model : list Built) : list Chain.Vertex := chain <$> model.

(** The model has the transition from [u] to [v] with the weight [w], as
    [v->prev_cost] says and as [u->next_cost] says. *)
Definition transition (model : list Built) (u v : nat) (w : Q) : Prop :=
  exists m, model !! v = Some m /\ (Some u, w) ∈ Chain.prev_cost (chain m).

Definition next_edge (model : list Built) (u v : nat) (w : Q) : Prop :=
  exists m, model !! u = Some m /\ (v, w) ∈ next_cost m.

(** What the third loop does not write. *)
Definition seed (m : Built) : MaximalExactMatch.t * Q * Z :=
  (mem_of m, Chain.weight (chain m), approx_position' m).

(** A transition that the third loop accepts: between vertices that were not
    merged into others, from the smaller fragment or the smaller begin, with
    the weight of the weighting function. *)
Definition accepted (transition_weight : MaximalExactMatch.t -> MaximalExactMatch.t -> option Weight)
           (dropped : gset nat) (seeds : list (MaximalExactMatch.t * Q * Z))
           (u v : nat) (w : Q) : Prop :=
  exists s1 s2,
    seeds !! u = Some s1 /\ seeds !! v = Some s2
    /\ (u ∉ dropped) /\ (v ∉ dropped)
    /\ (MaximalExactMatch.fragment (fst (fst s1)) < MaximalExactMatch.fragment (fst (fst s2))
        \/ MaximalExactMatch.begin (fst (fst s1)) < MaximalExactMatch.begin (fst (fst s2)))
    /\ transition_weight (fst (fst s1)) (fst (fst s2)) = Some (Finite w).

(** The invariant of the third loop. *)
Record wired (transition_weight : MaximalExactMatch.t -> MaximalExactMatch.t -> option Weight)
       (dropped : gset nat) (seeds : list (MaximalExactMatch.t * Q * Z))
       (model : list Built) : Prop := {
  wired_seeds : seed <$> model = seeds;
  wired_mirror : forall u v w, next_edge model u v w <-> transition model u v w;
  wired_accepted :
    forall u v w, transition model u v w -> accepted transition_weight dropped seeds u v w;
  wired_pointers :
    forall v m p, model !! v = Some m -> p ∈ Chain.prev_cost (chain m) -> is_Some (fst p);
  wired_unscored :
    forall v m, model !! v = Some m -> Chain.prev (chain m) = None /\ Chain.score (chain m) = 0%Q
}.

(** A vertex is one hit of one MEM of the input. *)
Definition hit_of `{XG} (matches : list (list MaximalExactMatch.t)) (m : Built) : Prop :=
  exists i fragment mem node,
    matches !! i = Some fragment /\ mem ∈ fragment /\ node ∈ MaximalExactMatch.nodes mem
    /\ MaximalExactMatch.fragment (mem_of m) = Z.of_nat i + 1
    /\ MaximalExactMatch.begin (mem_of m) = MaximalExactMatch.begin mem
    /\ MaximalExactMatch.match_count (mem_of m) = MaximalExactMatch.match_count mem
    /\ MaximalExactMatch.nodes (mem_of m) = [node]
    /\ approx_position' m = approx_position node.

(** What the two scans keep of a vertex: they write the end of its MEM and
    its weight only. *)
Definition hit (m : Built) : Z * Z * Z * list Position.t * Z :=
  (MaximalExactMatch.fragment (mem_of m), MaximalExactMatch.begin (mem_of m),
   MaximalExactMatch.match_count (mem_of m), MaximalExactMatch.nodes (mem_of m),
   approx_position' m).

(** The weight of a vertex is the length of its MEM, which is not
    negative. *)
Definition sound (m : Built) : Prop :=
  Chain.weight (chain m) = inject_Z (MaximalExactMatch.length (mem_of m))
  /\ MaximalExactMatch.begin (mem_of m) <= MaximalExactMatch.end' (mem_of m).

(** The vertex has no transition and no score. *)
Definition unwired (m : Built) : Prop :=
  next_cost m = [] /\ Chain.prev_cost (chain m) = []
  /\ Chain.prev (chain m) = None /\ Chain.score (chain m) = 0%Q.

(** The invariant of the two scans. *)
Definition tidy (hits : list (Z * Z * Z * list Position.t * Z)) (s : Merging) : Prop :=
  hit <$> model s = hits /\ Forall unwired (model s).

(** The MEMs of the input end at or after their begin. *)
Definition well_formed (matches : list (list MaximalExactMatch.t)) : Prop :=
  forall fragment mem, fragment ∈ matches -> mem ∈ fragment ->
                       MaximalExactMatch.begin mem <= MaximalExactMatch.end' mem.

(** The rank of a vertex of a read of one fragment: the number of vertices
    that begin before it. *)
Definition begin_of (model : list Built) (v : nat) : Z :=
  default 0 (MaximalExactMatch.begin <$> (mem_of <$> model !! v)).

Definition rank (model : list Built) (v : nat) : nat :=
  length (filter (fun m => MaximalExactMatch.begin (mem_of m) < begin_of model v) model).

(** The model and the clusters of a read of one fragment:
    [MEMChainModel markov_model({ aln.sequence().size() }, { mems }, this,
    transition_weight, aln.sequence().size())] and
    [markov_model.traceback(total_multimaps, false, debug)] of
    [mems_pos_clusters_to_alignments].  The declaration of the class is not
    in the sources, so the values of the two arguments that the call leaves
    to their defaults are arguments here. *)
Definition chain_clusters `{Aligner} `{QualAdjAligner} `{XG} `{Mapper} `{StdSort}
           (aln : Alignment.t) (mems : list MaximalExactMatch.t)
           (total_multimaps position_depth max_connections : Z)
  : option (list (list MaximalExactMatch.t)) :=
  markov_model ← MEMChainModel (Transition.transition_weight aln) [mems]
                               (size (Alignment.sequence aln))
                               position_depth max_connections;
  Chain.traceback (chains markov_model) total_multimaps false.

(** A cluster goes up in the read. *)
Definition ascending (cluster : list MaximalExactMatch.t) : Prop :=
  StronglySorted (fun m1 m2 => MaximalExactMatch.begin m1 < MaximalExactMatch.begin m2) cluster.
End Model.

(** The stable sort by insertion, for the examples. *)
Definition insertion_sort : StdSort :=
  {| sort_by := fun lt l =>
       fold_right (fix insert (x : nat) (sorted : list nat) : list nat :=
                     match sorted with
                     | [] => [x]
                     | y :: rest => if lt y x then y :: insert x rest else x :: sorted
                     end) [] l |}.

(** Two seeds of five bases on node 1, five bases apart in the read and in
    the graph, as the MEMs of a read of one fragment. *)
Definition seed_middle : MaximalExactMatch.t :=
  MaximalExactMatch.mk 5 10 (1, 1) 1 1 [Position.mk 1 5 false].
Definition near_seeds : list (list MaximalExactMatch.t) := [[seed_left; seed_middle]].
Definition tie_weight : MaximalExactMatch.t -> MaximalExactMatch.t -> option Weight :=
  @Transition.transition_weight default_aligner flat_qualities tie_graph default_mapper tie_read.

(** ** Rescue of a mate ([Mapper::pair_rescue]) *)

(** The collaborators of [pair_rescue]. *)
Class RescueEngines := {
  (** [reverse_complement] of a sequence *)
  reverse_complement : string -> string;
  (** The alignment of a read to the graph around a position: the two calls
      of [cached_graph_context], at the position and at its reverse, each
      with the given length, [remove_orphan_edges], and [align_to_graph]
      with [max_query_graph_ratio], the full length bonus, no pinning and no
      banding. *)
  align_to_context : Position.t -> Z -> Alignment.t -> Alignment.t;
  (** [reverse_complement_alignment] with the node lengths of that graph *)
  reverse_complement_in_context : Position.t -> Z -> Alignment.t -> Alignment.t
}.

Module Rescue.
Import FragmentModel.

(** [std::reverse] on a string *)
Definition reverse_string (s : string) : string :=
  string_of_list_ascii (rev (list_ascii_of_string s)).

Definition hang_threshold : Q := 9 # 10.
Definition retry_threshold : Q := 7 # 10.

Section Rescue.
Context `{Aligner} `{QualAdjAligner} `{XG} `{Mapper} `{Layout} `{RescueEngines}.

(** The read that is aligned to the context: a fresh alignment with the
    sequence and the quality of the mate, of the other strand when [flip]. *)
Definition rescue_read (mate : Alignment.t) (flip : bool) : Alignment.t :=
  if flip then
    let aln := Alignment.set_sequence Alignment.default
                                      (reverse_complement (Alignment.sequence mate)) in
    if negb (empty (Alignment.quality mate))
    then Alignment.set_quality aln (reverse_string (Alignment.quality mate))
    else aln
  else
    let aln := Alignment.set_sequence Alignment.default (Alignment.sequence mate) in
    if negb (empty (Alignment.quality mate))
    then Alignment.set_quality aln (Alignment.quality mate)
    else aln.

(** [get_at_least]; both branches read the sequence of [mate1]. *)
Definition get_at_least (m : FragmentModel.t) (mate1 : Alignment.t) : Z :=
  if Qeq_bool (cached_fragment_length_mean m) 0 then fragment_max
  else Z.max (double_to_int (cached_fragment_length_stdev m) * 6
              + size (Alignment.sequence mate1))
             (size (Alignment.sequence mate1) * 4).

(** One branch of the second half of [pair_rescue]: [mate] is aligned near
    [mate_pos], the position that was derived from [anchor].  The result is
    the new alignment when its score is higher than the one of [mate].
    [None] is [mapping(0)] on a path without a mapping, or a failure of
    [score_alignment]. *)
Definition rescue_off (m : FragmentModel.t) (mate_pos : Position.t) (length : Z)
           (anchor mate : Alignment.t) : option (option Alignment.t) :=
  first ← head (Alignment.path anchor);
  let is_rev := Position.is_reverse (Mapping.position first) in
  let flip := (negb is_rev && negb (cached_fragment_orientation m))
              || (is_rev && cached_fragment_orientation m) in
  let aln := align_to_context mate_pos length (rescue_read mate flip) in
  aln ← Rescore.set_rescore aln;
  let aln := if flip then reverse_complement_in_context mate_pos length aln else aln in
  if Alignment.score mate <? Alignment.score aln then Some (Some aln) else Some None.

(** [Mapper::pair_rescue]: the value that is returned, with [mate1] and
    [mate2] as the call leaves them. *)
Definition pair_rescue (m : FragmentModel.t) (mate1 mate2 : Alignment.t)
  : option (bool * Alignment.t * Alignment.t) :=
  if fragment_size m =? 0 then Some (false, mate1, mate2)
  else if Chain.Qgtb (Alignment.identity mate1) (Alignment.identity mate2)
          && Chain.Qgtb (Alignment.identity mate1) hang_threshold
          && Chain.Qgtb retry_threshold (Alignment.identity mate2)
  then
    mate_pos ← Mates.likely_mate_position m mate1 true;
    rescued ← rescue_off m mate_pos (Z.quot (get_at_least m mate1) 2) mate1 mate2;
    match rescued with
    | Some aln2 => Some (true, mate1, aln2)
    | None => Some (false, mate1, mate2)
    end
  else if Chain.Qgtb (Alignment.identity mate2) (Alignment.identity mate1)
          && Chain.Qgtb (Alignment.identity mate2) hang_threshold
          && Chain.Qgtb retry_threshold (Alignment.identity mate1)
  then
    mate_pos ← Mates.likely_mate_position m mate2 false;
    rescued ← rescue_off m mate_pos (Z.quot (get_at_least m mate1) 2) mate2 mate1;
    match rescued with
    | Some aln1 => Some (true, aln1, mate2)
    | None => Some (false, mate1, mate2)
    end
  else Some (false, mate1, mate2).
End Rescue.
End Rescue.

(** For the examples: every read is placed at the start of node 1; a mate
    that is not aligned; a fragment model with an estimate. *)
Definition placing_engines : RescueEngines :=
  {| reverse_complement := fun s => s;
     align_to_context := fun _ _ aln =>
       Alignment.set_path aln [Mapping.mk (Position.mk 1 0 false)
                                          [Edit.mk (size (Alignment.sequence aln))
                                                   (size (Alignment.sequence aln)) ""]];
     reverse_complement_in_context := fun _ _ aln => aln |}.
Definition lost_mate : Alignment.t :=
  Alignment.mk "ACGT" "" [] 0 0 0 false "mate" "" "" [].
Definition estimated_model : FragmentModel.t :=
  FragmentModel.mk 100 [] [] [] 50 5 true true 0.

(** ** The MEMs of two mates that can be paired ([Mapper::resolve_paired_mems]) *)

Module Pairable.
Import FragmentModel.

(** A pointer to a MEM: the vector it is in ([false] for [mems1], [true] for
    [mems2]) and its index. *)
Definition pointer : Type := bool * nat.

(** [id_to_mems[id].push_back(&mem); ids.insert(id); ids.push_back(id)] for
    the nodes of the MEMs of one read. *)
Record Hits := mk_hits {
  id_to_mems : list (Z * list pointer);
  ids_of_read : gset Z;
  ids : list Z
}.

Definition add_hit (second : bool) (index : nat) (h : Hits) (node : Position.t) : Hits :=
  let id := Position.node_id node in
  mk_hits (map_update Z.ltb Z.eqb id (fun l => default [] l ++ [(second, index)]) (id_to_mems h))
          ({[id]} ∪ ids_of_read h)
          (ids h ++ [id]).

(** "run through the mems" of one read; the map and the vector [ids] go on
    from the first read to the second, the set is of the read. *)
Definition add_hits (second : bool) (mems : list MaximalExactMatch.t)
           (id_to_mems0 : list (Z * list pointer)) (ids0 : list Z) : Hits :=
  fold_left (fun h im => fold_left (add_hit second (fst im)) (MaximalExactMatch.nodes (snd im)) h)
            (imap pair mems) (mk_hits id_to_mems0 ∅ ids0).

(** The body of [for (auto& x : g.second)]: the clusters with the most
    recent one first, and [prev]. *)
Definition cluster_step (fragment_size : Z) (st : list (list Z) * Z) (x : Z * list Z)
  : list (list Z) * Z :=
  let curr := fst x in
  let clusters :=
    if negb (snd st =? -1) && negb (curr - snd st <=? fragment_size)
    then [] :: fst st else fst st in
  (match clusters with
   | cluster :: rest => (cluster ++ snd x) :: rest
   | [] => []
   end, curr).

(** The body of [for (auto& g : node_positions)]. *)
Definition cluster_path (fragment_size : Z) (clusters : list (list Z))
           (g : string * list (Z * list Z)) : list (list Z) :=
  fst (fold_left (cluster_step fragment_size) (snd g) ([] :: clusters, -1)).

(** The body of the last loop. *)
Definition add_cluster (id_to_mems : list (Z * list pointer)) (ids1 ids2 : gset Z)
           (pairable : gset pointer) (cluster : list Z) : gset pointer :=
  let has_first := existsb (fun id => bool_decide (id ∈ ids1)) cluster in
  let has_second := existsb (fun id => bool_decide (id ∈ ids2)) cluster in
  if negb has_first || negb has_second then pairable
  else fold_left (fun pairable id =>
                    fold_left (fun pairable memptr => {[memptr]} ∪ pairable)
                              (default [] (map_find Z.eqb id id_to_mems)) pairable)
                 cluster pairable.

Section Pairable.
Context `{XG}.

(** "get each hit's path-relative position" *)
Definition node_positions (ids : list Z) : list (string * list (Z * list Z)) :=
  fold_left (fun np id => Positions.add_node id np) ids [].

(** The vector [clusters], in the order of the vector. *)
Definition clusters (m : FragmentModel.t) (ids : list Z) : list (list Z) :=
  reverse (fold_left (cluster_path (fragment_size m)) (node_positions ids) []).

(** [Mapper::resolve_paired_mems] *)
Definition resolve_paired_mems (m : FragmentModel.t) (mems1 mems2 : list MaximalExactMatch.t)
  : gset pointer :=
  let hits1 := add_hits false mems1 [] [] in
  let hits2 := add_hits true mems2 (id_to_mems hits1) (ids hits1) in
  fold_left (add_cluster (id_to_mems hits2) (ids_of_read hits1) (ids_of_read hits2))
            (clusters m (ids hits2)) ∅.

(** *** Vocabulary of the proofs *)

(** The MEM has a hit on a node that the path visits at the offset. *)
Definition on_path (mem : MaximalExactMatch.t) (name : string) (offset : Z) : Prop :=
  exists node offsets,
    node ∈ MaximalExactMatch.nodes mem
    /\ (name, offsets) ∈ position_in_paths (Position.node_id node) false 0
    /\ offset ∈ offsets.
End Pairable.

(** The entries of a map are in ascending order of the keys. *)
Definition ascending_keys {K V} (ltb : K -> K -> bool) (m : list (K * V)) : Prop :=
  StronglySorted (fun e1 e2 => ltb (fst e1) (fst e2) = true) m.

(** The node with the id is recorded at the offset of the path. *)
Definition recorded (np : list (string * list (Z * list Z))) (name : string) (offset id : Z)
  : Prop :=
  exists by_pos l, map_find String.eqb name np = Some by_pos
                   /\ map_find Z.eqb offset by_pos = Some l /\ id ∈ l.

(** The map of the positions and the maps in it are in order. *)
Definition indexed (np : list (string * list (Z * list Z))) : Prop :=
  ascending_keys String.ltb np /\ Forall (fun e => ascending_keys Z.ltb (snd e)) np.

(** The pointer is filed under the id, and the id is in the vector [ids]. *)
Definition filed (h : Hits) (ptr : pointer) (id : Z) : Prop :=
  id ∈ ids h /\ ptr ∈ default [] (map_find Z.eqb id (id_to_mems h)).

(** A cluster of the vector has all these ids. *)
Definition holds (ids : list Z) (clusters : list (list Z)) : Prop :=
  exists cluster, cluster ∈ clusters /\ ids ⊆ cluster.
End Pairable.

(** A MEM of five bases with one hit, at the start of a node. *)
Definition hit_on (id : Z) : MaximalExactMatch.t :=
  MaximalExactMatch.mk 0 5 (0, 0) 1 0 [Position.mk id 0 false].

(** ** The best path through the bands ([Mapper::resolve_banded_multi]) *)

(** The collaborators of [resolve_banded_multi]: [path_end] of a path,
    [VG::adjacent] on the neighbourhood of two positions that
    [adjacent_positions] collects from the index, and [has_path] of an
    alignment. *)
Class BandEngines := {
  path_end : list Mapping.t -> Position.t;
  graph_adjacent : Position.t -> Position.t -> bool;
  has_path : Alignment.t -> bool
}.

Module Bands.

(** [score_t]: the score, the alignment (its index in the alignments of its
    band) and the index of the parent in the scores of the band before. *)
Definition score_t : Type := Z * nat * nat.
Definition score_of (t : score_t) : Z := fst (fst t).
Definition alignment_of (t : score_t) : nat := snd (fst t).
Definition parent_of (t : score_t) : nat := snd t.

(** The scan of [prev_scores] for [best_prev] and [unmapped_prev]. *)
Record Previous := mk_previous {
  best_prev : score_t;
  best_idx : nat;
  unmapped_prev : score_t;
  unmapped_idx : nat
}.

Definition scan_previous_step (st : Previous * nat) (t : score_t) : Previous * nat :=
  let '(p, j) := st in
  let p := if score_of (best_prev p) <? score_of t
           then mk_previous t j (unmapped_prev p) (unmapped_idx p) else p in
  let p := if score_of t =? 0
           then mk_previous (best_prev p) (best_idx p) t j else p in
  (p, S j).

(** [None] is [prev_scores.front()] on an empty vector. *)
Definition scan_previous (prev_scores : list score_t) : option Previous :=
  first ← head prev_scores;
  Some (fst (fold_left scan_previous_step prev_scores (mk_previous first 0 first 0, 0%nat))).

(** The scores of the first band. *)
Definition first_scores (alns : list Alignment.t) : list score_t :=
  imap (fun j aln => (Alignment.score aln, j, 0%nat)) alns.

(** [candidates.rbegin()->second.front()] *)
Definition best_candidate (candidates : list (Z * list (score_t * nat))) : option (score_t * nat) :=
  last candidates ≫= fun entry => head (snd entry).

Section Bands.
Context `{BandEngines}.

(** [Mapper::adjacent_positions] *)
Definition adjacent_positions (pos1 pos2 : Position.t) : bool :=
  if (Position.node_id pos1 =? Position.node_id pos2)
     && (Position.offset pos1 =? Position.offset pos2 - 1)
  then true
  else graph_adjacent pos1 pos2.

(** The body of [for (auto& score : prev_scores)]: the candidates and [k],
    which counts the mapped alignments only. *)
Definition candidate_step (prev_alns : list Alignment.t) (curr_start : Position.t)
           (st : list (Z * list (score_t * nat)) * nat) (score : score_t)
  : option (list (Z * list (score_t * nat)) * nat) :=
  old ← prev_alns !! alignment_of score;
  if Alignment.score old =? 0 then Some st
  else
    let prev_end := path_end (Alignment.path old) in
    let candidates :=
      if adjacent_positions prev_end curr_start
      then map_update Z.ltb Z.eqb (score_of score)
                      (fun l => default [] l ++ [(score, snd st)]) (fst st)
      else fst st in
    Some (candidates, S (snd st)).

(** The body of [for (auto& aln : curr_alns)] for the alignment at index
    [a]; [None] is [mapping(0)] on a path without a mapping, or a pointer
    that is not in the band before. *)
Definition score_alignment_in_band (prev_alns : list Alignment.t) (prev_scores : list score_t)
           (previous : Previous) (a : nat) (aln : Alignment.t) : option score_t :=
  if Alignment.score aln =? 0
  then Some (score_of (best_prev previous), a, best_idx previous)
  else
    first ← head (Alignment.path aln);
    let curr_start := Mapping.position first in
    st ← Model.fold_option (candidate_step prev_alns curr_start) prev_scores ([], 0%nat);
    match fst st with
    | _ :: _ =>
        opt ← best_candidate (fst st);
        Some (score_of (fst opt) + Alignment.score aln, a, snd opt)
    | [] =>
        best_score ← prev_scores !! best_idx previous;
        best_prev_aln ← prev_alns !! alignment_of best_score;
        if has_path best_prev_aln
        then Some (score_of (best_prev previous), a, best_idx previous)
        else Some (score_of (unmapped_prev previous), a, unmapped_idx previous)
    end.

(** One turn of [for (size_t i = 1; i < multi_alns.size(); ++i)]. *)
Definition band_scores (prev_alns : list Alignment.t) (prev_scores : list score_t)
           (curr_alns : list Alignment.t) : option (list score_t) :=
  previous ← scan_previous prev_scores;
  mapM (fun ja => score_alignment_in_band prev_alns prev_scores previous (fst ja) (snd ja))
       (imap pair curr_alns).

(** The vector [scores], band after band. *)
Fixpoint all_scores (prev_alns : list Alignment.t) (prev_scores : list score_t)
         (bands : list (list Alignment.t)) : option (list (list score_t)) :=
  match bands with
  | [] => Some []
  | curr_alns :: rest =>
      curr_scores ← band_scores prev_alns prev_scores curr_alns;
      later ← all_scores curr_alns curr_scores rest;
      Some (curr_scores :: later)
  end.

(** "find the best score at the end": the index of the first maximum. *)
Definition best_last_idx (last_scores : list score_t) : option nat :=
  first ← head last_scores;
  Some (snd (fst (fold_left (fun st s =>
                               let '(best, idx, j) := st in
                               if score_of best <? score_of s then (s, j, S j) else (best, idx, S j))
                            last_scores (first, 0%nat, 0%nat)))).

(** "accumulate the alignments in the optimal path", from the last band to
    the first: the bands and their scores come in reverse order. *)
Fixpoint trace_back (bands : list (list Alignment.t)) (scores : list (list score_t))
         (prev_best_idx : nat) : option (list Alignment.t) :=
  match bands, scores with
  | alns :: bands', band_scores :: scores' =>
      score ← band_scores !! prev_best_idx;
      aln ← alns !! alignment_of score;
      earlier ← trace_back bands' scores' (parent_of score);
      Some (earlier ++ [aln])
  | _, _ => Some []
  end.

(** [Mapper::resolve_banded_multi]; [None] is an access out of the bounds
    of a vector. *)
Definition resolve_banded_multi (multi_alns : list (list Alignment.t))
  : option (list Alignment.t) :=
  match multi_alns with
  | [] => None
  | first :: rest =>
      later ← all_scores first (first_scores first) rest;
      let scores := first_scores first :: later in
      last_scores ← last scores;
      idx ← best_last_idx last_scores;
      trace_back (reverse multi_alns) (reverse scores) idx
  end.
End Bands.

(** *** Vocabulary of the proofs *)

(** The bands that [align_banded] passes: every band has an alignment, and
    an alignment with a score has a mapping. *)
Definition resolvable (multi_alns : list (list Alignment.t)) : Prop :=
  Forall (fun alns => alns <> []
                      /\ Forall (fun aln => Alignment.score aln <> 0 -> Alignment.path aln <> [])
                                alns)
         multi_alns.

(** The candidates of an alignment: no entry of the map is empty, and the
    parents are below a bound. *)
Definition candidates_below (n : nat) (candidates : list (Z * list (score_t * nat))) : Prop :=
  Forall (fun entry => snd entry <> [] /\ Forall (fun c => (snd c < n)%nat) (snd entry))
         candidates.

(** The scores of a band are one for each alignment, in the order of the
    alignments, with a parent in the band before. *)
Definition scores_of_band (parents : nat) (alns : list Alignment.t) (scores : list score_t)
  : Prop :=
  length scores = length alns
  /\ forall j t, scores !! j = Some t -> alignment_of t = j /\ (parent_of t < parents)%nat.

(** The bands and their scores from the last band to the first: every band
    has its scores, with parents in the scores of the band before it. *)
Fixpoint chained (rbands : list (list Alignment.t)) (rscores : list (list score_t)) : Prop :=
  match rbands, rscores with
  | [], [] => True
  | alns :: rb, sc :: rs =>
      scores_of_band (match rs with [] => 1 | prev :: _ => length prev end) alns sc
      /\ alns <> [] /\ chained rb rs
  | _, _ => False
  end.
End Bands.

(** For the examples: the end of a path is the position of its last
    mapping, no two positions are adjacent in the graph, and an alignment
    has a path when it has a mapping. *)
Definition plain_bands : BandEngines :=
  {| path_end := fun path =>
       match last path with
       | Some mapping => Mapping.position mapping
       | None => Position.mk 0 0 false
       end;
     graph_adjacent := fun _ _ => false;
     has_path := fun aln => match Alignment.path aln with [] => false | _ => true end |}.

(** ** The perfect-match alignment of a chain of MEMs ([Mapper::mems_to_alignment]) *)

(** The collaborators of [mems_to_alignment]: [walk_match(seq, pos)], the
    match of a sequence from a position of the graph, and
    [strip_from_start] and [merge_alignments] of [alignment.hpp]. *)
Class MatchEngines := {
  walk_match : string -> Position.t -> Alignment.t;
  strip_from_start : Alignment.t -> Z -> Alignment.t;
  merge_alignments : list Alignment.t -> Alignment.t
}.

Module Perfect.

(** [MaximalExactMatch::sequence] for a MEM of the read: the characters from
    [begin] to [end].  [None] when the two iterators are not a range of the
    read. *)
Definition mem_sequence (read : string) (mem : MaximalExactMatch.t) : option string :=
  if (0 <=? MaximalExactMatch.begin mem)
     && (MaximalExactMatch.begin mem <=? MaximalExactMatch.end' mem)
     && (MaximalExactMatch.end' mem <=? size read)
  then Some (substring (Z.to_nat (MaximalExactMatch.begin mem))
                       (Z.to_nat (MaximalExactMatch.end' mem - MaximalExactMatch.begin mem))
                       read)
  else None.

Section Perfect.
Context `{MatchEngines}.

(** [Mapper::mem_to_alignment]; [None] also for [nodes.front()] of a MEM
    without a hit. *)
Definition mem_to_alignment (read : string) (mem : MaximalExactMatch.t) : option Alignment.t :=
  seq ← mem_sequence read mem;
  node ← head (MaximalExactMatch.nodes mem);
  Some (walk_match seq node).

(** The body of [for (int i = 0; i < mems.size(); ++i)]: the vector [alns]
    and [last_end]. *)
Definition piece_step (read : string) (st : list Alignment.t * Z)
           (im : nat * MaximalExactMatch.t) : option (list Alignment.t * Z) :=
  let mem := snd im in
  let last_end := snd st in
  if MaximalExactMatch.end' mem <=? last_end then Some st
  else
    alns ← (if last_end <? MaximalExactMatch.begin mem
            then gap ← substr read last_end (MaximalExactMatch.begin mem - last_end);
                 Some (fst st ++ [Alignment.set_sequence Alignment.default gap])
            else Some (fst st));
    aln ← mem_to_alignment read mem;
    let aln :=
      if (0 <? fst im)%nat then
        let overlap := last_end - MaximalExactMatch.begin mem in
        if 0 <? overlap then strip_from_start aln overlap else aln
      else aln in
    Some (alns ++ [aln], MaximalExactMatch.end' mem).

(** The vector [alns] that is merged, for a vector of MEMs that is not
    empty. *)
Definition pieces (aln : Alignment.t) (mems : list MaximalExactMatch.t)
  : option (list Alignment.t) :=
  let read := Alignment.sequence aln in
  st ← Model.fold_option (piece_step read) (imap pair mems) ([], 0);
  let start := snd st in
  let length := size read - (0 + start) in
  tail ← substr read start length;
  Some (fst st ++ [Alignment.set_sequence Alignment.default tail]).

(** [Mapper::mems_to_alignment] *)
Definition mems_to_alignment (aln : Alignment.t) (mems : list MaximalExactMatch.t)
  : option Alignment.t :=
  match mems with
  | [] => Some Alignment.default
  | _ => alns ← pieces aln mems;
         Some (Alignment.set_quality (merge_alignments alns) (Alignment.quality aln))
  end.
End Perfect.

(** *** Vocabulary of the proofs *)

(** What a piece stands for: bases of the read that no MEM covers, or a MEM
    from an offset of the read to its end. *)
Inductive Span :=
| Unaligned (from to : Z)
| Matched (mem : MaximalExactMatch.t) (from : Z).

Definition span_from (span : Span) : Z :=
  match span with Unaligned from _ => from | Matched _ from => from end.
Definition span_to (span : Span) : Z :=
  match span with Unaligned _ to => to | Matched mem _ => MaximalExactMatch.end' mem end.

(** The piece of a span: the MEM is stripped of the bases before the
    offset. *)
Definition realize `{MatchEngines} (read : string) (span : Span) : option Alignment.t :=
  match span with
  | Unaligned from to =>
      gap ← substr read from (to - from);
      Some (Alignment.set_sequence Alignment.default gap)
  | Matched mem from =>
      aln ← mem_to_alignment read mem;
      Some (if MaximalExactMatch.begin mem <? from
            then strip_from_start aln (from - MaximalExactMatch.begin mem) else aln)
  end.

(** The spans of the pieces, from the offset [last_end] of a read of the
    given length on. *)
Fixpoint layout (last_end : Z) (mems : list MaximalExactMatch.t) (length : Z) : list Span :=
  match mems with
  | [] => [Unaligned last_end length]
  | mem :: rest =>
      if MaximalExactMatch.end' mem <=? last_end then layout last_end rest length
      else (if last_end <? MaximalExactMatch.begin mem
            then [Unaligned last_end (MaximalExactMatch.begin mem)] else [])
           ++ Matched mem (Z.max last_end (MaximalExactMatch.begin mem))
           :: layout (MaximalExactMatch.end' mem) rest length
  end.

(** The pieces of one MEM that is not skipped: the gap before it, when
    there is one, and the MEM from the end of the one before. *)
Definition one_mem `{MatchEngines} (read : string) (last_end : Z) (mem : MaximalExactMatch.t)
           (aln : Alignment.t) : list Alignment.t :=
  (if last_end <? MaximalExactMatch.begin mem
   then [Alignment.set_sequence
           Alignment.default
           (default EmptyString
                    (substr read last_end (MaximalExactMatch.begin mem - last_end)))]
   else [])
  ++ [if MaximalExactMatch.begin mem <? Z.max last_end (MaximalExactMatch.begin mem)
      then strip_from_start aln (Z.max last_end (MaximalExactMatch.begin mem)
                                 - MaximalExactMatch.begin mem)
      else aln].

(** The spans follow one another from an offset to another one. *)
Fixpoint tiles (from to : Z) (spans : list Span) : Prop :=
  match spans with
  | [] => from = to
  | span :: rest =>
      span_from span = from /\ from <= span_to span /\ tiles (span_to span) to rest
  end.

(** The MEMs are ranges of the read and have a hit. *)
Definition within (read : string) (mems : list MaximalExactMatch.t) : Prop :=
  Forall (fun mem => 0 <= MaximalExactMatch.begin mem
                     /\ MaximalExactMatch.begin mem <= MaximalExactMatch.end' mem
                     /\ MaximalExactMatch.end' mem <= size read
                     /\ MaximalExactMatch.nodes mem <> [])
         mems.
End Perfect.

(** For the examples: a match is the read on one node, stripping drops
    bases of the sequence, and merging appends the sequences. *)
Definition plain_matches : MatchEngines :=
  {| walk_match := fun seq pos =>
       Alignment.mk seq "" [Mapping.mk pos [Edit.mk (size seq) (size seq) ""]]
                    0 1 0 false "" "" "" [];
     strip_from_start := fun aln n =>
       Alignment.set_sequence aln (substring (Z.to_nat n) (String.length (Alignment.sequence aln))
                                             (Alignment.sequence aln));
     merge_alignments := fun alns =>
       Alignment.set_sequence Alignment.default
                              (fold_right (fun aln s => append (Alignment.sequence aln) s)
                                          EmptyString alns) |}.

(** ** Clusters of node ids ([Mapper::mems_id_clusters_to_alignments]) *)

(** The members of [Mapper] that [mems_id_clusters_to_alignments] reads,
    beside [max_multimaps]. *)
Class ThreadSettings := {
  thread_extension : Z;
  cluster_min : Z;
  max_attempts : Z;
  greedy_accept : bool;
  accept_identity : Q
}.

(** The collaborators of [mems_id_clusters_to_alignments].  The subgraph
    [sub] of a cluster is what [get_id_range] gives for each of its ids,
    expanded by [expand_context] with [context_depth]. *)
Class SubgraphEngines := {
  (** [reverse_complement_alignment] with [get_node_length] *)
  reverse_complement_alignment : Alignment.t -> Alignment.t;
  (** the ids of the nodes that [sub.for_each_node] visits *)
  subgraph_nodes : list Z -> list Z;
  (** [max_target_factor && sub.length() > max_target_length] for the read *)
  subgraph_too_long : Alignment.t -> list Z -> bool;
  (** [align_to_graph(aln, sub, max_query_graph_ratio)], then
      [resolve_softclips(aln, sub)] *)
  align_to_subgraph : Alignment.t -> list Z -> Alignment.t
}.

Module Threads.

(** The wrap-around of an [uint32_t]. *)
Definition to_uint32 (z : Z) : Z := z mod 2 ^ 32.

Record StrandCounts := mk_counts { forward : Z; reverse' : Z }.

(** [node_strands], [id_to_mems] and [ids]; a pointer to a MEM is the MEM,
    which the function only reads. *)
Record Hits := mk_hits {
  node_strands : list (Z * StrandCounts);
  id_to_mems : list (Z * list MaximalExactMatch.t);
  ids : list Z
}.

(** [node_strands[id].reverse++] and [node_strands[id].forward++] *)
Definition count_strand (rc : bool) (counts : option StrandCounts) : StrandCounts :=
  let c := default (mk_counts 0 0) counts in
  if rc then mk_counts (forward c) (to_uint32 (reverse' c + 1))
  else mk_counts (to_uint32 (forward c + 1)) (reverse' c).

(** The body of [for (auto& node : mem.nodes)]. *)
Definition add_hit (mem : MaximalExactMatch.t) (h : Hits) (node : Position.t) : Hits :=
  let id := Position.node_id node in
  mk_hits (map_update Z.ltb Z.eqb id (count_strand (Position.is_reverse node)) (node_strands h))
          (map_update Z.ltb Z.eqb id (fun l => default [] l ++ [mem]) (id_to_mems h))
          (ids h ++ [id]).

(** [for (auto& mem : mems)] *)
Definition hits (mems : list MaximalExactMatch.t) : Hits :=
  fold_left (fun h mem => fold_left (add_hit mem) (MaximalExactMatch.nodes mem) h)
            mems (mk_hits [] [] []).

(** [std::unique] with [erase]: one id of every run of equal ids. *)
Fixpoint unique (ids : list Z) : list Z :=
  match ids with
  | [] => []
  | id :: rest =>
      match rest with
      | next :: _ => if id =? next then unique rest else id :: unique rest
      | [] => [id]
      end
  end.

(** [ids] after [std::sort] and [std::unique]. *)
Definition sorted_ids (mems : list MaximalExactMatch.t) : list Z :=
  unique (merge_sort Z.le (ids (hits mems))).

(** [cluster_query_coverage[&cluster]]; [None] when the loop over the
    positions of a MEM would run off the read. *)
Definition query_coverage (id_to_mems : list (Z * list MaximalExactMatch.t))
           (cluster : list Z) : option Z :=
  seen ← Model.fold_option
         (fun seen id => Clusters.cover_all seen (default [] (map_find Z.eqb id id_to_mems)))
         cluster (∅ : gset Z);
  Some (Z.of_nat (stdpp.base.size seen)).

(** The order of [ranked_clusters]; a pointer to a cluster is its index in
    [clusters]. *)
Definition better (clusters : list (list Z)) (coverage : list Z) (a b : nat) : bool :=
  let len_a := default 0 (coverage !! a) in
  let len_b := default 0 (coverage !! b) in
  if len_a =? len_b
  then (length (default [] (clusters !! a)) <? length (default [] (clusters !! b)))%nat
  else len_b <? len_a.

(** [fw_mems] and [rc_mems] of a subgraph. *)
Definition strand_totals (node_strands : list (Z * StrandCounts)) (nodes : list Z)
  : StrandCounts :=
  fold_left (fun c n =>
               match map_find Z.eqb n node_strands with
               | Some ns => mk_counts (to_uint32 (forward c + forward ns))
                                      (to_uint32 (reverse' c + reverse' ns))
               | None => c
               end)
            nodes (mk_counts 0 0).

Section Threads.
Context `{Mapper} `{ThreadSettings} `{SubgraphEngines} `{StdSort}.

(** The loop [for (auto& id : ids)] after an id [prev]: [back] is the
    cluster [clusters.back()] without [prev], its last id; the clusters
    before it are in the vector already. *)
Fixpoint extend (back : list Z) (prev : Z) (ids : list Z) : list (list Z) :=
  match ids with
  | [] => [back ++ [prev]]
  | id :: rest =>
      if id - prev <=? thread_extension then extend (back ++ [prev]) id rest
      else (back ++ [prev]) :: extend [] id rest
  end.

(** The vector [clusters]. *)
Definition id_clusters (ids : list Z) : list (list Z) :=
  match ids with
  | [] => []
  | id :: rest => extend [] id rest
  end.

(** [attempts >= total_multimaps && greedy_accept
     && aln.identity() >= accept_identity] *)
Definition accepted (total_multimaps attempts : Z) (aln : Alignment.t) : bool :=
  (to_size_t total_multimaps <=? attempts) && greedy_accept
  && Qle_bool accept_identity (Alignment.identity aln).

(** The alignments to the subgraph of a cluster on the two strands; the flag
    tells that the loop over the clusters is left. *)
Definition align_cluster (total_multimaps attempts : Z) (aln_fw aln_rc : Alignment.t)
           (counts : StrandCounts) (cluster : list Z) (alns : list Alignment.t)
  : list Alignment.t * bool :=
  let fw :=
    if forward counts =? 0 then (alns, false)
    else let aln := align_to_subgraph aln_fw cluster in
         (alns ++ [aln], accepted total_multimaps attempts aln) in
  if snd fw then fw
  else if reverse' counts =? 0 then (fst fw, false)
       else let aln := align_to_subgraph aln_rc cluster in
            (fst fw ++ [reverse_complement_alignment aln],
             accepted total_multimaps attempts aln).

(** [for (auto& cptr : ranked_clusters)] with the count of attempts. *)
Fixpoint attempt_clusters (alignment : Alignment.t) (total_multimaps : Z)
         (aln_fw aln_rc : Alignment.t) (node_strands : list (Z * StrandCounts))
         (clusters : list (list Z)) (ranked_clusters : list nat) (attempts : Z)
         (alns : list Alignment.t) : option (list Alignment.t) :=
  match ranked_clusters with
  | [] => Some alns
  | cptr :: rest =>
      cluster ← clusters !! cptr;
      if Z.of_nat (length cluster) <? to_size_t cluster_min
      then attempt_clusters alignment total_multimaps aln_fw aln_rc node_strands clusters
                            rest attempts alns
      else
        let attempts := attempts + 1 in
        if to_size_t (Z.max max_attempts total_multimaps) <? attempts then Some alns
        else if subgraph_too_long alignment cluster
        then attempt_clusters alignment total_multimaps aln_fw aln_rc node_strands clusters
                              rest attempts alns
        else
          let r := align_cluster total_multimaps attempts aln_fw aln_rc
                                 (strand_totals node_strands (subgraph_nodes cluster))
                                 cluster alns in
          if snd r then Some (fst r)
          else attempt_clusters alignment total_multimaps aln_fw aln_rc node_strands clusters
                                rest attempts (fst r)
  end.

(** The vector [ranked_clusters] after [std::sort]. *)
Definition ranked (clusters : list (list Z)) (coverage : list Z) : list nat :=
  sort_by (better clusters coverage) (seq 0 (length clusters)).

(** [Mapper::mems_id_clusters_to_alignments] *)
Definition mems_id_clusters_to_alignments (alignment : Alignment.t)
           (mems : list MaximalExactMatch.t) (additional_multimaps : Z)
  : option (list Alignment.t) :=
  let total_multimaps := max_multimaps + additional_multimaps in
  let h := hits mems in
  let clusters := id_clusters (unique (merge_sort Z.le (ids h))) in
  coverage ← mapM (query_coverage (id_to_mems h)) clusters;
  let ranked_clusters := ranked clusters coverage in
  let aln_fw := Alignment.set_score (Alignment.clear_path alignment) 0 in
  let aln_rc := reverse_complement_alignment aln_fw in
  attempt_clusters alignment total_multimaps aln_fw aln_rc (node_strands h) clusters
                   ranked_clusters 0 [].
End Threads.

(** *** Vocabulary of the proofs *)

(** [y] is the element after [x] in the list. *)
Definition follows {A} (l : list A) (x y : A) : Prop :=
  exists before after, l = before ++ x :: y :: after.

(** A MEM has a hit on the node, on the given strand. *)
Definition hit_on (mems : list MaximalExactMatch.t) (rc : bool) (id : Z) : Prop :=
  exists mem node,
    mem ∈ mems /\ node ∈ MaximalExactMatch.nodes mem
    /\ Position.node_id node = id /\ Position.is_reverse node = rc.

(** The vector [ranked_clusters] for the MEMs. *)
Definition ranking `{ThreadSettings} `{StdSort} (mems : list MaximalExactMatch.t) : list nat :=
  let clusters := id_clusters (sorted_ids mems) in
  ranked clusters (default [] (mapM (query_coverage (id_to_mems (hits mems))) clusters)).

(** What [node_strands] tells about a node: a count that is not zero stands
    for a hit on that strand. *)
Definition counted (mems : list MaximalExactMatch.t) (entry : Z * StrandCounts) : Prop :=
  (forward (snd entry) <> 0 -> hit_on mems false (fst entry))
  /\ (reverse' (snd entry) <> 0 -> hit_on mems true (fst entry)).

(** The alignment of the read, on one of the two strands, to the subgraph
    of a cluster that is large enough, whose subgraph is not too long and
    has a node with a hit on that strand. *)
Definition attempted `{ThreadSettings} `{SubgraphEngines} (alignment : Alignment.t)
           (mems : list MaximalExactMatch.t) (clusters : list (list Z)) (aln : Alignment.t)
  : Prop :=
  let aln_fw := Alignment.set_score (Alignment.clear_path alignment) 0 in
  exists cluster,
    cluster ∈ clusters
    /\ to_size_t cluster_min <= Z.of_nat (length cluster)
    /\ subgraph_too_long alignment cluster = false
    /\ (aln = align_to_subgraph aln_fw cluster
        /\ (exists id, id ∈ subgraph_nodes cluster /\ hit_on mems false id)
        \/ aln = reverse_complement_alignment
                   (align_to_subgraph (reverse_complement_alignment aln_fw) cluster)
           /\ (exists id, id ∈ subgraph_nodes cluster /\ hit_on mems true id)).
End Threads.

(** For the examples: clusters of ids at most ten apart, the subgraph of a
    cluster is its nodes, and the alignment to it visits the first of them. *)
Definition default_threads : ThreadSettings :=
  {| thread_extension := 10;
     cluster_min := 1;
     max_attempts := 0;
     greedy_accept := false;
     accept_identity := 3 # 4 |}.
Definition plain_subgraphs : SubgraphEngines :=
  {| reverse_complement_alignment := fun aln => aln;
     subgraph_nodes := fun cluster => cluster;
     subgraph_too_long := fun _ _ => false;
     align_to_subgraph := fun aln cluster =>
       Alignment.set_path aln [Mapping.mk (Position.mk (default 0 (head cluster)) 0 false) []] |}.
(** A seed with a hit on the reverse strand of node 40 and a hit on node 2. *)
Definition seed_far : MaximalExactMatch.t :=
  MaximalExactMatch.mk 5 10 (1, 1) 1 1 [Position.mk 40 0 true; Position.mk 2 3 false].

(** ** The weight of a cluster ([Mapper::compute_cluster_mapping_quality]) *)

Module Quality.

(** [prev.end <= mem.begin ? 0 : prev.end - mem.begin] behind
    [if (prev.fragment == mem.fragment)]: what is added to
    [shared_coverage] for a MEM and the one after it. *)
Definition shared (prev mem : MaximalExactMatch.t) : Z :=
  if MaximalExactMatch.fragment prev =? MaximalExactMatch.fragment mem
  then if MaximalExactMatch.end' prev <=? MaximalExactMatch.begin mem then 0
       else MaximalExactMatch.end' prev - MaximalExactMatch.begin mem
  else 0.

(** [shared_coverage] of [cluster[i]]: [prev] is [cluster[i-1]] when
    [i > 0], and [next] is [cluster[i+1]] when [i < cluster.size()-1]. *)
Definition shared_coverage (prev : option MaximalExactMatch.t) (mem : MaximalExactMatch.t)
           (next : option MaximalExactMatch.t) : Z :=
  let shared_coverage := 0 in
  let shared_coverage :=
    match prev with Some prev => shared_coverage + shared prev mem | None => shared_coverage end in
  match next with Some next => shared_coverage + shared mem next | None => shared_coverage end.

(** What the body of [for (int i = 0; i < cluster.size(); ++i)] adds to
    [weight]; [None] for a division by zero. *)
Definition mem_weight (read_length : Z) (prev : option MaximalExactMatch.t)
           (mem : MaximalExactMatch.t) (next : option MaximalExactMatch.t) : option Q :=
  if (read_length =? 0) || (MaximalExactMatch.match_count mem =? 0) then None
  else Some (((inject_Z (MaximalExactMatch.length mem)
               - inject_Z (shared_coverage prev mem next) / 2)
              / inject_Z read_length)
             / inject_Z (MaximalExactMatch.match_count mem))%Q.

(** The loop over the MEMs of a cluster, from a MEM on. *)
Fixpoint weight_loop (read_length : Z) (prev : option MaximalExactMatch.t)
         (cluster : list MaximalExactMatch.t) (weight : Q) : option Q :=
  match cluster with
  | [] => Some weight
  | mem :: rest =>
      w ← mem_weight read_length prev mem (head rest);
      weight_loop read_length (Some mem) rest (weight + w)%Q
  end.

(** The entry of [weights] for a cluster. *)
Definition cluster_weight (read_length : Z) (cluster : list MaximalExactMatch.t) : option Q :=
  weight_loop read_length None cluster 0%Q.

(** *** Vocabulary of the proofs *)

(** The MEMs of a cluster of one fragment in the order of the read, each
    with one hit: no MEM begins or ends before the one before it. *)
Fixpoint in_read_order (cluster : list MaximalExactMatch.t) : Prop :=
  match cluster with
  | [] => True
  | mem :: rest =>
      MaximalExactMatch.match_count mem = 1
      /\ MaximalExactMatch.begin mem <= MaximalExactMatch.end' mem
      /\ match rest with
         | next :: _ =>
             MaximalExactMatch.fragment mem = MaximalExactMatch.fragment next
             /\ MaximalExactMatch.begin mem <= MaximalExactMatch.begin next
             /\ MaximalExactMatch.end' mem <= MaximalExactMatch.end' next
         | [] => True
         end
      /\ in_read_order rest
  end.
End Quality.

(** A seed of the first eight bases of the read, with one hit. *)
Definition seed_wide : MaximalExactMatch.t :=
  MaximalExactMatch.mk 0 8 (0, 0) 1 1 [Position.mk 1 0 false].
(* ===================================================================== *)
(** * Part II: properties                                                 *)
(* ===================================================================== *)

(** ** Canonical rescoring *)

Module RescoreProofs.
Import Rescore.

Section Facts.
Context `{Aligner} `{QualAdjAligner} `{XG} `{Mapper}.

Lemma endpoint_test (msz i esz j : nat) :
  ((Z.of_nat i =? 0) && (Z.of_nat j =? 0)
   || (Z.of_nat i =? Z.of_nat msz - 1) && (Z.of_nat j =? Z.of_nat esz - 1))%bool
  = ((Nat.eqb i 0 && Nat.eqb j 0)
     || (Nat.eqb (S i) msz && Nat.eqb (S j) esz))%bool.
Proof.
  destruct (Nat.eqb_spec i 0), (Nat.eqb_spec j 0),
    (Nat.eqb_spec (S i) msz), (Nat.eqb_spec (S j) esz),
    (Z.eqb_spec (Z.of_nat i) 0), (Z.eqb_spec (Z.of_nat j) 0),
    (Z.eqb_spec (Z.of_nat i) (Z.of_nat msz - 1)),
    (Z.eqb_spec (Z.of_nat j) (Z.of_nat esz - 1)); simpl; try reflexivity; lia.
Qed.

(** One step of the inner loop adds the charge of the edit. *)
Lemma score_edit_charge aln (msz i esz j : nat) s off e :
  score_edit aln (Z.of_nat msz) (Z.of_nat i) (Z.of_nat esz) (Z.of_nat j) (s, off) e
  = (c ← edit_charge aln off (is_endpoint msz (i, j, esz, e)) e;
     Some (s + c, off + Edit.to_length e)).
Proof.
  unfold score_edit, edit_charge, is_endpoint.
  rewrite endpoint_test.
  repeat match goal with
         | |- context [if ?b then _ else _] => destruct b; simpl
         | |- context [substr ?s ?o ?n] => destruct (substr s o n); simpl
         end;
    try done; apply f_equal; apply f_equal2; lia.
Qed.

(** The inner loop adds the charges of the edits it walks over. *)
Lemma score_edits_charges aln (msz i esz : nat) edits :
  forall (j : nat) s off,
    score_edits aln (Z.of_nat msz) (Z.of_nat i) (Z.of_nat esz) (Z.of_nat j)
                edits (s, off)
    = (c ← edit_charges aln msz
             (imap (fun k e => (i, (j + k)%nat, esz, e)) edits) off;
       Some (s + c, off + advance edits)).
Proof.
  induction edits as [|e rest IH]; intros j s off.
  - simpl. apply f_equal, f_equal2; lia.
  - cbn [score_edits imap edit_charges snd].
    rewrite score_edit_charge.
    replace (j + 0)%nat with j by lia.
    destruct (edit_charge aln off (is_endpoint msz (i, j, esz, e)) e) as [c|];
      simpl; [|done].
    replace (Z.of_nat j + 1) with (Z.of_nat (S j)) by lia.
    rewrite IH.
    rewrite (imap_ext ((fun k e0 => (i, (j + k)%nat, esz, e0)) ∘ S)
                      (fun k e0 => (i, (S j + k)%nat, esz, e0)) rest).
    2:{ intros k x _. simpl. do 3 f_equal. lia. }
    destruct (edit_charges aln msz _ _) as [c'|]; simpl; [|done].
    apply f_equal, f_equal2; lia.
Qed.

Lemma edit_charges_app aln msz cs1 :
  forall cs2 off,
    edit_charges aln msz (cs1 ++ cs2) off
    = (x ← edit_charges aln msz cs1 off;
       y ← edit_charges aln msz cs2 (off + coordinates_advance cs1);
       Some (x + y)).
Proof.
  induction cs1 as [|c rest IH]; intros cs2 off; simpl.
  - replace (off + coordinates_advance []) with off by (unfold coordinates_advance; simpl; lia).
    destruct (edit_charges aln msz cs2 off); done.
  - destruct (edit_charge aln off (is_endpoint msz c) (snd c)) as [x|]; simpl; [|done].
    rewrite IH.
    destruct (edit_charges aln msz rest _) as [y|]; simpl; [|done].
    replace (off + coordinates_advance (c :: rest))
      with (off + Edit.to_length (snd c) + coordinates_advance rest)
      by (unfold coordinates_advance; simpl; lia).
    destruct (edit_charges aln msz cs2 _) as [z|]; simpl; [|done].
    f_equal; lia.
Qed.

Lemma coordinates_advance_imap (i j esz : nat) edits :
  coordinates_advance (imap (fun k e => (i, (j + k)%nat, esz, e)) edits) = advance edits.
Proof.
  unfold coordinates_advance. f_equal.
  revert j. induction edits as [|e rest IH]; intros j; simpl; [done|].
  f_equal. rewrite <- (IH (S j)) at 2. f_equal.
  apply imap_ext. intros k x _. simpl. do 3 f_equal. lia.
Qed.

Lemma indexed_edits_from_0 p : indexed_edits_from 0 p = indexed_edits p.
Proof. reflexivity. Qed.

Lemma indexed_edits_from_cons i m rest :
  indexed_edits_from i (m :: rest)
  = imap (fun j e => (i, (0 + j)%nat, length (Mapping.edit m), e)) (Mapping.edit m)
    ++ indexed_edits_from (S i) rest.
Proof.
  unfold indexed_edits_from. simpl. f_equal.
  - apply imap_ext. intros j e _. simpl. do 3 f_equal. lia.
  - f_equal. apply imap_ext. intros k m' _. simpl.
    apply imap_ext. intros j e _. simpl. do 3 f_equal. lia.
Qed.

(** The outer loop adds the edit charges and the jump charges. *)
Lemma score_mappings_charges aln (msz : nat) mappings :
  forall (i : nat) s off,
    fst <$> score_mappings aln (Z.of_nat msz) (Z.of_nat i) mappings (s, off)
    = (c ← edit_charges aln msz (indexed_edits_from i mappings) off;
       Some (s + c + jump_charges aln mappings)).
Proof.
  induction mappings as [|m rest IH]; intros i s off.
  - simpl. f_equal. lia.
  - rewrite indexed_edits_from_cons, edit_charges_app, coordinates_advance_imap.
    cbn [score_mappings].
    change 0 with (Z.of_nat 0) at 1.
    rewrite score_edits_charges.
    destruct (edit_charges aln msz
                (imap (fun k e => (i, (0 + k)%nat, length (Mapping.edit m), e))
                      (Mapping.edit m)) off) as [x|]; simpl; [|done].
    replace (Z.of_nat i + 1) with (Z.of_nat (S i)) by lia.
    rewrite IH.
    destruct (edit_charges aln msz (indexed_edits_from (S i) rest) _) as [y|];
      simpl; [|done].
    f_equal. destruct rest as [|next rest']; simpl.
    + lia.
    + unfold score_jump, jump_charge.
      destruct (0 <? jump_distance aln m next); lia.
Qed.

(** The regular aligner never reads the quality string, so rescoring
    cannot fail when quality adjustment is off or there is no quality. *)
Lemma edit_charges_regular aln msz cs :
  (negb (empty (Alignment.quality aln)) && adjust_alignments_for_base_quality)%bool = false ->
  forall off, is_Some (edit_charges aln msz cs off).
Proof.
  intros Hreg. induction cs as [|c rest IH]; intros off; simpl; [eauto|].
  unfold edit_charge. rewrite Hreg.
  destruct (IH (off + Edit.to_length (snd c))) as [y Hy]. rewrite Hy.
  destruct (edit_is_match (snd c)); simpl; [eauto|].
  destruct (edit_is_sub (snd c)); simpl; [eauto|].
  destruct (edit_is_deletion (snd c)); simpl; [eauto|].
  destruct (edit_is_insertion (snd c) && negb (is_endpoint msz c))%bool; simpl; eauto.
Qed.

(** The loops of [score_alignment] add up the charges and clamp the sum. *)
Lemma score_alignment_charges aln : score_alignment aln = rescore_clamped aln.
Proof.
  unfold score_alignment, rescore_clamped.
  pose proof (score_mappings_charges aln (length (Alignment.path aln))
                (Alignment.path aln) 0 0 0) as Hm.
  rewrite indexed_edits_from_0 in Hm. change (Z.of_nat 0) with 0 in Hm.
  destruct (score_mappings aln _ 0 (Alignment.path aln) (0, 0)) as [[s off]|];
    simpl in *.
  - destruct (edit_charges aln _ _ 0) as [c|]; simpl in *; [|done].
    injection Hm as ->. done.
  - destruct (edit_charges aln _ _ 0) as [c|]; simpl in *; done.
Qed.

(** The charges read the sequence, the quality and the path of an alignment,
    never the score that it carries. *)
Lemma edit_charges_set_score aln score msz cs :
  forall off, edit_charges (Alignment.set_score aln score) msz cs off
              = edit_charges aln msz cs off.
Proof.
  induction cs as [|c rest IH]; intros off; simpl; [done|].
  by rewrite IH.
Qed.

Lemma jump_charges_set_score aln score mappings :
  jump_charges (Alignment.set_score aln score) mappings = jump_charges aln mappings.
Proof.
  induction mappings as [|m rest IH]; simpl; [done|].
  destruct rest as [|next rest]; [done|]. by rewrite IH.
Qed.

Lemma rescore_clamped_set_score aln score :
  rescore_clamped (Alignment.set_score aln score) = rescore_clamped aln.
Proof.
  unfold rescore_clamped. cbn [Alignment.set_score Alignment.path].
  rewrite (edit_charges_set_score aln score), (jump_charges_set_score aln score). done.
Qed.
End Facts.

(** C3, the claim as stated fails: the rescore of the specification adds the
    full-length bonus at both ends of the perfect hit (14), while
    [score_alignment] returns the bare sum of the edit scores (4), and 4 is
    the score that [set_score(score_alignment(..))] stores in the alignment. *)
Lemma score_alignment_omits_bonus :
  @score_alignment default_aligner flat_qualities one_node_graph default_mapper perfect_hit = Some 4
  /\ @rescore_spec default_aligner flat_qualities one_node_graph default_mapper perfect_hit = Some 14
  /\ @score_alignment default_aligner flat_qualities one_node_graph default_mapper perfect_hit
     <> @rescore_spec default_aligner flat_qualities one_node_graph default_mapper perfect_hit
  /\ exists a,
      @set_rescore default_aligner flat_qualities one_node_graph default_mapper perfect_hit
      = Some a
      /\ Alignment.score a = 4
      /\ @rescore_spec default_aligner flat_qualities one_node_graph default_mapper a
         <> Some (Alignment.score a).
Proof.
  split; [vm_compute; reflexivity|]. split; [vm_compute; reflexivity|].
  split; [vm_compute; congruence|].
  eexists. split; [vm_compute; reflexivity|]. split; [reflexivity|].
  vm_compute. congruence.
Qed.

(** C3, amended: [score_alignment] is the sum of the match, mismatch and gap
    charges of the edits (the insertion that opens the first mapping and the
    one that closes the last mapping are free) plus, for every pair of
    consecutive mappings, the charge of a deletion as long as the jump
    between them (graph distance, or the approximate distance when the
    search gives up); no full-length bonus is added and the result is
    clamped at zero.  An alignment in which the mapper has stored the
    rescore with [set_score(score_alignment(..))] keeps its sequence,
    quality and path, and its score equals this rescore of it. *)
Theorem score_alignment_is_clamped_rescore
        `{Aligner} `{QualAdjAligner} `{XG} `{Mapper} (aln : Alignment.t) :
  score_alignment aln = rescore_clamped aln
  /\ set_rescore aln
     = (score ← rescore_clamped aln; Some (Alignment.set_score aln score))
  /\ forall a,
      set_rescore aln = Some a ->
      Alignment.sequence a = Alignment.sequence aln
      /\ Alignment.quality a = Alignment.quality aln
      /\ Alignment.path a = Alignment.path aln
      /\ rescore_clamped a = Some (Alignment.score a)
      /\ score_alignment a = Some (Alignment.score a).
Proof.
  split; [apply score_alignment_charges|].
  split; [unfold set_rescore; by rewrite score_alignment_charges|].
  intros a. unfold set_rescore. rewrite score_alignment_charges.
  destruct (rescore_clamped aln) as [score|] eqn:Hscore; [|done].
  cbn [mbind option_bind]. intros [= <-].
  repeat split; try reflexivity.
  - rewrite rescore_clamped_set_score. exact Hscore.
  - rewrite score_alignment_charges, rescore_clamped_set_score. exact Hscore.
Qed.

(** The theorem at the perfect hit: the stored score is its rescore, 4. *)
Lemma score_alignment_is_clamped_rescore_witness :
  exists a,
    @set_rescore default_aligner flat_qualities one_node_graph default_mapper perfect_hit
    = Some a
    /\ @rescore_clamped default_aligner flat_qualities one_node_graph default_mapper a
       = Some (Alignment.score a)
    /\ Alignment.score a = 4.
Proof.
  eexists. split; [vm_compute; reflexivity|]. split; [|reflexivity].
  apply (@score_alignment_is_clamped_rescore default_aligner flat_qualities one_node_graph
           default_mapper perfect_hit).
  vm_compute. reflexivity.
Defined.

(** C10: [score_alignment] returns a value that is never negative.  It
    returns whenever the regular aligner scores the matches; with quality
    adjustment the only other outcome is the exception of [substr]. *)
Theorem score_alignment_nonnegative
        `{Aligner} `{QualAdjAligner} `{XG} `{Mapper} (aln : Alignment.t) :
  (exists s, score_alignment aln = Some s /\ 0 <= s)
  \/ (score_alignment aln = None
      /\ adjust_alignments_for_base_quality = true
      /\ Alignment.quality aln <> ""%string).
Proof.
  destruct (score_alignment aln) as [s|] eqn:E.
  - left. exists s. split; [done|].
    unfold score_alignment in E.
    destruct (score_mappings aln _ 0 (Alignment.path aln) (0, 0)); simpl in E; [|done].
    injection E as <-. lia.
  - right. split; [done|].
    rewrite score_alignment_charges in E. unfold rescore_clamped in E.
    destruct (negb (empty (Alignment.quality aln)) && adjust_alignments_for_base_quality)%bool eqn:R.
    + apply andb_prop in R as [Hq ->]. split; [done|].
      intros Hq'. rewrite Hq' in Hq. done.
    + destruct (edit_charges_regular aln (length (Alignment.path aln))
                  (indexed_edits (Alignment.path aln)) R 0) as [c Hc].
      rewrite Hc in E. done.
Qed.

End RescoreProofs.

(** ** Multi-mapping of one read *)

Module MultiProofs.
Import Multi.

(** *** The set of pointers and the map from scores *)

Lemma set_insert_elem x s y : y ∈ set_insert x s <-> y = x \/ y ∈ s.
Proof.
  induction s as [|z rest IH]; simpl.
  - rewrite list_elem_of_singleton, elem_of_nil. tauto.
  - destruct (Nat.ltb_spec x z); [rewrite elem_of_cons; tauto|].
    destruct (Nat.eqb_spec x z) as [->|Hne].
    + rewrite elem_of_cons. tauto.
    + rewrite !elem_of_cons, IH. tauto.
Qed.

Lemma set_insert_sorted x s :
  StronglySorted lt s -> StronglySorted lt (set_insert x s).
Proof.
  induction s as [|z rest IH]; simpl; intros Hs.
  - repeat constructor.
  - apply StronglySorted_cons in Hs as [Hz Hrest].
    destruct (Nat.ltb_spec x z).
    + apply StronglySorted_cons. split.
      * constructor; [done|]. eapply Forall_impl; [exact Hz|]. simpl. lia.
      * apply StronglySorted_cons. done.
    + destruct (Nat.eqb_spec x z).
      * apply StronglySorted_cons. done.
      * apply StronglySorted_cons. split; [|auto].
        apply Forall_forall. intros y Hy. apply set_insert_elem in Hy as [->|Hy].
        -- lia.
        -- rewrite Forall_forall in Hz. auto.
Qed.

Lemma set_insert_nonempty x s : set_insert x s <> [].
Proof.
  destruct s as [|z rest]; simpl; [done|].
  destruct (x <? z)%nat; [done|]. destruct (x =? z)%nat; done.
Qed.

Lemma map_insert_keys (P : Z -> Prop) k x m :
  P k -> Forall (fun e => P (fst e)) m -> Forall (fun e => P (fst e)) (map_insert k x m).
Proof.
  intros Hk. induction m as [|[k' s] rest IH]; simpl; intros Hm.
  - repeat constructor. done.
  - apply Forall_cons in Hm as [Hk' Hrest].
    destruct (k <? k'); [repeat constructor; done|].
    destruct (k =? k'); constructor; auto.
Qed.

Lemma map_insert_ok all_alns k x m a :
  all_alns !! x = Some a -> Alignment.score a = k ->
  map_ok all_alns m -> map_ok all_alns (map_insert k x m).
Proof.
  intros Hx Hk [Hsorted Hentries].
  assert (Hnew : entry_ok all_alns (k, [x])).
  { repeat split; simpl; [done|repeat constructor|]. repeat constructor. eauto. }
  induction m as [|[k' s] rest IH]; simpl.
  - split; [repeat constructor|constructor; [exact Hnew|constructor]].
  - apply StronglySorted_cons in Hsorted as [Hk' Hrest].
    apply Forall_cons in Hentries as [He Hes].
    destruct (Z.ltb_spec k k').
    + split.
      * apply StronglySorted_cons. split.
        -- constructor; [simpl; lia|].
           eapply Forall_impl; [exact Hk'|]. simpl. lia.
        -- apply StronglySorted_cons. done.
      * constructor; [exact Hnew|]. constructor; done.
    + destruct (Z.eqb_spec k k') as [->|Hne].
      * split; [apply StronglySorted_cons; done|].
        constructor; [|done].
        destruct He as (_ & Hs & Hall). repeat split; simpl in *.
        -- apply set_insert_nonempty.
        -- by apply set_insert_sorted.
        -- apply Forall_forall. intros y Hy.
           apply set_insert_elem in Hy as [->|Hy]; [eauto|].
           rewrite Forall_forall in Hall. auto.
      * destruct (IH Hrest Hes) as [IH1 IH2].
        split.
        -- apply StronglySorted_cons. split; [|done].
           apply (map_insert_keys (fun k0 => k' < k0)); [lia|done].
        -- constructor; done.
Qed.

Lemma map_insert_nonempty k x m : map_insert k x m <> [].
Proof.
  destruct m as [|[k' s] rest]; simpl; [done|].
  destruct (k <? k'); [done|]. destruct (k =? k'); done.
Qed.

Lemma group_by_score_ok all_alns alns :
  forall i m,
    (forall j a, alns !! j = Some a -> all_alns !! (i + j)%nat = Some a) ->
    map_ok all_alns m -> map_ok all_alns (group_by_score i alns m).
Proof.
  induction alns as [|ta rest IH]; intros i m Hat Hm; simpl; [done|].
  apply IH.
  - intros j a Hj. replace (S i + j)%nat with (i + S j)%nat by lia. by apply Hat.
  - eapply map_insert_ok; [|reflexivity|done].
    replace i with (i + 0)%nat by lia. by apply Hat.
Qed.

Lemma group_by_score_nonempty alns :
  forall i m, (alns <> [] \/ m <> []) -> group_by_score i alns m <> [].
Proof.
  induction alns as [|ta rest IH]; intros i m Hne; simpl.
  - destruct Hne; done.
  - apply IH. right. apply map_insert_nonempty.
Qed.

(** *** The copies of one score *)

Lemma copy_unique_elem all_alns pointers :
  forall used x, x ∈ copy_unique all_alns pointers used -> x ∈ pointers.
Proof.
  induction pointers as [|p rest IH]; intros used x; simpl; [done|].
  destruct (all_alns !! p) as [a|].
  - destruct (existsb (serialized_eqb a) used).
    + intros Hx. right. eauto.
    + intros Hx. apply elem_of_cons in Hx as [->|Hx]; [left|right; eauto].
  - intros Hx. right. eauto.
Qed.

Lemma copy_unique_sorted all_alns pointers :
  forall used, StronglySorted lt pointers ->
               StronglySorted lt (copy_unique all_alns pointers used).
Proof.
  induction pointers as [|p rest IH]; intros used Hs; simpl; [constructor|].
  apply StronglySorted_cons in Hs as [Hp Hrest].
  destruct (all_alns !! p) as [a|]; [|auto].
  destruct (existsb (serialized_eqb a) used); [auto|].
  apply StronglySorted_cons. split; [|auto].
  apply Forall_forall. intros y Hy. apply copy_unique_elem in Hy.
  rewrite Forall_forall in Hp. auto.
Qed.

Lemma copy_unique_nonempty all_alns p rest a :
  all_alns !! p = Some a -> copy_unique all_alns (p :: rest) [] <> [].
Proof. intros Hp. simpl. rewrite Hp. simpl. done. Qed.

(** *** The copies of all scores *)

Lemma copies_elem all_alns entries x :
  Forall (entry_ok all_alns) entries ->
  x ∈ copies all_alns entries ->
  exists e a, e ∈ entries /\ all_alns !! x = Some a /\ Alignment.score a = fst e.
Proof.
  unfold copies. induction entries as [|e rest IH]; simpl; intros Hok Hx.
  - by apply elem_of_nil in Hx.
  - apply Forall_cons in Hok as [He Hrest].
    apply elem_of_app in Hx as [Hx|Hx].
    + apply copy_unique_elem in Hx. destruct He as (_ & _ & Hall).
      rewrite Forall_forall in Hall. destruct (Hall x Hx) as (a & Ha & Hs).
      exists e, a. split; [left|done].
    + destruct (IH Hrest Hx) as (e' & a & He' & Ha). exists e', a. split; [by right|done].
Qed.

Lemma copies_sorted all_alns entries :
  StronglySorted (fun e1 e2 => fst e2 < fst e1) entries ->
  Forall (entry_ok all_alns) entries ->
  StronglySorted (copied_before all_alns) (copies all_alns entries).
Proof.
  induction entries as [|e rest IH]; intros Hs Hok; [constructor|].
  apply StronglySorted_cons in Hs as [Hlt Hs].
  pose proof Hok as Hok'. apply Forall_cons in Hok' as [He Hrest].
  change (copies all_alns (e :: rest))
    with (copy_unique all_alns (snd e) [] ++ copies all_alns rest).
  apply StronglySorted_app. split; [|split; [|by apply IH]].
  - intros x y Hx Hy.
    destruct (copies_elem all_alns [e] x) as (e1 & a & He1 & Ha & Hsa).
    { constructor; [exact He|constructor]. }
    { unfold copies. simpl. rewrite app_nil_r. done. }
    apply list_elem_of_singleton in He1 as ->.
    destruct (copies_elem all_alns rest y Hrest Hy) as (e2 & b & He2 & Hb & Hsb).
    unfold copied_before. rewrite Ha, Hb. left.
    rewrite Forall_forall in Hlt. specialize (Hlt e2 He2). lia.
  - destruct He as (_ & Hsorted & Hall).
    pose proof (copy_unique_sorted all_alns (snd e) [] Hsorted) as Hc.
    assert (Hin : Forall (fun i => i ∈ snd e) (copy_unique all_alns (snd e) [])).
    { apply Forall_forall. intros i. apply copy_unique_elem. }
    induction Hc as [|i l Hl IHl Hil]; [constructor|].
    apply Forall_cons in Hin as [Hi Hin].
    constructor; [auto|].
    rewrite Forall_forall in Hall.
    destruct (Hall i Hi) as (a & Ha & Hsa).
    apply Forall_forall. intros j Hj.
    rewrite Forall_forall in Hil, Hin.
    destruct (Hall j (Hin j Hj)) as (b & Hb & Hsb).
    unfold copied_before. rewrite Ha, Hb. right. split; [congruence|auto].
Qed.

Lemma reverse_keys_descending (m : list (Z * list nat)) :
  StronglySorted (fun e1 e2 => fst e1 < fst e2) m ->
  StronglySorted (fun e1 e2 => fst e2 < fst e1) (reverse m).
Proof.
  induction m as [|e rest IH]; intros Hs; [constructor|].
  apply StronglySorted_cons in Hs as [He Hrest].
  rewrite reverse_cons.
  apply StronglySorted_app. split; [|split; [auto|repeat constructor]].
  intros x y Hx Hy. apply list_elem_of_singleton in Hy as ->.
  rewrite Forall_forall in He. apply He. rewrite elem_of_reverse in Hx. exact Hx.
Qed.

Lemma empty_map_ok all_alns : map_ok all_alns [].
Proof. split; constructor. Qed.

Lemma sorted_unique_indices_sorted all_alns :
  StronglySorted (copied_before all_alns) (sorted_unique_indices all_alns).
Proof.
  destruct (group_by_score_ok all_alns all_alns 0 [] (fun j a Hj => Hj)
              (empty_map_ok all_alns)) as [Hs Hok].
  apply copies_sorted.
  - by apply reverse_keys_descending.
  - by apply Forall_reverse.
Qed.

Lemma sorted_unique_indices_valid all_alns i :
  i ∈ sorted_unique_indices all_alns -> is_Some (all_alns !! i).
Proof.
  destruct (group_by_score_ok all_alns all_alns 0 [] (fun j a Hj => Hj)
              (empty_map_ok all_alns)) as [Hs Hok].
  intros Hi. apply copies_elem in Hi as (e & a & _ & Ha & _); [eauto|].
  by apply Forall_reverse.
Qed.

Lemma sorted_unique_indices_nonempty all_alns :
  all_alns <> [] -> sorted_unique_indices all_alns <> [].
Proof.
  intros Hne.
  destruct (group_by_score_ok all_alns all_alns 0 [] (fun j a Hj => Hj)
              (empty_map_ok all_alns)) as [Hs Hok].
  pose proof (group_by_score_nonempty all_alns 0 [] (or_introl Hne)) as Hm.
  unfold sorted_unique_indices.
  destruct (reverse (group_by_score 0 all_alns [])) as [|e rest] eqn:E.
  { apply (f_equal reverse) in E. rewrite reverse_involutive in E. done. }
  assert (He : entry_ok all_alns e).
  { apply Forall_reverse in Hok. rewrite E in Hok. by apply Forall_cons in Hok as [? _]. }
  destruct He as (Hnonempty & _ & Hall).
  destruct (snd e) as [|p ps] eqn:Ep; [done|].
  apply Forall_cons in Hall as [(a & Ha & _) _].
  simpl. rewrite Ep. simpl. rewrite Ha. simpl. done.
Qed.

(** *** From the copies to the result *)

Lemma sorted_unique_came_from all_alns original :
  all_alns <> [] ->
  Forall2 (came_from all_alns)
          (score_sort_and_deduplicate_alignments all_alns original)
          (sorted_unique_indices all_alns).
Proof.
  intros Hne. unfold score_sort_and_deduplicate_alignments.
  destruct all_alns as [|c0 cs] eqn:E; [done|]. rewrite <- E. clear E Hne.
  pose proof (sorted_unique_indices_valid all_alns) as Hvalid.
  induction (sorted_unique_indices all_alns) as [|i idx IH]; simpl; [constructor|].
  destruct (Hvalid i) as [c Hc]; [left|].
  rewrite Hc. simpl. constructor.
  - exists c. done.
  - apply IH. intros j Hj. apply Hvalid. by right.
Qed.

(** Setting the mapping quality or the secondary flag keeps an alignment the
    copy of its candidate. *)
Lemma came_from_decorated all_alns (f : nat -> Alignment.t -> Alignment.t) r idx :
  (forall i a, Alignment.score (f i a) = Alignment.score a
               /\ Alignment.path (f i a) = Alignment.path a
               /\ Alignment.sequence (f i a) = Alignment.sequence a) ->
  Forall2 (came_from all_alns) r idx ->
  Forall2 (came_from all_alns) (imap f r) idx.
Proof.
  intros Hf Hr. revert f Hf.
  induction Hr as [|a i r idx (c & Hc & Hs & Hp & Hq) Hr IH]; intros f Hf; simpl;
    constructor.
  - destruct (Hf 0%nat a) as (Hs' & Hp' & Hq'). exists c. repeat split; congruence.
  - apply IH. intros j b. apply Hf.
Qed.

Section Facts.
Context `{XG} `{Engines} `{MappingQualityEstimator} `{Mapper}.

Lemma compute_mapping_qualities_came_from all_alns r cluster_mq idx :
  Forall2 (came_from all_alns) r idx ->
  Forall2 (came_from all_alns) (compute_mapping_qualities r cluster_mq) idx.
Proof.
  intros Hr. unfold compute_mapping_qualities.
  destruct mapping_quality_method; [| |done];
    apply came_from_decorated; done.
Qed.

Lemma compute_mapping_qualities_length r cluster_mq :
  length (compute_mapping_qualities r cluster_mq) = length r.
Proof.
  unfold compute_mapping_qualities.
  destruct mapping_quality_method; rewrite ?length_imap; done.
Qed.

Lemma filter_and_process_multimaps_came_from all_alns r additional idx :
  Forall2 (came_from all_alns) r idx ->
  Forall2 (came_from all_alns) (filter_and_process_multimaps r additional)
          (take (kept (length r) additional) idx).
Proof.
  intros Hr. unfold filter_and_process_multimaps, kept, resize.
  apply came_from_decorated; [done|].
  destruct (to_size_t (max_multimaps + additional) <? Z.of_nat (length r)).
  - by apply Forall2_take.
  - rewrite firstn_all2; [done|]. apply Forall2_length in Hr. lia.
Qed.

Lemma filter_and_process_multimaps_flags r additional i a :
  filter_and_process_multimaps r additional !! i = Some a ->
  Alignment.is_secondary a = (0 <? i)%nat.
Proof.
  unfold filter_and_process_multimaps. rewrite list_lookup_imap.
  match goal with |- context [?l !! i] => destruct (l !! i) end; simpl; [|done].
  intros [= <-]. done.
Qed.

Lemma filter_and_process_multimaps_length r additional :
  length (filter_and_process_multimaps r additional) = kept (length r) additional.
Proof.
  unfold filter_and_process_multimaps, kept, resize. rewrite length_imap.
  destruct (Z.ltb_spec (to_size_t (max_multimaps + additional)) (Z.of_nat (length r))).
  - rewrite length_take. lia.
  - done.
Qed.

(** Every alignment of the result is the decorated copy of the alignment
    at the same index of the sorted list. *)
Lemma result_lookup l cluster_mq additional i a :
  filter_and_process_multimaps (compute_mapping_qualities l cluster_mq) additional !! i
  = Some a ->
  exists b, l !! i = Some b
            /\ Alignment.path a = Alignment.path b
            /\ Alignment.score a = Alignment.score b.
Proof.
  unfold filter_and_process_multimaps, resize. rewrite list_lookup_imap.
  intros Ha. apply fmap_Some in Ha as (b & Hb & ->).
  assert (Hb' : compute_mapping_qualities l cluster_mq !! i = Some b).
  { destruct (_ <? _) in Hb; [|done].
    apply lookup_take_Some in Hb as [? _]. done. }
  unfold compute_mapping_qualities in Hb'.
  destruct mapping_quality_method.
  - rewrite list_lookup_imap in Hb'. apply fmap_Some in Hb' as (c & Hc & ->). eauto.
  - rewrite list_lookup_imap in Hb'. apply fmap_Some in Hb' as (c & Hc & ->). eauto.
  - eauto.
Qed.

Lemma alignments_in_graph_came_from all_alns r idx :
  alignments_in_graph all_alns = true ->
  Forall2 (came_from all_alns) r idx ->
  alignments_in_graph r = true.
Proof.
  unfold alignments_in_graph. rewrite !forallb_forall.
  intros Hall Hr a Ha. apply list_elem_of_In, list_elem_of_lookup in Ha as [k Hk].
  destruct (Forall2_lookup_l _ _ _ _ _ Hr Hk) as (i & _ & c & Hc & _ & Hp & _).
  rewrite Hp. apply Hall. apply list_elem_of_In, list_elem_of_lookup. eauto.
Qed.
End Facts.

(** The scores along a list of copies never increase. *)
Lemma copies_scores_descend all_alns r idx :
  Forall2 (came_from all_alns) r idx ->
  StronglySorted (copied_before all_alns) idx ->
  forall i j a b, (i <= j)%nat -> r !! i = Some a -> r !! j = Some b ->
                  Alignment.score b <= Alignment.score a.
Proof.
  intros Hr Hs i j a b Hij Ha Hb.
  destruct (decide (i = j)) as [->|Hne]; [rewrite Ha in Hb; injection Hb as ->; lia|].
  destruct (Forall2_lookup_l _ _ _ _ _ Hr Ha) as (p & Hp & ca & Hca & Hsa & _).
  destruct (Forall2_lookup_l _ _ _ _ _ Hr Hb) as (q & Hq & cb & Hcb & Hsb & _).
  assert (Hpq : copied_before all_alns p q).
  { rewrite <- (take_drop_middle idx i p Hp) in Hs, Hq.
    apply StronglySorted_app in Hs as (_ & _ & Hs).
    apply StronglySorted_cons in Hs as [Hs _].
    rewrite Forall_forall in Hs. apply Hs.
    apply list_elem_of_lookup. exists (j - S i)%nat.
    rewrite lookup_app_r in Hq by (rewrite length_take; lia).
    rewrite length_take in Hq.
    assert (Hi : (i < length idx)%nat) by (apply lookup_lt_Some in Hp; done).
    replace (j - i `min` length idx)%nat with (S (j - S i)) in Hq by lia.
    done. }
  unfold copied_before in Hpq. rewrite Hca, Hcb in Hpq. lia.
Qed.

(** C1, the claim as stated fails: with two alignments wanted, the
    candidates of the read come back in the order in which the aligner made
    them; both score 10, and the one with a single edit precedes the one
    with two edits. *)
Lemma align_multi_ties_keep_candidate_order :
  exists r,
    @align_multi tie_graph tie_engines flat_estimator two_multimaps
                 tie_read 0 0 0 1000 = Some r
    /\ ~ ties_by_edit_count r.
Proof.
  eexists. split; [vm_compute; reflexivity|].
  intros Hties.
  specialize (Hties 0%nat 1%nat _ _ (Nat.lt_0_1) eq_refl eq_refl eq_refl).
  vm_compute in Hties. apply Hties. reflexivity.
Qed.

(** C1, amended: a read longer than the band width goes to the banded
    aligner, which rounds the band width up to a multiple of 4: a read longer
    than the rounded width gets the single alignment of the banded aligner,
    a read that is not fails the opening assertion of the banded aligner.
    For any other read whose candidates keep every mapping inside its node,
    when [max_multimaps] is not zero, [align_multi] returns a non-empty list
    whose first element is primary and whose other elements are secondary;
    the scores never increase along the list, and alignments of equal score
    stay in the order in which the aligner produced them. *)
Theorem align_multi_ranked
        `{XG} `{Engines} `{MappingQualityEstimator} `{Mapper}
        (aln : Alignment.t) (kmer_size stride max_mem_length band_width : Z) :
  let candidates :=
    fst (candidate_alignments aln kmer_size stride max_mem_length band_width
                              0%Q extra_multimaps None) in
  (to_size_t band_width < size (Alignment.sequence aln) ->
   to_size_t (round_up_4 band_width) < size (Alignment.sequence aln) ->
   align_multi aln kmer_size stride max_mem_length band_width
   = Some [align_banded aln kmer_size stride max_mem_length band_width])
  /\ (to_size_t band_width < size (Alignment.sequence aln) ->
      size (Alignment.sequence aln) <= to_size_t (round_up_4 band_width) ->
      align_multi aln kmer_size stride max_mem_length band_width = None)
  /\ (size (Alignment.sequence aln) <= to_size_t band_width ->
      to_size_t max_multimaps <> 0 ->
      alignments_in_graph candidates = true ->
      exists r,
        align_multi aln kmer_size stride max_mem_length band_width = Some r
        /\ r <> []
        /\ (forall a, r !! 0%nat = Some a -> Alignment.is_secondary a = false)
        /\ (forall i a, r !! S i = Some a -> Alignment.is_secondary a = true)
        /\ (forall i j a b, (i <= j)%nat -> r !! i = Some a -> r !! j = Some b ->
                            Alignment.score b <= Alignment.score a)
        /\ (candidates <> [] ->
            exists idx, Forall2 (came_from candidates) r idx
                        /\ StronglySorted (copied_before candidates) idx)).
Proof.
  intros candidates. unfold align_multi, align_multi_internal, call_align_banded.
  split; [|split].
  { intros Hband Hlong. apply Z.ltb_lt in Hband. rewrite Hband.
    destruct (Z.leb_spec (size (Alignment.sequence aln)) (to_size_t (round_up_4 band_width)));
      [lia|done]. }
  { intros Hband Hshort. apply Z.ltb_lt in Hband. rewrite Hband.
    destruct (Z.leb_spec (size (Alignment.sequence aln)) (to_size_t (round_up_4 band_width)));
      [done|lia]. }
  intros Hband Hmax Hfit.
  apply Z.ltb_ge in Hband. rewrite Hband.
  subst candidates.
  destruct (candidate_alignments aln kmer_size stride max_mem_length band_width
                                 0%Q extra_multimaps None) as [cands cluster_mq].
  simpl in Hfit |- *.
  set (sorted := score_sort_and_deduplicate_alignments cands aln).
  set (r := filter_and_process_multimaps (compute_mapping_qualities sorted cluster_mq) 0).
  assert (Hlen : r <> []).
  { intros Hr. apply (f_equal length) in Hr.
    unfold r in Hr. rewrite filter_and_process_multimaps_length in Hr.
    rewrite compute_mapping_qualities_length in Hr.
    assert (Hs : (0 < length sorted)%nat).
    { unfold sorted, score_sort_and_deduplicate_alignments.
      destruct cands as [|c cs] eqn:E; [simpl; lia|]. rewrite <- E.
      assert (Hne : cands <> []) by (rewrite E; done).
      pose proof (sorted_unique_came_from cands aln Hne) as Hcf.
      unfold score_sort_and_deduplicate_alignments in Hcf. rewrite E in Hcf.
      rewrite <- E in Hcf. apply Forall2_length in Hcf. rewrite Hcf.
      pose proof (sorted_unique_indices_nonempty cands Hne).
      destruct (sorted_unique_indices cands); [done|simpl; lia]. }
    unfold kept in Hr. rewrite Z.add_0_r in Hr.
    assert (0 <= to_size_t max_multimaps) by (unfold to_size_t; apply Z.mod_pos_bound; lia).
    destruct (Z.ltb_spec (to_size_t max_multimaps) (Z.of_nat (length sorted)));
      simpl in Hr; lia. }
  assert (Hflags0 : forall a, r !! 0%nat = Some a -> Alignment.is_secondary a = false).
  { intros a Ha. apply filter_and_process_multimaps_flags in Ha. done. }
  assert (HflagsS : forall i a, r !! S i = Some a -> Alignment.is_secondary a = true).
  { intros i a Ha. apply filter_and_process_multimaps_flags in Ha. done. }
  destruct (decide (cands = [])) as [E|Hne].
  - (* no candidate: the unmapped read *)
    subst cands.
    assert (Hin : alignments_in_graph r = true).
    { unfold alignments_in_graph. apply forallb_forall. intros a Ha.
      apply list_elem_of_In, list_elem_of_lookup in Ha as [k Hk].
      apply result_lookup in Hk as (b & Hb & Hp & _).
      destruct k; simpl in Hb; [|done]. injection Hb as <-. rewrite Hp. done. }
    rewrite Hin.
    exists r. split; [done|]. repeat split; try done.
    intros i j a b Hij Ha Hb.
    assert (Hl : length r = 1%nat).
    { unfold r. rewrite filter_and_process_multimaps_length, compute_mapping_qualities_length.
      unfold kept. simpl. rewrite Z.add_0_r.
      assert (0 <= to_size_t max_multimaps) by (unfold to_size_t; apply Z.mod_pos_bound; lia).
      change (Z.of_nat 1) with 1.
      destruct (Z.ltb_spec (to_size_t max_multimaps) 1); lia. }
    apply lookup_lt_Some in Ha as Hi. apply lookup_lt_Some in Hb as Hj.
    assert (i = j) as -> by lia. rewrite Ha in Hb. injection Hb as ->. lia.
  - pose proof (sorted_unique_came_from cands aln Hne) as Hcf. fold sorted in Hcf.
    apply (compute_mapping_qualities_came_from _ _ cluster_mq) in Hcf.
    apply (filter_and_process_multimaps_came_from _ _ 0) in Hcf. fold r in Hcf.
    pose proof (sorted_unique_indices_sorted cands) as Hsorted.
    set (idx := take (kept (length (compute_mapping_qualities sorted cluster_mq)) 0)
                     (sorted_unique_indices cands)) in *.
    assert (Hidx : StronglySorted (copied_before cands) idx).
    { unfold idx. rewrite <- (take_drop (kept (length (compute_mapping_qualities sorted cluster_mq)) 0)
                                 (sorted_unique_indices cands)) in Hsorted.
      by apply StronglySorted_app in Hsorted as (_ & ? & _). }
    rewrite (alignments_in_graph_came_from cands r idx Hfit Hcf).
    exists r. split; [done|]. repeat split; try done.
    + by apply (copies_scores_descend cands r idx).
    + intros _. exists idx. done.
Qed.

(** The theorem at a read of ten bases: with a band width of 4 it gets the
    alignment of the banded aligner, with a band width of 9 the assertion
    of the banded aligner fails, and with a band width of 1000 its two tied
    candidates come back. *)
Lemma align_multi_ranked_witness :
  @align_multi tie_graph tie_engines flat_estimator two_multimaps tie_read 0 0 0 4
  = Some [@align_banded tie_engines tie_read 0 0 0 4]
  /\ @align_multi tie_graph tie_engines flat_estimator two_multimaps tie_read 0 0 0 9 = None
  /\ exists r,
      @align_multi tie_graph tie_engines flat_estimator two_multimaps
                   tie_read 0 0 0 1000 = Some r
      /\ r <> []
      /\ (forall a, r !! 0%nat = Some a -> Alignment.is_secondary a = false)
      /\ (forall i a, r !! S i = Some a -> Alignment.is_secondary a = true)
      /\ (forall i j a b, (i <= j)%nat -> r !! i = Some a -> r !! j = Some b ->
                          Alignment.score b <= Alignment.score a)
      /\ (tie_candidates <> [] ->
          exists idx, Forall2 (came_from tie_candidates) r idx
                      /\ StronglySorted (copied_before tie_candidates) idx).
Proof.
  split; [|split].
  - apply (proj1 (@align_multi_ranked tie_graph tie_engines flat_estimator two_multimaps
                                      tie_read 0 0 0 4)); vm_compute; reflexivity.
  - apply (proj1 (proj2 (@align_multi_ranked tie_graph tie_engines flat_estimator
                                             two_multimaps tie_read 0 0 0 9)));
      vm_compute; [reflexivity|discriminate].
  - apply (proj2 (proj2 (@align_multi_ranked tie_graph tie_engines flat_estimator
                                             two_multimaps tie_read 0 0 0 1000))).
    + vm_compute. discriminate.
    + vm_compute. discriminate.
    + vm_compute. reflexivity.
Defined.

End MultiProofs.

(** ** The layout of the banded split aligner *)

Module BandedProofs.
Import Banded.

Lemma to_size_t_small z : 0 <= z < 2 ^ 64 -> to_size_t z = z.
Proof. intros Hz. unfold to_size_t. apply Z.mod_small. done. Qed.

Lemma to_size_t_npos : to_size_t npos = 2 ^ 64 - 1.
Proof. reflexivity. Qed.

Lemma round_up_4_spec x :
  0 <= x -> round_up_4 x mod 4 = 0 /\ x <= round_up_4 x < x + 4.
Proof.
  intros Hx. unfold round_up_4.
  rewrite Z.rem_mod_nonneg by lia.
  pose proof (Z.mod_pos_bound x 4 ltac:(lia)) as Hm.
  destruct (Z.eqb_spec (x mod 4) 0) as [E|E]; [lia|].
  split; [|lia].
  rewrite (Z.div_mod x 4) at 1 by lia.
  replace (4 * (x / 4) + x mod 4 - x mod 4 + 4) with ((x / 4 + 1) * 4) by lia.
  apply Z.mod_mul. lia.
Qed.

Lemma string_length_substring s :
  forall a b, (a + b <= String.length s)%nat -> String.length (substring a b s) = b.
Proof.
  induction s as [|c s IH]; intros a b Hab; simpl in *.
  - destruct a, b; simpl; lia.
  - destruct a as [|a]; [destruct b as [|b]|]; simpl; [done| |].
    + f_equal. apply IH. lia.
    + apply IH. lia.
Qed.

Lemma substr_in_range s pos n :
  0 <= pos <= size s -> size s < 2 ^ 64 ->
  substr s pos n
  = Some (substring (Z.to_nat pos) (Z.to_nat (Z.min (to_size_t n) (size s - pos))) s).
Proof.
  intros Hpos Hs. unfold substr. rewrite to_size_t_small by lia.
  destruct (Z.ltb_spec (size s) pos); [lia|done].
Qed.

Lemma size_substring s a b :
  0 <= a -> 0 <= b -> a + b <= size s ->
  size (substring (Z.to_nat a) (Z.to_nat b) s) = b.
Proof.
  intros Ha Hb Hab. unfold size in *.
  rewrite string_length_substring by lia. lia.
Qed.

(** The loop that looks for [div] finds the least quotient that fits. *)
Lemma grow_div_least read_size band_width :
  0 <= read_size -> 0 <= band_width < 2 ^ 64 ->
  forall fuel div,
    2 <= div ->
    (forall d, 2 <= d < div -> band_width < read_size / d) ->
    read_size + 1 <= div + Z.of_nat fuel < 2 ^ 64 ->
    least_div read_size band_width (grow_div fuel read_size band_width div)
    /\ grow_div fuel read_size band_width div <= Z.max div (read_size + 1).
Proof.
  intros Hsize Hbw fuel. induction fuel as [|fuel IH]; intros div Hdiv Hbelow Hfuel; simpl.
  - split; [|lia]. repeat split; [lia| |done].
    rewrite Z.div_small by lia. lia.
  - rewrite !to_size_t_small by lia.
    destruct (Z.ltb_spec band_width (read_size / div)) as [Hgt|Hle].
    + destruct (IH (div + 1)) as [Hl Hb]; [lia| |lia|].
      * intros d Hd. destruct (Z.eq_dec d div) as [->|?]; [done|apply Hbelow; lia].
      * split; [done|]. assert (div <= read_size); [|lia].
        destruct (Z.le_gt_cases div read_size); [done|].
        rewrite Z.div_small in Hgt by lia. lia.
    + split; [|lia]. repeat split; [lia|done|done].
Qed.

Lemma choose_div_least read_size band_width :
  0 <= read_size < 2 ^ 63 -> 0 <= band_width < 2 ^ 64 ->
  least_div read_size band_width (choose_div read_size band_width)
  /\ choose_div read_size band_width <= read_size + 2.
Proof.
  intros Hsize Hbw. unfold choose_div.
  destruct (grow_div_least read_size band_width ltac:(lia) Hbw
              (Z.to_nat read_size) 2) as [Hl Hb]; [lia|intros; lia|lia|].
  split; [done|lia].
Qed.

Lemma multiple_of_4_le a b : a mod 4 = 0 -> b mod 4 = 0 -> a < b + 4 -> a <= b.
Proof.
  intros Ha Hb Hab.
  pose proof (Z.div_mod a 4 ltac:(lia)). pose proof (Z.div_mod b 4 ltac:(lia)). lia.
Qed.

Lemma chosen_layout_numbers read_size band_width :
  0 <= band_width -> read_size < 2 ^ 31 ->
  round_up_4 band_width < read_size ->
  let div := choose_div read_size (round_up_4 band_width) in
  layout_numbers read_size div (round_up_4 (read_size / div))
  /\ least_div read_size (round_up_4 band_width) div
  /\ div <= read_size + 2.
Proof.
  intros Hbw Hsize Hassert div.
  destruct (round_up_4_spec band_width Hbw) as [Hbw4 Hbwr].
  destruct (choose_div_least read_size (round_up_4 band_width)) as [Hleast Hdiv]; [lia|lia|].
  fold div in Hleast, Hdiv. split; [|done].
  destruct Hleast as (Hdiv2 & Hq & Hbelow).
  assert (Hq0 : 0 <= read_size / div) by (apply Z.div_pos; lia).
  destruct (round_up_4_spec (read_size / div) Hq0) as [Hseg4 Hsegr].
  set (seg := round_up_4 (read_size / div)) in *.
  assert (Hsegbw : seg <= round_up_4 band_width) by (apply multiple_of_4_le; lia).
  pose proof (Z.mul_div_le read_size div ltac:(lia)) as Hdq.
  repeat split; try lia.
  - destruct (Z.eq_dec div 2) as [->|Hne]; [lia|].
    specialize (Hbelow (div - 1) ltac:(lia)).
    pose proof (Z.mul_div_le read_size (div - 1) ltac:(lia)). nia.
  - nia.
Qed.

(** Consequences of [layout_numbers]. *)
Lemma layout_numbers_facts read_size div seg :
  layout_numbers read_size div seg ->
  (div - 1) * seg < read_size
  /\ seg < read_size
  /\ (4 * div - 3) * seg <= 4 * read_size
  /\ seg = 4 * (seg / 4) /\ seg / 2 = 2 * (seg / 4).
Proof.
  intros (Hn & Hdiv & Hseg & Hseg4 & HB & HA).
  assert (Hs : seg = 4 * (seg / 4)) by (rewrite (Z.div_mod seg 4) at 1 by lia; lia).
  assert (Hbound : (4 * div - 3) * seg <= 4 * read_size).
  { destruct (Z.le_gt_cases (4 * div) seg); [nia|].
    assert (seg <= 4 * div - 4); [|nia].
    apply multiple_of_4_le; [done| |lia].
    replace (4 * div - 4) with ((div - 1) * 4) by lia. apply Z.mod_mul. lia. }
  repeat split; [nia|nia|done|done|].
  set (a := seg / 4) in *. rewrite Hs.
  replace (4 * a) with (a * 2 * 2) by lia. rewrite Z.div_mul by lia. lia.
Qed.

Lemma filled_insert read div seg upto bands strips k aln strip :
  0 <= k <= 2 * div - 2 -> k <= upto ->
  filled read div seg upto (bands, strips) ->
  aln = Alignment.set_sequence read (band_sequence read div seg k) ->
  strip = band_strip (size (Alignment.sequence read)) div seg k ->
  filled read div seg (k + 1) (<[Z.to_nat k := aln]> bands, <[Z.to_nat k := strip]> strips).
Proof.
  intros Hk Hupto (Hlb & Hls & Hfilled) -> ->. unfold filled. simpl in *.
  split; [by rewrite length_insert|]. split; [by rewrite length_insert|].
  intros j Hj Hj'. destruct (Z.eq_dec j k) as [->|Hne].
  - split; apply list_lookup_insert_eq; lia.
  - rewrite !list_lookup_insert_ne by lia. apply Hfilled; lia.
Qed.

Lemma filled_weaken read div seg upto upto' st :
  upto' <= upto -> filled read div seg upto st -> filled read div seg upto' st.
Proof.
  intros Hle (Hlb & Hls & Hfilled).
  split; [done|]. split; [done|]. intros j Hj Hj'. apply Hfilled; lia.
Qed.

Lemma filled_past_end read div seg upto st :
  filled read div seg (2 * div - 1) st -> filled read div seg upto st.
Proof.
  intros (Hlb & Hls & Hfilled).
  split; [done|]. split; [done|]. intros j Hj Hj'. apply Hfilled; lia.
Qed.

(** One turn of the loop gives bands [2*i] and [2*i+1] their final values. *)
Lemma band_iteration_fills read div seg i st :
  layout_numbers (size (Alignment.sequence read)) div seg ->
  0 <= i < div ->
  filled read div seg (2 * i) st ->
  exists st', band_iteration read div seg i st = Some st'
              /\ filled read div seg (2 * i + 2) st'.
Proof.
  intros Hnum Hi Hfilled. destruct st as [bands strips].
  destruct (layout_numbers_facts _ _ _ Hnum) as (Hlast & Hseg & Hfit & Hseg4 & Hseg2).
  destruct Hnum as (Hn & Hdiv & Hseg0 & _ & _ & _).
  set (n := size (Alignment.sequence read)) in *.
  assert (Hq4 : Z.quot seg 4 = seg / 4) by (apply Z.quot_div_nonneg; lia).
  assert (Hq2 : Z.quot seg 2 = seg / 2) by (apply Z.quot_div_nonneg; lia).
  assert (Hoff : 0 <= i * seg <= (div - 1) * seg) by nia.
  unfold band_iteration. rewrite Hq4, Hq2.
  rewrite (to_size_t_small (i * seg)) by lia.
  destruct (Z.eqb_spec (i + 1) div) as [Hlasti|Hnotlast].
  - (* the last band *)
    assert (i = div - 1) as -> by lia.
    rewrite (to_size_t_small (size (Alignment.sequence read) - seg)) by (fold n; lia).
    fold n. rewrite Z.eqb_refl. simpl negb. cbv iota.
    assert (Hstart : band_start n div seg (2 * (div - 1))
                     = Z.min ((div - 1) * seg) (n - seg)).
    { unfold band_start. replace (2 * (div - 1)) with (2 * div - 2) by lia.
      rewrite Z.eqb_refl. done. }
    assert (Hlen : band_length n div seg (2 * (div - 1))
                   = n - Z.min ((div - 1) * seg) (n - seg)).
    { unfold band_length. rewrite Hstart.
      replace (2 * (div - 1)) with (2 * div - 2) by lia. rewrite Z.eqb_refl. done. }
    destruct (Z.ltb_spec (n - seg) ((div - 1) * seg)) as [Hshift|Hnoshift].
    + rewrite substr_in_range by (fold n; lia). fold n. simpl.
      eexists. split; [reflexivity|].
      apply filled_past_end.
      replace (2 * div - 1) with (2 * (div - 1) + 1) by lia.
      apply filled_insert with (upto := 2 * (div - 1)); [lia|lia|done| |].
      * unfold band_sequence. fold n. rewrite Hstart, Hlen, to_size_t_npos.
        do 2 f_equal; lia.
      * unfold band_strip. fold n. rewrite Hstart.
        replace (2 * (div - 1)) with (2 * div - 2) by lia. rewrite Z.eqb_refl.
        destruct (Z.eqb_spec (div - 1) 0); [lia|].
        destruct (Z.eqb_spec (2 * div - 2) 0); [lia|].
        rewrite to_size_t_small by lia. f_equal. lia.
    + rewrite substr_in_range by (fold n; lia). fold n. simpl.
      eexists. split; [reflexivity|].
      apply filled_past_end.
      replace (2 * div - 1) with (2 * (div - 1) + 1) by lia.
      apply filled_insert with (upto := 2 * (div - 1)); [lia|lia|done| |].
      * unfold band_sequence. fold n. rewrite Hstart, Hlen, to_size_t_npos.
        do 2 f_equal; lia.
      * unfold band_strip. fold n. rewrite Hstart.
        replace (2 * (div - 1)) with (2 * div - 2) by lia. rewrite Z.eqb_refl.
        destruct (Z.eqb_spec (div - 1) 0); [lia|].
        destruct (Z.eqb_spec (2 * div - 2) 0); [lia|].
        rewrite to_size_t_small by lia. f_equal. lia.
  - (* a band in the middle and the band that straddles the next boundary *)
    assert (Hi' : i <= div - 2) by lia.
    assert (Hfull : (i + 1) * seg < n) by nia.
    destruct (Z.eqb_spec i (div - 1)) as [?|_]; [lia|]. simpl negb. cbv iota.
    rewrite substr_in_range by (fold n; lia). fold n. simpl.
    rewrite substr_in_range by (fold n; nia). fold n. simpl.
    rewrite (to_size_t_small seg) by lia.
    assert (Hstart0 : band_start n div seg (2 * i) = i * seg).
    { unfold band_start. destruct (Z.eqb_spec (2 * i) (2 * div - 2)); [lia|]. lia. }
    assert (Hlen0 : band_length n div seg (2 * i) = seg).
    { unfold band_length. rewrite Hstart0.
      destruct (Z.eqb_spec (2 * i) (2 * div - 2)); [lia|]. nia. }
    assert (Hstart1 : band_start n div seg (2 * i + 1) = i * seg + seg / 2).
    { unfold band_start. destruct (Z.eqb_spec (2 * i + 1) (2 * div - 2)); [lia|]. lia. }
    assert (Hlen1 : band_length n div seg (2 * i + 1)
                    = Z.min seg (n - (i * seg + seg / 2))).
    { unfold band_length. rewrite Hstart1.
      destruct (Z.eqb_spec (2 * i + 1) (2 * div - 2)); [lia|]. done. }
    assert (Hlong : seg / 4 - (seg - Z.min seg (n - (i * seg + seg / 2))) >= 0) by nia.
    rewrite size_substring by nia.
    eexists. split; [reflexivity|].
    replace (2 * i + 2) with (2 * i + 1 + 1) by lia.
    apply filled_insert with (upto := 2 * i + 1); [lia|lia| | |].
    + apply filled_insert with (upto := 2 * i); [lia|lia|done| |].
      * unfold band_sequence. fold n. rewrite Hstart0, Hlen0.
        do 2 f_equal. lia.
      * unfold band_strip. fold n. rewrite Hlen0.
        destruct (Z.eqb_spec (2 * i) (2 * div - 2)); [lia|].
        destruct (Z.eqb_spec i 0), (Z.eqb_spec (2 * i) 0); try lia.
        -- f_equal. lia.
        -- rewrite to_size_t_small by lia. f_equal; lia.
    + unfold band_sequence. fold n. rewrite Hstart1, Hlen1. done.
    + unfold band_strip. fold n. rewrite Hlen1.
      destruct (Z.eqb_spec (2 * i + 1) (2 * div - 2)); [lia|].
      destruct (Z.eqb_spec (2 * i + 1) 0); [lia|].
      rewrite to_size_t_small by lia. f_equal. lia.
Qed.

Lemma band_loop_fills read div seg :
  layout_numbers (size (Alignment.sequence read)) div seg ->
  forall turns i st,
    0 <= i -> i + Z.of_nat turns = div ->
    filled read div seg (2 * i) st ->
    exists st', band_loop read div seg turns i st = Some st'
                /\ filled read div seg (2 * div) st'.
Proof.
  intros Hnum turns. induction turns as [|turns IH]; intros i st Hi Hturns Hfilled; simpl.
  - exists st. split; [done|]. replace (2 * div) with (2 * i) by lia. done.
  - destruct (band_iteration_fills read div seg i st Hnum ltac:(lia) Hfilled)
      as (st' & -> & Hst'). simpl.
    apply IH; [lia|lia|]. replace (2 * (i + 1)) with (2 * i + 2) by lia. done.
Qed.

(** Far enough from the end of the read a band is a whole segment and loses
    a quarter of a segment on each side that faces another band. *)
Lemma inner_band read_size div seg k :
  layout_numbers read_size div seg ->
  0 <= k < 2 * div - 3 ->
  band_start read_size div seg k = k * (seg / 2)
  /\ band_length read_size div seg k = seg
  /\ band_strip read_size div seg k = (if k =? 0 then 0 else seg / 4, seg / 4).
Proof.
  intros Hnum Hk.
  destruct (layout_numbers_facts _ _ _ Hnum) as (Hlast & Hseg & Hfit & Hseg4 & Hseg2).
  destruct Hnum as (Hn & Hdiv & Hseg0 & _ & _ & _).
  unfold band_strip, band_length, band_start.
  destruct (Z.eqb_spec k (2 * div - 2)); [lia|].
  assert (k * (seg / 2) + seg <= (div - 1) * seg) by nia.
  repeat split; [lia|].
  destruct (k =? 0); f_equal; lia.
Qed.

(** C4, the claim as stated fails: for a read of nine bases and a band
    width of four the aligner settles on [div = 2], because the loop compares
    the quotient rounded down (4); rounded up it is 5 and does not fit. *)
Lemma align_banded_div_rounds_down :
  exists l, align_banded_layout nine_bases 4 = Some l
            /\ layout_div l = 2
            /\ ~ claimed_div (size (Alignment.sequence nine_bases)) 4 (layout_div l).
Proof.
  eexists. split; [vm_compute; reflexivity|]. split; [reflexivity|].
  intros (_ & Hfits & _). vm_compute in Hfits. apply Hfits. reflexivity.
Qed.

(** C4, amended: when the read is longer than the band width rounded up to a
    multiple of 4, [div] is the least integer from 2 on such that
    [floor(read_length / div)] is at most that rounded band width, the segment
    size is [floor(read_length / div)] rounded up to a multiple of 4, and
    exactly [2*div - 1] bands are laid out.  Band [k] starts [k] half
    segments into the read, except that the last band is moved left to end
    with the read; the bands overlap their neighbours by half a segment.  A
    band that is a whole segment away from the end of the read is one segment
    long and is trimmed by a quarter of a segment on each side that faces
    another band; near the end of the read the trims follow [band_strip]:
    the last band also loses the bases by which it was moved left, and a
    band cut short by the end of the read loses that much less at its end. *)
Theorem align_banded_layout_spec (read : Alignment.t) (band_width : Z) :
  let read_size := size (Alignment.sequence read) in
  0 <= band_width -> read_size < 2 ^ 31 ->
  round_up_4 band_width < read_size ->
  exists l,
    align_banded_layout read band_width = Some l
    /\ least_div read_size (round_up_4 band_width) (layout_div l)
    /\ layout_segment_size l mod 4 = 0
    /\ read_size / layout_div l <= layout_segment_size l < read_size / layout_div l + 4
    /\ length (layout_bands l) = Z.to_nat (2 * layout_div l - 1)
    /\ length (layout_to_strip l) = Z.to_nat (2 * layout_div l - 1)
    /\ (forall k, 0 <= k <= 2 * layout_div l - 2 ->
          layout_bands l !! Z.to_nat k
          = Some (Alignment.set_sequence read
                    (band_sequence read (layout_div l) (layout_segment_size l) k))
          /\ layout_to_strip l !! Z.to_nat k
             = Some (band_strip read_size (layout_div l) (layout_segment_size l) k))
    /\ (forall k, 0 <= k < 2 * layout_div l - 3 ->
          band_start read_size (layout_div l) (layout_segment_size l) k
          = k * (layout_segment_size l / 2)
          /\ band_length read_size (layout_div l) (layout_segment_size l) k
             = layout_segment_size l
          /\ band_strip read_size (layout_div l) (layout_segment_size l) k
             = (if k =? 0 then 0 else layout_segment_size l / 4,
                layout_segment_size l / 4)).
Proof.
  intros read_size Hbw Hsize Hassert.
  destruct (round_up_4_spec band_width Hbw) as [Hbw4 Hbwr].
  destruct (chosen_layout_numbers read_size band_width Hbw Hsize Hassert)
    as (Hnum & Hleast & Hdivle).
  set (div := choose_div read_size (round_up_4 band_width)) in *.
  assert (Hdiv : 2 <= div) by (destruct Hleast; done).
  assert (Hq0 : 0 <= read_size / div) by (apply Z.div_pos; lia).
  destruct (round_up_4_spec (read_size / div) Hq0) as [Hseg4 Hsegr].
  set (seg := round_up_4 (read_size / div)) in *.
  unfold align_banded_layout. fold read_size.
  rewrite (to_size_t_small (round_up_4 band_width)) by lia.
  destruct (Z.leb_spec read_size (round_up_4 band_width)) as [?|_]; [lia|].
  fold div. rewrite (to_size_t_small div) by lia. fold seg.
  rewrite (to_size_t_small (div * 2 - 1)) by lia.
  destruct (band_loop_fills read div seg Hnum (Z.to_nat div) 0
              (replicate (Z.to_nat (div * 2 - 1)) Alignment.default,
               replicate (Z.to_nat (div * 2 - 1)) (0, 0)))
    as (st & -> & (Hlb & Hls & Hfilled)); [lia|lia| |].
  { split; [simpl; rewrite length_replicate; lia|].
    split; [simpl; rewrite length_replicate; lia|]. intros k Hk. lia. }
  simpl. eexists. split; [reflexivity|]. simpl.
  repeat split; try done; try lia.
  - destruct Hleast as (_ & ? & _). done.
  - destruct Hleast as (_ & _ & ?). done.
  - apply Hfilled; lia.
  - apply Hfilled; lia.
  - by apply inner_band.
  - by apply inner_band.
  - by apply inner_band.
Qed.

(** The theorem at a read of nineteen bases and a band width of eight:
    three segments of eight bases, five bands. *)
Lemma align_banded_layout_spec_witness :
  exists l,
    align_banded_layout nineteen_bases 8 = Some l
    /\ least_div 19 (round_up_4 8) (layout_div l)
    /\ layout_segment_size l mod 4 = 0
    /\ 19 / layout_div l <= layout_segment_size l < 19 / layout_div l + 4
    /\ length (layout_bands l) = Z.to_nat (2 * layout_div l - 1)
    /\ length (layout_to_strip l) = Z.to_nat (2 * layout_div l - 1)
    /\ (forall k, 0 <= k <= 2 * layout_div l - 2 ->
          layout_bands l !! Z.to_nat k
          = Some (Alignment.set_sequence nineteen_bases
                    (band_sequence nineteen_bases (layout_div l) (layout_segment_size l) k))
          /\ layout_to_strip l !! Z.to_nat k
             = Some (band_strip 19 (layout_div l) (layout_segment_size l) k))
    /\ (forall k, 0 <= k < 2 * layout_div l - 3 ->
          band_start 19 (layout_div l) (layout_segment_size l) k
          = k * (layout_segment_size l / 2)
          /\ band_length 19 (layout_div l) (layout_segment_size l) k
             = layout_segment_size l
          /\ band_strip 19 (layout_div l) (layout_segment_size l) k
             = (if k =? 0 then 0 else layout_segment_size l / 4,
                layout_segment_size l / 4)).
Proof.
  apply (align_banded_layout_spec nineteen_bases 8); vm_compute; done.
Defined.

End BandedProofs.

(** ** The fragment model *)

Module FragmentProofs.
Import FragmentModel Fragment.

(** *** The sums and the counts *)

Lemma accumulate_lengths_sum lengths :
  (accumulate_lengths lengths == inject_Z (foldr Z.add 0%Z lengths))%Q.
Proof.
  unfold accumulate_lengths.
  assert (Hgen : forall sum : Q,
             (fold_left (fun sum length => sum + inject_Z length) lengths sum
              == sum + inject_Z (foldr Z.add 0%Z lengths))%Q).
  { induction lengths as [|x rest IH]; intros sum; simpl.
    - change (inject_Z 0) with 0%Q. ring.
    - rewrite IH, inject_Z_plus. ring. }
  rewrite Hgen. ring.
Qed.

Lemma length_filter_count (flags : list bool) (flag : bool) :
  length (filter (fun b => b = flag) flags) = count_occ Bool.bool_dec flags flag.
Proof.
  induction flags as [|b rest IH]; [done|].
  rewrite filter_cons. simpl.
  destruct (decide (b = flag)) as [Hsame|Hother], (Bool.bool_dec b flag) as [Heq|Hdiff];
    simpl; congruence.
Qed.

Lemma majority_counts (flags : list bool) :
  (count_false flags <? count_true flags) = majority flags.
Proof.
  unfold count_false, count_true, majority. rewrite !length_filter_count.
  destruct (Z.ltb_spec (Z.of_nat (count_occ Bool.bool_dec flags false))
                       (Z.of_nat (count_occ Bool.bool_dec flags true))),
    (Nat.ltb_spec (count_occ Bool.bool_dec flags false)
                  (count_occ Bool.bool_dec flags true)); (done || lia).
Qed.

Lemma same_direction_of_spec aln1_is_rev length :
  same_direction_of aln1_is_rev length
  = Some (if aln1_is_rev then length <=? 0 else 0 <=? length).
Proof.
  unfold same_direction_of.
  destruct aln1_is_rev, (Z.leb_spec length 0), (Z.leb_spec 0 length); simpl; (done || lia).
Qed.

Lemma removelast_take {A} (l : list A) : forall n,
  (n < length l)%nat -> removelast (take (S n) l) = take n l.
Proof.
  induction l as [|x l IH]; intros n Hn; simpl in Hn; [lia|].
  destruct n as [|n]; [by destruct l|].
  change (take (S (S n)) (x :: l)) with (x :: take (S n) l).
  destruct l as [|y l]; [simpl in Hn; lia|].
  change (removelast (x :: take (S n) (y :: l)))
    with (x :: removelast (take (S n) (y :: l))).
  rewrite IH by (simpl in *; lia). done.
Qed.

Section Facts.
Context `{Mapper} `{FragmentStatistics} `{Layout}.

(** A buffer that holds a window of what was pushed holds the window of
    what was pushed once more. *)
Lemma push_bounded_window {A} (x : A) (pushed : list A) :
  push_bounded x (window pushed) = window (pushed ++ [x]).
Proof.
  unfold push_bounded, window. rewrite reverse_app. simpl.
  assert (Hsize : 0 <= to_size_t fragment_length_cache_size)
    by (unfold to_size_t; apply Z.mod_pos_bound; lia).
  set (n := Z.to_nat (to_size_t fragment_length_cache_size)).
  assert (Hn : to_size_t fragment_length_cache_size = Z.of_nat n) by lia.
  rewrite Hn. generalize (reverse pushed). intros l.
  rewrite length_take.
  destruct (Z.ltb_spec (Z.of_nat n) (Z.of_nat (S (n `min` length l)))) as [Hfull|Hroom].
  - assert (Hl : (n <= length l)%nat) by lia.
    destruct n as [|n]; [done|].
    change (removelast (x :: take (S n) l)) with
      (match take (S n) l with [] => [] | _ :: _ => x :: removelast (take (S n) l) end).
    destruct l as [|y l]; [simpl in Hl; lia|].
    change (take (S n) (y :: l)) with (y :: take n l) at 1.
    cbv iota. rewrite removelast_take by lia. done.
  - assert (Hl : (length l < n)%nat) by lia.
    rewrite take_ge by lia. destruct n as [|n]; [lia|]. simpl.
    rewrite take_ge by lia. done.
Qed.

Lemma window_nonempty {A} (x : A) (pushed : list A) :
  to_size_t fragment_length_cache_size <> 0 -> window (pushed ++ [x]) <> [].
Proof.
  intros Hcache. unfold window. rewrite reverse_app. simpl.
  assert (Hsize : 0 <= to_size_t fragment_length_cache_size)
    by (unfold to_size_t; apply Z.mod_pos_bound; lia).
  destruct (Z.to_nat (to_size_t fragment_length_cache_size)) eqn:E; [lia|done].
Qed.

(** *** The counter *)

Lemma counter_after_step k :
  1 <= fragment_length_estimate_interval -> 0 <= k ->
  counter_after (k + 1)
  = if fragment_length_estimate_interval <? counter_after k + 1
    then 1 else counter_after k + 1.
Proof.
  intros HI Hk. unfold counter_after.
  set (I := fragment_length_estimate_interval) in *.
  replace (k + 1 - 1) with k by lia.
  destruct (Z.leb_spec (k + 1) I), (Z.leb_spec k I); try lia.
  - destruct (Z.ltb_spec I (k + 1)); [lia|done].
  - assert (k = I) as -> by lia. rewrite Z.mod_same by lia.
    destruct (Z.ltb_spec I (I + 1)); [done|lia].
  - pose proof (Z.div_mod (k - 1) I ltac:(lia)) as Hdm.
    pose proof (Z.mod_pos_bound (k - 1) I ltac:(lia)) as Hr.
    set (r := (k - 1) mod I) in *. set (q := (k - 1) / I) in *.
    destruct (Z.ltb_spec I (r + 1 + 1)).
    + assert (Hk' : k = (q + 1) * I) by lia. rewrite Hk', Z.mod_mul by lia. done.
    + rewrite (Z.mod_unique_pos k I q (r + 1)); lia.
Qed.

(** The sample after [k] others recomputes the estimates exactly when its
    number is one more than a multiple of the interval that is not zero. *)
Lemma recomputation_numbers k :
  1 <= fragment_length_estimate_interval -> 0 <= k ->
  if fragment_length_estimate_interval <? counter_after k + 1
  then fragment_length_estimate_interval < k + 1 /\ last_recomputation (k + 1) = k + 1
  else k + 1 <= fragment_length_estimate_interval
       \/ (fragment_length_estimate_interval < k
           /\ last_recomputation (k + 1) = last_recomputation k
           /\ 0 <= last_recomputation k <= k).
Proof.
  intros HI Hk. unfold counter_after, last_recomputation.
  set (I := fragment_length_estimate_interval) in *.
  replace (k + 1 - 1) with k by lia.
  destruct (Z.leb_spec k I) as [Hearly|Hlate].
  - destruct (Z.ltb_spec I (k + 1)); [|left; lia].
    assert (k = I) as -> by lia. rewrite Z.div_same by lia. lia.
  - pose proof (Z.div_mod (k - 1) I ltac:(lia)) as Hdm.
    pose proof (Z.mod_pos_bound (k - 1) I ltac:(lia)) as Hr.
    set (r := (k - 1) mod I) in *. set (q := (k - 1) / I) in *.
    assert (Hq : 1 <= q) by nia.
    destruct (Z.ltb_spec I (r + 1 + 1)).
    + assert (Hk' : k = (q + 1) * I) by lia. rewrite Hk', Z.div_mul by lia. lia.
    + right. rewrite <- (Z.div_unique_pos k I q (r + 1)) by lia. nia.
Qed.

(** *** One sample *)

Lemma record_fragment_configuration_step seen m sample :
  1 <= fragment_length_estimate_interval ->
  to_size_t fragment_length_cache_size <> 0 ->
  after seen m -> recordable sample ->
  exists m',
    record_fragment_configuration m (fst (fst sample)) (snd (fst sample)) (snd sample)
    = Some m'
    /\ after (seen ++ [sample]) m'.
Proof.
  intros HI Hcache [Hlengths Horientations Hdirections Hcounter Hearly Hlate]
         [(mapping1 & Hfirst1 & Hhas1) (mapping2 & Hfirst2 & Hhas2)].
  destruct sample as [[len aln1] aln2]. cbn [fst snd] in *.
  unfold record_fragment_configuration.
  rewrite Hfirst1, Hfirst2. cbn [mbind option_bind]. rewrite Hhas1, Hhas2. cbn [andb negb].
  rewrite same_direction_of_spec. cbn [mbind option_bind].
  assert (Hrev1 : Position.is_reverse (Mapping.position mapping1) = first_is_reverse aln1).
  { unfold first_is_reverse. destruct (Alignment.path aln1); [done|].
    simpl in Hfirst1. by injection Hfirst1 as ->. }
  assert (Hrev2 : Position.is_reverse (Mapping.position mapping2) = first_is_reverse aln2).
  { unfold first_is_reverse. destruct (Alignment.path aln2); [done|].
    simpl in Hfirst2. by injection Hfirst2 as ->. }
  rewrite Hrev1, Hrev2, Hlengths, Horientations, Hdirections.
  change (Z.abs len) with (length_of (len, aln1, aln2)).
  change (Bool.eqb (first_is_reverse aln1) (first_is_reverse aln2))
    with (orientation_of (len, aln1, aln2)).
  change (if first_is_reverse aln1 then len <=? 0 else 0 <=? len)
    with (direction_of (len, aln1, aln2)).
  rewrite !push_bounded_window.
  set (sample := (len, aln1, aln2)).
  change [length_of sample] with (length_of <$> [sample]).
  change [orientation_of sample] with (orientation_of <$> [sample]).
  change [direction_of sample] with (direction_of <$> [sample]).
  rewrite <- !fmap_app.
  assert (Hk : 0 <= Z.of_nat (length seen)) by lia.
  pose proof (counter_after_step (Z.of_nat (length seen)) HI Hk) as Hnext.
  pose proof (recomputation_numbers (Z.of_nat (length seen)) HI Hk) as Hnumbers.
  assert (Hlen : Z.of_nat (length (seen ++ [sample])) = Z.of_nat (length seen) + 1)
    by (rewrite length_app; simpl; lia).
  cbn [since_last_fragment_length_estimate]. rewrite Hcounter.
  destruct (fragment_length_estimate_interval <? counter_after (Z.of_nat (length seen)) + 1).
  - (* the estimates are recomputed *)
    destruct Hnumbers as [Hpast Hlast].
    unfold fragment_length_mean. cbn [fragment_lengths].
    destruct (Nat.eqb_spec (length (window (length_of <$> seen ++ [sample]))) 0) as [Hnil|_].
    { exfalso. rewrite fmap_app in Hnil. simpl in Hnil.
      apply (window_nonempty (length_of sample) (length_of <$> seen) Hcache).
      by apply length_zero_iff_nil. }
    cbn [mbind option_bind]. eexists. split; [reflexivity|].
    split; cbn [fragment_lengths fragment_orientations fragment_directions
                since_last_fragment_length_estimate fragment_size]; try done.
    + by rewrite Hlen, Hnext.
    + intros Hle. lia.
    + intros _. rewrite Hlen, Hlast, <- Hlen, Nat2Z.id, firstn_all.
      split; cbn [cached_fragment_length_mean cached_fragment_length_stdev
                  cached_fragment_orientation cached_fragment_direction fragment_size
                  fragment_lengths fragment_orientations fragment_directions].
      * unfold mean_of. by rewrite accumulate_lengths_sum.
      * done.
      * unfold fragment_orientation. cbn [fragment_orientations]. apply majority_counts.
      * unfold fragment_direction. cbn [fragment_directions]. apply majority_counts.
      * done.
  - (* the estimates are kept *)
    eexists. split; [reflexivity|].
    split; cbn [fragment_lengths fragment_orientations fragment_directions
                since_last_fragment_length_estimate fragment_size]; try done.
    + by rewrite Hlen, Hnext.
    + intros Hle. rewrite Hlen in Hle.
      destruct (Hearly ltac:(lia)) as (Hsize & Hmean & Hsd & Ho & Hd).
      repeat split; done.
    + intros Hgt. rewrite Hlen in Hgt.
      destruct Hnumbers as [Hle|(Hpast & Hlast & Hbound)]; [lia|].
      rewrite Hlen, Hlast.
      rewrite take_app_le by lia.
      destruct (Hlate Hpast) as [Hmean Hsd Ho Hd Hsize].
      split; done.
Qed.

(** *** A run *)

Lemma record_all_after rest :
  1 <= fragment_length_estimate_interval ->
  to_size_t fragment_length_cache_size <> 0 ->
  Forall recordable rest ->
  forall seen m,
    after seen m ->
    exists m', record_all m rest = Some m' /\ after (seen ++ rest) m'.
Proof.
  intros HI Hcache Hrest. induction Hrest as [|sample rest Hsample _ IH]; intros seen m Hm.
  - exists m. rewrite app_nil_r. done.
  - destruct (record_fragment_configuration_step seen m sample HI Hcache Hm Hsample)
      as (m1 & Hstep & Hm1).
    destruct sample as [[len aln1] aln2]. cbn [record_all]. cbn [fst snd] in Hstep.
    rewrite Hstep. cbn [mbind option_bind].
    destruct (IH (seen ++ [(len, aln1, aln2)]) m1 Hm1) as (m' & Hrun & Hm').
    exists m'. split; [done|]. by rewrite <- (assoc_L (++)) in Hm'.
Qed.

Lemma after_initial :
  0 <= fragment_length_estimate_interval -> after [] initial.
Proof.
  intros HI. split; try done.
  - unfold window. simpl. by destruct (Z.to_nat _).
  - unfold window. simpl. by destruct (Z.to_nat _).
  - unfold window. simpl. by destruct (Z.to_nat _).
  - unfold counter_after. change (Z.of_nat (length [])) with 0.
    destruct (Z.leb_spec 0 fragment_length_estimate_interval); [reflexivity|lia].
  - simpl. lia.
Qed.
End Facts.

(** C5: the fragment size is zero in the initial model, and a run of
    samples whose mates have a positioned first mapping, with an interval of
    at least one sample and a cache that is not empty, is recorded to its
    end.  The three buffers then hold the lengths, orientations and
    directions of the most recent samples, as many as the cache holds.
    While no more than [interval] samples have been recorded the fragment
    size is still zero and no estimate has changed.  After that the
    estimates are those of the last sample whose number is one more than a
    multiple of the interval: the mean and the standard deviation of the
    lengths that were buffered then, the majorities of the buffered
    orientations and directions, and a fragment size of the mean plus
    [fragment_sigma] standard deviations (converted to the type of
    [fragment_size]). *)
Theorem fragment_model_updates `{Mapper} `{FragmentStatistics} `{Layout}
        (samples : list (Z * Alignment.t * Alignment.t)) :
  1 <= fragment_length_estimate_interval ->
  to_size_t fragment_length_cache_size <> 0 ->
  Forall recordable samples ->
  fragment_size initial = 0
  /\ exists m,
      record_all initial samples = Some m
      /\ fragment_lengths m = window (length_of <$> samples)
      /\ fragment_orientations m = window (orientation_of <$> samples)
      /\ fragment_directions m = window (direction_of <$> samples)
      /\ (Z.of_nat (length samples) <= fragment_length_estimate_interval ->
          fragment_size m = 0 /\ unestimated m)
      /\ (fragment_length_estimate_interval < Z.of_nat (length samples) ->
          let seen :=
            take (Z.to_nat (last_recomputation (Z.of_nat (length samples)))) samples in
          (exists k, 1 <= k
                     /\ Z.of_nat (length seen) = k * fragment_length_estimate_interval + 1
                     /\ Z.of_nat (length samples)
                        <= (k + 1) * fragment_length_estimate_interval)
          /\ (cached_fragment_length_mean m == mean_of (window (length_of <$> seen)))%Q
          /\ cached_fragment_length_stdev m = stdev (window (length_of <$> seen))
          /\ cached_fragment_orientation m = majority (window (orientation_of <$> seen))
          /\ cached_fragment_direction m = majority (window (direction_of <$> seen))
          /\ fragment_size m
             = fragment_size_of_double
                 (cached_fragment_length_mean m
                  + fragment_sigma * cached_fragment_length_stdev m)%Q).
Proof.
  intros HI Hcache Hsamples. split; [reflexivity|].
  destruct (record_all_after samples HI Hcache Hsamples [] initial)
    as (m & Hrun & [Hlengths Horientations Hdirections Hcounter Hearly Hlate]).
  { apply after_initial. lia. }
  change ([] ++ samples) with samples in *.
  exists m. split; [done|]. split; [done|]. split; [done|]. split; [done|].
  split.
  { intros Hle. destruct (Hearly Hle) as (Hsize & Hrest). split; [done|]. by split. }
  intros Hgt seen. destruct (Hlate Hgt) as [Hmean Hsd Ho Hd Hsize].
  fold seen in Hmean, Hsd, Ho, Hd.
  split; [|done].
  set (n := Z.of_nat (length samples)) in *.
  set (I := fragment_length_estimate_interval) in *.
  pose proof (Z.div_mod (n - 1) I ltac:(lia)) as Hdm.
  pose proof (Z.mod_pos_bound (n - 1) I ltac:(lia)) as Hr.
  exists ((n - 1) / I). 
  assert (Hq : 1 <= (n - 1) / I) by (apply Z.div_le_lower_bound; lia).
  split; [done|]. split.
  - unfold seen. rewrite length_take. unfold last_recomputation. fold I n. nia.
  - nia.
Qed.

(** The theorem at twelve pairs with the default interval of ten samples:
    the eleventh sample is the one that computes the estimates. *)
Lemma fragment_model_updates_witness :
  exists m,
    @record_all default_mapper floor_statistics plain_layout initial
                ((fun length => (length, forward_mate, forward_mate)) <$> twelve_lengths)
    = Some m
    /\ fragment_lengths m = reverse twelve_lengths
    /\ cached_fragment_length_stdev m
       = @stdev floor_statistics (reverse (take 11 twelve_lengths))
    /\ fragment_size m = 324.
Proof.
  destruct (@fragment_model_updates
              default_mapper floor_statistics plain_layout
              ((fun length => (length, forward_mate, forward_mate)) <$> twelve_lengths))
    as (_ & m & Hrun & Hlengths & _ & _ & _ & Hlate).
  - vm_compute. discriminate.
  - vm_compute. discriminate.
  - repeat constructor; exists (Mapping.mk (Position.mk 1 0 false) [Edit.mk 4 4 ""]);
      split; reflexivity.
  - exists m. split; [exact Hrun|]. split; [exact Hlengths|].
    vm_compute in Hrun. injection Hrun as <-. split; vm_compute; reflexivity.
Defined.

End FragmentProofs.

(** ** Transition weights of the chain model *)

Module TransitionProofs.
Import Transition.




End TransitionProofs.

(** ** Counts and positions of the seeds *)

Module SeedsProofs.
Import Seeds.

Section Facts.
Context `{GCSA} `{Mapper}.

(** The test on the count leaves the count and the range as they are and
    fills the positions by the rule. *)
Lemma fill_nodes_located mem :
  fresh mem ->
  MaximalExactMatch.match_count (fill_nodes mem) = MaximalExactMatch.match_count mem
  /\ MaximalExactMatch.range (fill_nodes mem) = MaximalExactMatch.range mem
  /\ MaximalExactMatch.nodes (fill_nodes mem)
     = located (MaximalExactMatch.range mem) (MaximalExactMatch.match_count mem).
Proof.
  unfold fresh, fill_nodes, located. intros Hfresh.
  destruct (wanted _); simpl; auto.
Qed.

Lemma fill_mem_located mem :
  fresh mem ->
  MaximalExactMatch.match_count (fill_mem mem) = count (MaximalExactMatch.range mem)
  /\ MaximalExactMatch.range (fill_mem mem) = MaximalExactMatch.range mem
  /\ MaximalExactMatch.nodes (fill_mem mem)
     = located (MaximalExactMatch.range mem) (count (MaximalExactMatch.range mem)).
Proof.
  intros Hfresh. unfold fill_mem.
  apply (fill_nodes_located (set_match_count mem (count (MaximalExactMatch.range mem)))).
  exact Hfresh.
Qed.

(** The loop over the parents computes [sub_mem_count] and touches neither
    the range nor the positions. *)
Lemma count_sub_mem_count mems sub :
  fresh (fst sub) ->
  fresh (count_sub_mem mems sub)
  /\ MaximalExactMatch.range (count_sub_mem mems sub) = MaximalExactMatch.range (fst sub)
  /\ MaximalExactMatch.match_count (count_sub_mem mems sub) = sub_mem_count mems sub.
Proof.
  unfold count_sub_mem, sub_mem_count. intros Hfresh.
  set (start := set_match_count (fst sub) (count (MaximalExactMatch.range (fst sub)))).
  assert (Hstart : fresh start
                   /\ MaximalExactMatch.range start = MaximalExactMatch.range (fst sub)
                   /\ MaximalExactMatch.match_count start
                      = count (MaximalExactMatch.range (fst sub)))
    by done.
  generalize dependent (count (MaximalExactMatch.range (fst sub))).
  intros c start. revert c start.
  induction (snd sub) as [|p ps IH]; intros c start Hstart; simpl; [done|].
  apply IH. destruct Hstart as (Hf & Hr & Hc). rewrite <- Hc. done.
Qed.

Lemma fill_sub_mem_located mems sub :
  fresh (fst sub) ->
  MaximalExactMatch.match_count (fill_nodes (count_sub_mem mems sub)) = sub_mem_count mems sub
  /\ MaximalExactMatch.range (fill_nodes (count_sub_mem mems sub))
     = MaximalExactMatch.range (fst sub)
  /\ MaximalExactMatch.nodes (fill_nodes (count_sub_mem mems sub))
     = located (MaximalExactMatch.range (fst sub)) (sub_mem_count mems sub).
Proof.
  intros Hfresh.
  destruct (count_sub_mem_count mems sub Hfresh) as (Hf & Hr & Hc).
  destruct (fill_nodes_located _ Hf) as (Hcount & Hrange & Hnodes).
  rewrite Hcount, Hrange, Hnodes, Hr, Hc. done.
Qed.

(** Under the contract of the index the positions of the rule are distinct
    and not more than the count of the range. *)
Lemma located_contract range match_count :
  index_contract ->
  NoDup (located range match_count)
  /\ Z.of_nat (length (located range match_count)) <= count range.
Proof.
  intros Hcontract. destruct (Hcontract range) as (Hc & Hnodup & Hlen).
  unfold located. destruct (wanted match_count); [done|].
  split; [constructor|simpl; lia].
Qed.

(** The index of the example keeps the contract. *)
Lemma small_index_contract : @index_contract small_index.
Proof.
  intros [a b]. unfold count, locate, small_index; simpl.
  destruct (a =? 10); simpl; (split; [lia|]); (split; [|lia]);
    repeat (constructor;
            [intros Hin;
             repeat (apply elem_of_cons in Hin as [Hin|Hin]; [discriminate|]);
             by apply elem_of_nil in Hin|]);
    constructor.
Defined.
End Facts.

(** C9, the claim as stated fails: the read occurs once and its middle part
    three times; the sub-MEM of the middle part gets the count [3 - 1 = 2]
    but the three positions of its whole range. *)
Lemma sub_mem_count_below_positions :
  ~ Forall (@count_covers_positions)
      (@finish_mems small_index default_mapper [whole_read_mem] [middle_sub_mem] 10).
Proof.
  intros Hall. vm_compute in Hall.
  apply Forall_cons in Hall as [_ Hall]. apply Forall_cons in Hall as [Hsub _].
  apply Hsub. reflexivity.
Qed.

(** C9, amended: after the count query the result holds every emitted MEM
    and, when reseeding is on, every sub-MEM.  The [match_count] of a MEM is
    the count of its range; the one of a sub-MEM is the count of its range
    less the counts of its parents.  The positions of either are those that
    [locate] gives for its range when its [match_count] is positive and
    within the hit cap (or the cap is disabled), and none otherwise.  When
    the index gives distinct positions for a range, and not more of them
    than its count, the positions are distinct; those of a MEM are not more
    than its [match_count], and those of a sub-MEM not more than the count
    of its range (they may be more than its [match_count]). *)
Theorem finish_mems_spec `{GCSA} `{Mapper}
        (mems : list MaximalExactMatch.t)
        (sub_mems : list (MaximalExactMatch.t * list nat)) (reseed_length : Z) :
  Forall fresh mems -> Forall (fun s => fresh (fst s)) sub_mems ->
  exists filled_mems filled_sub_mems,
    finish_mems mems sub_mems reseed_length ≡ₚ filled_mems ++ filled_sub_mems
    /\ Forall2 (fun mem filled_mem =>
                  MaximalExactMatch.match_count filled_mem
                  = count (MaximalExactMatch.range mem)
                  /\ MaximalExactMatch.range filled_mem = MaximalExactMatch.range mem
                  /\ MaximalExactMatch.nodes filled_mem
                     = (if wanted (MaximalExactMatch.match_count filled_mem)
                        then locate (MaximalExactMatch.range mem) else []))
               mems filled_mems
    /\ Forall2 (fun sub filled_sub =>
                  MaximalExactMatch.match_count filled_sub = sub_mem_count filled_mems sub
                  /\ MaximalExactMatch.range filled_sub = MaximalExactMatch.range (fst sub)
                  /\ MaximalExactMatch.nodes filled_sub
                     = (if wanted (MaximalExactMatch.match_count filled_sub)
                        then locate (MaximalExactMatch.range (fst sub)) else []))
               (if reseed_length =? 0 then [] else sub_mems) filled_sub_mems
    /\ (index_contract ->
        Forall (fun mem => NoDup (MaximalExactMatch.nodes mem))
               (finish_mems mems sub_mems reseed_length)
        /\ Forall count_covers_positions filled_mems
        /\ Forall2 (fun sub filled_sub =>
                      Z.of_nat (length (MaximalExactMatch.nodes filled_sub))
                      <= count (MaximalExactMatch.range (fst sub)))
                   (if reseed_length =? 0 then [] else sub_mems) filled_sub_mems).
Proof.
  intros Hmems Hsubs.
  set (filled_mems := map fill_mem mems).
  set (filled_sub_mems :=
         if reseed_length =? 0 then []
         else map (fun s => fill_nodes (count_sub_mem filled_mems s)) sub_mems).
  assert (Hperm : finish_mems mems sub_mems reseed_length ≡ₚ filled_mems ++ filled_sub_mems).
  { unfold finish_mems. rewrite merge_sort_Permutation. subst filled_sub_mems.
    fold filled_mems. destruct (reseed_length =? 0); simpl; [by rewrite app_nil_r|done]. }
  assert (Hm : Forall2 (fun mem filled_mem =>
                          MaximalExactMatch.match_count filled_mem
                          = count (MaximalExactMatch.range mem)
                          /\ MaximalExactMatch.range filled_mem = MaximalExactMatch.range mem
                          /\ MaximalExactMatch.nodes filled_mem
                             = located (MaximalExactMatch.range mem)
                                       (count (MaximalExactMatch.range mem)))
                       mems filled_mems).
  { subst filled_mems. clear -Hmems.
    induction Hmems as [|mem rest Hmem _ IH]; simpl; constructor; [|done].
    by apply fill_mem_located. }
  assert (Hs : Forall2 (fun sub filled_sub =>
                          MaximalExactMatch.match_count filled_sub
                          = sub_mem_count filled_mems sub
                          /\ MaximalExactMatch.range filled_sub
                             = MaximalExactMatch.range (fst sub)
                          /\ MaximalExactMatch.nodes filled_sub
                             = located (MaximalExactMatch.range (fst sub))
                                       (sub_mem_count filled_mems sub))
                       (if reseed_length =? 0 then [] else sub_mems) filled_sub_mems).
  { subst filled_sub_mems. clear -Hsubs. destruct (reseed_length =? 0); [constructor|].
    induction Hsubs as [|sub rest Hsub _ IH]; simpl; constructor; [|done].
    by apply fill_sub_mem_located. }
  exists filled_mems, filled_sub_mems.
  split; [exact Hperm|]. split; [|split].
  - eapply Forall2_impl; [exact Hm|]. intros mem filled (Hc & Hr & Hn).
    rewrite Hc. done.
  - eapply Forall2_impl; [exact Hs|]. intros sub filled (Hc & Hr & Hn).
    rewrite Hc. done.
  - intros Hcontract. split; [|split].
    + rewrite Hperm. apply Forall_app. split.
      * clear -Hm Hcontract. induction Hm as [|mem filled ? ? (_ & _ & Hn) _ IH];
          constructor; [|done].
        rewrite Hn. by apply located_contract.
      * clear -Hs Hcontract. induction Hs as [|sub filled ? ? (_ & _ & Hn) _ IH];
          constructor; [|done].
        rewrite Hn. by apply located_contract.
    + clear -Hm Hcontract. induction Hm as [|mem filled ? ? (Hc & _ & Hn) _ IH];
        constructor; [|done].
      unfold count_covers_positions. rewrite Hn, Hc. by apply located_contract.
    + eapply Forall2_impl; [exact Hs|]. intros sub filled (_ & _ & Hn).
      rewrite Hn. by apply located_contract.
Qed.

(** The theorem at the read of the example: the MEM has the count 1 and its
    one position, the sub-MEM the count 2 and the three positions of its
    range, whose count is 3. *)
Lemma finish_mems_spec_witness :
  exists filled_mem filled_sub_mem,
    @finish_mems small_index default_mapper [whole_read_mem] [middle_sub_mem] 10
    ≡ₚ [filled_mem; filled_sub_mem]
    /\ MaximalExactMatch.match_count filled_mem = 1
    /\ MaximalExactMatch.nodes filled_mem = [Position.mk 1 0 false]
    /\ MaximalExactMatch.match_count filled_sub_mem = 2
    /\ MaximalExactMatch.nodes filled_sub_mem
       = [Position.mk 1 5 false; Position.mk 2 0 false; Position.mk 3 0 false]
    /\ Forall (fun mem => NoDup (MaximalExactMatch.nodes mem))
              (@finish_mems small_index default_mapper [whole_read_mem] [middle_sub_mem] 10)
    /\ Z.of_nat (length (MaximalExactMatch.nodes filled_sub_mem))
       <= @count small_index (MaximalExactMatch.range (fst middle_sub_mem)).
Proof.
  destruct (@finish_mems_spec small_index default_mapper
              [whole_read_mem] [middle_sub_mem] 10)
    as (filled_mems & filled_sub_mems & Hperm & Hm & Hs & Hcontract).
  - repeat constructor.
  - repeat constructor.
  - destruct (Hcontract small_index_contract) as (Hnodup & _ & Hbound).
    change (if 10 =? 0 then [] else [middle_sub_mem]) with [middle_sub_mem] in Hs, Hbound.
    apply Forall2_cons_inv_l in Hm as (filled_mem & rest & (Hc & _ & Hn) & Hrest & ->).
    apply Forall2_nil_inv_l in Hrest as ->.
    apply Forall2_cons_inv_l in Hs as (filled_sub & rest & (Hsc & _ & Hsn) & Hrest & ->).
    apply Forall2_nil_inv_l in Hrest as ->.
    apply Forall2_cons_1 in Hbound as [Hbound _].
    exists filled_mem, filled_sub.
    assert (Hcount : MaximalExactMatch.match_count filled_mem = 1) by exact Hc.
    assert (Hsub : MaximalExactMatch.match_count filled_sub = 2).
    { rewrite Hsc. unfold sub_mem_count. simpl. rewrite Hcount. reflexivity. }
    split; [exact Hperm|]. split; [exact Hcount|].
    split; [rewrite Hn, Hcount; reflexivity|].
    split; [exact Hsub|].
    split; [rewrite Hsn, Hsub; reflexivity|].
    split; [exact Hnodup|exact Hbound].
Defined.

End SeedsProofs.

(** ** The walk over the grid of candidate pairs *)

Module GridProofs.
Import Positions Grid.

Section Facts.
Variable alignments1 alignments2 : list Alignment.t.
Variable positions1 positions2 : nat -> list (string * Q).
Variable fragment_size : Z.
Variable num_pairs : Z.

Local Abbreviation pair_score := (pair_score alignments1 alignments2).
Local Abbreviation extract_max := (extract_max alignments1 alignments2).
Local Abbreviation in_grid := (in_grid alignments1 alignments2).
Local Abbreviation invariant :=
  (invariant alignments1 alignments2 positions1 positions2 fragment_size).
Local Abbreviation visit := (visit alignments1 alignments2 positions1 positions2 fragment_size).
Local Abbreviation pair_loop :=
  (pair_loop alignments1 alignments2 positions1 positions2 fragment_size num_pairs).

Lemma pair_eqb_eq p q : pair_eqb p q = true <-> p = q.
Proof.
  destruct p as [a b], q as [c d]. unfold pair_eqb. simpl.
  rewrite andb_true_iff, !Nat.eqb_eq. split; [intros [-> ->]; done|intros [= -> ->]; done].
Qed.

Lemma existsb_pair_eqb p l : existsb (pair_eqb p) l = true <-> p ∈ l.
Proof.
  rewrite existsb_exists. split.
  - intros (q & Hq & Heq). apply pair_eqb_eq in Heq as ->. by apply list_elem_of_In.
  - intros Hp. exists p. split; [by apply list_elem_of_In|by apply pair_eqb_eq].
Qed.

(** The pair that leaves the queue has the greatest score. *)
Lemma extract_max_spec q m rest :
  extract_max q = Some (m, rest) ->
  q ≡ₚ m :: rest /\ Forall (fun p => pair_score p <= pair_score m) q.
Proof.
  revert m rest. induction q as [|p q IH]; intros m rest; simpl; [done|].
  destruct (extract_max q) as [[m' rest']|] eqn:E.
  - destruct (IH m' rest' eq_refl) as [Hperm Hmax].
    destruct (Z.ltb_spec (pair_score p) (pair_score m')); intros [= <- <-].
    + split; [rewrite Hperm; apply Permutation_swap|]. constructor; [lia|done].
    + split; [done|]. constructor; [lia|].
      eapply Forall_impl; [exact Hmax|]. simpl. intros. lia.
  - intros [= <- <-]. destruct q as [|p' q']; simpl in E.
    + split; [done|]. repeat constructor. lia.
    + destruct (extract_max q') as [[? ?]|]; [destruct (_ <? _)|]; done.
Qed.

Lemma extract_max_none q : extract_max q = None -> q = [].
Proof.
  destruct q as [|p q]; simpl; [done|].
  destruct (extract_max q) as [[? ?]|]; [destruct (_ <? _)|]; done.
Qed.

(** No more distinct pairs than the grid has. *)
Lemma grid_bound (l : list (nat * nat)) :
  NoDup l -> Forall in_grid l ->
  (length l <= length alignments1 * length alignments2)%nat.
Proof.
  intros Hnodup Hgrid.
  replace (length alignments1 * length alignments2)%nat
    with (length (list_prod (seq 0 (length alignments1)) (seq 0 (length alignments2))))
    by (rewrite length_prod, !length_seq; done).
  apply submseteq_length, NoDup_submseteq; [done|].
  intros [i j] Hin. rewrite Forall_forall in Hgrid. destruct (Hgrid _ Hin) as [Hi Hj].
  simpl in Hi, Hj. apply list_elem_of_In, in_prod; apply in_seq; lia.
Qed.
(** A pair that comes earlier in both lists scores at least as much. *)
Lemma dominated_score p q :
  sorted_by_score alignments1 -> sorted_by_score alignments2 ->
  dominates p q -> in_grid q -> pair_score q <= pair_score p.
Proof.
  intros Hs1 Hs2 [Hd1 Hd2] [Hg1 Hg2]. unfold Grid.pair_score.
  specialize (Hs1 _ _ Hd1 Hg1). specialize (Hs2 _ _ Hd2 Hg2). lia.
Qed.

(** Every pair of the grid that has not been visited is behind a pair of
    the queue. *)
Lemma frontier st :
  invariant st ->
  forall n q, (fst q + snd q = n)%nat -> in_grid q -> q ∉ popped st ->
              exists f, f ∈ pair_queue st /\ dominates f q.
Proof.
  intros Hinv n. induction n as [n IH] using lt_wf_ind. intros [i j] Hn Hgrid Hq.
  destruct (decide ((i, j) ∈ pair_queue st)) as [Hin|Hout].
  { exists (i, j). split; [done|]. split; simpl; lia. }
  assert (Hnew : (i, j) ∉ pair_queue st ++ popped st).
  { rewrite elem_of_app. tauto. }
  destruct Hgrid as [Hi Hj]. simpl in *.
  destruct i as [|i].
  - destruct j as [|j]; [destruct Hnew; apply (inv_origin _ _ _ _ _ _ Hinv)|].
    destruct (decide ((0%nat, j) ∈ popped st)) as [Hp|Hp].
    + destruct (inv_closed _ _ _ _ _ _ Hinv _ Hp) as [_ Hright].
      destruct Hnew. apply Hright. split; simpl; lia.
    + destruct (IH (0 + j)%nat ltac:(lia) (0%nat, j) eq_refl) as (f & Hf & [Hf1 Hf2]);
        [split; simpl; lia|done|].
      exists f. split; [done|]. split; simpl in *; lia.
  - destruct (decide ((i, j) ∈ popped st)) as [Hp|Hp].
    + destruct (inv_closed _ _ _ _ _ _ Hinv _ Hp) as [Hdown _].
      destruct Hnew. apply Hdown. split; simpl; lia.
    + destruct (IH (i + j)%nat ltac:(lia) (i, j) eq_refl) as (f & Hf & [Hf1 Hf2]);
        [split; simpl; lia|done|].
      exists f. split; [done|]. split; simpl in *; lia.
Qed.

Lemma push_neighbor_spec g next q c :
  push_neighbor g next (q, c)
  = (q ++ (if g && negb (existsb (pair_eqb next) c) then [next] else []),
     (if g && negb (existsb (pair_eqb next) c) then [next] else []) ++ c).
Proof.
  unfold push_neighbor. simpl.
  destruct (g && negb (existsb (pair_eqb next) c)); simpl; [done|by rewrite app_nil_r].
Qed.

Lemma initial_invariant :
  alignments1 <> [] -> alignments2 <> [] ->
  invariant (Grid.mk [(0, 0)%nat] [] [] []).
Proof.
  intros H1 H2.
  assert (Hg : in_grid (0, 0)%nat).
  { split; simpl; [destruct alignments1|destruct alignments2]; simpl; try done; lia. }
  constructor; simpl.
  - repeat constructor; apply Hg.
  - repeat constructor. intros Hin. by apply elem_of_nil in Hin.
  - intros p. rewrite elem_of_nil, list_elem_of_singleton. split; [done|]. intros [-> ?]. done.
  - by left.
  - intros p Hp. by apply elem_of_nil in Hp.
  - intros p q Hp. by apply elem_of_nil in Hp.
  - constructor.
  - intros p Hp Hne. apply list_elem_of_singleton in Hp. done.
  - done.
  - intros [|] ? ? [=].
  - done.
Qed.
(** One turn of the loop keeps the invariant. *)
Lemma visit_invariant st m rest :
  sorted_by_score alignments1 -> sorted_by_score alignments2 ->
  invariant st -> extract_max (pair_queue st) = Some (m, rest) ->
  invariant (visit m rest st).
Proof.
  intros Hs1 Hs2 Hinv Hex.
  destruct (extract_max_spec _ _ _ Hex) as [Hperm Hmax].
  pose proof (inv_in_grid _ _ _ _ _ _ Hinv) as Hgrid.
  pose proof (inv_distinct _ _ _ _ _ _ Hinv) as Hnodup.
  pose proof (inv_considered _ _ _ _ _ _ Hinv) as Hcons.
  rewrite Forall_forall in Hgrid, Hmax.
  rewrite Hperm in Hnodup. simpl in Hnodup. apply NoDup_cons in Hnodup as [Hm_new Hnodup].
  assert (Hall : forall p, p ∈ pair_queue st ++ popped st <-> p = m \/ p ∈ rest ++ popped st).
  { intros p. rewrite Hperm. simpl. apply elem_of_cons. }
  assert (Hm_grid : in_grid m) by (apply Hgrid, Hall; by left).
  assert (Hm_popped : m ∉ popped st).
  { intros Hin. apply Hm_new, elem_of_app. by right. }
  assert (Hm_queue : m ∈ pair_queue st) by (rewrite Hperm; left).
  unfold Grid.visit. rewrite !push_neighbor_spec. cbn [fst snd].
  set (d := (S (fst m), snd m)). set (r := (fst m, S (snd m))).
  match goal with |- context [rest ++ ?n] => set (new1 := n) end.
  match goal with |- context [(rest ++ new1) ++ ?n] => set (new2 := n) end.
  assert (Hn1 : forall p, p ∈ new1 <-> p = d /\ in_grid d /\ d ∉ pair_queue st ++ popped st).
  { intros p. subst new1.
    destruct (S (fst m) <? length alignments1)%nat eqn:Hg; simpl.
    - apply Nat.ltb_lt in Hg.
      destruct (existsb (pair_eqb d) (considered_pairs st)) eqn:He; simpl.
      + apply existsb_pair_eqb, Hcons in He as [He _].
        rewrite elem_of_nil. tauto.
      + rewrite list_elem_of_singleton. split; [|tauto].
        intros ->. split; [done|]. split; [split; [done|apply Hm_grid]|].
        intros Hin. assert (Hc : d ∈ considered_pairs st) by (apply Hcons; done).
        apply existsb_pair_eqb in Hc. congruence.
    - apply Nat.ltb_ge in Hg. rewrite elem_of_nil.
      split; [done|]. intros (_ & [Hd _] & _). simpl in Hd. lia. }
  assert (Hdr : d <> r) by (subst d r; destruct m; simpl; intros [=]; lia).
  assert (Hn2 : forall p, p ∈ new2 <-> p = r /\ in_grid r /\ r ∉ pair_queue st ++ popped st).
  { intros p. subst new2.
    destruct (S (snd m) <? length alignments2)%nat eqn:Hg; simpl.
    - apply Nat.ltb_lt in Hg.
      destruct (existsb (pair_eqb r) (new1 ++ considered_pairs st)) eqn:He; simpl.
      + apply existsb_pair_eqb, elem_of_app in He as [He|He].
        * apply Hn1 in He as [He _]. by destruct Hdr.
        * apply Hcons in He as [He _]. rewrite elem_of_nil. tauto.
      + rewrite list_elem_of_singleton. split; [|tauto].
        intros ->. split; [done|]. split; [split; [apply Hm_grid|done]|].
        intros Hin.
        assert (Hc : r ∈ new1 ++ considered_pairs st).
        { apply elem_of_app. right. apply Hcons. done. }
        apply existsb_pair_eqb in Hc. congruence.
    - apply Nat.ltb_ge in Hg. rewrite elem_of_nil.
      split; [done|]. intros (_ & [_ Hd] & _). simpl in Hd. lia. }
  assert (Hnd1 : NoDup new1).
  { subst new1. match goal with |- NoDup (if ?b then _ else _) => destruct b end;
      [apply NoDup_singleton|constructor]. }
  assert (Hnd2 : NoDup new2).
  { subst new2. match goal with |- NoDup (if ?b then _ else _) => destruct b end;
      [apply NoDup_singleton|constructor]. }
  clearbody new1 new2.
  assert (Hnew : forall p, p ∈ ((rest ++ new1) ++ new2) ++ popped st ++ [m]
                           <-> p ∈ pair_queue st ++ popped st \/ p ∈ new1 \/ p ∈ new2).
  { intros p. rewrite Hall, !elem_of_app, list_elem_of_singleton. tauto. }
  assert (Hd0 : d <> (0, 0)%nat) by done.
  assert (Hr0 : r <> (0, 0)%nat) by (subst r; destruct m; simpl; intros [=]).
  constructor; cbn [pair_queue considered_pairs popped accepted].
  - apply Forall_forall. intros p [Hp|[Hp|Hp]]%Hnew.
    + by apply Hgrid.
    + apply Hn1 in Hp as (-> & Hp & _). done.
    + apply Hn2 in Hp as (-> & Hp & _). done.
  - assert (Hp : ((rest ++ new1) ++ new2) ++ popped st ++ [m]
                 ≡ₚ new1 ++ new2 ++ m :: rest ++ popped st).
    { rewrite (Permutation_app_comm (popped st) [m]).
      rewrite (Permutation_app_comm rest new1).
      rewrite <- !(assoc_L (++)). apply Permutation_app_head.
      rewrite (assoc_L (++) rest new2). rewrite (Permutation_app_comm rest new2).
      rewrite <- !(assoc_L (++)). apply Permutation_app_head.
      simpl. apply Permutation_sym, Permutation_middle. }
    rewrite Hp. apply NoDup_app. split; [done|]. split.
    + intros x Hx1 Hx. apply Hn1 in Hx1 as (-> & _ & Hout).
      apply elem_of_app in Hx as [Hx|Hx].
      * apply Hn2 in Hx as [Hx _]. done.
      * apply Hout, Hall. by apply elem_of_cons.
    + apply NoDup_app. split; [done|]. split.
      * intros x Hx2 Hx. apply Hn2 in Hx2 as (-> & _ & Hout).
        apply Hout, Hall. by apply elem_of_cons.
      * by constructor.
  - intros p. rewrite Hnew, (elem_of_app new2), (elem_of_app new1), Hcons. split.
    + intros [Hp|[Hp|[Hp Hne]]].
      * split; [tauto|]. apply Hn2 in Hp as [-> _]. done.
      * split; [tauto|]. apply Hn1 in Hp as [-> _]. done.
      * tauto.
    + tauto.
  - apply Hnew. left. apply (inv_origin _ _ _ _ _ _ Hinv).
  - intros p [Hp| ->%list_elem_of_singleton]%elem_of_app.
    + destruct (inv_closed _ _ _ _ _ _ Hinv _ Hp) as [Hdown Hright].
      rewrite !Hnew. tauto.
    + fold d r. rewrite !Hnew.
      split; intros Hg.
      * destruct (decide (d ∈ pair_queue st ++ popped st)); [by left|].
        right; left. by apply Hn1.
      * destruct (decide (r ∈ pair_queue st ++ popped st)); [by left|].
        right; right. by apply Hn2.
  - intros p q [Hp| ->%list_elem_of_singleton]%elem_of_app Hq Hout.
    + apply (inv_order _ _ _ _ _ _ Hinv); [done..|].
      intros Hin. apply Hout, elem_of_app. by left.
    + assert (Hq' : q ∉ popped st) by (intros Hin; apply Hout, elem_of_app; by left).
      destruct (frontier st Hinv _ q eq_refl Hq Hq') as (f & Hf & Hdom).
      pose proof (dominated_score f q Hs1 Hs2 Hdom Hq). specialize (Hmax f Hf). lia.
  - apply StronglySorted_app_2.
    + intros p q Hp ->%list_elem_of_singleton.
      by apply (inv_order _ _ _ _ _ _ Hinv).
    + apply (inv_popped_sorted _ _ _ _ _ _ Hinv).
    + repeat constructor.
  - intros p [Hp|[Hp|Hp]]%Hnew Hne.
    + destruct (inv_reached _ _ _ _ _ _ Hinv p Hp Hne) as (q & Hq & Hpq).
      exists q. split; [|done]. apply elem_of_app. by left.
    + exists m. split; [apply elem_of_app; right; by left|].
      apply Hn1 in Hp as [-> _]. by left.
    + exists m. split; [apply elem_of_app; right; by left|].
      apply Hn2 in Hp as [-> _]. by right.
  - pose proof (inv_seed _ _ _ _ _ _ Hinv) as Hseed.
    destruct (popped st) as [|p l]; [|done]. simpl.
    rewrite Hseed in Hm_queue. by apply list_elem_of_singleton in Hm_queue.
  - intros l1 p l2 Heq Hne.
    destruct l2 as [|x l2 _] using rev_ind.
    + apply app_inj_tail in Heq as [<- <-].
      apply (inv_reached _ _ _ _ _ _ Hinv); [|done].
      apply elem_of_app. by left.
    + rewrite app_comm_cons, (assoc_L (++)) in Heq.
      apply app_inj_tail in Heq as [Heq _].
      by apply (inv_expanded _ _ _ _ _ _ Hinv _ _ _ Heq).
  - rewrite filter_app, filter_cons, filter_nil.
    rewrite <- (inv_accepted _ _ _ _ _ _ Hinv).
    destruct (alignments_consistent _ _ _) eqn:Hc.
    + rewrite decide_True by done. done.
    + rewrite decide_False by done. by rewrite app_nil_r.
Qed.
(** The loop comes to its end within as many turns as the grid has pairs
    left. *)
Lemma pair_loop_runs turns st :
  sorted_by_score alignments1 -> sorted_by_score alignments2 ->
  invariant st ->
  (length alignments1 * length alignments2 <= turns + length (popped st))%nat ->
  exists st', pair_loop turns st = Some st' /\ invariant st'
              /\ (num_pairs <= Z.of_nat (length (accepted st')) \/ pair_queue st' = []).
Proof.
  intros Hs1 Hs2. revert st.
  induction turns as [|turns IH]; intros st Hinv Hlen; cbn [Grid.pair_loop].
  - destruct (Z.ltb_spec (Z.of_nat (length (accepted st))) num_pairs);
      [|exists st; split; [done|]; split; [done|]; left; lia].
    destruct (extract_max (pair_queue st)) as [[m rest]|] eqn:Hex.
    + exfalso. destruct (extract_max_spec _ _ _ Hex) as [Hperm _].
      pose proof (grid_bound _ (inv_distinct _ _ _ _ _ _ Hinv)
                             (inv_in_grid _ _ _ _ _ _ Hinv)) as Hb.
      rewrite length_app, Hperm in Hb. simpl in Hb. lia.
    + exists st. apply extract_max_none in Hex. auto.
  - destruct (Z.ltb_spec (Z.of_nat (length (accepted st))) num_pairs);
      [|exists st; split; [done|]; split; [done|]; left; lia].
    destruct (extract_max (pair_queue st)) as [[m rest]|] eqn:Hex.
    + apply IH; [by apply visit_invariant|].
      unfold Grid.visit. cbn [popped]. rewrite length_app. simpl. lia.
    + exists st. apply extract_max_none in Hex. auto.
Qed.

(** The walk from the first pair of the grid. *)
Lemma walk_grid_runs :
  alignments1 <> [] -> alignments2 <> [] ->
  sorted_by_score alignments1 -> sorted_by_score alignments2 ->
  exists st, walk_grid alignments1 alignments2 positions1 positions2 fragment_size num_pairs
             = Some st
             /\ invariant st
             /\ (num_pairs <= Z.of_nat (length (accepted st))
                 \/ forall q, in_grid q -> q ∈ popped st).
Proof.
  intros Hne1 Hne2 Hs1 Hs2. unfold walk_grid.
  destruct (pair_loop_runs (length alignments1 * length alignments2)
                           (Grid.mk [(0, 0)%nat] [] [] []) Hs1 Hs2
                           (initial_invariant Hne1 Hne2) ltac:(simpl; lia))
    as (st & Hrun & Hinv & Hstop).
  exists st. split; [done|]. split; [done|].
  destruct Hstop as [Hstop|Hstop]; [by left|right].
  intros q Hq. destruct (decide (q ∈ popped st)) as [|Hout]; [done|].
  destruct (frontier st Hinv _ q eq_refl Hq Hout) as (f & Hf & _).
  rewrite Hstop in Hf. by apply elem_of_nil in Hf.
Qed.
End Facts.

(** What [alignments_consistent] decides. *)
Lemma alignments_consistent_spec pos1 pos2 bound :
  alignments_consistent pos1 pos2 bound = true
  <-> exists name mean1 mean2,
      (name, mean1) ∈ pos1 /\ map_find String.eqb name pos2 = Some mean2
      /\ (Qabs (mean1 - mean2) < inject_Z bound)%Q.
Proof.
  unfold alignments_consistent. rewrite existsb_exists. split.
  - intros ([name mean1] & Hin & Hok). simpl in Hok.
    destruct (map_find String.eqb name pos2) as [mean2|] eqn:Hfind; [|done].
    exists name, mean1, mean2. split; [by apply list_elem_of_In|]. split; [done|].
    unfold within_bound in Hok. apply negb_true_iff in Hok.
    apply Qnot_le_lt. intros Hle. apply Qle_bool_iff in Hle. congruence.
  - intros (name & mean1 & mean2 & Hin & Hfind & Hlt).
    exists (name, mean1). split; [by apply list_elem_of_In|]. simpl. rewrite Hfind.
    unfold within_bound. apply negb_true_iff.
    destruct (Qle_bool _ _) eqn:Hle; [|done].
    apply Qle_bool_iff in Hle. exfalso. by apply (Qlt_not_le _ _ Hlt).
Qed.

(** C8, the code at the failing inputs.  On the path ["ref"] the read over
    the nodes 2, 3 and 1 has its visits at the midpoints 1, 3 and 30, so its
    median position is 3, and its mate is at 30.  With a fragment size of 20
    the medians are 27 apart, yet the pair is accepted: the position that
    the code compares is the mean 34/3 of the midpoints (or, with
    [first_hit_only], the midpoint 30 of the node of least id).  With two
    reference paths the count and the sum run on from the first path to the
    second: a read over node 1 of path ["a"] (midpoint 1) and node 2 of path
    ["b"] (midpoint 101) gets the position 51 on ["b"], and is refused, with
    a fragment size of 20, the mate that lies on that very node 2. *)
Theorem consistent_by_mean_not_median :
  (forall first_hit_only,
      @consistent_at three_node_path first_hit_only [spanning_read] [mate_read] 20
                     (0, 0)%nat = true)
  /\ @Positions.medians_within three_node_path spanning_read mate_read 20 = false
  /\ (@Positions.alignment_mean_path_positions three_node_path spanning_read false
      = [("ref"%string, (34 # 3)%Q)])
  /\ Positions.median (@Positions.path_midpoints three_node_path spanning_read "ref")
     = Some (inject_Z 3)
  /\ (exists st,
         @consistent_pairs three_node_path default_mapper false
                           [spanning_read] [mate_read] 20 = Some st
         /\ accepted st = [(0, 0)%nat])
  /\ (@Positions.alignment_mean_path_positions two_paths crossing_read false
      = [("a"%string, (1 # 1)%Q); ("b"%string, (102 # 2)%Q)])
  /\ (@Positions.alignment_mean_path_positions two_paths second_path_mate false
      = [("b"%string, (101 # 1)%Q)])
  /\ Positions.median (@Positions.path_midpoints two_paths crossing_read "b")
     = Some (inject_Z 101)
  /\ @consistent_at two_paths false [crossing_read] [second_path_mate] 20 (0, 0)%nat = false
  /\ @Positions.medians_within two_paths crossing_read second_path_mate 20 = true.
Proof.
  split; [intros []; vm_compute; reflexivity|].
  split; [vm_compute; reflexivity|].
  split; [vm_compute; reflexivity|].
  split; [vm_compute; reflexivity|].
  split; [eexists; split; vm_compute; reflexivity|].
  repeat split; vm_compute; reflexivity.
Qed.

(** X24: the walk over the grid of candidate pairs.  When both mates have
    candidates, sorted by descending score, the loop of the branch
    [if (fragment_size)] comes to its end. The pairs leave the heap in the
    order of non-increasing sums of scores, none twice, and every pair that
    has not left it scores no more than those that have; the first one is
    (0,0) and every other one is the neighbour (i+1,j) or (i,j+1) of a pair
    that left the heap before it. The accepted pairs are exactly the visited
    pairs for which [alignments_consistent] holds, in the order of the
    visits, and the loop stops with [num_pairs] accepted pairs or with the
    whole grid visited. [alignments_consistent] holds if and only if on some
    common reference path the two positions that
    [alignment_mean_path_positions] returns differ by less than
    [fragment_size]. *)
Theorem consistent_pairs_spec `{XG} `{Mapper} (first_hit_only : bool)
        (alignments1 alignments2 : list Alignment.t) (fragment_size : Z) :
  alignments1 <> [] -> alignments2 <> [] ->
  sorted_by_score alignments1 -> sorted_by_score alignments2 ->
  exists st,
    consistent_pairs first_hit_only alignments1 alignments2 fragment_size = Some st
    /\ (exists rest, popped st = (0, 0)%nat :: rest)
    /\ (forall l1 p l2,
           popped st = l1 ++ p :: l2 -> p <> (0, 0)%nat ->
           exists q, q ∈ l1 /\ (p = (S (fst q), snd q) \/ p = (fst q, S (snd q))))
    /\ NoDup (popped st)
    /\ Forall (in_grid alignments1 alignments2) (popped st)
    /\ StronglySorted (fun p q => pair_score alignments1 alignments2 q
                                  <= pair_score alignments1 alignments2 p)
                      (popped st)
    /\ (forall p q,
           p ∈ popped st -> in_grid alignments1 alignments2 q -> q ∉ popped st ->
           pair_score alignments1 alignments2 q <= pair_score alignments1 alignments2 p)
    /\ accepted st
       = filter (fun p => consistent_at first_hit_only alignments1 alignments2
                                        fragment_size p = true)
                (popped st)
    /\ (num_pairs <= Z.of_nat (length (accepted st))
        \/ forall q, in_grid alignments1 alignments2 q -> q ∈ popped st)
    /\ (forall p,
           consistent_at first_hit_only alignments1 alignments2 fragment_size p = true
           <-> exists name mean1 mean2,
               (name, mean1) ∈ candidate_positions first_hit_only alignments1 (fst p)
               /\ map_find String.eqb name
                           (candidate_positions first_hit_only alignments2 (snd p))
                  = Some mean2
               /\ (Qabs (mean1 - mean2) < inject_Z fragment_size)%Q).
Proof.
  intros Hne1 Hne2 Hs1 Hs2.
  destruct (walk_grid_runs alignments1 alignments2
                           (candidate_positions first_hit_only alignments1)
                           (candidate_positions first_hit_only alignments2)
                           fragment_size num_pairs Hne1 Hne2 Hs1 Hs2)
    as (st & Hrun & Hinv & Hstop).
  pose proof (inv_distinct _ _ _ _ _ _ Hinv) as Hnodup.
  pose proof (inv_in_grid _ _ _ _ _ _ Hinv) as Hgrid.
  pose proof (inv_accepted _ _ _ _ _ _ Hinv) as Hacc.
  pose proof (inv_seed _ _ _ _ _ _ Hinv) as Hseed.
  apply NoDup_app in Hnodup as (_ & _ & Hnodup).
  apply Forall_app in Hgrid as [_ Hgrid].
  exists st. split; [exact Hrun|].
  split.
  { destruct (popped st) as [|p rest] eqn:Hpopped; [exfalso|subst p; by exists rest].
    rewrite filter_nil in Hacc. rewrite Hacc in Hstop.
    destruct Hstop as [Hstop|Hstop].
    - unfold num_pairs in Hstop. simpl in Hstop.
      destruct (Z.leb_spec 2 max_multimaps); lia.
    - assert (Hin : (0, 0)%nat ∈ @nil (nat * nat)); [|by apply elem_of_nil in Hin].
      apply Hstop. split; simpl; [destruct alignments1|destruct alignments2];
        simpl; try done; lia. }
  split; [exact (inv_expanded _ _ _ _ _ _ Hinv)|].
  split; [exact Hnodup|]. split; [exact Hgrid|].
  split; [exact (inv_popped_sorted _ _ _ _ _ _ Hinv)|].
  split; [exact (inv_order _ _ _ _ _ _ Hinv)|].
  split; [exact Hacc|]. split; [exact Hstop|].
  intros p. apply alignments_consistent_spec.
Qed.

(** The theorem at a grid of two candidates for each mate, with a fragment
    size of 10: the first pair is visited and refused, its two neighbours
    are visited in the order of their scores and accepted, and the loop
    stops with two pairs before it visits the last one. *)
Lemma consistent_pairs_spec_witness :
  exists st,
    @consistent_pairs three_node_path default_mapper false
                      [spanning_read; second_candidate1] [mate_read; second_candidate2] 10
    = Some st
    /\ popped st = [(0, 0); (0, 1); (1, 0)]%nat
    /\ accepted st = [(0, 1); (1, 0)]%nat
    /\ accepted st
       = filter (fun p => @consistent_at three_node_path false
                            [spanning_read; second_candidate1]
                            [mate_read; second_candidate2] 10 p = true)
                (popped st).
Proof.
  destruct (@consistent_pairs_spec three_node_path default_mapper false
              [spanning_read; second_candidate1] [mate_read; second_candidate2] 10)
    as (st & Hrun & _ & _ & _ & _ & _ & _ & Hacc & _).
  - done.
  - done.
  - intros i j Hij Hj. simpl in Hj.
    destruct i as [|[|i]], j as [|[|j]]; vm_compute; (congruence || lia).
  - intros i j Hij Hj. simpl in Hj.
    destruct i as [|[|i]], j as [|[|j]]; vm_compute; (congruence || lia).
  - exists st. split; [exact Hrun|].
    assert (Hst : Some st
                  = Some (Grid.mk [(1, 1)%nat] [(1, 1); (0, 1); (1, 0)]%nat
                                  [(0, 0); (0, 1); (1, 0)]%nat [(0, 1); (1, 0)]%nat)).
    { rewrite <- Hrun. vm_compute. reflexivity. }
    injection Hst as Hst. split; [by rewrite Hst|]. split; [by rewrite Hst|]. exact Hacc.
Defined.

End GridProofs.

(** ** Pairs of reads *)

Module PairedProofs.
Import FragmentModel Paired.

Section Facts.
Context `{XG} `{Mapper} `{FragmentStatistics} `{Layout} `{PairedEngines} `{DefaultArguments}.

Lemma length_vector_resize l n : length (vector_resize l n) = Z.to_nat (to_size_t n).
Proof. unfold vector_resize. rewrite length_app, length_take, length_replicate. lia. Qed.

Lemma paired_mapping_qualities_length pair_alns cluster_mq :
  length (fst (compute_mapping_qualities pair_alns cluster_mq)) = length (fst pair_alns)
  /\ length (snd (compute_mapping_qualities pair_alns cluster_mq)) = length (snd pair_alns).
Proof.
  unfold compute_mapping_qualities. destruct (_ || _)%bool; [done|].
  destruct mapping_quality_method; simpl; rewrite ?length_imap; done.
Qed.

Lemma truncate_length l :
  length (truncate l)
  = if to_size_t max_multimaps <? Z.of_nat (length l)
    then Z.to_nat (to_size_t max_multimaps) else length l.
Proof.
  unfold truncate. destruct (_ <? _); [apply length_vector_resize|done].
Qed.

(** The loop over the pairs runs when the vectors are as long as each other,
    and leaves them so. *)
Lemma mark_pairs_runs read1 read2 first : forall i second,
  length first = length second ->
  exists marked, mark_pairs read1 read2 i first second = Some marked
                 /\ length (fst marked) = length first
                 /\ length (snd marked) = length second.
Proof.
  induction first as [|aln1 first IH]; intros i [|aln2 second] Hlen; simpl in *; try done.
  - by exists ([], []).
  - destruct (IH (S i) second ltac:(lia)) as (rest & -> & Hl1 & Hl2).
    eexists. split; [done|]. simpl. by rewrite Hl1, Hl2.
Qed.

(** With candidates for both mates, sorted by score, the branch with a
    fragment size gives two vectors of one length. *)
Lemma consistent_results_parallel read1 read2 alignments1 alignments2 cluster_mq
      only_top_scoring_pair fragment_size :
  alignments1 <> [] -> alignments2 <> [] ->
  Grid.sorted_by_score alignments1 -> Grid.sorted_by_score alignments2 ->
  exists results,
    consistent_results read1 read2 alignments1 alignments2 cluster_mq
                       only_top_scoring_pair fragment_size = Some results
    /\ length (fst results) = length (snd results).
Proof.
  intros Hne1 Hne2 Hs1 Hs2. unfold consistent_results.
  destruct alignments1 as [|a1 l1] eqn:E1; [done|]. rewrite <- E1 in *.
  destruct alignments2 as [|a2 l2] eqn:E2; [done|]. rewrite <- E2 in *.
  replace (Nat.eqb (length alignments1) 0) with false by (by rewrite E1).
  replace (Nat.eqb (length alignments2) 0) with false by (by rewrite E2).
  cbn [orb]. unfold Grid.consistent_pairs.
  destruct (GridProofs.walk_grid_runs
              alignments1 alignments2
              (Grid.candidate_positions default_first_hit_only alignments1)
              (Grid.candidate_positions default_first_hit_only alignments2)
              fragment_size Grid.num_pairs Hne1 Hne2 Hs1 Hs2) as (st & -> & _).
  cbn [mbind option_bind].
  set (pairs := pairs_of alignments1 alignments2 (Grid.accepted st)).
  assert (Hpairs : length (fst pairs) = length (snd pairs)).
  { subst pairs. unfold pairs_of. simpl. by rewrite !length_map. }
  destruct (paired_mapping_qualities_length pairs cluster_mq) as [Hq1 Hq2].
  set (rated := compute_mapping_qualities pairs cluster_mq) in *.
  set (cut := if to_size_t max_multimaps <? Z.of_nat (length (fst rated))
              then (vector_resize (fst rated) max_multimaps,
                    vector_resize (snd rated) max_multimaps)
              else rated).
  assert (Hcut : length (fst cut) = length (snd cut)).
  { subst cut. destruct (_ <? _); simpl; [by rewrite !length_vector_resize|congruence]. }
  destruct (mark_pairs_runs read1 read2 (fst cut) 0 (snd cut) Hcut)
    as (marked & -> & Hm1 & Hm2).
  cbn [mbind option_bind].
  destruct (_ && _); [by exists ([], [])|].
  destruct (Nat.eqb _ 0); [by exists ([], [])|].
  exists marked. split; [done|]. congruence.
Qed.

Lemma first_results_runs read1 read2 max_mem_length only_top_scoring_pair m :
  candidates_ok read1 read2 m ->
  exists results,
    first_results read1 read2 max_mem_length only_top_scoring_pair m = Some results
    /\ (fragment_size m <> 0 -> length (fst results) = length (snd results)).
Proof.
  intros Hok. unfold first_results. specialize (Hok max_mem_length).
  destruct (paired_candidates read1 read2 max_mem_length m)
    as [[alignments1 alignments2] cluster_mq].
  simpl in Hok. destruct (Z.eqb_spec (fragment_size m) 0) as [Hz|Hnz].
  - eexists. split; [done|]. done.
  - destruct (Hok Hnz) as (Hne1 & Hne2 & Hs1 & Hs2).
    destruct (consistent_results_parallel read1 read2 alignments1 alignments2 cluster_mq
                only_top_scoring_pair (fragment_size m) Hne1 Hne2 Hs1 Hs2)
      as (results & Hrun & Hlen).
    exists results. done.
Qed.

(** The mappings have their positions, and the cache of the fragment model
    is not empty. *)
Hypothesis positions : forall mapping, has_position mapping = true.
Hypothesis cache : to_size_t fragment_length_cache_size <> 0.

Lemma push_bounded_nonempty {A} (x : A) (d : list A) : Fragment.push_bounded x d <> [].
Proof.
  unfold Fragment.push_bounded.
  assert (Hsize : 0 <= to_size_t fragment_length_cache_size)
    by (unfold to_size_t; apply Z.mod_pos_bound; lia).
  destruct (Z.ltb_spec (to_size_t fragment_length_cache_size) (Z.of_nat (length (x :: d))))
    as [Hfull|Hroom]; [|done].
  destruct d as [|y d]; [simpl in Hfull; lia|done].
Qed.

Lemma record_fragment_configuration_runs m length aln1 aln2 :
  Alignment.path aln1 <> [] -> Alignment.path aln2 <> [] ->
  exists m', Fragment.record_fragment_configuration m length aln1 aln2 = Some m'.
Proof.
  intros Hp1 Hp2. unfold Fragment.record_fragment_configuration.
  destruct (Alignment.path aln1) as [|mapping1 ?]; [done|].
  destruct (Alignment.path aln2) as [|mapping2 ?]; [done|].
  cbn [head mbind option_bind]. rewrite !positions. cbn [andb negb].
  rewrite FragmentProofs.same_direction_of_spec. cbn [mbind option_bind].
  destruct (_ <? _); [|eauto].
  unfold Fragment.fragment_length_mean. cbn [fragment_lengths].
  destruct (Nat.eqb_spec (List.length (Fragment.push_bounded (Z.abs length)
                                                             (fragment_lengths m))) 0)
    as [Hnil|_]; [|cbn [mbind option_bind]; eauto].
  apply length_zero_iff_nil in Hnil. by apply push_bounded_nonempty in Hnil.
Qed.

Lemma positions_of_unmapped aln first_hit_only :
  Alignment.path aln = [] -> Positions.alignment_mean_path_positions aln first_hit_only = [].
Proof.
  intros Hpath. unfold Positions.alignment_mean_path_positions, Positions.visited_ids.
  rewrite Hpath. reflexivity.
Qed.

(** Only mapped reads have a fragment length. *)
Lemma approx_pair_fragment_length_mapped aln1 aln2 :
  approx_pair_fragment_length aln1 aln2 <> [] ->
  Alignment.path aln1 <> [] /\ Alignment.path aln2 <> [].
Proof.
  intros Hne. unfold approx_pair_fragment_length in Hne. split; intros Hpath.
  - rewrite (positions_of_unmapped aln1 _ Hpath) in Hne. done.
  - rewrite (positions_of_unmapped aln2 _ Hpath) in Hne. apply Hne.
    generalize (Positions.alignment_mean_path_positions aln1 default_first_hit_only).
    intros l. induction l as [|p l IH]; [done|]. simpl. exact IH.
Qed.

Lemma tag_length_runs i t j aln1 aln2 :
  fst (tagged t) !! i = Some aln1 -> snd (tagged t) !! i = Some aln2 ->
  Alignment.path aln1 <> [] -> Alignment.path aln2 <> [] ->
  exists t', tag_length i t j = Some t'
             /\ tagged t' = (<[i := Alignment.add_fragment aln1 j]> (fst (tagged t)),
                             <[i := Alignment.add_fragment aln2 j]> (snd (tagged t))).
Proof.
  intros Ha1 Ha2 Hp1 Hp2. unfold tag_length. rewrite Ha1, Ha2. cbn [mbind option_bind].
  destruct (perfect_pair _ _ _).
  - destruct (record_fragment_configuration_runs
                (fragment_model t) (snd j) (Alignment.add_fragment aln1 j)
                (Alignment.add_fragment aln2 j) Hp1 Hp2) as [m' ->].
    cbn [mbind option_bind]. eauto.
  - destruct (_ =? 0); eauto.
Qed.

Lemma insert_keeps_paths (l : list Alignment.t) i aln j :
  l !! i = Some aln ->
  Alignment.path <$> <[i := Alignment.add_fragment aln j]> l = Alignment.path <$> l.
Proof.
  intros Hi. rewrite list_fmap_insert. apply list_insert_id.
  rewrite list_lookup_fmap, Hi. done.
Qed.

Lemma tag_lengths_runs i lengths : forall t aln1 aln2,
  fst (tagged t) !! i = Some aln1 -> snd (tagged t) !! i = Some aln2 ->
  (lengths <> [] -> Alignment.path aln1 <> [] /\ Alignment.path aln2 <> []) ->
  exists t', tag_lengths i t lengths = Some t'
             /\ Alignment.path <$> fst (tagged t') = Alignment.path <$> fst (tagged t)
             /\ Alignment.path <$> snd (tagged t') = Alignment.path <$> snd (tagged t).
Proof.
  induction lengths as [|j rest IH]; intros t aln1 aln2 Ha1 Ha2 Hp; simpl.
  - by exists t.
  - destruct (Hp ltac:(done)) as [Hp1 Hp2].
    destruct (tag_length_runs i t j aln1 aln2 Ha1 Ha2 Hp1 Hp2) as (t1 & -> & Ht1).
    cbn [mbind option_bind].
    destruct (IH t1 (Alignment.add_fragment aln1 j) (Alignment.add_fragment aln2 j))
      as (t' & -> & Hk1 & Hk2).
    + rewrite Ht1. simpl. apply list_lookup_insert_eq. by eapply lookup_lt_Some.
    + rewrite Ht1. simpl. apply list_lookup_insert_eq. by eapply lookup_lt_Some.
    + done.
    + exists t'. split; [done|]. rewrite Hk1, Hk2, Ht1. simpl.
      by rewrite (insert_keeps_paths _ _ _ _ Ha1), (insert_keeps_paths _ _ _ _ Ha2).
Qed.

Lemma tag_pairs_runs indices : forall t,
  Forall (fun i => (i < length (fst (tagged t)))%nat /\ (i < length (snd (tagged t)))%nat)
         indices ->
  exists t', tag_pairs t indices = Some t'
             /\ Alignment.path <$> fst (tagged t') = Alignment.path <$> fst (tagged t)
             /\ Alignment.path <$> snd (tagged t') = Alignment.path <$> snd (tagged t).
Proof.
  induction indices as [|i rest IH]; intros t Hin; simpl.
  - by exists t.
  - apply Forall_cons in Hin as [[Hi1 Hi2] Hin].
    destruct (lookup_lt_is_Some_2 _ _ Hi1) as [aln1 Ha1].
    destruct (lookup_lt_is_Some_2 _ _ Hi2) as [aln2 Ha2].
    unfold tag_pair. rewrite Ha1, Ha2. cbn [mbind option_bind].
    destruct (tag_lengths_runs i (approx_pair_fragment_length aln1 aln2) t aln1 aln2 Ha1 Ha2
                               (approx_pair_fragment_length_mapped aln1 aln2))
      as (t1 & -> & Hk1 & Hk2).
    cbn [mbind option_bind].
    assert (Hl1 : length (fst (tagged t1)) = length (fst (tagged t))).
    { rewrite <- (length_fmap Alignment.path), Hk1. apply length_fmap. }
    assert (Hl2 : length (snd (tagged t1)) = length (snd (tagged t))).
    { rewrite <- (length_fmap Alignment.path), Hk2. apply length_fmap. }
    destruct (IH t1) as (t' & -> & Hk1' & Hk2').
    + rewrite Hl1, Hl2. done.
    + exists t'. split; [done|]. by rewrite Hk1', Hk2'.
Qed.

Lemma or_unmapped_length alns read :
  length (or_unmapped alns read) = if Nat.eqb (length alns) 0 then 1%nat else length alns.
Proof.
  unfold or_unmapped. destruct alns; simpl; done.
Qed.

(** The end of the function: it returns, both vectors have an element, the
    mates are linked, vectors of one length stay so, and with at most one
    multimap each vector has one element. *)
Lemma finish_spec read1 read2 queued retrying found st :
  exists o, finish read1 read2 queued retrying found st = Some o
            /\ linked read1 read2 (results o)
            /\ fst (results o) <> [] /\ snd (results o) <> []
            /\ (length (fst found) = length (snd found) ->
                length (fst (results o)) = length (snd (results o)))
            /\ (0 <= max_multimaps <= 1 ->
                length (fst (results o)) = 1%nat /\ length (snd (results o)) = 1%nat).
Proof.
  unfold finish.
  assert (Ht : exists t,
             (if retrying then Some (mk_tagging found (model st) false)
              else tag_pairs (mk_tagging found (model st) false)
                             (seq 0 (Nat.min (length (fst found)) (length (snd found)))))
             = Some t
             /\ length (fst (tagged t)) = length (fst found)
             /\ length (snd (tagged t)) = length (snd found)).
  { destruct retrying; [by eexists|].
    destruct (tag_pairs_runs (seq 0 (Nat.min (length (fst found)) (length (snd found))))
                             (mk_tagging found (model st) false)) as (t & Hrun & Hk1 & Hk2).
    - apply Forall_forall. intros i Hi%elem_of_seq. simpl. lia.
    - exists t. split; [done|]. simpl in *.
      rewrite <- !(length_fmap Alignment.path), Hk1, Hk2. done. }
  destruct Ht as (t & -> & Hl1 & Hl2). cbn [mbind option_bind].
  set (queue := negb retrying && imperfect_pair t && negb (fragment_max =? 0)).
  set (kept := if queue then ([], []) else tagged t).
  eexists. split; [done|]. cbn [results].
  assert (Hkept : length (fst found) = length (snd found) ->
                  length (fst kept) = length (snd kept)).
  { subst kept. destruct queue; simpl; [done|congruence]. }
  clearbody kept.
  pose proof (truncate_length (fst kept)) as Hc1.
  pose proof (truncate_length (snd kept)) as Hc2.
  pose proof (or_unmapped_length (truncate (fst kept)) read1) as Hu1.
  pose proof (or_unmapped_length (truncate (snd kept)) read2) as Hu2.
  split; [|split; [|split; [|split]]].
  - split; cbn [fst snd]; apply Forall_map, Forall_forall; done.
  - cbn [fst]. intros Hnil. apply (f_equal length) in Hnil.
    rewrite length_map, Hu1 in Hnil. simpl in Hnil.
    destruct (length (truncate kept.1)); simpl in Hnil; lia.
  - cbn [snd]. intros Hnil. apply (f_equal length) in Hnil.
    rewrite length_map, Hu2 in Hnil. simpl in Hnil.
    destruct (length (truncate kept.2)); simpl in Hnil; lia.
  - intros Hlen. cbn [fst snd]. rewrite !length_map, Hu1, Hu2, Hc1, Hc2.
    by rewrite (Hkept Hlen).
  - intros Hmm. cbn [fst snd]. rewrite !length_map, Hu1, Hu2, Hc1, Hc2.
    rewrite (BandedProofs.to_size_t_small max_multimaps) by lia.
    split.
    + destruct (Z.ltb_spec max_multimaps (Z.of_nat (length kept.1)));
        destruct (Nat.eqb_spec (Z.to_nat max_multimaps) 0);
        try destruct (Nat.eqb_spec (length kept.1) 0); lia.
    + destruct (Z.ltb_spec max_multimaps (Z.of_nat (length kept.2)));
        destruct (Nat.eqb_spec (Z.to_nat max_multimaps) 0);
        try destruct (Nat.eqb_spec (length kept.2) 0); lia.
Qed.

(** A pair that the call queues for a retry: each vector holds the
    unmapped read, linked to its mate. *)
Lemma finish_queued read1 read2 retrying found st o :
  finish read1 read2 false retrying found st = Some o ->
  queued_resolve_later o = true ->
  results o
  = ([Alignment.set_fragment_next (unmapped read1) (Alignment.name read2)],
     [Alignment.set_fragment_prev (unmapped read2) (Alignment.name read1)]).
Proof.
  unfold finish.
  destruct (if retrying then _ else _) as [t|]; [|done]. cbn [mbind option_bind].
  intros [= <-]. cbn [queued_resolve_later results].
  destruct (negb retrying && imperfect_pair t && negb (fragment_max =? 0)); [|done].
  intros _. cbn [fst snd]. unfold truncate. cbn [length].
  assert (Hsize : 0 <= to_size_t max_multimaps)
    by (unfold to_size_t; apply Z.mod_pos_bound; lia).
  destruct (Z.ltb_spec (to_size_t max_multimaps) (Z.of_nat 0)); [lia|]. done.
Qed.

(** The function returns when the sensitivity step and the least MEM length
    are not negative: every call of itself lowers [max_mem_length]. *)
Lemma align_paired_multi_sep_runs read1 read2 queued st :
  0 <= kmer_sensitivity_step -> 0 <= min_mem_length ->
  candidates_ok read1 read2 (model st) ->
  forall fuel max_mem_length only_top_scoring_pair retrying,
    (calls max_mem_length <= fuel)%nat ->
    exists o,
      align_paired_multi_sep fuel read1 read2 queued max_mem_length
                             only_top_scoring_pair retrying st = Some o
      /\ linked read1 read2 (results o)
      /\ fst (results o) <> [] /\ snd (results o) <> []
      /\ (fragment_size (model st) <> 0 ->
          length (fst (results o)) = length (snd (results o)))
      /\ (0 <= max_multimaps <= 1 ->
          length (fst (results o)) = 1%nat /\ length (snd (results o)) = 1%nat)
      /\ (queued = false -> queued_resolve_later o = true ->
          results o
          = ([Alignment.set_fragment_next (unmapped read1) (Alignment.name read2)],
             [Alignment.set_fragment_prev (unmapped read2) (Alignment.name read1)])).
Proof.
  intros Hstep Hmin Hok fuel.
  induction fuel as [|fuel IH]; intros m only_top retrying Hfuel;
    cbn [align_paired_multi_sep];
    destruct (first_results_runs read1 read2 m only_top (model st) Hok)
      as (found & -> & Hlen);
    cbn [mbind option_bind];
    (destruct (failed found && negb (kmer_sensitivity_step =? 0)
               && (min_mem_length <? new_mem_max m)) eqn:Hagain;
     [|destruct (finish_spec read1 read2 queued retrying found st)
         as (o & Hrun & Hlinked & Hne1 & Hne2 & Hpar & Hone);
       exists o; split; [exact Hrun|]; split; [exact Hlinked|]; split; [exact Hne1|];
       split; [exact Hne2|]; split; [auto|]; split; [exact Hone|];
       intros -> Hqueued; by apply (finish_queued _ _ _ _ _ _ Hrun)]).
  - exfalso. apply andb_true_iff in Hagain as [_ Hlower]. apply Z.ltb_lt in Hlower.
    unfold new_mem_max in Hlower. unfold calls in Hfuel.
    destruct (m =? 0); lia.
  - apply andb_true_iff in Hagain as [Hagain Hlower]. apply Z.ltb_lt in Hlower.
    apply andb_true_iff in Hagain as [_ Hnz]. apply negb_true_iff, Z.eqb_neq in Hnz.
    apply IH. unfold new_mem_max in *. unfold calls in *.
    destruct (Z.eqb_spec (Z.max min_mem_length
                                ((if m =? 0 then gcsa_order else m) - kmer_sensitivity_step))
                         0); destruct (m =? 0); lia.
Qed.
End Facts.

(** C2, counterexample: before a fragment size is known the candidates of
    each mate are returned on their own. With two multimaps, one candidate
    for the first mate and two for the second one (in a graph without
    reference paths, so that no fragment length is measured), the lists have
    1 and 2 elements. *)
Lemma align_paired_uneven_lists :
  exists o,
    @align_paired one_node_graph two_multimaps floor_statistics plain_layout
                  uneven_candidates plain_arguments spanning_read mate_read false 0
                  false false (mk_state FragmentModel.initial []) = Some o
    /\ length (fst (results o)) = 1%nat
    /\ length (snd (results o)) = 2%nat
    /\ queued_resolve_later o = false.
Proof.
  eexists. split; [vm_compute; reflexivity|]. simpl. done.
Qed.

(** C2 (as amended): when the sensitivity step and the least MEM length are
    not negative, every mapping has its position, the cache of the fragment
    model is not empty and, with a fragment size, both mates have candidates
    in the order of their scores, [align_paired] returns two non-empty lists
    in which every entry of the first has [fragment_next.name] equal to the
    name of [read2] and every entry of the second has [fragment_prev.name]
    equal to the name of [read1].  The lists have the same length when a
    fragment size is known, and one element each when [max_multimaps] is 0
    or 1; a pair that the call queues for a retry comes back as the two
    unmapped reads.  Otherwise the lists are cut to [max_multimaps]
    independently. *)
Theorem align_paired_links_mates
        `{XG} `{Mapper} `{FragmentStatistics} `{Layout} `{PairedEngines} `{DefaultArguments}
        (read1 read2 : Alignment.t) (queued : bool) (max_mem_length : Z)
        (only_top_scoring_pair retrying : bool) (st : State) :
  0 <= kmer_sensitivity_step -> 0 <= min_mem_length ->
  (forall mapping, has_position mapping = true) ->
  to_size_t fragment_length_cache_size <> 0 ->
  candidates_ok read1 read2 (model st) ->
  exists o,
    align_paired read1 read2 queued max_mem_length only_top_scoring_pair retrying st = Some o
    /\ linked read1 read2 (results o)
    /\ fst (results o) <> [] /\ snd (results o) <> []
    /\ (fragment_size (model st) <> 0 ->
        length (fst (results o)) = length (snd (results o)))
    /\ (0 <= max_multimaps <= 1 ->
        length (fst (results o)) = 1%nat /\ length (snd (results o)) = 1%nat)
    /\ (queued = false -> queued_resolve_later o = true ->
        results o
        = ([Alignment.set_fragment_next (unmapped read1) (Alignment.name read2)],
           [Alignment.set_fragment_prev (unmapped read2) (Alignment.name read1)])).
Proof.
  intros Hstep Hmin Hpositions Hcache Hok. unfold align_paired.
  by apply align_paired_multi_sep_runs.
Qed.

(** The theorem at a pair with a fragment size: the read over three nodes
    and its mate, one candidate each, are a consistent pair, and their
    fragment length is recorded.  And at a pair without a fragment size
    whose first mate has an identity of zero: the pair is queued for a retry
    and comes back as the two unmapped reads. *)
Lemma align_paired_links_mates_witness :
  (exists o,
      @align_paired three_node_path default_mapper floor_statistics plain_layout
                    spanning_candidates plain_arguments spanning_read mate_read false 0
                    false false (mk_state estimated_model []) = Some o
      /\ @linked spanning_read mate_read (results o)
      /\ length (fst (results o)) = length (snd (results o))
      /\ length (fst (results o)) = 1%nat
      /\ queued_resolve_later o = false
      /\ fragment_lengths (model (state o)) = [0])
  /\ (exists o,
         @align_paired three_node_path default_mapper floor_statistics plain_layout
                       doubtful_candidates plain_arguments spanning_read mate_read false 0
                       false false (mk_state FragmentModel.initial []) = Some o
         /\ queued_resolve_later o = true
         /\ results o
            = ([Alignment.set_fragment_next (unmapped spanning_read) "read/2"],
               [Alignment.set_fragment_prev (unmapped mate_read) "read/1"])).
Proof.
  split.
  - destruct (@align_paired_links_mates
                three_node_path default_mapper floor_statistics plain_layout
                spanning_candidates plain_arguments spanning_read mate_read false 0
                false false (mk_state estimated_model []))
      as (o & Hrun & Hlinked & _ & _ & Hparallel & Hone & _).
    + simpl. lia.
    + simpl. lia.
    + intros mapping. reflexivity.
    + vm_compute. discriminate.
    + intros max_mem_length Hsize. simpl.
      split; [done|]. split; [done|].
      split; intros i j Hij Hj; simpl in Hj;
        (assert (i = 0%nat) as -> by lia); (assert (j = 0%nat) as -> by lia); reflexivity.
    + exists o. split; [exact Hrun|]. split; [exact Hlinked|].
      split; [apply Hparallel; simpl; lia|].
      split; [apply Hone; simpl; lia|].
      vm_compute in Hrun. injection Hrun as <-. split; reflexivity.
  - destruct (@align_paired_links_mates
                three_node_path default_mapper floor_statistics plain_layout
                doubtful_candidates plain_arguments spanning_read mate_read false 0
                false false (mk_state FragmentModel.initial []))
      as (o & Hrun & _ & _ & _ & _ & _ & Hqueued).
    + simpl. lia.
    + simpl. lia.
    + intros mapping. reflexivity.
    + vm_compute. discriminate.
    + intros max_mem_length Hsize. simpl in Hsize. done.
    + assert (Hq : queued_resolve_later o = true).
      { vm_compute in Hrun. injection Hrun as <-. reflexivity. }
      exists o. split; [exact Hrun|]. split; [exact Hq|].
      exact (Hqueued eq_refl Hq).
Defined.
End PairedProofs.

(** ** The chain model *)

Module ChainProofs.
Import Chain.

Lemma Qgtb_true x y : Qgtb x y = true <-> (y < x)%Q.
Proof.
  unfold Qgtb. rewrite negb_true_iff. split.
  - intros Hb. apply Qnot_le_lt. intros Hle. apply Qle_bool_iff in Hle. congruence.
  - intros Hlt. destruct (Qle_bool x y) eqn:E; [|done]. apply Qle_bool_iff in E. lra.
Qed.

Lemma Qgtb_false x y : Qgtb x y = false <-> (x <= y)%Q.
Proof. unfold Qgtb. rewrite negb_false_iff. apply Qle_bool_iff. Qed.

Lemma score_of_insert (M : list Vertex) (i : nat) v k :
  (i < length M)%nat ->
  score_of (<[i := v]> M) k = if decide (k = i) then score v else score_of M k.
Proof.
  intros Hi. unfold score_of. destruct (decide (k = i)) as [->|Hne].
  - by rewrite list_lookup_insert_eq.
  - by rewrite list_lookup_insert_ne.
Qed.

(** *** Scoring writes scores and [prev] pointers only *)

Lemma static_insert (M : list Vertex) (i : nat) m v :
  M !! i = Some m -> static v = static m -> static <$> <[i := v]> M = static <$> M.
Proof.
  intros Hi Hs. rewrite list_fmap_insert. apply list_insert_id.
  rewrite list_lookup_fmap, Hi. simpl. by rewrite Hs.
Qed.

Lemma static_propose i M p : static <$> propose i M p = static <$> M.
Proof.
  unfold propose. destruct (fst p); [|done]. destruct (M !! i) as [m|] eqn:Hi; [|done].
  destruct (Qgtb _ _); [|done]. by apply (static_insert _ _ m).
Qed.

Lemma static_fold_propose i L : forall M,
  static <$> fold_left (propose i) L M = static <$> M.
Proof.
  induction L as [|p L IH]; intros M; simpl; [done|].
  by rewrite IH, static_propose.
Qed.

Lemma static_score_vertex ex M i : static <$> score_vertex ex M i = static <$> M.
Proof.
  unfold score_vertex. destruct (bool_decide _); [done|].
  destruct (M !! i) as [m|] eqn:Hi; [|done].
  rewrite static_fold_propose. by apply (static_insert _ _ m).
Qed.

Lemma static_fold_score_vertex ex indices : forall M,
  static <$> fold_left (score_vertex ex) indices M = static <$> M.
Proof.
  induction indices as [|i indices IH]; intros M; simpl; [done|].
  by rewrite IH, static_score_vertex.
Qed.

Lemma static_score_model ex M : static <$> score_model ex M = static <$> M.
Proof. apply static_fold_score_vertex. Qed.

Lemma static_clear_scores M : static <$> clear_scores M = static <$> M.
Proof.
  unfold clear_scores. rewrite <- list_fmap_compose. by apply list_fmap_ext.
Qed.

Lemma static_length (M M' : list Vertex) : static <$> M' = static <$> M -> length M' = length M.
Proof. intros Hs. apply (f_equal length) in Hs. by rewrite !length_fmap in Hs. Qed.

Lemma static_lookup (M M' : list Vertex) (i : nat) m' :
  static <$> M' = static <$> M -> M' !! i = Some m' ->
  exists m, M !! i = Some m /\ static m = static m'.
Proof.
  intros Hs Hi. apply (f_equal (fun l => l !! i)) in Hs.
  rewrite !list_lookup_fmap, Hi in Hs. simpl in Hs.
  destruct (M !! i) as [m|]; [|done]. exists m. split; [done|]. simpl in Hs. congruence.
Qed.

Lemma open_static M M' v u : static <$> M' = static <$> M -> open M' v u -> open M v u.
Proof.
  intros Hs (m' & cost & Hv & Hin).
  destruct (static_lookup _ _ _ _ Hs Hv) as (m & Hm & Hstatic).
  exists m, cost. split; [done|]. unfold static in Hstatic.
  injection Hstatic as _ _ Hcosts. by rewrite Hcosts.
Qed.

(** *** Masked models *)

Lemma entry_masked_refl p : entry_masked p p.
Proof. split; [done|by left]. Qed.

Lemma entry_masked_trans p1 p2 p3 :
  entry_masked p1 p2 -> entry_masked p2 p3 -> entry_masked p1 p3.
Proof.
  intros [Hs1 Hf1] [Hs2 Hf2]. split; [congruence|].
  destruct Hf2 as [Hf2|Hf2]; [|by right]. rewrite Hf2. done.
Qed.

Lemma masked_from_static M M' : static <$> M' = static <$> M -> masked_from M M'.
Proof.
  intros Hs. apply Forall2_same_length_lookup. split; [by rewrite (static_length _ _ Hs)|].
  intros i v v' Hv Hv'. destruct (static_lookup _ _ _ _ Hs Hv') as (m & Hm & Hstatic).
  assert (m = v) as -> by congruence. unfold static in Hstatic.
  injection Hstatic as Hmem Hweight Hcosts. repeat split; [done..|].
  rewrite Hcosts. apply Forall_Forall2_diag, Forall_forall. intros. apply entry_masked_refl.
Qed.

Lemma masked_from_refl M : masked_from M M.
Proof. by apply masked_from_static. Qed.

Lemma masked_from_trans M1 M2 M3 :
  masked_from M1 M2 -> masked_from M2 M3 -> masked_from M1 M3.
Proof.
  intros H12 H23. eapply Forall2_trans; [|exact H12|exact H23].
  intros v1 v2 v3 (Hm1 & Hw1 & Hc1) (Hm2 & Hw2 & Hc2). repeat split; [congruence..|].
  eapply Forall2_trans; [|exact Hc1|exact Hc2]. apply entry_masked_trans.
Qed.

Lemma masked_from_length M M' : masked_from M M' -> length M' = length M.
Proof. intros Hm. symmetry. by eapply Forall2_length. Qed.

Lemma masked_from_open M M' v u : masked_from M M' -> open M' v u -> open M v u.
Proof.
  intros Hm (m' & cost & Hv & Hin).
  destruct (Forall2_lookup_r _ _ _ _ _ Hm Hv) as (m & Hm0 & _ & _ & Hcosts).
  apply list_elem_of_lookup in Hin as [k Hk].
  destruct (Forall2_lookup_r _ _ _ _ _ Hcosts Hk) as (p & Hp & Hsnd & Hfst).
  exists m, cost. split; [done|]. apply list_elem_of_lookup. exists k.
  rewrite Hp. f_equal. destruct p as [first c]. simpl in *. subst c.
  destruct Hfst as [Hfst|Hfst]; [by rewrite <- Hfst|done].
Qed.

Lemma masked_from_weights M M' :
  masked_from M M' -> weights_nonnegative M -> weights_nonnegative M'.
Proof.
  intros Hm Hw. unfold weights_nonnegative in *. rewrite Forall_forall in Hw.
  apply Forall_forall. intros v' Hin. apply list_elem_of_lookup in Hin as [k Hk].
  destruct (Forall2_lookup_r _ _ _ _ _ Hm Hk) as (v & Hv & _ & Hweight & _).
  rewrite Hweight. apply Hw. apply list_elem_of_lookup. by exists k.
Qed.

Lemma masked_from_acyclic rank M M' :
  masked_from M M' -> acyclic rank M -> acyclic rank M'.
Proof.
  intros Hm [Hrank Hedges]. pose proof (masked_from_length _ _ Hm) as Hlen.
  split; [by rewrite Hlen|].
  intros v u Hopen. rewrite Hlen. apply Hedges. by eapply masked_from_open.
Qed.

Lemma masked_from_static_both M M' S S' :
  masked_from M M' -> static <$> S = static <$> M -> static <$> S' = static <$> M' ->
  masked_from S S'.
Proof.
  intros Hm Hs Hs'. apply (masked_from_trans S M); [by apply masked_from_static|].
  apply (masked_from_trans M M'); [done|]. by apply masked_from_static.
Qed.

(** *** One pass of scoring *)

Lemma score_of_clear_scores M k : score_of (clear_scores M) k = 0%Q.
Proof.
  unfold score_of, clear_scores. rewrite list_lookup_fmap. by destruct (M !! k).
Qed.

Lemma prev_clear_scores M v : clear_scores M !! v ≫= prev = None.
Proof.
  unfold clear_scores. rewrite list_lookup_fmap. by destruct (M !! v).
Qed.

Lemma propose_other i M p k : k <> i -> propose i M p !! k = M !! k.
Proof.
  intros Hne. unfold propose. destruct (fst p); [|done].
  destruct (M !! i); [|done]. destruct (Qgtb _ _); [|done].
  by apply list_lookup_insert_ne.
Qed.

Lemma propose_ge i M p k : (score_of M k <= score_of (propose i M p) k)%Q.
Proof.
  unfold propose. destruct (fst p) as [first|]; [|apply Qle_refl].
  destruct (M !! i) as [m|] eqn:Hi; [|apply Qle_refl].
  destruct (Qgtb _ _) eqn:Hgt; [|apply Qle_refl].
  rewrite score_of_insert by (by eapply lookup_lt_Some).
  destruct (decide (k = i)) as [->|]; [|apply Qle_refl].
  apply Qgtb_true in Hgt. unfold score_of at 1. rewrite Hi. simpl in *. lra.
Qed.

Lemma fold_propose_other i L k : forall M,
  k <> i -> fold_left (propose i) L M !! k = M !! k.
Proof.
  induction L as [|p L IH]; intros M Hne; simpl; [done|].
  by rewrite IH, propose_other.
Qed.

Lemma fold_propose_ge i L k : forall M,
  (score_of M k <= score_of (fold_left (propose i) L M) k)%Q.
Proof.
  induction L as [|p L IH]; intros M; simpl; [apply Qle_refl|].
  eapply Qle_trans; [apply (propose_ge i M p k)|apply IH].
Qed.

Lemma score_vertex_other ex M i k : k <> i -> score_vertex ex M i !! k = M !! k.
Proof.
  intros Hne. unfold score_vertex. destruct (bool_decide _); [done|].
  destruct (M !! i); [|done]. rewrite fold_propose_other by done.
  by apply list_lookup_insert_ne.
Qed.

Lemma score_vertex_excluded ex M i : i ∈ ex -> score_vertex ex M i = M.
Proof. intros Hin. unfold score_vertex. by rewrite bool_decide_true. Qed.

(** A vertex that is scored gets its weight at least. *)
Lemma score_vertex_ge ex M i m :
  i ∉ ex -> M !! i = Some m -> (weight m <= score_of (score_vertex ex M i) i)%Q.
Proof.
  intros Hout Hi. unfold score_vertex. rewrite bool_decide_false by done. rewrite Hi.
  eapply Qle_trans; [|apply fold_propose_ge].
  rewrite score_of_insert by (by eapply lookup_lt_Some).
  rewrite decide_True by done. simpl. apply Qle_refl.
Qed.

(** An excluded vertex keeps the score 0 of [clear_scores]. *)
Lemma score_model_excluded ex M v :
  v ∈ ex -> score_of (score_model ex (clear_scores M)) v = 0%Q.
Proof.
  intros Hin. unfold score_model.
  generalize (seq 0 (length (clear_scores M))). intros indices.
  rewrite <- (score_of_clear_scores M v). generalize (clear_scores M).
  induction indices as [|i indices IH]; intros A; simpl; [done|].
  rewrite IH. unfold score_of. destruct (decide (v = i)) as [->|Hne].
  - by rewrite score_vertex_excluded.
  - by rewrite score_vertex_other.
Qed.

(** The [prev] pointers follow open transitions. *)
Lemma propose_prev_open i M p m :
  M !! i = Some m -> p ∈ prev_cost m ->
  (forall v u, M !! v ≫= prev = Some u -> open M v u) ->
  forall v u, propose i M p !! v ≫= prev = Some u -> open (propose i M p) v u.
Proof.
  intros Hi Hp Hinv v u Hprev.
  apply (open_static _ M); [symmetry; apply static_propose|]. revert Hprev.
  unfold propose. destruct p as [[first|] cost]; simpl; [|by apply Hinv].
  rewrite Hi. destruct (Qgtb _ _); [|by apply Hinv].
  destruct (decide (v = i)) as [->|Hne].
  - rewrite list_lookup_insert_eq by (by eapply lookup_lt_Some). simpl.
    intros [= <-]. by exists m, cost.
  - rewrite list_lookup_insert_ne by done. by apply Hinv.
Qed.

Lemma fold_propose_prev_open i L : forall M m,
  M !! i = Some m -> (forall p, p ∈ L -> p ∈ prev_cost m) ->
  (forall v u, M !! v ≫= prev = Some u -> open M v u) ->
  forall v u, fold_left (propose i) L M !! v ≫= prev = Some u ->
              open (fold_left (propose i) L M) v u.
Proof.
  induction L as [|p L IH]; intros M m Hi HL Hinv; simpl; [done|].
  assert (Hs : static <$> propose i M p = static <$> M) by apply static_propose.
  destruct (lookup_lt_is_Some_2 (propose i M p) i) as [m1 Hm1].
  { rewrite (static_length _ _ Hs). by eapply lookup_lt_Some. }
  destruct (static_lookup _ _ _ _ Hs Hm1) as (m0 & Hm0 & Hstatic).
  assert (m0 = m) as -> by congruence.
  assert (Hcosts : prev_cost m1 = prev_cost m).
  { unfold static in Hstatic. by injection Hstatic. }
  apply (IH _ m1 Hm1).
  - intros q Hq. rewrite Hcosts. apply HL. by right.
  - apply (propose_prev_open i M p m Hi); [apply HL; by left|done].
Qed.

Lemma score_vertex_prev_open ex M i :
  (forall v u, M !! v ≫= prev = Some u -> open M v u) ->
  forall v u, score_vertex ex M i !! v ≫= prev = Some u -> open (score_vertex ex M i) v u.
Proof.
  intros Hinv. unfold score_vertex. destruct (bool_decide _); [done|].
  destruct (M !! i) as [m|] eqn:Hi; [|done].
  set (M1 := <[i := set_score_prev m (weight m) (prev m)]> M).
  assert (Hs : static <$> M1 = static <$> M) by (by apply (static_insert _ _ m)).
  assert (Hi1 : M1 !! i = Some (set_score_prev m (weight m) (prev m))).
  { apply list_lookup_insert_eq. by eapply lookup_lt_Some. }
  apply (fold_propose_prev_open i _ M1 _ Hi1); [done|].
  intros v u Hprev. apply (open_static _ M); [by symmetry|]. apply Hinv.
  destruct (decide (v = i)) as [->|Hne].
  - rewrite Hi1 in Hprev. by rewrite Hi.
  - subst M1. by rewrite list_lookup_insert_ne in Hprev.
Qed.

Lemma score_model_prev_open ex M v u :
  score_model ex (clear_scores M) !! v ≫= prev = Some u ->
  open (score_model ex (clear_scores M)) v u.
Proof.
  unfold score_model. generalize (seq 0 (length (clear_scores M))). intros indices.
  assert (Hinit : forall v u, clear_scores M !! v ≫= prev = Some u
                              -> open (clear_scores M) v u).
  { intros v' u' Hprev. by rewrite prev_clear_scores in Hprev. }
  revert Hinit v u. generalize (clear_scores M).
  induction indices as [|i indices IH]; intros A Hinit v u; simpl; [by apply Hinit|].
  apply IH. by apply score_vertex_prev_open.
Qed.

(** *** Masking and excluding lower the scores *)

Lemma propose_simulation i M M' p p' :
  masked_from M M' -> entry_masked p p' ->
  (forall k, (score_of M' k <= score_of M k)%Q) ->
  forall k, (score_of (propose i M' p') k <= score_of (propose i M p) k)%Q.
Proof.
  intros Hm [Hsnd Hfst] Hle k.
  assert (Hweak : (score_of M' k <= score_of (propose i M p) k)%Q).
  { eapply Qle_trans; [apply Hle|apply propose_ge]. }
  unfold propose at 1. destruct (fst p') as [first|] eqn:Hfirst; [|done].
  destruct Hfst as [Hfst|Hfst]; [|done].
  destruct (M' !! i) as [m'|] eqn:Hi'; [|done].
  destruct (Qgtb _ (score m')) eqn:Hgt'; [|done].
  destruct (Forall2_lookup_r _ _ _ _ _ Hm Hi') as (m & Hi & _ & Hweight & _).
  rewrite score_of_insert by (by eapply lookup_lt_Some).
  destruct (decide (k = i)) as [->|Hne]; [|done]. simpl.
  pose proof (Hle first) as Hfirst_le. pose proof (Hle i) as Hi_le.
  unfold score_of in Hi_le at 1 2. rewrite Hi, Hi' in Hi_le. simpl in Hi_le.
  unfold propose. rewrite <- Hfst, Hi. rewrite Hsnd, Hweight.
  destruct (Qgtb _ (score m)) eqn:Hgt.
  - rewrite score_of_insert by (by eapply lookup_lt_Some).
    rewrite decide_True by done. simpl. lra.
  - apply Qgtb_false in Hgt. unfold score_of at 2. rewrite Hi. simpl. lra.
Qed.

Lemma fold_propose_simulation i L L' :
  Forall2 entry_masked L L' ->
  forall M M',
    masked_from M M' ->
    (forall k, (score_of M' k <= score_of M k)%Q) ->
    forall k, (score_of (fold_left (propose i) L' M') k
               <= score_of (fold_left (propose i) L M) k)%Q.
Proof.
  induction 1 as [|p p' L L' Hp HL IH]; intros M M' Hm Hle; simpl; [done|].
  apply IH.
  - apply (masked_from_static_both M M'); [done|apply static_propose..].
  - by apply propose_simulation.
Qed.

Lemma score_vertex_simulation ex ex' M M' i :
  masked_from M M' -> ex ⊆ ex' -> weights_nonnegative M ->
  (forall k, (score_of M' k <= score_of M k)%Q) ->
  (forall k, k ∈ ex' -> score_of M' k = 0%Q) ->
  forall k, (score_of (score_vertex ex' M' i) k <= score_of (score_vertex ex M i) k)%Q.
Proof.
  intros Hm Hsub Hw Hle Hzero k.
  destruct (decide (k = i)) as [->|Hne];
    [|unfold score_of; rewrite !score_vertex_other by done; apply Hle].
  destruct (decide (i ∈ ex)) as [Hin|Hout].
  { rewrite !score_vertex_excluded by set_solver. apply Hle. }
  destruct (M !! i) as [m|] eqn:Hi.
  2:{ unfold score_vertex. rewrite Hi.
      assert (Hi' : M' !! i = None).
      { apply lookup_ge_None. rewrite (masked_from_length _ _ Hm).
        by apply lookup_ge_None. }
      rewrite Hi'. destruct (bool_decide _), (bool_decide _); apply Hle. }
  assert (Hwm : (0 <= weight m)%Q).
  { unfold weights_nonnegative in Hw. rewrite Forall_forall in Hw.
    apply Hw. by eapply list_elem_of_lookup_2. }
  pose proof (score_vertex_ge ex M i m Hout Hi) as Hge.
  destruct (decide (i ∈ ex')) as [Hin'|Hout'].
  { rewrite (score_vertex_excluded ex' M' i Hin'), (Hzero i Hin'). lra. }
  destruct (Forall2_lookup_l _ _ _ _ _ Hm Hi) as (m' & Hi' & _ & Hweight & Hcosts).
  unfold score_vertex. rewrite !bool_decide_false by done. rewrite Hi, Hi'.
  apply fold_propose_simulation; [done| |].
  - apply (masked_from_static_both M M'); [done|..].
    + by apply (static_insert _ _ m).
    + by apply (static_insert _ _ m').
  - intros j. rewrite !score_of_insert by (by eapply lookup_lt_Some).
    destruct (decide (j = i)); [simpl; rewrite Hweight; apply Qle_refl|apply Hle].
Qed.

Lemma score_vertex_zero ex M i k :
  k ∈ ex -> score_of M k = 0%Q -> score_of (score_vertex ex M i) k = 0%Q.
Proof.
  intros Hin Hzero. unfold score_of in *. destruct (decide (k = i)) as [->|Hne].
  - by rewrite score_vertex_excluded.
  - by rewrite score_vertex_other.
Qed.

Lemma fold_score_vertex_simulation ex ex' indices :
  ex ⊆ ex' ->
  forall M M',
    masked_from M M' -> weights_nonnegative M ->
    (forall k, (score_of M' k <= score_of M k)%Q) ->
    (forall k, k ∈ ex' -> score_of M' k = 0%Q) ->
    forall k, (score_of (fold_left (score_vertex ex') indices M') k
               <= score_of (fold_left (score_vertex ex) indices M) k)%Q.
Proof.
  intros Hsub. induction indices as [|i indices IH]; intros M M' Hm Hw Hle Hzero; simpl;
    [done|].
  apply IH.
  - apply (masked_from_static_both M M'); [done|apply static_score_vertex..].
  - apply (masked_from_weights M); [|done]. apply masked_from_static.
    apply static_score_vertex.
  - by apply score_vertex_simulation.
  - intros k Hk. apply score_vertex_zero; auto.
Qed.

(** With weights that are not negative, a pass over a model with more
    transitions masked and more vertices excluded gives no vertex a greater
    score. *)
Lemma score_model_monotone ex ex' M M' :
  masked_from M M' -> ex ⊆ ex' -> weights_nonnegative M ->
  forall k, (score_of (score_model ex' (clear_scores M')) k
             <= score_of (score_model ex (clear_scores M)) k)%Q.
Proof.
  intros Hm Hsub Hw. unfold score_model.
  assert (Hlen : length (clear_scores M') = length (clear_scores M)).
  { rewrite (static_length _ _ (static_clear_scores M')),
      (static_length _ _ (static_clear_scores M)). by apply masked_from_length. }
  rewrite Hlen. apply fold_score_vertex_simulation; [done|..].
  - apply (masked_from_static_both M M'); [done|apply static_clear_scores..].
  - apply (masked_from_weights M); [|done]. apply masked_from_static.
    apply static_clear_scores.
  - intros k. rewrite !score_of_clear_scores. apply Qle_refl.
  - intros k _. apply score_of_clear_scores.
Qed.

(** *** The vertex of maximal score *)

Lemma max_vertex_fold M indices : forall maxv,
  match fold_left (fun maxv i =>
                     match maxv with
                     | None => Some i
                     | Some k => if Qgtb (score_of M i) (score_of M k) then Some i else maxv
                     end) indices maxv with
  | Some v => (maxv = Some v \/ v ∈ indices)
              /\ (forall k, maxv = Some k -> (score_of M k <= score_of M v)%Q)
              /\ (forall i, i ∈ indices -> (score_of M i <= score_of M v)%Q)
  | None => maxv = None /\ indices = []
  end.
Proof.
  induction indices as [|i indices IH]; intros maxv; simpl.
  - destruct maxv as [v|]; [|done]. split; [by left|]. split.
    + intros k [= ->]. apply Qle_refl.
    + intros i Hi. by apply elem_of_nil in Hi.
  - set (next := match maxv with
                 | None => Some i
                 | Some k => if Qgtb (score_of M i) (score_of M k) then Some i else maxv
                 end).
    specialize (IH next).
    destruct (fold_left _ indices next) as [v|]; [|subst next; destruct IH as [IH _];
      destruct maxv; [destruct (Qgtb _ _)|]; done].
    destruct IH as (Hv & Hnext & Hrest).
    assert (Hi : (score_of M i <= score_of M v)%Q
                 /\ forall k, maxv = Some k -> (score_of M k <= score_of M v)%Q).
    { subst next. destruct maxv as [k|].
      - destruct (Qgtb (score_of M i) (score_of M k)) eqn:Hgt.
        + apply Qgtb_true in Hgt. pose proof (Hnext i eq_refl). split; [done|].
          intros k' [= <-]. lra.
        + apply Qgtb_false in Hgt. pose proof (Hnext k eq_refl). split; [lra|].
          intros k' [= <-]. done.
      - split; [by apply Hnext|done]. }
    destruct Hi as [Hi Hmax]. split; [|split; [done|]].
    + destruct Hv as [Hv|Hv]; [|right; by right].
      subst next. destruct maxv as [k|].
      * destruct (Qgtb _ _); [right; injection Hv as ->; by left|by left].
      * right. injection Hv as ->. by left.
    + intros j [->|Hj]%elem_of_cons; [done|by apply Hrest].
Qed.

Lemma max_vertex_spec M v :
  max_vertex M = Some v ->
  (v < length M)%nat
  /\ forall i, (i < length M)%nat -> (score_of M i <= score_of M v)%Q.
Proof.
  intros Hmax. unfold max_vertex in Hmax.
  pose proof (max_vertex_fold M (seq 0 (length M)) None) as Hfold.
  rewrite Hmax in Hfold. destruct Hfold as ([Hv|Hv] & _ & Hall); [done|].
  apply elem_of_seq in Hv. split; [lia|].
  intros i Hi. apply Hall, elem_of_seq. lia.
Qed.

Lemma max_vertex_none M : max_vertex M = None -> M = [].
Proof.
  intros Hmax. unfold max_vertex in Hmax.
  pose proof (max_vertex_fold M (seq 0 (length M)) None) as Hfold.
  rewrite Hmax in Hfold. destruct Hfold as [_ Hseq].
  destruct M; [done|]. simpl in Hseq. done.
Qed.

(** *** The walk along the [prev] pointers *)

Lemma make_trace_runs (rank : nat -> nat) S :
  (forall v u, S !! v ≫= prev = Some u -> (rank u < rank v)%nat) ->
  forall fuel v,
    (rank v < fuel)%nat ->
    exists rest, make_trace fuel S v = Some (v :: rest)
                 /\ forall a b, adjacent a b (v :: rest) -> S !! a ≫= prev = Some b.
Proof.
  intros Hrank. induction fuel as [|fuel IH]; intros v Hfuel; [lia|]. simpl.
  destruct (S !! v ≫= prev) as [p|] eqn:Hprev.
  - destruct (IH p) as (rest & -> & Hadj).
    { specialize (Hrank v p Hprev). lia. }
    exists (p :: rest). split; [done|].
    intros a b (before & after & Heq). destruct before as [|x before]; simpl in Heq.
    + injection Heq as <- <- _. done.
    + injection Heq as _ Heq. apply Hadj. by exists before, after.
  - exists []. split; [done|].
    intros a b (before & after & Heq). by destruct before as [|? [|? ?]].
Qed.

(** *** Masking the transitions of a trace *)

Lemma mask_entry_masked paired members M v u p :
  entry_masked p (mask_entry paired members M v u p).
Proof.
  unfold mask_entry. destruct p as [[first|] cost]; simpl; [|apply entry_masked_refl].
  destruct (Nat.eqb first u); [split; [done|by right]|].
  destruct (_ && _); [split; [done|by right]|apply entry_masked_refl].
Qed.

Lemma mask_vertex_masked paired members M v u :
  masked_from M (mask_vertex paired members M v u).
Proof.
  unfold mask_vertex. destruct (M !! v) as [m|] eqn:Hv; [|apply masked_from_refl].
  apply Forall2_same_length_lookup. split; [by rewrite length_insert|].
  intros i x x' Hx Hx'. destruct (decide (i = v)) as [->|Hne].
  - rewrite list_lookup_insert_eq in Hx' by (by eapply lookup_lt_Some).
    injection Hx' as <-. assert (x = m) as -> by congruence. simpl.
    repeat split. apply Forall2_fmap_r, Forall_Forall2_diag, Forall_forall.
    intros p _. apply mask_entry_masked.
  - rewrite list_lookup_insert_ne in Hx' by done. assert (x' = x) as -> by congruence.
    repeat split. apply Forall_Forall2_diag, Forall_forall.
    intros. apply entry_masked_refl.
Qed.

Lemma mask_trace_masked paired members rest : forall M previous,
  masked_from M (mask_trace paired members M previous rest).
Proof.
  induction rest as [|v rest IH]; intros M previous; simpl; [apply masked_from_refl|].
  eapply masked_from_trans; [apply mask_vertex_masked|apply IH].
Qed.

Lemma mask_used_masked paired members M reversed :
  masked_from M (mask_used paired members M reversed).
Proof.
  destruct reversed; simpl; [apply masked_from_refl|apply mask_trace_masked].
Qed.

Lemma mask_vertex_closes paired members M v u :
  ~ open (mask_vertex paired members M v u) v u.
Proof.
  intros (m' & cost & Hv & Hin). unfold mask_vertex in Hv.
  destruct (M !! v) as [m|] eqn:Hm; [|congruence].
  rewrite list_lookup_insert_eq in Hv by (by eapply lookup_lt_Some).
  injection Hv as <-. simpl in Hin.
  apply list_elem_of_fmap in Hin as ([[first|] c] & Heq & _); unfold mask_entry in Heq;
    simpl in Heq; [|done].
  destruct (Nat.eqb_spec first u); [done|]. destruct (_ && _); [done|congruence].
Qed.

Lemma mask_trace_closes paired members rest : forall M previous before a b after,
  previous :: rest = before ++ b :: a :: after ->
  ~ open (mask_trace paired members M previous rest) a b.
Proof.
  induction rest as [|v rest IH]; intros M previous before a b after Heq.
  - by destruct before as [|? [|? ?]].
  - simpl. destruct before as [|x before]; simpl in Heq.
    + injection Heq as -> -> _. intros Hopen.
      apply (mask_vertex_closes paired members M a b).
      eapply masked_from_open; [apply mask_trace_masked|exact Hopen].
    + injection Heq as _ Heq. by apply (IH _ _ before a b after).
Qed.

Lemma mask_used_closes paired members M trace v u :
  adjacent v u trace -> ~ open (mask_used paired members M (reverse trace)) v u.
Proof.
  intros (before & after & ->).
  assert (Hrev : reverse (before ++ v :: u :: after)
                 = reverse after ++ u :: v :: reverse before).
  { rewrite reverse_app, !reverse_cons, <- !(assoc_L (++)). done. }
  rewrite Hrev. destruct (reverse after ++ u :: v :: reverse before) as [|first rest] eqn:E.
  - by destruct (reverse after).
  - simpl. apply (mask_trace_closes _ _ _ _ _ (reverse after) v u (reverse before)). done.
Qed.

(** *** The loop of [traceback] *)

Lemma clear_scores_static M M' :
  static <$> M' = static <$> M -> clear_scores M' = clear_scores M.
Proof.
  intros Hs. unfold clear_scores.
  assert (Hvia : forall L : list Vertex,
             (fun m => set_score_prev m 0 None) <$> L
             = (fun x => mk_vertex (fst (fst x)) (snd (fst x)) None 0 (snd x))
                 <$> (static <$> L)).
  { intros L. rewrite <- list_fmap_compose. by apply list_fmap_ext. }
  by rewrite !Hvia, Hs.
Qed.

Lemma masked_from_mem M M' (v : nat) :
  masked_from M M' -> mem <$> M' !! v = mem <$> M !! v.
Proof.
  intros Hm. destruct (M' !! v) as [m'|] eqn:Hv.
  - destruct (Forall2_lookup_r _ _ _ _ _ Hm Hv) as (m & -> & Hmem & _). simpl. by rewrite Hmem.
  - apply lookup_ge_None in Hv. rewrite (masked_from_length _ _ Hm) in Hv.
    by rewrite (proj2 (lookup_ge_None M v)).
Qed.

Lemma mems_of_masked M M' trace : masked_from M M' -> mems_of M' trace = mems_of M trace.
Proof.
  intros Hm. unfold mems_of. induction (reverse trace) as [|v l IH]; simpl; [done|].
  rewrite (masked_from_mem M M' v Hm).
  change (list_omap nat MaximalExactMatch.t) with (@omap list _ nat MaximalExactMatch.t).
  by rewrite IH.
Qed.

Lemma empty_run_invariant paired M0 : invariant paired M0 (mk_run M0 ∅ [] false).
Proof.
  constructor; simpl; try (intros; exfalso; eapply elem_of_nil; eassumption);
    try constructor.
  apply masked_from_refl.
Qed.

(** The [break] keeps the invariant. *)
Lemma stop_invariant paired M0 run :
  invariant paired M0 run ->
  invariant paired M0
            (mk_run (score_model (exclude run) (clear_scores (model run)))
                    (exclude run) (traces run) true).
Proof.
  intros Hinv.
  assert (Hstatic : static <$> score_model (exclude run) (clear_scores (model run))
                    = static <$> model run).
  { by rewrite static_score_model, static_clear_scores. }
  constructor; cbn [model exclude traces]; try apply Hinv.
  - eapply masked_from_trans; [apply Hinv|by apply masked_from_static].
  - intros t v u Ht Hvu Hopen. apply (inv_closed _ _ _ Hinv t v u Ht Hvu).
    by apply (open_static (model run) _ v u Hstatic).
  - rewrite (clear_scores_static _ _ Hstatic). apply Hinv.
Qed.

(** One more trace keeps the invariant. *)
Lemma emit_invariant rank paired M0 run v :
  acyclic rank M0 -> weights_nonnegative M0 ->
  invariant paired M0 run ->
  max_vertex (score_model (exclude run) (clear_scores (model run))) = Some v ->
  ~ (score_of (score_model (exclude run) (clear_scores (model run))) v == 0)%Q ->
  exists run',
    emit paired (score_model (exclude run) (clear_scores (model run))) run v = Some run'
    /\ invariant paired M0 run'
    /\ length (traces run') = S (length (traces run))
    /\ exhausted run' = false.
Proof.
  intros Hacyclic Hw Hinv. set (scored := score_model _ _). intros Hmax Hnz.
  pose proof (inv_masked _ _ _ Hinv) as Hmasked.
  assert (Hstatic : static <$> scored = static <$> model run).
  { subst scored. by rewrite static_score_model, static_clear_scores. }
  assert (Hscored : masked_from M0 scored).
  { eapply masked_from_trans; [exact Hmasked|by apply masked_from_static]. }
  pose proof (masked_from_acyclic rank _ _ Hscored Hacyclic) as [Hrank Hedges].
  destruct (max_vertex_spec _ _ Hmax) as [Hv Hbest].
  assert (Hprev : forall a b, scored !! a ≫= prev = Some b -> open scored a b).
  { intros a b. subst scored. apply score_model_prev_open. }
  destruct (make_trace_runs rank scored (fun a b Hab => proj2 (Hedges a b (Hprev a b Hab)))
                            (length scored) v (Hrank v Hv)) as (rest & Htrace & Hadj).
  assert (Hlen : length scored = length M0) by (by apply masked_from_length).
  unfold emit. rewrite Htrace. cbn [mbind option_bind]. cbv zeta.
  eexists. split; [reflexivity|].
  split; [|split; [cbn [traces]; rewrite length_app; simpl; lia|done]].
  constructor; cbn [model exclude traces].
  - eapply masked_from_trans; [exact Hscored|apply mask_used_masked].
  - apply StronglySorted_app_2; [|apply Hinv|repeat constructor].
    intros t new Ht ->%list_elem_of_singleton. unfold descends. simpl.
    apply (inv_bound _ _ _ Hinv); [done|lia].
  - apply StronglySorted_app_2; [|apply Hinv|repeat constructor].
    intros t new Ht ->%list_elem_of_singleton a b Hab Hnew. simpl in Hnew.
    apply (inv_closed _ _ _ Hinv t a b Ht Hab).
    apply (open_static (model run) scored a b Hstatic). by apply Hprev, Hadj.
  - intros t a b [Ht| ->%list_elem_of_singleton]%elem_of_app Hab.
    + intros Hopen. apply (inv_closed _ _ _ Hinv t a b Ht Hab).
      apply (open_static (model run) scored a b Hstatic).
      eapply masked_from_open; [apply mask_used_masked|exact Hopen].
    + simpl in Hab. by apply mask_used_closes.
  - intros t a b [Ht| ->%list_elem_of_singleton]%elem_of_app Hab.
    + by apply (inv_paths _ _ _ Hinv t).
    + simpl in Hab. eapply masked_from_open; [exact Hscored|]. by apply Hprev, Hadj.
  - intros t k Ht Hk.
    eapply Qle_trans.
    { apply (score_model_monotone (exclude run) _ (model run)).
      - eapply masked_from_trans; [by apply masked_from_static|apply mask_used_masked].
      - destruct paired; cbn [andb]; [|apply union_subseteq_r].
        match goal with |- context [if ?b then _ else _] => destruct b end;
          [apply union_subseteq_r|done].
      - by apply (masked_from_weights M0). }
    fold scored. apply elem_of_app in Ht as [Ht| ->%list_elem_of_singleton].
    + by apply (inv_bound _ _ _ Hinv).
    + simpl. apply Hbest. lia.
  - intros t [Ht| ->%list_elem_of_singleton]%elem_of_app; [by apply (inv_nonzero _ _ _ Hinv)|].
    done.
  - intros -> t x [Ht| ->%list_elem_of_singleton]%elem_of_app Hsingle; cbn [andb].
    + pose proof (inv_singletons _ _ _ Hinv eq_refl t x Ht Hsingle).
      match goal with |- context [if ?b then _ else _] => destruct b end;
        [apply elem_of_union; by right|done].
    + cbn [vertex_trace] in Hsingle. injection Hsingle as -> ->.
      cbn [length Nat.eqb take]. apply elem_of_union. left.
      apply elem_of_list_to_set. by left.
  - intros -> t x [Ht| ->%list_elem_of_singleton]%elem_of_app Hx; cbn [andb].
    + pose proof (inv_used _ _ _ Hinv eq_refl t x Ht Hx).
      apply elem_of_union. by right.
    + cbn [vertex_trace] in Hx. apply elem_of_union. left. by apply elem_of_list_to_set.
  - intros t [Ht| ->%list_elem_of_singleton]%elem_of_app; [by apply (inv_mems _ _ _ Hinv)|].
    simpl. split; [done|]. by apply mems_of_masked.
Qed.

Lemma traceback_loop_runs rank paired M0 :
  acyclic rank M0 -> weights_nonnegative M0 ->
  forall n run,
    invariant paired M0 run -> exhausted run = false ->
    exists run',
      traceback_loop n paired run = Some run'
      /\ invariant paired M0 run'
      /\ (length (traces run') <= n + length (traces run))%nat
      /\ (exhausted run' = false -> length (traces run') = (n + length (traces run))%nat)
      /\ (exhausted run' = true -> nothing_left run').
Proof.
  intros Hacyclic Hw. induction n as [|n IH]; intros run Hinv Hex; cbn [traceback_loop].
  - exists run. split; [done|]. split; [done|]. split; [simpl; lia|].
    split; [done|congruence].
  - cbv zeta. destruct (max_vertex _) as [v|] eqn:Hmax.
    + destruct (Qeq_bool _ 0) eqn:Hzero.
      * eexists. split; [reflexivity|]. split; [by apply stop_invariant|].
        cbn [traces exhausted model]. split; [lia|]. split; [done|].
        intros _. right. exists v. split; [done|]. by apply Qeq_bool_iff.
      * destruct (emit_invariant rank paired M0 run v Hacyclic Hw Hinv Hmax)
          as (run' & -> & Hinv' & Hlen & Hex').
        { intros Heq. apply Qeq_bool_iff in Heq. congruence. }
        cbn [mbind option_bind].
        destruct (IH run' Hinv' Hex') as (run'' & Hrun & Hinv'' & Hle & Hfull & Hstop).
        exists run''. rewrite Hlen in Hle, Hfull.
        split; [done|]. split; [done|]. split; [lia|]. split; [|done].
        intros Hopen. rewrite (Hfull Hopen). lia.
    + eexists. split; [reflexivity|]. split; [by apply stop_invariant|].
      cbn [traces exhausted model]. split; [lia|]. split; [done|].
      intros _. by left.
Qed.

(** C7, counterexample: two seeds of weight 5 that no transition joins give
    two traces of score 5, one after the other: the scores do not descend
    strictly. In paired mode each of these traces of a single vertex is
    emitted as well (and its vertex then joins [exclude]). *)
Lemma traceback_equal_scores :
  (exists run,
      traceback_run two_lone_seeds 2 false = Some run
      /\ map vertex_trace (traces run) = [[0%nat]; [1%nat]]
      /\ map trace_score (traces run) = [5%Q; 5%Q])
  /\ (exists run,
         traceback_run two_lone_seeds 2 true = Some run
         /\ map vertex_trace (traces run) = [[0%nat]; [1%nat]]
         /\ map trace_score (traces run) = [5%Q; 5%Q]).
Proof.
  split; eexists; (split; [vm_compute; reflexivity|]); split; reflexivity.
Qed.

(** C7 (as amended): for a model without a cycle of transitions and without
    negative weights, and [alt_alns >= 0], [traceback] returns at most
    [alt_alns] traces. Their scores are non-increasing (not strictly
    descending) and none is 0; every trace follows transitions of the model,
    no two traces share a transition, and the transitions of the traces are
    masked in the model when the function returns. With fewer than
    [alt_alns] traces the loop has stopped at a model that has no vertex or
    whose maximal score is 0. In paired mode the vertex of a trace of a
    single vertex is in [exclude] (the trace is emitted all the same); in
    unpaired mode every vertex of every trace is. A vertex in [exclude] is
    skipped by the scoring and keeps the score 0. *)
Theorem traceback_spec (rank : nat -> nat) (model0 : list Vertex) (alt_alns : Z)
        (paired : bool) :
  0 <= alt_alns -> acyclic rank model0 -> weights_nonnegative model0 ->
  exists run,
    traceback_run model0 alt_alns paired = Some run
    /\ traceback model0 alt_alns paired = Some (map mem_trace (traces run))
    /\ (length (traces run) <= Z.to_nat alt_alns)%nat
    /\ StronglySorted descends (traces run)
    /\ StronglySorted edge_disjoint (traces run)
    /\ (forall t v u,
           t ∈ traces run -> adjacent v u (vertex_trace t) ->
           open model0 v u /\ ~ open (model run) v u)
    /\ (forall t,
           t ∈ traces run ->
           ~ (trace_score t == 0)%Q
           /\ vertex_trace t <> []
           /\ mem_trace t = mems_of model0 (vertex_trace t))
    /\ ((length (traces run) < Z.to_nat alt_alns)%nat -> nothing_left run)
    /\ (paired = true ->
        forall t v, t ∈ traces run -> vertex_trace t = [v] -> v ∈ exclude run)
    /\ (paired = false ->
        forall t v, t ∈ traces run -> v ∈ vertex_trace t -> v ∈ exclude run)
    /\ (forall v M,
           v ∈ exclude run ->
           score_of (score_model (exclude run) (clear_scores M)) v = 0%Q).
Proof.
  intros Hk Hacyclic Hw. unfold traceback, traceback_run.
  destruct (Z.ltb_spec alt_alns 0) as [|_]; [lia|].
  destruct (traceback_loop_runs rank paired model0 Hacyclic Hw (Z.to_nat alt_alns)
                                (mk_run model0 ∅ [] false)
                                (empty_run_invariant paired model0) eq_refl)
    as (run & Hrun & Hinv & Hle & Hfull & Hstop).
  cbn [traces length] in Hle, Hfull. rewrite Nat.add_0_r in Hle, Hfull.
  exists run. rewrite Hrun. split; [done|]. split; [done|]. split; [done|].
  split; [apply Hinv|]. split; [apply Hinv|].
  split.
  { intros t v u Ht Hvu. split.
    - by apply (inv_paths _ _ _ Hinv t).
    - by apply (inv_closed _ _ _ Hinv t). }
  split.
  { intros t Ht. split; [by apply (inv_nonzero _ _ _ Hinv)|].
    by apply (inv_mems _ _ _ Hinv). }
  split.
  { intros Hfew. apply Hstop. destruct (exhausted run); [done|].
    specialize (Hfull eq_refl). lia. }
  split; [apply Hinv|]. split; [apply Hinv|].
  intros v M Hv. by apply score_model_excluded.
Qed.

(** The theorem at the chain of two seeds with a third seed on its own. *)
Lemma traceback_spec_witness :
  exists run,
    traceback_run chained_seeds 3 false = Some run
    /\ StronglySorted descends (traces run)
    /\ StronglySorted edge_disjoint (traces run).
Proof.
  destruct (traceback_spec (fun v => v) chained_seeds 3 false)
    as (run & Hrun & _ & _ & Hsorted & Hdisjoint & _).
  - lia.
  - split; [done|]. intros v u (m & cost & Hv & Hin).
    destruct v as [|[|[|v]]]; simpl in Hv; try done; injection Hv as <-; simpl in Hin.
    + by apply elem_of_nil in Hin.
    + apply list_elem_of_singleton in Hin. injection Hin as ->. simpl. lia.
    + by apply elem_of_nil in Hin.
  - repeat constructor; done.
  - exists run. split; [exact Hrun|]. split; [exact Hsorted|exact Hdisjoint].
Defined.
End ChainProofs.

(* ===================================================================== *)
(** * Further properties of [src/mapper.cpp]                              *)
(* ===================================================================== *)

(** ** Clusters of MEMs *)

Module ClustersProofs.
Import Transition Clusters.

(** X1: [mems_overlap] and [mems_overlap_length] do not depend on the order
    of their arguments. For MEMs that overlap, [mems_overlap_length] is the
    length of the stretch of the read from the first begin to the last end
    (the span of the two MEMs together, not of their common part), so that
    the sum of the two lengths less [mems_overlap_length] is the length of
    the common part. *)
Theorem mems_overlap_length_span (m1 m2 : MaximalExactMatch.t) :
  mems_overlap m1 m2 = mems_overlap m2 m1
  /\ mems_overlap_length m1 m2 = mems_overlap_length m2 m1
  /\ mems_overlap_length m1 m2
     = (if mems_overlap m1 m2
        then Z.max (MaximalExactMatch.end' m1) (MaximalExactMatch.end' m2)
             - Z.min (MaximalExactMatch.begin m1) (MaximalExactMatch.begin m2)
        else 0)
  /\ MaximalExactMatch.length m1 + MaximalExactMatch.length m2 - mems_overlap_length m1 m2
     = (if mems_overlap m1 m2
        then Z.min (MaximalExactMatch.end' m1) (MaximalExactMatch.end' m2)
             - Z.max (MaximalExactMatch.begin m1) (MaximalExactMatch.begin m2)
        else MaximalExactMatch.length m1 + MaximalExactMatch.length m2).
Proof.
  unfold mems_overlap_length, mems_overlap, MaximalExactMatch.length.
  rewrite (Z.eqb_sym (MaximalExactMatch.fragment m2)).
  destruct (MaximalExactMatch.fragment m1 =? MaximalExactMatch.fragment m2); simpl;
    [|repeat split; lia].
  destruct (Z.leb_spec (MaximalExactMatch.end' m1) (MaximalExactMatch.begin m2)),
    (Z.leb_spec (MaximalExactMatch.end' m2) (MaximalExactMatch.begin m1)); simpl;
    try (repeat split; lia).
  destruct (Z.ltb_spec (MaximalExactMatch.begin m1) (MaximalExactMatch.begin m2)),
    (Z.ltb_spec (MaximalExactMatch.begin m2) (MaximalExactMatch.begin m1)),
    (Z.ltb_spec (MaximalExactMatch.end' m1) (MaximalExactMatch.end' m2)),
    (Z.ltb_spec (MaximalExactMatch.end' m2) (MaximalExactMatch.end' m1));
    repeat split; lia.
Qed.

Lemma fold_insert_positions (l : list Z) : forall seen : gset Z,
  fold_left (fun seen c => {[c]} ∪ seen) l seen = list_to_set l ∪ seen.
Proof.
  induction l as [|c l IH]; intros seen; simpl.
  - apply leibniz_equiv. by rewrite (left_id ∅ (∪)).
  - rewrite IH. apply leibniz_equiv.
    rewrite (assoc (∪)), (comm (∪) (list_to_set l)), <- (assoc (∪)). done.
Qed.

Lemma cover_all_covered cluster : forall seen,
  Forall well_formed cluster -> cover_all seen cluster = Some (covered cluster ∪ seen).
Proof.
  induction cluster as [|mem rest IH]; intros seen Hwf; simpl.
  - f_equal. apply leibniz_equiv. unfold covered. simpl. by rewrite (left_id ∅ (∪)).
  - apply Forall_cons in Hwf as [Hmem Hrest]. unfold cover.
    unfold well_formed in Hmem.
    destruct (Z.ltb_spec (MaximalExactMatch.end' mem) (MaximalExactMatch.begin mem)); [lia|].
    cbn [mbind option_bind]. rewrite fold_insert_positions, (IH _ Hrest). f_equal.
    apply leibniz_equiv. unfold covered. simpl. rewrite list_to_set_app.
    fold (span mem). rewrite (assoc (∪)), (comm (∪) _ (list_to_set (span mem))). done.
Qed.

Lemma size_span mem :
  well_formed mem ->
  Z.of_nat (stdpp.base.size (list_to_set (span mem) : gset Z)) = MaximalExactMatch.length mem.
Proof.
  intros Hwf. unfold well_formed in Hwf.
  rewrite size_list_to_set by apply NoDup_seqZ.
  unfold span, MaximalExactMatch.length. rewrite length_seqZ. lia.
Qed.

Lemma covered_cons mem rest :
  covered (mem :: rest) = list_to_set (span mem) ∪ covered rest.
Proof. unfold covered. simpl. by rewrite list_to_set_app_L. Qed.

Lemma apart_disjoint mem rest :
  Forall (apart mem) rest -> (list_to_set (span mem) : gset Z) ## covered rest.
Proof.
  intros Hapart. apply elem_of_disjoint. intros i Hmem Hrest.
  apply elem_of_list_to_set in Hmem. unfold covered in Hrest.
  apply elem_of_list_to_set, list_elem_of_In, in_concat in Hrest as (l & Hl & Hi).
  apply in_map_iff in Hl as (other & <- & Hother).
  apply list_elem_of_In in Hi, Hother.
  rewrite Forall_forall in Hapart. specialize (Hapart other Hother).
  unfold span in *. apply elem_of_seqZ in Hmem. apply elem_of_seqZ in Hi.
  unfold apart in Hapart. lia.
Qed.

(** X2: for a cluster whose MEMs all end at or after their begin,
    [cluster_coverage] is the number of positions of the read that some MEM
    of the cluster covers: not negative, at least the length of every MEM of
    the cluster, at most the sum of the lengths, and equal to that sum when
    no two MEMs of the cluster share a position. *)
Theorem cluster_coverage_spec (cluster : list MaximalExactMatch.t) :
  Forall well_formed cluster ->
  exists n,
    cluster_coverage cluster = Some n
    /\ n = Z.of_nat (stdpp.base.size (covered cluster))
    /\ 0 <= n <= total_length cluster
    /\ Forall (fun mem => MaximalExactMatch.length mem <= n) cluster
    /\ (ForallOrdPairs apart cluster -> n = total_length cluster).
Proof.
  intros Hwf. unfold cluster_coverage. rewrite (cover_all_covered _ ∅ Hwf).
  cbn [mbind option_bind]. eexists. split; [reflexivity|].
  replace (covered cluster ∪ ∅) with (covered cluster)
    by (apply leibniz_equiv; by rewrite (right_id ∅ (∪))).
  split; [done|]. clear -Hwf. induction Hwf as [|mem rest Hmem Hrest IH].
  - change (covered []) with (∅ : gset Z). rewrite size_empty.
    unfold total_length. simpl. split; [lia|]. split; [constructor|done].
  - destruct IH as (Hbound & Hall & Hexact).
    rewrite covered_cons. unfold total_length in *. simpl.
    pose proof (size_span mem Hmem) as Hspan.
    pose proof (size_union_alt (list_to_set (span mem) : gset Z) (covered rest)) as Hsize.
    assert (Hdiff : (stdpp.base.size (covered rest ∖ list_to_set (span mem))
                     <= stdpp.base.size (covered rest))%nat).
    { apply subseteq_size. apply subseteq_difference_l. done. }
    assert (Hright : (stdpp.base.size (covered rest)
                      <= stdpp.base.size (list_to_set (span mem) ∪ covered rest))%nat).
    { apply subseteq_size. apply union_subseteq_r. }
    split; [lia|]. split.
    + constructor; [lia|]. eapply Forall_impl; [exact Hall|]. simpl. intros. lia.
    + intros Hpairs. inversion Hpairs as [|? ? Hfirst Hothers]; subst.
      rewrite size_union by (by apply apart_disjoint). specialize (Hexact Hothers). lia.
Qed.

(** The theorem at two MEMs on the first ten bases of a read. *)
Lemma cluster_coverage_spec_witness :
  exists n,
    cluster_coverage [MaximalExactMatch.mk 0 5 (0, 0) 1 1 []; MaximalExactMatch.mk 3 10 (0, 0) 1 1 []]
    = Some n
    /\ 0 <= n <= 12.
Proof.
  destruct (cluster_coverage_spec
              [MaximalExactMatch.mk 0 5 (0, 0) 1 1 []; MaximalExactMatch.mk 3 10 (0, 0) 1 1 []])
    as (n & Hrun & _ & Hbound & _).
  - repeat constructor; unfold well_formed; simpl; lia.
  - exists n. split; [exact Hrun|exact Hbound].
Defined.

Lemma cluster_coverage_runs cluster :
  Forall well_formed cluster ->
  exists n, cluster_coverage cluster = Some n /\ 0 <= n.
Proof.
  intros Hwf. unfold cluster_coverage. rewrite (cover_all_covered _ ∅ Hwf).
  cbn [mbind option_bind]. eexists. split; [reflexivity|lia].
Qed.

Lemma cluster_coverages_run clusters :
  Forall (Forall well_formed) clusters ->
  exists cluster_cov,
    mapM cluster_coverage clusters = Some cluster_cov
    /\ forall i, 0 <= coverage_at cluster_cov i.
Proof.
  induction 1 as [|cluster rest Hwf Hrest IH].
  - exists []. split; [done|]. intros i. unfold coverage_at. by destruct i.
  - destruct IH as (cov & Hcov & Hpos).
    destruct (cluster_coverage_runs cluster Hwf) as (n & Hn & Hn0).
    exists (n :: cov). split.
    + simpl. rewrite Hn. cbn [mbind option_bind]. rewrite Hcov. done.
    + intros [|i]; [done|]. apply (Hpos i).
Qed.

(** The inner loop of [clusters_to_drop]: the coverage [l] is the greatest
    seen, and [b] the cluster that has it. *)
Lemma compare_fold clusters cluster_cov this js : forall b0 l0,
  exists b l,
    fold_left (compare_cluster clusters cluster_cov this) js (b0, l0) = (b, l)
    /\ l0 <= l
    /\ (forall j, j ∈ js -> clusters_overlap this (default [] (clusters !! j)) = true ->
                  coverage_at cluster_cov j <= l)
    /\ ((b, l) = (b0, l0)
        \/ exists j, j ∈ js /\ b = Z.of_nat j /\ l = coverage_at cluster_cov j
                     /\ clusters_overlap this (default [] (clusters !! j)) = true
                     /\ l0 < l).
Proof.
  induction js as [|j js IH]; intros b0 l0; simpl.
  - exists b0, l0. split; [done|]. split; [lia|]. split; [|by left].
    intros j Hj. by apply elem_of_nil in Hj.
  - unfold compare_cluster at 2. cbn [snd].
    destruct (clusters_overlap this (default [] (clusters !! j))) eqn:Hover.
    + fold (coverage_at cluster_cov j).
      destruct (Z.ltb_spec l0 (coverage_at cluster_cov j)) as [Hlt|Hge].
      * destruct (IH (Z.of_nat j) (coverage_at cluster_cov j))
          as (b & l & Hfold & Hle & Hmax & Hbest).
        exists b, l. split; [done|]. split; [lia|]. split.
        -- intros k [->|Hk]%elem_of_cons Hk'; [lia|by apply Hmax].
        -- right. destruct Hbest as [[= -> ->]|(k & Hk & -> & -> & Hover' & Hlt')].
           ++ exists j. repeat split; [by left|done..].
           ++ exists k. repeat split; [by right|done|lia].
      * destruct (IH b0 l0) as (b & l & Hfold & Hle & Hmax & Hbest).
        exists b, l. split; [done|]. split; [done|]. split.
        -- intros k [->|Hk]%elem_of_cons Hk'; [lia|by apply Hmax].
        -- destruct Hbest as [Hsame|(k & Hk & -> & -> & Hover' & Hlt')]; [by left|].
           right. exists k. repeat split; [by right|done..].
    + destruct (IH b0 l0) as (b & l & Hfold & Hle & Hmax & Hbest).
      exists b, l. split; [done|]. split; [done|]. split.
      * intros k [->|Hk]%elem_of_cons Hk'; [congruence|by apply Hmax].
      * destruct Hbest as [Hsame|(k & Hk & -> & -> & Hover' & Hlt')]; [by left|].
        right. exists k. repeat split; [by right|done..].
Qed.

Lemma drops_spec `{ClusterSettings} clusters cluster_cov i :
  drops clusters cluster_cov i = true <-> overshadowed clusters cluster_cov i.
Proof.
  unfold drops. fold (coverage_at cluster_cov i).
  destruct (compare_fold clusters cluster_cov (default [] (clusters !! i))
                         (reverse (seq 0 i)) (-1) (coverage_at cluster_cov i))
    as (b & l & -> & Hle & Hmax & Hbest).
  assert (Hjs : forall j, j ∈ reverse (seq 0 i) <-> (j < i)%nat).
  { intros j. rewrite elem_of_reverse, elem_of_seq. lia. }
  rewrite andb_true_iff, negb_true_iff. split.
  - intros [Hb Hratio]. apply Z.leb_le in Hb.
    destruct Hbest as [[= -> ->]|(j & Hj & -> & -> & Hover & Hlt)]; [lia|].
    exists j. split; [by apply Hjs|]. split; [done|]. split; [done|]. split.
    + intros k Hk Hk'. apply Hmax; [by apply Hjs|done].
    + apply Qnot_le_lt. intros Hq. apply Qle_bool_iff in Hq. congruence.
  - intros (j & Hj & Hover & Hlt & Hbig & Hratio).
    pose proof (Hmax j (proj2 (Hjs j) Hj) Hover) as Hjl.
    destruct Hbest as [[= -> ->]|(k & Hk & -> & -> & Hover' & Hlt')]; [lia|].
    pose proof (Hbig k (proj1 (Hjs k) Hk) Hover') as Hkj.
    assert (Heq : coverage_at cluster_cov k = coverage_at cluster_cov j) by lia.
    split; [apply Z.leb_le; lia|]. rewrite Heq.
    destruct (Qle_bool _ _) eqn:Hq; [|done].
    apply Qle_bool_iff in Hq. exfalso. by apply (Qlt_not_le _ _ Hratio).
Qed.

(** X3: [clusters_to_drop] drops the cluster at index [i] exactly when an
    earlier cluster overlaps it, covers more of the read than it and than
    every other earlier cluster that overlaps it, and the coverage of the
    cluster divided by that greatest coverage is below [drop_chain]. So the
    first cluster is never dropped, and nothing is dropped when [drop_chain]
    is not positive. *)
Theorem clusters_to_drop_spec `{ClusterSettings} (clusters : list (list MaximalExactMatch.t)) :
  Forall (Forall well_formed) clusters ->
  exists cluster_cov dropped,
    mapM cluster_coverage clusters = Some cluster_cov
    /\ clusters_to_drop clusters = Some dropped
    /\ (forall i, i ∈ dropped
                  <-> (i < length clusters)%nat /\ overshadowed clusters cluster_cov i)
    /\ (0%nat ∉ dropped)
    /\ ((drop_chain <= 0)%Q -> dropped = []).
Proof.
  intros Hwf. destruct (cluster_coverages_run clusters Hwf) as (cov & Hcov & Hpos).
  exists cov. eexists. split; [exact Hcov|].
  unfold clusters_to_drop. rewrite Hcov. cbn [mbind option_bind].
  split; [reflexivity|].
  assert (Hiff : forall i,
             i ∈ filter (fun i => drops clusters cov i = true) (seq 0 (length clusters))
             <-> (i < length clusters)%nat /\ overshadowed clusters cov i).
  { intros i. rewrite list_elem_of_filter, elem_of_seq, drops_spec. split.
    - intros [Hd Hi]. split; [lia|done].
    - intros [Hi Hd]. split; [done|lia]. }
  split; [exact Hiff|]. split.
  - intros [_ (j & Hj & _)]%Hiff. lia.
  - intros Hchain. apply elem_of_nil_inv. intros i [_ (j & _ & _ & Hlt & _ & Hratio)]%Hiff.
    assert (Hnonneg : (0 <= inject_Z (coverage_at cov i) / inject_Z (coverage_at cov j))%Q).
    { apply Qle_shift_div_l.
      - rewrite <- (Zlt_Qlt 0). specialize (Hpos i). lia.
      - rewrite Qmult_0_l. rewrite <- (Zle_Qle 0). apply Hpos. }
    lra.
Qed.

(** The theorem at a long cluster followed by a short one inside it. *)
Lemma clusters_to_drop_spec_witness :
  exists cluster_cov dropped,
    mapM cluster_coverage [long_cluster; short_cluster] = Some cluster_cov
    /\ @clusters_to_drop default_cluster_settings [long_cluster; short_cluster] = Some dropped
    /\ (0%nat ∉ dropped).
Proof.
  destruct (@clusters_to_drop_spec default_cluster_settings [long_cluster; short_cluster])
    as (cov & dropped & Hcov & Hrun & _ & Hfirst & _).
  - repeat constructor; unfold well_formed; simpl; lia.
  - exists cov, dropped. split; [exact Hcov|]. split; [exact Hrun|exact Hfirst].
Defined.

(** *** [compute_uniqueness] *)

Lemma add_counts_spec match_count positions : forall v,
  NoDup positions ->
  Forall (fun i => 0 <= i < Z.of_nat (length v)) positions ->
  exists v',
    add_counts v match_count positions = Some v'
    /\ length v' = length v
    /\ forall k : nat,
        default 0 (v' !! k)
        = default 0 (v !! k)
          + (if bool_decide (Z.of_nat k ∈ positions) then match_count else 0).
Proof.
  induction positions as [|i rest IH]; intros v Hnodup Hrange; cbn [add_counts].
  - exists v. split; [done|]. split; [done|]. intros k.
    rewrite bool_decide_false by apply not_elem_of_nil. lia.
  - apply NoDup_cons in Hnodup as [Hi Hnodup].
    apply Forall_cons in Hrange as [Hir Hrange].
    destruct (Z.ltb_spec i 0); [lia|]. destruct (Z.leb_spec (Z.of_nat (length v)) i); [lia|].
    cbn [orb].
    destruct (IH (<[Z.to_nat i := default 0 (v !! Z.to_nat i) + match_count]> v) Hnodup)
      as (v' & Hrun & Hlen & Hval).
    { by rewrite length_insert. }
    exists v'. split; [done|]. split; [by rewrite Hlen, length_insert|].
    intros k. rewrite Hval. destruct (decide (k = Z.to_nat i)) as [->|Hne].
    + rewrite list_lookup_insert_eq by lia. simpl.
      rewrite Z2Nat.id by lia.
      rewrite (bool_decide_false (i ∈ rest)) by done.
      rewrite (bool_decide_true (i ∈ i :: rest)) by left. lia.
    + rewrite list_lookup_insert_ne by done.
      destruct (bool_decide (Z.of_nat k ∈ rest)) eqn:Hk.
      * apply bool_decide_eq_true in Hk.
        rewrite (bool_decide_true (Z.of_nat k ∈ i :: rest)) by (by right). done.
      * apply bool_decide_eq_false in Hk. rewrite bool_decide_false; [done|].
        intros [Heq|Hin]%elem_of_cons; [lia|done].
Qed.

Lemma covers_span i mem : covers i mem = bool_decide (i ∈ span mem).
Proof.
  unfold covers, span. destruct (bool_decide _) eqn:Hin.
  - apply bool_decide_eq_true, elem_of_seqZ in Hin.
    apply andb_true_iff. split; [apply Z.leb_le|apply Z.ltb_lt]; lia.
  - apply bool_decide_eq_false in Hin. rewrite elem_of_seqZ in Hin.
    destruct (Z.leb_spec (MaximalExactMatch.begin mem) i),
      (Z.ltb_spec i (MaximalExactMatch.end' mem)); simpl; try done. lia.
Qed.

Lemma count_hits_spec n mems : forall v,
  Z.of_nat (length v) = n -> Forall (inside n) mems ->
  exists v',
    count_hits v mems = Some v'
    /\ length v' = length v
    /\ forall k : nat, default 0 (v' !! k) = default 0 (v !! k) + hits_at mems (Z.of_nat k).
Proof.
  induction mems as [|mem rest IH]; intros v Hlen Hin; simpl.
  - exists v. split; [done|]. split; [done|]. intros k. unfold hits_at. simpl. lia.
  - apply Forall_cons in Hin as [(Hb & Hbe & He) Hin].
    destruct (add_counts_spec (MaximalExactMatch.match_count mem) (span mem) v)
      as (v1 & Hrun & Hlen1 & Hval1).
    { apply NoDup_seqZ. }
    { apply Forall_forall. intros i Hi%elem_of_seqZ. lia. }
    fold (span mem). rewrite Hrun. cbn [mbind option_bind].
    destruct (IH v1) as (v' & Hrun' & Hlen' & Hval'); [lia|done|].
    exists v'. split; [done|]. split; [lia|].
    intros k. rewrite Hval', Hval1. unfold hits_at. simpl. rewrite covers_span. lia.
Qed.

Lemma repeated_filter v :
  repeated v = Z.of_nat (length (filter (fun b => 1 < b) v)).
Proof.
  unfold repeated.
  assert (Hgen : forall a, fold_left (fun a b => if 1 <? b then a + 1 else a) v a
                           = a + Z.of_nat (length (filter (fun b => 1 < b) v))).
  { induction v as [|b v IH]; intros a; simpl; [lia|].
    rewrite IH, filter_cons. destruct (Z.ltb_spec 1 b).
    - rewrite decide_True by done. simpl. lia.
    - rewrite decide_False by lia. lia. }
  rewrite Hgen. lia.
Qed.

Lemma length_filter_fmap {A B} (f : A -> B) (P : B -> Prop) `{forall b, Decision (P b)}
      (l : list A) :
  length (filter P (f <$> l)) = length (filter (fun a => P (f a)) l).
Proof.
  induction l as [|a l IH]; [done|].
  rewrite fmap_cons, !filter_cons. destruct (decide (P (f a))); simpl; by rewrite IH.
Qed.

(** X4: for a read that is not empty and MEMs that lie inside it,
    [compute_uniqueness] is the fraction of the positions of the read at
    which the match counts of the MEMs that cover the position add up to
    more than 1: a number from 0 to 1 that is 0 when every position is
    covered by unique MEMs only. *)
Theorem compute_uniqueness_spec (aln : Alignment.t) (mems : list MaximalExactMatch.t) :
  0 < size (Alignment.sequence aln) ->
  Forall (inside (size (Alignment.sequence aln))) mems ->
  exists u,
    compute_uniqueness aln mems = Some u
    /\ u = (inject_Z (Z.of_nat (length (repeated_positions
                                          mems (size (Alignment.sequence aln)))))
            / inject_Z (size (Alignment.sequence aln)))%Q
    /\ (0 <= u <= 1)%Q.
Proof.
  intros Hn Hin. unfold compute_uniqueness.
  set (n := size (Alignment.sequence aln)) in *.
  destruct (count_hits_spec n mems (replicate (Z.to_nat n) 0)) as (v & -> & Hlen & Hval);
    [rewrite length_replicate; lia|done|].
  cbn [mbind option_bind]. destruct (Z.eqb_spec n 0); [lia|].
  rewrite length_replicate in Hlen.
  assert (Hv : v = hits_at mems <$> seqZ 0 n).
  { apply list_eq. intros k. rewrite list_lookup_fmap.
    destruct (decide (Z.of_nat k < n)) as [Hk|Hk].
    - rewrite lookup_seqZ_lt by done. simpl.
      destruct (lookup_lt_is_Some_2 v k ltac:(lia)) as [x Hx].
      specialize (Hval k). rewrite Hx in Hval. simpl in Hval.
      assert (Hk' : (k < Z.to_nat n)%nat) by lia.
      rewrite (lookup_replicate_2 _ _ _ Hk') in Hval. simpl in Hval. rewrite Hx.
      f_equal. rewrite Hval. f_equal.
    - rewrite lookup_seqZ_ge by lia. simpl. apply lookup_ge_None. lia. }
  assert (Hrep : repeated v = Z.of_nat (length (repeated_positions mems n))).
  { rewrite repeated_filter, Hv, length_filter_fmap. done. }
  eexists. split; [reflexivity|]. rewrite Hrep. split; [done|].
  assert (Hcount : (length (repeated_positions mems n) <= Z.to_nat n)%nat).
  { unfold repeated_positions. etrans; [apply length_filter|]. by rewrite length_seqZ. }
  split.
  - apply Qle_shift_div_l; [by rewrite <- (Zlt_Qlt 0)|].
    rewrite Qmult_0_l, <- (Zle_Qle 0). lia.
  - apply Qle_shift_div_r; [by rewrite <- (Zlt_Qlt 0)|].
    rewrite Qmult_1_l, <- Zle_Qle. lia.
Qed.

(** The theorem at a read of ten bases with a repeated seed. *)
Lemma compute_uniqueness_spec_witness :
  exists u, compute_uniqueness tie_read short_cluster = Some u /\ (0 <= u <= 1)%Q.
Proof.
  destruct (compute_uniqueness_spec tie_read short_cluster) as (u & Hrun & _ & Hbound).
  - reflexivity.
  - constructor; [repeat split; by vm_compute|constructor].
  - exists u. split; [exact Hrun|exact Hbound].
Defined.

(** *** The two fragments of a cluster *)

Lemma split_cluster_seen cluster : forall c1 c2,
  split_cluster true cluster = Some (c1, c2)
  <-> c1 = [] /\ c2 = cluster
      /\ Forall (fun mem => MaximalExactMatch.fragment mem = 2) cluster.
Proof.
  induction cluster as [|mem rest IH]; intros c1 c2; simpl.
  - split; [intros [= <- <-]; by repeat split|intros (-> & -> & _); done].
  - destruct (Z.eqb_spec (MaximalExactMatch.fragment mem) 2) as [Hf|Hf].
    + destruct (split_cluster true rest) as [[r1 r2]|]; simpl.
      * destruct (proj1 (IH r1 r2) eq_refl) as (-> & -> & Hall).
        split; [intros [= <- <-]; by repeat split; try constructor|].
        intros (-> & -> & _). done.
      * split; [done|]. intros (-> & -> & Hall). apply Forall_cons in Hall as [_ Hall].
        by pose proof (proj2 (IH [] rest) (conj eq_refl (conj eq_refl Hall))).
    + split; [done|]. intros (_ & _ & Hall). apply Forall_cons in Hall as [Hm _]. done.
Qed.

(** X5: the split of a cluster of a pair in [align_paired_multi_simul] gives
    two lists exactly when the cluster is the MEMs of fragment 1 followed by
    the MEMs of fragment 2; the lists are these two parts. In every other
    case (a fragment other than 1 and 2, or a MEM of fragment 1 after one of
    fragment 2) the assertion fails. *)
Theorem split_cluster_spec (cluster c1 c2 : list MaximalExactMatch.t) :
  split_cluster false cluster = Some (c1, c2)
  <-> cluster = c1 ++ c2
      /\ Forall (fun mem => MaximalExactMatch.fragment mem = 1) c1
      /\ Forall (fun mem => MaximalExactMatch.fragment mem = 2) c2.
Proof.
  revert c1 c2. induction cluster as [|mem rest IH]; intros c1 c2; simpl.
  - split.
    + intros [= <- <-]. by repeat split.
    + intros (Happ & _ & _). symmetry in Happ. apply app_eq_nil in Happ as [-> ->]. done.
  - destruct (Z.eqb_spec (MaximalExactMatch.fragment mem) 1) as [Hf1|Hf1]; simpl.
    + destruct (split_cluster false rest) as [[r1 r2]|]; simpl.
      * destruct (proj1 (IH r1 r2) eq_refl) as (Hrest & Hr1 & Hr2). split.
        -- intros [= <- <-]. split; [by rewrite Hrest|]. split; [by constructor|done].
        -- intros (Happ & H1 & H2). destruct c1 as [|x c1]; simpl in Happ.
           ++ subst c2. apply Forall_cons in H2 as [Hm _]. congruence.
           ++ injection Happ as <- Happ. apply Forall_cons in H1 as [_ H1].
              by pose proof (proj2 (IH c1 c2) (conj Happ (conj H1 H2))) as [= -> ->].
      * split; [done|]. intros (Happ & H1 & H2). destruct c1 as [|x c1]; simpl in Happ.
        -- subst c2. apply Forall_cons in H2 as [Hm _]. congruence.
        -- injection Happ as <- Happ. apply Forall_cons in H1 as [_ H1].
           by pose proof (proj2 (IH c1 c2) (conj Happ (conj H1 H2))).
    + destruct (Z.eqb_spec (MaximalExactMatch.fragment mem) 2) as [Hf2|Hf2].
      * destruct (split_cluster true rest) as [[r1 r2]|] eqn:Hrest; simpl.
        -- destruct (proj1 (split_cluster_seen rest r1 r2) Hrest) as (-> & -> & Hall).
           split.
           ++ intros [= <- <-]. split; [done|]. split; [constructor|by constructor].
           ++ intros (Happ & H1 & H2). destruct c1 as [|x c1]; simpl in Happ.
              ** by subst c2.
              ** injection Happ as <- _. apply Forall_cons in H1 as [Hx _]. congruence.
        -- split; [done|]. intros (Happ & H1 & H2). destruct c1 as [|x c1]; simpl in Happ.
           ++ subst c2. apply Forall_cons in H2 as [_ H2].
              pose proof (proj2 (split_cluster_seen rest [] rest)
                                (conj eq_refl (conj eq_refl H2))). congruence.
           ++ injection Happ as <- _. apply Forall_cons in H1 as [Hx _]. congruence.
      * split; [done|]. intros (Happ & H1 & H2). destruct c1 as [|x c1]; simpl in Happ.
        -- subst c2. apply Forall_cons in H2 as [Hm _]. congruence.
        -- injection Happ as <- _. apply Forall_cons in H1 as [Hx _]. congruence.
Qed.
End ClustersProofs.

(** ** Mates *)

Module MatesProofs.
Import FragmentModel Mates.

(** X6: the approximate position of a base does not depend on the strand
    from which the position names it: [approx_position] of a position and of
    its image under [reverse] (with the length of its node) are the same.
    [approx_distance] is the difference of two approximate positions, so it
    is 0 from a position to itself, changes sign when the positions are
    swapped, and adds up along a third position. *)
Theorem approx_position_strand `{XG} (pos pos1 pos2 pos3 : Position.t) :
  approx_position (Position.reverse pos (get_node_length (Position.node_id pos)))
  = approx_position pos
  /\ approx_distance pos pos = 0
  /\ approx_distance pos1 pos2 = - approx_distance pos2 pos1
  /\ approx_distance pos1 pos3 = approx_distance pos1 pos2 + approx_distance pos2 pos3.
Proof.
  unfold approx_distance, approx_position, get_node_length.
  destruct pos as [id off [|]]; simpl; repeat split; lia.
Qed.

Section Facts.
Context `{XG} `{Mapper} `{Layout}.

Lemma approx_fragment_length_unmapped aln1 aln2 :
  approx_alignment_position aln1 = -1 \/ approx_alignment_position aln2 = -1 ->
  approx_fragment_length aln1 aln2 = -1.
Proof.
  unfold approx_fragment_length. intros [-> | ->]; simpl; [done|].
  by rewrite andb_false_r.
Qed.
End Facts.

(** X7: [approx_fragment_length] does not depend on the order of the two
    alignments; it is -1 when one of them has no mapping, and otherwise -1
    or not negative. *)
Theorem approx_fragment_length_spec `{XG} `{Layout} (aln1 aln2 : Alignment.t) :
  approx_fragment_length aln1 aln2 = approx_fragment_length aln2 aln1
  /\ (approx_fragment_length aln1 aln2 = -1 \/ 0 <= approx_fragment_length aln1 aln2)
  /\ approx_fragment_length (Alignment.clear_path aln1) aln2 = -1
  /\ approx_fragment_length aln1 (Alignment.clear_path aln2) = -1.
Proof.
  split; [|split; [|split]].
  - unfold approx_fragment_length. rewrite andb_comm.
    destruct (_ && _); [lia|done].
  - unfold approx_fragment_length. destruct (_ && _); [right; lia|by left].
  - apply approx_fragment_length_unmapped. by left.
  - apply approx_fragment_length_unmapped. by right.
Qed.

(** X8: for a first alignment with a mapping, and fragment records that are
    none or as many as those of the second alignment, [pair_consistent] is
    true exactly when both scores are not 0, the length test holds and the
    cached fragment orientation is "same strand": both strands that the
    function compares are read from the first alignment, so the strands of
    the two alignments have no part in the result. *)
Theorem pair_consistent_spec `{XG} `{Mapper} `{Layout}
        (m : FragmentModel.t) (aln1 aln2 : Alignment.t) :
  Alignment.path aln1 <> [] ->
  Alignment.fragment aln1 = []
  \/ length (Alignment.fragment aln1) = length (Alignment.fragment aln2) ->
  exists ok,
    length_ok m aln1 aln2 = Some ok
    /\ pair_consistent m aln1 aln2
       = Some (negb (Alignment.score aln1 =? 0) && negb (Alignment.score aln2 =? 0)
               && ok && cached_fragment_orientation m).
Proof.
  intros Hpath Hfragments.
  assert (Hok : exists ok, length_ok m aln1 aln2 = Some ok).
  { unfold length_ok. destruct Hfragments as [-> | ->]; simpl; [by eexists|].
    rewrite Nat.eqb_refl. destruct (Nat.eqb _ 0); by eexists. }
  destruct Hok as [ok Hok]. exists ok. split; [done|].
  unfold pair_consistent. rewrite Hok.
  destruct (Alignment.path aln1) as [|mapping rest]; [done|].
  cbn [mbind option_bind head]. rewrite eqb_reflx.
  destruct (negb (Alignment.score aln1 =? 0) && negb (Alignment.score aln2 =? 0));
    simpl; [|done].
  destruct ok, (cached_fragment_orientation m); done.
Qed.

(** The theorem at a pair of mates on the forward strand. *)
Lemma pair_consistent_spec_witness :
  exists ok,
    @length_ok one_node_graph default_mapper plain_layout FragmentModel.initial
               forward_mate forward_mate = Some ok
    /\ @pair_consistent one_node_graph default_mapper plain_layout FragmentModel.initial
                        forward_mate forward_mate
       = Some (ok && false).
Proof.
  destruct (@pair_consistent_spec one_node_graph default_mapper plain_layout
                                  FragmentModel.initial forward_mate forward_mate)
    as (ok & Hok & Hrun).
  - done.
  - by left.
  - exists ok. split; [exact Hok|exact Hrun].
Defined.

(** X9: [likely_mate_position] does not read [is_first_mate]: for an
    alignment with a mapping it is the start of the node that lies
    [cached_fragment_length_mean] before or after the approximate position
    of the alignment (before when the cached direction and the strand of
    the alignment are both forward or both reverse), on the strand of the
    alignment or on the other one as the cached orientation says. *)
Theorem likely_mate_position_spec `{XG} `{Layout}
        (m : FragmentModel.t) (aln : Alignment.t) (is_first_mate : bool)
        (mapping : Mapping.t) (rest : list Mapping.t) :
  Alignment.path aln = mapping :: rest ->
  likely_mate_position m aln is_first_mate
  = Some (Position.mk
            (node_approximately_at
               (approx_alignment_position aln
                + mate_offset m (Position.is_reverse (Mapping.position mapping))))
            0
            (if cached_fragment_orientation m
             then Position.is_reverse (Mapping.position mapping)
             else negb (Position.is_reverse (Mapping.position mapping)))).
Proof.
  intros Hpath. unfold likely_mate_position, mate_offset. rewrite Hpath.
  cbn [head mbind option_bind].
  destruct (cached_fragment_direction m), is_first_mate,
    (Position.is_reverse (Mapping.position mapping)),
    (cached_fragment_orientation m); simpl; rewrite ?Z.add_opp_r; reflexivity.
Qed.

(** The theorem at a mate on the forward strand. *)
Lemma likely_mate_position_spec_witness :
  @likely_mate_position one_node_graph plain_layout FragmentModel.initial forward_mate true
  = @likely_mate_position one_node_graph plain_layout FragmentModel.initial forward_mate false.
Proof.
  rewrite !(@likely_mate_position_spec one_node_graph plain_layout
                                       FragmentModel.initial forward_mate _
                                       (Mapping.mk (Position.mk 1 0 false) [Edit.mk 4 4 ""])
                                       []) by reflexivity.
  reflexivity.
Defined.
End MatesProofs.

(** ** The buffers of the fragment model *)

Module WindowProofs.
Import FragmentModel Fragment.

Section Facts.
Context `{Mapper} `{FragmentStatistics} `{Layout}.

(** One sample: each of the three buffers gets one more element pushed. *)
Lemma record_fragment_configuration_buffers m length aln1 aln2 m'
      (lengths : list Z) (orientations directions : list bool) :
  fragment_lengths m = window lengths ->
  fragment_orientations m = window orientations ->
  fragment_directions m = window directions ->
  record_fragment_configuration m length aln1 aln2 = Some m' ->
  fragment_lengths m' = window (lengths ++ [Z.abs length])
  /\ exists orientation direction,
      fragment_orientations m' = window (orientations ++ [orientation])
      /\ fragment_directions m' = window (directions ++ [direction]).
Proof.
  intros Hl Ho Hd. unfold record_fragment_configuration.
  destruct (head (Alignment.path aln1)) as [mapping1|]; [|done].
  destruct (head (Alignment.path aln2)) as [mapping2|]; [|done].
  cbn [mbind option_bind].
  destruct (negb _); [done|].
  destruct (same_direction_of _ _) as [direction|]; [|done].
  cbn [mbind option_bind].
  rewrite Hl, Ho, Hd, !FragmentProofs.push_bounded_window.
  destruct (_ <? _).
  - destruct (fragment_length_mean _) as [mean|]; [|done]. cbn [mbind option_bind].
    intros [= <-]. cbn [fragment_lengths fragment_orientations fragment_directions].
    split; [done|]. eauto.
  - intros [= <-]. cbn [fragment_lengths fragment_orientations fragment_directions].
    split; [done|]. eauto.
Qed.

Lemma record_all_buffers samples : forall m m' (lengths : list Z)
                                          (orientations directions : list bool),
  fragment_lengths m = window lengths ->
  fragment_orientations m = window orientations ->
  fragment_directions m = window directions ->
  record_all m samples = Some m' ->
  fragment_lengths m' = window (lengths ++ map (fun s => Z.abs (fst (fst s))) samples)
  /\ exists more_orientations more_directions,
      List.length more_orientations = List.length samples
      /\ List.length more_directions = List.length samples
      /\ fragment_orientations m' = window (orientations ++ more_orientations)
      /\ fragment_directions m' = window (directions ++ more_directions).
Proof.
  induction samples as [|[[len aln1] aln2] rest IH];
    intros m m' lengths orientations directions Hl Ho Hd Hrun; simpl in Hrun.
  - injection Hrun as <-. simpl. rewrite app_nil_r.
    split; [done|]. exists [], []. by rewrite !app_nil_r.
  - destruct (record_fragment_configuration m len aln1 aln2) as [m1|] eqn:Hstep; [|done].
    cbn [mbind option_bind] in Hrun.
    destruct (record_fragment_configuration_buffers _ _ _ _ _ _ _ _ Hl Ho Hd Hstep)
      as (Hl1 & orientation & direction & Ho1 & Hd1).
    destruct (IH _ _ _ _ _ Hl1 Ho1 Hd1 Hrun)
      as (Hl' & more_orientations & more_directions & Hmo & Hmd & Ho' & Hd').
    split.
    + rewrite Hl'. simpl. by rewrite <- (assoc_L (++)).
    + exists (orientation :: more_orientations), (direction :: more_directions).
      simpl. rewrite Hmo, Hmd, Ho', Hd', <- !(assoc_L (++)). done.
Qed.
End Facts.

(** X10: the buffer of fragment lengths is a window over the samples: after
    any number of recorded samples it holds the absolute values of the most
    recent [fragment_length_cache_size] lengths, the newest first, and the
    buffers of orientations and of directions have as many elements as it. *)
Theorem fragment_buffers_window `{Mapper} `{FragmentStatistics} `{Layout}
        (samples : list (Z * Alignment.t * Alignment.t)) (m' : FragmentModel.t) :
  record_all initial samples = Some m' ->
  fragment_lengths m'
  = take (Z.to_nat (to_size_t fragment_length_cache_size))
         (reverse (map (fun s => Z.abs (fst (fst s))) samples))
  /\ List.length (fragment_orientations m') = List.length (fragment_lengths m')
  /\ List.length (fragment_directions m') = List.length (fragment_lengths m').
Proof.
  intros Hrun.
  destruct (record_all_buffers samples initial m' [] [] []) as
    (Hl & orientations & directions & Hno & Hnd & Ho & Hd); try done.
  1-3: unfold window; simpl; by destruct (Z.to_nat _).
  simpl in Hl, Ho, Hd. split; [exact Hl|].
  rewrite Hl, Ho, Hd. unfold window.
  rewrite !length_take, !length_reverse, length_map, Hno, Hnd. done.
Qed.

(** The theorem at two samples of a pair of mates. *)
Lemma fragment_buffers_window_witness :
  exists m',
    @record_all default_mapper floor_statistics plain_layout initial
                [(5, forward_mate, forward_mate); (-7, forward_mate, forward_mate)] = Some m'
    /\ fragment_lengths m' = [7; 5].
Proof.
  eexists. split; [reflexivity|].
  apply (@fragment_buffers_window default_mapper floor_statistics plain_layout
           [(5, forward_mate, forward_mate); (-7, forward_mate, forward_mate)]).
  reflexivity.
Defined.
End WindowProofs.

(** ** Deduplication, and the one alignment of a read *)

Module SingleProofs.
Import Multi Single.

Lemma list_eqb_refl {A} (eqb : A -> A -> bool) (l : list A) :
  (forall x, eqb x x = true) -> list_eqb eqb l l = true.
Proof. intros Hrefl. induction l as [|x l IH]; simpl; [done|]. by rewrite Hrefl, IH. Qed.

Lemma list_eqb_sym {A} (eqb : A -> A -> bool) :
  (forall x y, eqb x y = eqb y x) ->
  forall l1 l2, list_eqb eqb l1 l2 = list_eqb eqb l2 l1.
Proof.
  intros Hsym. induction l1 as [|x l1 IH]; intros [|y l2]; simpl; try done.
  by rewrite Hsym, IH.
Qed.

Lemma Qeq_bool_sym (x y : Q) : Qeq_bool x y = Qeq_bool y x.
Proof.
  apply eq_true_iff_eq. rewrite !Qeq_bool_iff. split; intros Heq; by symmetry.
Qed.

Lemma bool_eqb_sym (x y : bool) : Bool.eqb x y = Bool.eqb y x.
Proof. by destruct x, y. Qed.

Lemma serialized_eqb_refl a : serialized_eqb a a = true.
Proof.
  unfold serialized_eqb.
  rewrite !String.eqb_refl, !Z.eqb_refl, eqb_reflx.
  rewrite (proj2 (Qeq_bool_iff _ _) (Qeq_refl _)).
  rewrite !list_eqb_refl; [done| |].
  - intros [name rank]. unfold fragment_eqb. by rewrite String.eqb_refl, Z.eqb_refl.
  - intros [position edits]. unfold mapping_eqb, position_eqb. simpl.
    rewrite !Z.eqb_refl, eqb_reflx. simpl. apply list_eqb_refl.
    intros e. unfold edit_eqb. by rewrite !Z.eqb_refl, String.eqb_refl.
Qed.

Lemma serialized_eqb_sym a b : serialized_eqb a b = serialized_eqb b a.
Proof.
  unfold serialized_eqb.
  rewrite (String.eqb_sym (Alignment.sequence a)), (String.eqb_sym (Alignment.quality a)),
    (String.eqb_sym (Alignment.name a)), (String.eqb_sym (Alignment.fragment_prev a)),
    (String.eqb_sym (Alignment.fragment_next a)),
    (Z.eqb_sym (Alignment.score a)), (Z.eqb_sym (Alignment.mapping_quality a)),
    (Qeq_bool_sym (Alignment.identity a)), (bool_eqb_sym (Alignment.is_secondary a)).
  rewrite (list_eqb_sym mapping_eqb), (list_eqb_sym fragment_eqb); [done| |].
  - intros f1 f2. unfold fragment_eqb. by rewrite String.eqb_sym, Z.eqb_sym.
  - intros m1 m2. unfold mapping_eqb, position_eqb.
    rewrite (list_eqb_sym edit_eqb).
    + by rewrite (Z.eqb_sym (Position.node_id _)), (Z.eqb_sym (Position.offset _)),
        (bool_eqb_sym (Position.is_reverse _)).
    + intros e1 e2. unfold edit_eqb.
      by rewrite (Z.eqb_sym (Edit.from_length _)), (Z.eqb_sym (Edit.to_length _)),
        String.eqb_sym.
Qed.

Lemma serialized_eqb_score a b :
  serialized_eqb a b = true -> Alignment.score a = Alignment.score b.
Proof.
  unfold serialized_eqb. rewrite !andb_true_iff. intros Heq.
  apply Z.eqb_eq. tauto.
Qed.

(** *** The copies of one score have different serializations *)

Lemma copy_unique_differ all_alns pointers :
  forall used,
    StronglySorted (differ all_alns) (copy_unique all_alns pointers used)
    /\ Forall (fun p => forall a u, all_alns !! p = Some a -> u ∈ used ->
                                    serialized_eqb a u = false)
              (copy_unique all_alns pointers used).
Proof.
  induction pointers as [|p rest IH]; intros used; simpl; [split; constructor|].
  destruct (all_alns !! p) as [a|] eqn:Hp; [|apply IH].
  destruct (existsb (serialized_eqb a) used) eqn:Hused; [apply IH|].
  destruct (IH (a :: used)) as [Hsorted Hnew]. split.
  - constructor; [done|].
    eapply Forall_impl; [exact Hnew|]. intros q Hq a' b Ha' Hb.
    rewrite Hp in Ha'. injection Ha' as <-.
    rewrite serialized_eqb_sym. apply (Hq b a Hb). left.
  - constructor.
    + intros a' u Ha' Hu. rewrite Hp in Ha'. injection Ha' as <-.
      destruct (serialized_eqb a u) eqn:Heq; [|done].
      assert (Hex : existsb (serialized_eqb a) used = true).
      { apply existsb_exists. exists u. split; [by apply list_elem_of_In|done]. }
      congruence.
    + eapply Forall_impl; [exact Hnew|]. intros q Hq a' u Ha' Hu.
      apply (Hq a' u Ha'). by right.
Qed.

(** Every pointer of a score has a copy with its serialization. *)
Lemma copy_unique_covers all_alns pointers :
  forall used p a,
    p ∈ pointers -> all_alns !! p = Some a ->
    (exists u, u ∈ used /\ serialized_eqb a u = true)
    \/ (exists q b, q ∈ copy_unique all_alns pointers used
                    /\ all_alns !! q = Some b /\ serialized_eqb a b = true).
Proof.
  induction pointers as [|p' rest IH]; intros used p a Hin Hp.
  { by apply elem_of_nil in Hin. }
  simpl. apply elem_of_cons in Hin as [->|Hin].
  - rewrite Hp. destruct (existsb (serialized_eqb a) used) eqn:Hused.
    + left. apply existsb_exists in Hused as (u & Hu & Heq).
      exists u. split; [by apply list_elem_of_In|done].
    + right. exists p', a. split; [left|]. split; [done|apply serialized_eqb_refl].
  - destruct (all_alns !! p') as [a'|] eqn:Hp'; [|by apply (IH used p a)].
    destruct (existsb (serialized_eqb a') used); [by apply (IH used p a)|].
    destruct (IH (a' :: used) p a Hin Hp) as [(u & Hu & Heq)|(q & b & Hq & Hb & Heq)].
    + apply elem_of_cons in Hu as [->|Hu].
      * right. exists p', a'. split; [left|done].
      * left. by exists u.
    + right. exists q, b. split; [by right|done].
Qed.

(** *** Every candidate is under its score *)

Lemma map_insert_member k x m :
  exists e, e ∈ map_insert k x m /\ fst e = k /\ x ∈ snd e.
Proof.
  induction m as [|[k' s] rest IH]; simpl.
  - exists (k, [x]). split; [left|]. split; [done|left].
  - destruct (k <? k'); [exists (k, [x]); split; [left|split; [done|left]]|].
    destruct (Z.eqb_spec k k') as [->|Hne].
    + exists (k', set_insert x s). split; [left|]. split; [done|].
      apply MultiProofs.set_insert_elem. by left.
    + destruct IH as (e & He & Hk & Hx). exists e. split; [by right|done].
Qed.

Lemma map_insert_keeps k x m e y :
  e ∈ m -> y ∈ snd e ->
  exists e', e' ∈ map_insert k x m /\ fst e' = fst e /\ y ∈ snd e'.
Proof.
  induction m as [|[k' s] rest IH]; intros He Hy; [by apply elem_of_nil in He|].
  simpl. destruct (k <? k'); [exists e; split; [by right|done]|].
  apply elem_of_cons in He as [->|He].
  - destruct (k =? k').
    + exists (k', set_insert x s). split; [left|]. split; [done|].
      apply MultiProofs.set_insert_elem. by right.
    + exists (k', s). split; [left|done].
  - destruct (k =? k'); [exists e; split; [by right|done]|].
    destruct (IH He Hy) as (e' & He' & Hk & Hy'). exists e'. split; [by right|done].
Qed.

Lemma group_by_score_keeps alns :
  forall i m e y,
    e ∈ m -> y ∈ snd e ->
    exists e', e' ∈ group_by_score i alns m /\ fst e' = fst e /\ y ∈ snd e'.
Proof.
  induction alns as [|ta rest IH]; intros i m e y He Hy; simpl; [by exists e|].
  destruct (map_insert_keeps (Alignment.score ta) i m e y He Hy) as (e1 & He1 & Hk1 & Hy1).
  destruct (IH (S i) _ e1 y He1 Hy1) as (e2 & He2 & Hk2 & Hy2).
  exists e2. split; [done|]. split; [congruence|done].
Qed.

Lemma group_by_score_member alns :
  forall i m j a,
    alns !! j = Some a ->
    exists e, e ∈ group_by_score i alns m /\ fst e = Alignment.score a
              /\ (i + j)%nat ∈ snd e.
Proof.
  induction alns as [|ta rest IH]; intros i m j a Hj; [done|].
  simpl. destruct j as [|j]; simpl in Hj.
  - injection Hj as ->.
    destruct (map_insert_member (Alignment.score a) i m) as (e1 & He1 & Hk1 & Hx1).
    destruct (group_by_score_keeps rest (S i) _ e1 i He1 Hx1) as (e2 & He2 & Hk2 & Hy2).
    exists e2. split; [done|]. split; [congruence|]. by rewrite Nat.add_0_r.
  - destruct (IH (S i) (map_insert (Alignment.score ta) i m) j a Hj) as (e & He & Hk & Hx).
    exists e. split; [done|]. split; [done|].
    by replace (i + S j)%nat with (S i + j)%nat by lia.
Qed.

(** *** The copies of all scores *)

Lemma copies_differ all_alns entries :
  StronglySorted (fun e1 e2 => fst e2 < fst e1) entries ->
  Forall (entry_ok all_alns) entries ->
  StronglySorted (differ all_alns) (copies all_alns entries).
Proof.
  induction entries as [|e rest IH]; intros Hs Hok; [constructor|].
  apply StronglySorted_cons in Hs as [Hlt Hs].
  pose proof Hok as Hok'. apply Forall_cons in Hok' as [He Hrest].
  change (copies all_alns (e :: rest))
    with (copy_unique all_alns (snd e) [] ++ copies all_alns rest).
  apply StronglySorted_app. split; [|split; [|by apply IH]].
  - intros x y Hx Hy a b Ha Hb.
    destruct (MultiProofs.copies_elem all_alns [e] x) as (e1 & a' & He1 & Ha' & Hsa).
    { constructor; [exact He|constructor]. }
    { unfold copies. simpl. rewrite app_nil_r. done. }
    apply list_elem_of_singleton in He1 as ->.
    destruct (MultiProofs.copies_elem all_alns rest y Hrest Hy) as (e2 & b' & He2 & Hb' & Hsb).
    rewrite Forall_forall in Hlt. specialize (Hlt e2 He2).
    destruct (serialized_eqb a b) eqn:Heq; [|done].
    apply serialized_eqb_score in Heq.
    assert (a' = a) as -> by congruence. assert (b' = b) as -> by congruence. lia.
  - apply copy_unique_differ.
Qed.

Lemma sorted_unique_indices_differ all_alns :
  StronglySorted (differ all_alns) (sorted_unique_indices all_alns).
Proof.
  destruct (MultiProofs.group_by_score_ok all_alns all_alns 0 [] (fun j a Hj => Hj)
              (MultiProofs.empty_map_ok all_alns)) as [Hs Hok].
  apply copies_differ.
  - by apply MultiProofs.reverse_keys_descending.
  - by apply Forall_reverse.
Qed.

Lemma sorted_unique_indices_cover all_alns k c :
  all_alns !! k = Some c ->
  exists q b, q ∈ sorted_unique_indices all_alns
              /\ all_alns !! q = Some b /\ serialized_eqb c b = true.
Proof.
  intros Hk.
  destruct (group_by_score_member all_alns 0 [] k c Hk) as (e & He & _ & Hin).
  simpl in Hin.
  destruct (copy_unique_covers all_alns (snd e) [] k c Hin Hk)
    as [(u & Hu & _)|(q & b & Hq & Hb & Heq)]; [by apply elem_of_nil in Hu|].
  exists q, b. split; [|done].
  unfold sorted_unique_indices. apply list_elem_of_In, in_concat.
  exists (copy_unique all_alns (snd e) []). split; [|by apply list_elem_of_In].
  apply in_map_iff. exists e. split; [done|].
  apply list_elem_of_In, elem_of_reverse. done.
Qed.

(** A list that is sorted by a relation relates its elements at two
    positions. *)
Lemma StronglySorted_lookup {A} (R : A -> A -> Prop) (l : list A) i j x y :
  StronglySorted R l -> (i < j)%nat -> l !! i = Some x -> l !! j = Some y -> R x y.
Proof.
  intros Hs. revert i j. induction Hs as [|z l Hl IH Hz]; intros i j Hij Hi Hj; [done|].
  destruct j as [|j]; [lia|]. simpl in Hj. destruct i as [|i]; simpl in Hi.
  - injection Hi as ->. rewrite Forall_forall in Hz. apply Hz.
    apply list_elem_of_lookup. eauto.
  - apply (IH i j); [lia|done..].
Qed.

(** The result is the candidates at the copied indices. *)
Lemma sorted_unique_copies all_alns original :
  all_alns <> [] ->
  Forall2 (fun a p => all_alns !! p = Some a)
          (score_sort_and_deduplicate_alignments all_alns original)
          (sorted_unique_indices all_alns).
Proof.
  intros Hne. unfold score_sort_and_deduplicate_alignments.
  destruct all_alns as [|c0 cs] eqn:E; [done|]. rewrite <- E. clear E Hne.
  pose proof (MultiProofs.sorted_unique_indices_valid all_alns) as Hvalid.
  induction (sorted_unique_indices all_alns) as [|i idx IH]; simpl; [constructor|].
  destruct (Hvalid i) as [c Hc]; [left|].
  rewrite Hc. simpl. constructor; [done|].
  apply IH. intros j Hj. apply Hvalid. by right.
Qed.
(** X11: for a list of candidates that is not empty,
    [score_sort_and_deduplicate_alignments] returns candidates only, returns
    for every candidate an alignment with the same serialization, returns no
    two alignments with the same serialization, and returns them with scores
    that never increase. *)
Theorem score_sort_and_deduplicate_spec
        (all_alns : list Alignment.t) (original : Alignment.t) :
  all_alns <> [] ->
  let r := score_sort_and_deduplicate_alignments all_alns original in
  (forall a, a ∈ r -> a ∈ all_alns)
  /\ (forall c, c ∈ all_alns -> exists a, a ∈ r /\ serialized_eqb c a = true)
  /\ (forall i j a b, i <> j -> r !! i = Some a -> r !! j = Some b ->
                      serialized_eqb a b = false)
  /\ (forall i j a b, (i <= j)%nat -> r !! i = Some a -> r !! j = Some b ->
                      Alignment.score b <= Alignment.score a).
Proof.
  intros Hne r.
  pose proof (sorted_unique_copies all_alns original Hne) as Hcopies. fold r in Hcopies.
  pose proof (sorted_unique_indices_differ all_alns) as Hdiffer.
  split; [|split; [|split]].
  - intros a Ha. apply list_elem_of_lookup in Ha as [i Hi].
    destruct (Forall2_lookup_l _ _ _ _ _ Hcopies Hi) as (p & _ & Hp).
    apply list_elem_of_lookup. eauto.
  - intros c Hc. apply list_elem_of_lookup in Hc as [k Hk].
    destruct (sorted_unique_indices_cover all_alns k c Hk) as (q & b & Hq & Hb & Heq).
    apply list_elem_of_lookup in Hq as [j Hj].
    destruct (Forall2_lookup_r _ _ _ _ _ Hcopies Hj) as (a & Ha & Hqa).
    exists a. split; [apply list_elem_of_lookup; eauto|congruence].
  - intros i j a b Hij Ha Hb.
    destruct (Forall2_lookup_l _ _ _ _ _ Hcopies Ha) as (p & Hp & Hpa).
    destruct (Forall2_lookup_l _ _ _ _ _ Hcopies Hb) as (q & Hq & Hqb).
    destruct (decide (i < j)%nat) as [Hlt|Hge].
    + apply (StronglySorted_lookup _ _ i j p q Hdiffer Hlt Hp Hq); done.
    + rewrite serialized_eqb_sym.
      apply (StronglySorted_lookup _ _ j i q p Hdiffer); [lia|done..].
  - apply (MultiProofs.copies_scores_descend all_alns r (sorted_unique_indices all_alns)).
    + by apply MultiProofs.sorted_unique_came_from.
    + apply MultiProofs.sorted_unique_indices_sorted.
Qed.

(** The theorem at the two tied candidates. *)
Lemma score_sort_and_deduplicate_spec_witness :
  exists a, a ∈ score_sort_and_deduplicate_alignments tie_candidates tie_read
            /\ serialized_eqb tie_one_edit a = true.
Proof.
  destruct (score_sort_and_deduplicate_spec tie_candidates tie_read) as (_ & Hcover & _);
    [done|].
  apply Hcover. unfold tie_candidates. left.
Defined.

Section Facts.
Context `{XG} `{Engines} `{MappingQualityEstimator} `{Mapper}.

(** The first alignment of the sorted list is a candidate, and no candidate
    has a higher score. *)
Lemma sorted_first_is_best all_alns original a0 :
  all_alns <> [] ->
  score_sort_and_deduplicate_alignments all_alns original !! 0%nat = Some a0 ->
  a0 ∈ all_alns /\ forall c, c ∈ all_alns -> Alignment.score c <= Alignment.score a0.
Proof.
  intros Hne Hfirst.
  pose proof (sorted_unique_copies all_alns original Hne) as Hcopies.
  split.
  - destruct (Forall2_lookup_l _ _ _ _ _ Hcopies Hfirst) as (p & _ & Hp).
    apply list_elem_of_lookup. eauto.
  - intros c Hc. apply list_elem_of_lookup in Hc as [k Hk].
    destruct (sorted_unique_indices_cover all_alns k c Hk) as (q & b & Hq & Hb & Heq).
    apply list_elem_of_lookup in Hq as [j Hj].
    destruct (Forall2_lookup_r _ _ _ _ _ Hcopies Hj) as (a & Ha & Hqa).
    apply serialized_eqb_score in Heq. rewrite Heq.
    assert (a = b) as -> by congruence.
    apply (MultiProofs.copies_scores_descend
             all_alns _ (sorted_unique_indices all_alns)
             (MultiProofs.sorted_unique_came_from all_alns original Hne)
             (MultiProofs.sorted_unique_indices_sorted all_alns) 0%nat j); [lia|done..].
Qed.

Lemma sorted_nonempty all_alns original :
  (0 < length (score_sort_and_deduplicate_alignments all_alns original))%nat.
Proof.
  destruct (decide (all_alns = [])) as [->|Hne]; [simpl; lia|].
  pose proof (sorted_unique_copies all_alns original Hne) as Hcopies.
  apply Forall2_length in Hcopies. rewrite Hcopies.
  pose proof (MultiProofs.sorted_unique_indices_nonempty all_alns Hne).
  destruct (sorted_unique_indices all_alns); [done|simpl; lia].
Qed.
End Facts.

(** X12: for a read that is not longer than the band width and candidates
    that lie in the graph, [align] returns an alignment without path and
    with score 0 when there is no candidate or [max_multimaps] is 0, and
    otherwise a primary alignment with the score and the path of a candidate
    whose score no candidate exceeds. *)
Theorem align_best `{XG} `{Engines} `{MappingQualityEstimator} `{Mapper}
        (aln : Alignment.t) (kmer_size stride max_mem_length band_width : Z) :
  size (Alignment.sequence aln) <= to_size_t band_width ->
  alignments_in_graph (candidates aln kmer_size stride max_mem_length band_width) = true ->
  exists best,
    align aln kmer_size stride max_mem_length band_width = Some best
    /\ (to_size_t max_multimaps = 0 ->
        best = Alignment.set_score (Alignment.clear_path aln) 0)
    /\ (to_size_t max_multimaps <> 0 -> Alignment.is_secondary best = false)
    /\ (candidates aln kmer_size stride max_mem_length band_width = []
        \/ to_size_t max_multimaps = 0 ->
        Alignment.path best = [] /\ Alignment.score best = 0)
    /\ (candidates aln kmer_size stride max_mem_length band_width <> [] ->
        to_size_t max_multimaps <> 0 ->
        (exists c, c ∈ candidates aln kmer_size stride max_mem_length band_width
                   /\ Alignment.score best = Alignment.score c
                   /\ Alignment.path best = Alignment.path c)
        /\ forall c, c ∈ candidates aln kmer_size stride max_mem_length band_width ->
                     Alignment.score c <= Alignment.score best).
Proof.
  intros Hband Hfit. unfold align, align_multi, align_multi_internal, candidates in *.
  apply Z.ltb_ge in Hband. rewrite Hband.
  destruct (candidate_alignments aln kmer_size stride max_mem_length band_width
                                 0%Q extra_multimaps None) as [cands cluster_mq].
  simpl in Hfit |- *.
  set (sorted := score_sort_and_deduplicate_alignments cands aln).
  set (r := filter_and_process_multimaps (compute_mapping_qualities sorted cluster_mq) 0).
  pose proof (sorted_nonempty cands aln) as Hsorted. fold sorted in Hsorted.
  assert (Hlen : length r = kept (length sorted) 0).
  { unfold r. by rewrite MultiProofs.filter_and_process_multimaps_length,
                 MultiProofs.compute_mapping_qualities_length. }
  assert (Hpos : 0 <= to_size_t max_multimaps).
  { unfold to_size_t. apply Z.mod_pos_bound. lia. }
  unfold kept in Hlen. rewrite Z.add_0_r in Hlen.
  assert (Hin : alignments_in_graph r = true).
  { destruct (decide (cands = [])) as [->|Hne].
    - unfold alignments_in_graph. apply forallb_forall. intros a Ha.
      apply list_elem_of_In, list_elem_of_lookup in Ha as [k Hk].
      apply MultiProofs.result_lookup in Hk as (b & Hb & Hp & _).
      destruct k; simpl in Hb; [|done]. injection Hb as <-. rewrite Hp. done.
    - eapply (MultiProofs.alignments_in_graph_came_from cands r); [exact Hfit|].
      apply MultiProofs.filter_and_process_multimaps_came_from,
        MultiProofs.compute_mapping_qualities_came_from.
      by apply MultiProofs.sorted_unique_came_from. }
  rewrite Hin. cbn [mbind option_bind].
  destruct (decide (to_size_t max_multimaps = 0)) as [Hzero|Hmax].
  - (* nothing is kept *)
    rewrite Hzero in Hlen.
    destruct (Z.ltb_spec 0 (Z.of_nat (length sorted))) as [_|?]; [|lia].
    destruct r as [|a0 rest]; [|done].
    eexists. split; [reflexivity|]. repeat split; try done.
  - destruct r as [|best rest] eqn:Er.
    { simpl in Hlen. destruct (Z.ltb_spec (to_size_t max_multimaps) (Z.of_nat (length sorted))); lia. }
    assert (Hbest : r !! 0%nat = Some best) by (by rewrite Er).
    exists best. split; [done|]. split; [done|]. split.
    { intros _. apply MultiProofs.filter_and_process_multimaps_flags in Hbest. done. }
    apply MultiProofs.result_lookup in Hbest as (b & Hb & Hp & Hs). split.
    + intros [->|?]; [|done]. simpl in Hb. injection Hb as <-. by rewrite Hp, Hs.
    + intros Hne _.
      destruct (sorted_first_is_best cands aln b Hne Hb) as [Hcand Hmaximal].
      split; [by exists b|]. intros c Hc. rewrite Hs. by apply Hmaximal.
Qed.

(** The theorem at the two tied candidates. *)
Lemma align_best_witness :
  exists best,
    @align tie_graph tie_engines flat_estimator two_multimaps tie_read 0 0 0 1000
    = Some best
    /\ (forall c, c ∈ tie_candidates -> Alignment.score c <= Alignment.score best).
Proof.
  destruct (@align_best tie_graph tie_engines flat_estimator two_multimaps
                        tie_read 0 0 0 1000)
    as (best & Hrun & _ & _ & _ & Hbest).
  - vm_compute. discriminate.
  - vm_compute. reflexivity.
  - exists best. split; [exact Hrun|].
    apply Hbest; vm_compute; discriminate.
Defined.
End SingleProofs.

(** ** The construction of the chain model *)

Module ModelProofs.
Import Transition Model.

(** *** Loops *)

Lemma fold_left_invariant {A B} (P : B -> Prop) (f : B -> A -> B) (l : list A) :
  (forall b x, P b -> P (f b x)) -> forall b, P b -> P (fold_left f l b).
Proof. intros Hf. induction l as [|x l IH]; intros b Hb; simpl; auto. Qed.

Lemma fold_option_invariant {A B} (P : B -> Prop) (f : B -> A -> option B) (l : list A) :
  (forall b x b', P b -> f b x = Some b' -> P b') ->
  forall b b', P b -> fold_option f l b = Some b' -> P b'.
Proof.
  intros Hf. induction l as [|x l IH]; intros b b' Hb Hrun; simpl in Hrun.
  - by injection Hrun as <-.
  - destruct (f b x) as [b1|] eqn:Hstep; [|done]. simpl in Hrun. eauto.
Qed.

Lemma in_band_empty band_width p rest :
  band_width <= 0 -> in_band band_width p rest = [].
Proof.
  intros Hband. destruct rest as [|q rest]; simpl; [done|].
  destruct (Z.ltb_spec (Z.abs (p - fst q)) band_width); [lia|done].
Qed.

(** *** The two pushes *)

Lemma push_next_lookup a b x (M : list Built) (i : nat) :
  push_next a b x M !! i
  = (fun m => if decide (i = a)
              then mk_built (chain m) (approx_position' m) (next_cost m ++ [(b, x)])
              else m) <$> M !! i.
Proof.
  unfold push_next. destruct (M !! a) as [m|] eqn:Ha.
  - destruct (decide (i = a)) as [->|Hne].
    + rewrite list_lookup_insert_eq by (by apply lookup_lt_Some in Ha). by rewrite Ha.
    + rewrite list_lookup_insert_ne by done. by destruct (M !! i).
  - destruct (decide (i = a)) as [->|Hne]; [by rewrite Ha|by destruct (M !! i)].
Qed.

Lemma push_prev_lookup a b x (M : list Built) (i : nat) :
  push_prev a b x M !! i
  = (fun m => if decide (i = a)
              then mk_built (Chain.set_prev_cost (chain m)
                                                 (Chain.prev_cost (chain m) ++ [(Some b, x)]))
                            (approx_position' m) (next_cost m)
              else m) <$> M !! i.
Proof.
  unfold push_prev. destruct (M !! a) as [m|] eqn:Ha.
  - destruct (decide (i = a)) as [->|Hne].
    + rewrite list_lookup_insert_eq by (by apply lookup_lt_Some in Ha). by rewrite Ha.
    + rewrite list_lookup_insert_ne by done. by destruct (M !! i).
  - destruct (decide (i = a)) as [->|Hne]; [by rewrite Ha|by destruct (M !! i)].
Qed.

(** The vertices after the transition from [u] to [v] is added. *)
Lemma add_edge_lookup u v w (M : list Built) (i : nat) :
  push_prev v u w (push_next u v w M) !! i
  = (fun m =>
       mk_built (if decide (i = v)
                 then Chain.set_prev_cost (chain m) (Chain.prev_cost (chain m) ++ [(Some u, w)])
                 else chain m)
                (approx_position' m)
                (if decide (i = u) then next_cost m ++ [(v, w)] else next_cost m))
      <$> M !! i.
Proof.
  rewrite push_prev_lookup, push_next_lookup.
  destruct (M !! i) as [[c a n]|]; simpl; [|done].
  destruct (decide (i = v)), (decide (i = u)); done.
Qed.

Lemma add_edge_seed u v w (M : list Built) :
  seed <$> push_prev v u w (push_next u v w M) = seed <$> M.
Proof.
  apply list_eq. intros i. rewrite !list_lookup_fmap, add_edge_lookup.
  destruct (M !! i) as [[c a n]|]; simpl; [|done].
  destruct (decide (i = v)); done.
Qed.

Lemma add_edge_transition u v w (M : list Built) m2 a b x :
  M !! v = Some m2 ->
  transition (push_prev v u w (push_next u v w M)) a b x
  <-> transition M a b x \/ (a = u /\ b = v /\ x = w).
Proof.
  intros Hv. unfold transition. setoid_rewrite add_edge_lookup. split.
  - intros (m & Hm & Hin). apply fmap_Some in Hm as (m0 & Hm0 & ->). simpl in Hin.
    destruct (decide (b = v)) as [->|Hne].
    + simpl in Hin. apply elem_of_app in Hin as [Hin|Hin]; [left; eauto|].
      apply list_elem_of_singleton in Hin. injection Hin as -> ->. by right.
    + left. eauto.
  - intros [(m & Hm & Hin)|(-> & -> & ->)].
    + eexists. rewrite Hm. split; [reflexivity|]. simpl.
      destruct (decide (b = v)); [simpl; apply elem_of_app; by left|done].
    + eexists. rewrite Hv. split; [reflexivity|]. simpl.
      rewrite decide_True by done. simpl. apply elem_of_app. right. left.
Qed.

Lemma add_edge_next_edge u v w (M : list Built) m1 a b x :
  M !! u = Some m1 ->
  next_edge (push_prev v u w (push_next u v w M)) a b x
  <-> next_edge M a b x \/ (a = u /\ b = v /\ x = w).
Proof.
  intros Hu. unfold next_edge. setoid_rewrite add_edge_lookup. split.
  - intros (m & Hm & Hin). apply fmap_Some in Hm as (m0 & Hm0 & ->). simpl in Hin.
    destruct (decide (a = u)) as [->|Hne].
    + apply elem_of_app in Hin as [Hin|Hin]; [left; eauto|].
      apply list_elem_of_singleton in Hin. injection Hin as -> ->. by right.
    + left. eauto.
  - intros [(m & Hm & Hin)|(-> & -> & ->)].
    + eexists. rewrite Hm. split; [reflexivity|]. simpl.
      destruct (decide (a = u)); [apply elem_of_app; by left|done].
    + eexists. rewrite Hu. split; [reflexivity|]. simpl.
      rewrite decide_True by done. apply elem_of_app. right. left.
Qed.

(** *** The third loop keeps its invariant *)

Section Facts.
Context `{XG} `{StdSort}.
Variable transition_weight : MaximalExactMatch.t -> MaximalExactMatch.t -> option Weight.

Lemma add_edge_wired dropped seeds (M : list Built) u v w m1 m2 :
  wired transition_weight dropped seeds M ->
  M !! u = Some m1 -> M !! v = Some m2 ->
  accepted transition_weight dropped seeds u v w ->
  wired transition_weight dropped seeds (push_prev v u w (push_next u v w M)).
Proof.
  intros Hw Hu Hv Hacc. split.
  - rewrite add_edge_seed. apply Hw.
  - intros a b x. rewrite (add_edge_next_edge u v w M m1) by done.
    rewrite (add_edge_transition u v w M m2) by done.
    by rewrite (wired_mirror _ _ _ _ Hw).
  - intros a b x Ht. apply (add_edge_transition u v w M m2) in Ht as [Ht|(-> & -> & ->)];
      [by apply (wired_accepted _ _ _ _ Hw)|done..].
  - intros i m p Hm Hp. rewrite add_edge_lookup in Hm.
    apply fmap_Some in Hm as (m0 & Hm0 & ->). simpl in Hp.
    destruct (decide (i = v)).
    + simpl in Hp. apply elem_of_app in Hp as [Hp|Hp].
      * by apply (wired_pointers _ _ _ _ Hw i m0).
      * apply list_elem_of_singleton in Hp as ->. by eexists.
    + by apply (wired_pointers _ _ _ _ Hw i m0).
  - intros i m Hm. rewrite add_edge_lookup in Hm.
    apply fmap_Some in Hm as (m0 & Hm0 & ->). simpl.
    destruct (decide (i = v)); simpl; by apply (wired_unscored _ _ _ _ Hw i).
Qed.

Lemma connect_wired max_connections dropped seeds v1 (M : list Built) v2 M' :
  v1 ∉ dropped ->
  wired transition_weight dropped seeds M ->
  connect transition_weight max_connections dropped v1 M v2 = Some M' ->
  wired transition_weight dropped seeds M'.
Proof.
  intros Hv1 Hw. unfold connect.
  destruct (bool_decide_reflect (v2 ∈ dropped)) as [|Hv2]; [by intros [= <-]|].
  destruct (M !! v1) as [m1|] eqn:Hm1; [|by intros [= <-]].
  destruct (M !! v2) as [m2|] eqn:Hm2; [|by intros [= <-]].
  destruct (_ && _); [|by intros [= <-]].
  assert (Hs1 : seeds !! v1 = Some (seed m1)).
  { rewrite <- (wired_seeds _ _ _ _ Hw), list_lookup_fmap, Hm1. done. }
  assert (Hs2 : seeds !! v2 = Some (seed m2)).
  { rewrite <- (wired_seeds _ _ _ _ Hw), list_lookup_fmap, Hm2. done. }
  destruct (_ || _) eqn:Hforward.
  - destruct (transition_weight (mem_of m1) (mem_of m2)) as [[|w]|] eqn:Hweight;
      simpl; [by intros [= <-]| |done].
    intros [= <-]. apply (add_edge_wired dropped seeds M v1 v2 w m1 m2); [done..|].
    exists (seed m1), (seed m2). repeat split; try done.
    apply orb_true_iff in Hforward as [Hf|Hb]; [left|right]; simpl; lia.
  - match goal with |- (if ?b then _ else _) = _ -> _ => destruct b eqn:Hbackward end;
      [|by intros [= <-]].
    destruct (transition_weight (mem_of m2) (mem_of m1)) as [[|w]|] eqn:Hweight;
      simpl; [by intros [= <-]| |done].
    intros [= <-]. apply (add_edge_wired dropped seeds M v2 v1 w m2 m1); [done..|].
    exists (seed m2), (seed m1). repeat split; try done.
    apply orb_true_iff in Hbackward as [Hf|Hb]; [left|right]; simpl; lia.
Qed.

Lemma connect_vertex_wired max_connections band_width dropped seeds p rest
      (M : list Built) v1 M' :
  wired transition_weight dropped seeds M ->
  connect_vertex transition_weight max_connections band_width dropped p rest M v1 = Some M' ->
  wired transition_weight dropped seeds M'.
Proof.
  intros Hw. unfold connect_vertex.
  destruct (bool_decide_reflect (v1 ∈ dropped)) as [|Hv1]; [by intros [= <-]|].
  apply (fold_option_invariant (wired transition_weight dropped seeds)); [|done].
  intros M1 q M2 Hw1.
  apply (fold_option_invariant (wired transition_weight dropped seeds)); [|done].
  intros M3 v2 M4 Hw3. by apply connect_wired.
Qed.

Lemma connect_all_wired max_connections band_width dropped seeds entries :
  forall (M M' : list Built),
    wired transition_weight dropped seeds M ->
    connect_all transition_weight max_connections band_width dropped entries M = Some M' ->
    wired transition_weight dropped seeds M'.
Proof.
  induction entries as [|p rest IH]; intros M M' Hw Hrun; simpl in Hrun.
  - by injection Hrun as <-.
  - destruct (fold_option _ (snd p) M) as [M1|] eqn:Hstep; [|done]. simpl in Hrun.
    apply (IH M1 M'); [|done].
    revert Hstep. apply (fold_option_invariant (wired transition_weight dropped seeds)); [|done].
    intros M2 v1 M3 Hw2. by apply connect_vertex_wired.
Qed.

(** Without a transition in the entries, or with a band that is empty, the
    third loop leaves the model as it is. *)
Lemma connect_all_idle max_connections band_width dropped entries (M : list Built) :
  band_width <= 0 \/ Forall (fun pos => snd pos = []) entries ->
  connect_all transition_weight max_connections band_width dropped entries M = Some M.
Proof.
  intros Hidle. induction entries as [|p rest IH]; simpl; [done|].
  assert (Hstep : fold_option (connect_vertex transition_weight max_connections band_width
                                              dropped (fst p) rest) (snd p) M = Some M).
  { destruct Hidle as [Hband|Hempty].
    - induction (snd p) as [|v1 vs IHv]; simpl; [done|].
      assert (Hv1 : connect_vertex transition_weight max_connections band_width
                                   dropped (fst p) rest M v1 = Some M).
      { unfold connect_vertex. rewrite in_band_empty by done. simpl.
        by destruct (bool_decide (v1 ∈ dropped)). }
      rewrite Hv1. simpl. exact IHv.
    - apply Forall_cons in Hempty as [-> _]. done. }
  rewrite Hstep. simpl. apply IH.
  destruct Hidle as [?|Hempty]; [by left|right]. by apply Forall_cons in Hempty as [_ ?].
Qed.

Lemma unwired_wired dropped (M : list Built) :
  Forall unwired M -> wired transition_weight dropped (seed <$> M) M.
Proof.
  intros Hun. rewrite Forall_lookup in Hun. split.
  - done.
  - intros u v w. split.
    + intros (m & Hm & Hin). destruct (Hun u m Hm) as (Hn & _). rewrite Hn in Hin.
      by apply elem_of_nil in Hin.
    + intros (m & Hm & Hin). destruct (Hun v m Hm) as (_ & Hp & _). rewrite Hp in Hin.
      by apply elem_of_nil in Hin.
  - intros u v w (m & Hm & Hin). destruct (Hun v m Hm) as (_ & Hp & _). rewrite Hp in Hin.
    by apply elem_of_nil in Hin.
  - intros v m p Hm Hin. destruct (Hun v m Hm) as (_ & Hp & _). rewrite Hp in Hin.
    by apply elem_of_nil in Hin.
  - intros v m Hm. destruct (Hun v m Hm) as (_ & _ & ? & ?). done.
Qed.
End Facts.

(** *** The two scans keep their invariant *)

Lemma merge_tidy hits gap v1 v2 s : tidy hits s -> tidy hits (merge gap v1 v2 s).
Proof.
  intros (Hhits & Hunwired). unfold merge.
  destruct (bool_decide (v2 ∈ redundant s)); [done|].
  destruct (model s !! v1) as [m1|] eqn:Hm1; [|done].
  destruct (model s !! v2) as [m2|] eqn:Hm2; [|done].
  destruct (_ && _); [|done].
  rewrite Forall_lookup in Hunwired.
  split; cbn [model].
  - rewrite list_fmap_insert, <- Hhits. apply list_insert_id.
    rewrite list_lookup_fmap, Hm1. done.
  - apply Forall_insert; [by apply Forall_lookup|].
    destruct (Hunwired v1 m1 Hm1) as (? & ? & ? & ?). done.
Qed.

Lemma merge_sound gap v1 v2 s :
  Forall sound (model s) -> Forall sound (model (merge gap v1 v2 s)).
Proof.
  intros Hsound. unfold merge.
  destruct (bool_decide (v2 ∈ redundant s)); [done|].
  destruct (model s !! v1) as [m1|] eqn:Hm1; [|done].
  destruct (model s !! v2) as [m2|] eqn:Hm2; [|done].
  destruct (mems_overlap (mem_of m1) (mem_of m2)) eqn:Hover; simpl; [|done].
  destruct (_ =? gap); [|done].
  cbn [model]. apply Forall_insert; [done|]. split; [done|]. simpl.
  unfold mems_overlap in Hover. apply andb_true_iff in Hover as [_ Hover].
  apply negb_true_iff, orb_false_iff in Hover as [_ Hend]. lia.
Qed.

(** What every merge keeps, a scan keeps. *)
Lemma scan_invariant (P : Merging -> Prop) gap band_width entries :
  (forall gap v1 v2 s, P s -> P (merge gap v1 v2 s)) ->
  forall s, P s -> P (scan gap band_width entries s).
Proof.
  intros Hmerge. induction entries as [|p rest IH]; intros s Hs; simpl; [done|].
  apply IH. apply fold_left_invariant; [|done]. intros s1 v1 Hs1.
  unfold scan_vertex. destruct (bool_decide (v1 ∈ redundant s1)); [done|].
  apply fold_left_invariant; [|done]. intros s2 q Hs2.
  apply fold_left_invariant; [|done]. intros s3 v2. apply Hmerge.
Qed.

(** With an empty band, or without a vertex in the entries, a scan leaves
    the model as it is. *)
Lemma scan_idle gap band_width entries :
  band_width <= 0 \/ Forall (fun pos => snd pos = []) entries ->
  forall s, scan gap band_width entries s = s.
Proof.
  intros Hidle. induction entries as [|p rest IH]; intros s; simpl; [done|].
  assert (Hstep : fold_left (scan_vertex gap band_width (fst p) rest) (snd p) s = s).
  { destruct Hidle as [Hband|Hempty].
    - induction (snd p) as [|v1 vs IHv]; simpl; [done|].
      assert (Hv1 : scan_vertex gap band_width (fst p) rest s v1 = s).
      { unfold scan_vertex. rewrite in_band_empty by done. simpl.
        by destruct (bool_decide (v1 ∈ redundant s)). }
      rewrite Hv1. exact IHv.
    - apply Forall_cons in Hempty as [-> _]. done. }
  rewrite Hstep. apply IH.
  destruct Hidle as [?|Hempty]; [by left|right]. by apply Forall_cons in Hempty as [_ ?].
Qed.

(** *** The vertices of the input *)

Section Input.
Context `{XG} `{StdSort}.

Lemma vertices_elem matches m :
  m ∈ vertices matches ->
  exists i fragment mem node,
    matches !! i = Some fragment /\ mem ∈ fragment /\ node ∈ MaximalExactMatch.nodes mem
    /\ m = vertex_of (Z.of_nat i + 1) mem node.
Proof.
  unfold vertices. intros Hm.
  apply list_elem_of_In, in_concat in Hm as (l & Hl & Hm).
  apply list_elem_of_In, elem_of_lookup_imap in Hl as (i & fragment & -> & Hi).
  apply in_concat in Hm as (l & Hl & Hm).
  apply in_map_iff in Hl as (mem & <- & Hmem).
  apply in_map_iff in Hm as (node & <- & Hnode).
  exists i, fragment, mem, node. rewrite <- !list_elem_of_In in *. done.
Qed.

Lemma vertices_hits matches : Forall (hit_of matches) (vertices matches).
Proof.
  apply Forall_forall. intros m Hm.
  apply vertices_elem in Hm as (i & fragment & mem & node & Hi & Hmem & Hnode & ->).
  exists i, fragment, mem, node. done.
Qed.

Lemma vertices_unwired matches : Forall unwired (vertices matches).
Proof.
  apply Forall_forall. intros m Hm.
  apply vertices_elem in Hm as (i & fragment & mem & node & Hi & Hmem & Hnode & ->).
  done.
Qed.

Lemma vertices_sound matches : well_formed matches -> Forall sound (vertices matches).
Proof.
  intros Hwf. apply Forall_forall. intros m Hm.
  apply vertices_elem in Hm as (i & fragment & mem & node & Hi & Hmem & Hnode & ->).
  split; [done|]. simpl. apply (Hwf fragment mem); [|done].
  apply list_elem_of_lookup. eauto.
Qed.

Lemma merged_tidy matches band_width position_depth :
  tidy (hit <$> vertices matches) (merged matches band_width position_depth).
Proof.
  unfold merged.
  apply scan_invariant; [intros; by apply merge_tidy|].
  apply scan_invariant; [intros; by apply merge_tidy|].
  split; [done|apply vertices_unwired].
Qed.

Lemma merged_sound matches band_width position_depth :
  well_formed matches -> Forall sound (model (merged matches band_width position_depth)).
Proof.
  intros Hwf. unfold merged.
  apply (scan_invariant (fun s => Forall sound (model s))); [intros; by apply merge_sound|].
  apply (scan_invariant (fun s => Forall sound (model s))); [intros; by apply merge_sound|].
  by apply vertices_sound.
Qed.

Lemma approx_positions_trimmed matches position_depth :
  to_size_t position_depth = 0 ->
  Forall (fun pos => snd pos = []) (approx_positions matches position_depth).
Proof.
  intros Hdepth. unfold approx_positions. apply Forall_fmap, Forall_forall.
  intros pos _. simpl. rewrite Hdepth.
  rewrite Z.min_r by lia. done.
Qed.

Lemma hit_of_hit matches m0 m : hit m = hit m0 -> hit_of matches m0 -> hit_of matches m.
Proof.
  unfold hit. intros [= Hf Hb Hc Hn Ha] (i & fragment & mem & node & Hi & Hmem & Hnode & ?).
  exists i, fragment, mem, node. rewrite Hf, Hb, Hc, Hn, Ha. done.
Qed.
End Input.

(** *** The model that the constructor returns *)

Section Built.
Context `{XG} `{StdSort}.
Variable transition_weight : MaximalExactMatch.t -> MaximalExactMatch.t -> option Weight.

Lemma MEMChainModel_wired matches band_width position_depth max_connections M :
  MEMChainModel transition_weight matches band_width position_depth max_connections = Some M ->
  wired transition_weight (redundant (merged matches band_width position_depth))
        (seed <$> model (merged matches band_width position_depth)) M.
Proof.
  unfold MEMChainModel. apply connect_all_wired, unwired_wired.
  apply (merged_tidy matches band_width position_depth).
Qed.

Lemma seed_lookup (M1 M2 : list Built) i m1 :
  seed <$> M1 = seed <$> M2 -> M1 !! i = Some m1 ->
  exists m2, M2 !! i = Some m2 /\ seed m1 = seed m2.
Proof.
  intros Hseeds Hm1. apply (f_equal (fun l => l !! i)) in Hseeds.
  rewrite !list_lookup_fmap, Hm1 in Hseeds.
  destruct (M2 !! i) as [m2|]; [|done].
  exists m2. split; [done|]. change (Some (seed m1) = Some (seed m2)) in Hseeds.
  congruence.
Qed.

Lemma seed_hit m1 m2 : seed m1 = seed m2 -> hit m1 = hit m2.
Proof. unfold seed, hit. intros [= -> _ ->]. done. Qed.

Lemma seed_sound m1 m2 : seed m1 = seed m2 -> sound m2 -> sound m1.
Proof. unfold seed, sound. intros [= -> -> _]. done. Qed.

Lemma MEMChainModel_hits matches band_width position_depth max_connections M :
  MEMChainModel transition_weight matches band_width position_depth max_connections = Some M ->
  hit <$> M = hit <$> vertices matches.
Proof.
  intros Hrun. apply MEMChainModel_wired in Hrun.
  destruct (merged_tidy matches band_width position_depth) as [<- _].
  pose proof (wired_seeds _ _ _ _ Hrun) as Hseeds.
  apply list_eq. intros i. rewrite !list_lookup_fmap.
  apply (f_equal (fun l => l !! i)) in Hseeds. rewrite !list_lookup_fmap in Hseeds.
  destruct (M !! i) as [m1|], (model (merged matches band_width position_depth) !! i) as [m2|];
    try done.
  change (Some (seed m1) = Some (seed m2)) in Hseeds.
  change (Some (hit m1) = Some (hit m2)). f_equal. apply seed_hit. congruence.
Qed.

Lemma MEMChainModel_hit_of matches band_width position_depth max_connections M :
  MEMChainModel transition_weight matches band_width position_depth max_connections = Some M ->
  Forall (hit_of matches) M.
Proof.
  intros Hrun. pose proof (MEMChainModel_hits _ _ _ _ _ Hrun) as Hhits.
  apply Forall_lookup. intros i m Hm.
  apply (f_equal (fun l => l !! i)) in Hhits. rewrite !list_lookup_fmap, Hm in Hhits.
  destruct (vertices matches !! i) as [m0|] eqn:Hm0; [|done].
  change (Some (hit m) = Some (hit m0)) in Hhits.
  apply (hit_of_hit matches m0 m); [congruence|].
  pose proof (vertices_hits matches) as Hall. rewrite Forall_lookup in Hall. eauto.
Qed.

Lemma MEMChainModel_sound matches band_width position_depth max_connections M :
  well_formed matches ->
  MEMChainModel transition_weight matches band_width position_depth max_connections = Some M ->
  Forall sound M.
Proof.
  intros Hwf Hrun. apply Forall_lookup. intros i m Hm.
  pose proof (wired_seeds _ _ _ _ (MEMChainModel_wired _ _ _ _ _ Hrun)) as Hseeds.
  destruct (seed_lookup _ _ i m Hseeds Hm) as (m2 & Hm2 & Hseed).
  apply (seed_sound m m2 Hseed).
  pose proof (merged_sound matches band_width position_depth Hwf) as Hall.
  rewrite Forall_lookup in Hall. eauto.
Qed.
End Built.

(** X13: the vertices of the model are the hits of the MEMs of the input, in
    the order of the input: the constructor keeps the fragment, the begin,
    the match count, the node and the approximate position of every hit,
    and writes the end of the MEM and the weight only.  When the MEMs of the
    input end at or after their begin, every weight is the length of the MEM
    of its vertex and is not negative.  With a band width that is not
    positive, or a position depth of 0, the model is the vertices of the
    input, without a merge and without a transition. *)
Theorem MEMChainModel_vertices `{XG} `{StdSort}
        (transition_weight : MaximalExactMatch.t -> MaximalExactMatch.t -> option Weight)
        (matches : list (list MaximalExactMatch.t))
        (band_width position_depth max_connections : Z) (M : list Built) :
  MEMChainModel transition_weight matches band_width position_depth max_connections = Some M ->
  hit <$> M = hit <$> vertices matches
  /\ Forall (hit_of matches) M
  /\ (well_formed matches -> Forall sound M)
  /\ (band_width <= 0 \/ to_size_t position_depth = 0 -> M = vertices matches).
Proof.
  intros Hrun.
  split; [by apply (MEMChainModel_hits _ _ _ _ _ _ Hrun)|]. split; [|split].
  - by apply (MEMChainModel_hit_of _ _ _ _ _ _ Hrun).
  - intros Hwf. by apply (MEMChainModel_sound _ _ _ _ _ _ Hwf Hrun).
  - intros Hidle.
    assert (Hentries : band_width <= 0
                       \/ Forall (fun pos => snd pos = [])
                                 (approx_positions matches position_depth)).
    { destruct Hidle; [by left|right]. by apply approx_positions_trimmed. }
    unfold MEMChainModel in Hrun. rewrite connect_all_idle in Hrun by done.
    injection Hrun as <-. unfold merged.
    rewrite scan_idle.
    + by rewrite scan_idle.
    + destruct Hentries; [by left|right]. by apply Forall_reverse.
Qed.

(** The theorem at two seeds of a read of one fragment. *)
Lemma MEMChainModel_vertices_witness :
  exists M,
    @MEMChainModel tie_graph insertion_sort tie_weight near_seeds 10 1 10 = Some M
    /\ Forall (@hit_of tie_graph near_seeds) M.
Proof.
  eexists. split; [vm_compute; reflexivity|].
  apply (@MEMChainModel_vertices tie_graph insertion_sort tie_weight near_seeds 10 1 10).
  vm_compute. reflexivity.
Defined.

(** X14: the transitions of the model.  [next_cost] and [prev_cost] hold the
    same transitions; every transition joins two vertices that the scans did
    not merge into others, goes from the vertex of the lower fragment or of
    the lower begin to the other one, and has the weight that the weighting
    function gives for the MEMs of the two vertices; no entry of [prev_cost]
    is without a vertex. *)
Theorem MEMChainModel_transitions `{XG} `{StdSort}
        (transition_weight : MaximalExactMatch.t -> MaximalExactMatch.t -> option Weight)
        (matches : list (list MaximalExactMatch.t))
        (band_width position_depth max_connections : Z) (M : list Built) :
  MEMChainModel transition_weight matches band_width position_depth max_connections = Some M ->
  (forall u v w, next_edge M u v w <-> transition M u v w)
  /\ (forall u v w,
         transition M u v w ->
         accepted transition_weight (redundant (merged matches band_width position_depth))
                  (seed <$> M) u v w)
  /\ (forall v m p, M !! v = Some m -> p ∈ Chain.prev_cost (chain m) -> is_Some (fst p)).
Proof.
  intros Hrun. apply MEMChainModel_wired in Hrun.
  split; [apply Hrun|]. split; [|apply Hrun].
  rewrite (wired_seeds _ _ _ _ Hrun). apply Hrun.
Qed.

(** The theorem at two seeds of a read of one fragment. *)
Lemma MEMChainModel_transitions_witness :
  exists M,
    @MEMChainModel tie_graph insertion_sort tie_weight near_seeds 10 1 10 = Some M
    /\ (forall u v w, next_edge M u v w <-> transition M u v w).
Proof.
  eexists. split; [vm_compute; reflexivity|].
  apply (@MEMChainModel_transitions tie_graph insertion_sort tie_weight near_seeds 10 1 10).
  vm_compute. reflexivity.
Defined.

(** *** The model of a read of one fragment *)

Lemma fold_option_runs {A B} (P : B -> Prop) (f : B -> A -> option B) (l : list A) :
  (forall b x, P b -> exists b', f b x = Some b' /\ P b') ->
  forall b, P b -> exists b', fold_option f l b = Some b' /\ P b'.
Proof.
  intros Hf. induction l as [|x l IH]; intros b Hb; simpl; [eauto|].
  destruct (Hf b x Hb) as (b1 & -> & Hb1). simpl. by apply IH.
Qed.

Section Runs.
Context `{XG} `{StdSort}.
Variable transition_weight : MaximalExactMatch.t -> MaximalExactMatch.t -> option Weight.
Hypothesis transition_weight_runs :
  forall m1 m2, MaximalExactMatch.nodes m1 <> [] -> MaximalExactMatch.nodes m2 <> [] ->
                is_Some (transition_weight m1 m2).

Lemma connect_runs max_connections dropped seeds v1 (M : list Built) v2 :
  Forall (fun s => MaximalExactMatch.nodes (fst (fst s)) <> []) seeds ->
  v1 ∉ dropped ->
  wired transition_weight dropped seeds M ->
  exists M', connect transition_weight max_connections dropped v1 M v2 = Some M'
             /\ wired transition_weight dropped seeds M'.
Proof.
  intros Hnodes Hv1 Hw.
  destruct (connect transition_weight max_connections dropped v1 M v2) as [M'|] eqn:Hrun.
  { exists M'. split; [done|]. by apply (connect_wired _ _ _ _ _ _ _ _ Hv1 Hw Hrun). }
  exfalso. unfold connect in Hrun.
  destruct (bool_decide (v2 ∈ dropped)); [done|].
  destruct (M !! v1) as [m1|] eqn:Hm1; [|done].
  destruct (M !! v2) as [m2|] eqn:Hm2; [|done].
  assert (Hn1 : MaximalExactMatch.nodes (mem_of m1) <> []).
  { rewrite Forall_lookup in Hnodes. apply (Hnodes v1 (seed m1)).
    rewrite <- (wired_seeds _ _ _ _ Hw), list_lookup_fmap, Hm1. done. }
  assert (Hn2 : MaximalExactMatch.nodes (mem_of m2) <> []).
  { rewrite Forall_lookup in Hnodes. apply (Hnodes v2 (seed m2)).
    rewrite <- (wired_seeds _ _ _ _ Hw), list_lookup_fmap, Hm2. done. }
  destruct (transition_weight_runs _ _ Hn1 Hn2) as [w12 H12].
  destruct (transition_weight_runs _ _ Hn2 Hn1) as [w21 H21].
  rewrite H12, H21 in Hrun. simpl in Hrun.
  destruct (_ && _); [|done].
  destruct (_ || _); [by destruct w12|].
  destruct (_ || _); [by destruct w21|done].
Qed.

Lemma connect_all_runs max_connections band_width dropped seeds entries :
  Forall (fun s => MaximalExactMatch.nodes (fst (fst s)) <> []) seeds ->
  forall M : list Built,
    wired transition_weight dropped seeds M ->
    exists M', connect_all transition_weight max_connections band_width dropped entries M
               = Some M'.
Proof.
  intros Hnodes. induction entries as [|p rest IH]; intros M Hw; simpl; [eauto|].
  destruct (fold_option_runs (wired transition_weight dropped seeds)
              (connect_vertex transition_weight max_connections band_width dropped (fst p) rest)
              (snd p)) with (b := M) as (M1 & -> & Hw1); [|done|by apply IH].
  intros M2 v1 Hw2. unfold connect_vertex.
  destruct (bool_decide_reflect (v1 ∈ dropped)) as [|Hv1]; [eauto|].
  apply (fold_option_runs (wired transition_weight dropped seeds)); [|done].
  intros M3 q Hw3.
  apply (fold_option_runs (wired transition_weight dropped seeds)); [|done].
  intros M4 v2 Hw4. by apply connect_runs.
Qed.

Lemma MEMChainModel_runs matches band_width position_depth max_connections :
  exists M,
    MEMChainModel transition_weight matches band_width position_depth max_connections = Some M.
Proof.
  unfold MEMChainModel.
  destruct (merged_tidy matches band_width position_depth) as [Hhits Hunwired].
  apply (connect_all_runs _ _ _ (seed <$> model (merged matches band_width position_depth)));
    [|by apply unwired_wired].
  apply Forall_lookup. intros i s Hs. rewrite list_lookup_fmap in Hs.
  apply fmap_Some in Hs as (m & Hm & ->). simpl.
  apply (f_equal (fun l => l !! i)) in Hhits. rewrite !list_lookup_fmap, Hm in Hhits.
  destruct (vertices matches !! i) as [m0|] eqn:Hm0; [|done].
  change (Some (hit m) = Some (hit m0)) in Hhits.
  assert (Hn : MaximalExactMatch.nodes (mem_of m) = MaximalExactMatch.nodes (mem_of m0)).
  { unfold hit in Hhits. congruence. }
  rewrite Hn.
  assert (Hin : m0 ∈ vertices matches) by (apply list_elem_of_lookup; eauto).
  apply vertices_elem in Hin as (? & ? & ? & ? & _ & _ & _ & ->). done.
Qed.
End Runs.

(** The rank goes up with the begin. *)
Lemma filter_begin_le (l : list Built) (a b : Z) :
  a <= b ->
  (length (filter (fun m => (MaximalExactMatch.begin (mem_of m) < a)%Z) l)
   <= length (filter (fun m => (MaximalExactMatch.begin (mem_of m) < b)%Z) l))%nat.
Proof.
  intros Hab. induction l as [|m l IH]; [done|].
  rewrite !filter_cons.
  destruct (decide (MaximalExactMatch.begin (mem_of m) < a)),
    (decide (MaximalExactMatch.begin (mem_of m) < b)); simpl; lia.
Qed.

Lemma filter_begin_lt (l : list Built) (a b : Z) x :
  x ∈ l -> MaximalExactMatch.begin (mem_of x) = a -> a < b ->
  (length (filter (fun m => (MaximalExactMatch.begin (mem_of m) < a)%Z) l)
   < length (filter (fun m => (MaximalExactMatch.begin (mem_of m) < b)%Z) l))%nat.
Proof.
  intros Hx Ha Hab. induction l as [|m l IH]; [by apply elem_of_nil in Hx|].
  rewrite !filter_cons.
  pose proof (filter_begin_le l a b) as Hle.
  apply elem_of_cons in Hx as [->|Hx].
  - rewrite decide_False by lia. rewrite decide_True by lia. simpl. lia.
  - specialize (IH Hx).
    destruct (decide (MaximalExactMatch.begin (mem_of m) < a)),
      (decide (MaximalExactMatch.begin (mem_of m) < b)); simpl; lia.
Qed.

Lemma rank_bound (M : list Built) v : (v < length M)%nat -> (rank M v < length M)%nat.
Proof.
  intros Hv. apply lookup_lt_is_Some in Hv as [m Hm].
  unfold rank. apply (length_filter_lt _ _ m); [apply list_elem_of_lookup; eauto|].
  unfold begin_of. rewrite Hm. simpl. lia.
Qed.

Lemma rank_lt (M : list Built) u v :
  (u < length M)%nat -> begin_of M u < begin_of M v -> (rank M u < rank M v)%nat.
Proof.
  intros Hu Hlt. apply lookup_lt_is_Some in Hu as [m Hm].
  unfold rank. apply (filter_begin_lt M _ _ m); [apply list_elem_of_lookup; eauto| |done].
  unfold begin_of. rewrite Hm. done.
Qed.

Lemma open_transition (M : list Built) v u :
  Chain.open (chains M) v u <-> exists w, transition M u v w.
Proof.
  unfold Chain.open, transition, chains. split.
  - intros (c & w & Hc & Hin). rewrite list_lookup_fmap in Hc.
    apply fmap_Some in Hc as (m & Hm & ->). eauto.
  - intros (w & m & Hm & Hin). exists (chain m), w.
    rewrite list_lookup_fmap, Hm. done.
Qed.

(** *** Sorted lists *)

Lemma adjacent_sorted (R : nat -> nat -> Prop) (trace : list nat) :
  (forall x y z, R x y -> R y z -> R x z) ->
  (forall v u, Chain.adjacent v u trace -> R v u) ->
  StronglySorted R trace.
Proof.
  intros Htrans. induction trace as [|x rest IH]; intros Hadj; [constructor|].
  assert (Hrest : StronglySorted R rest).
  { apply IH. intros v u (before & after & ->). apply Hadj.
    by exists (x :: before), after. }
  constructor; [done|].
  destruct rest as [|y rest']; [constructor|].
  assert (Hxy : R x y) by (apply Hadj; by exists [], rest').
  constructor; [done|].
  apply StronglySorted_cons in Hrest as [Hy _].
  eapply Forall_impl; [exact Hy|]. intros z Hz. by apply (Htrans x y z).
Qed.

Lemma StronglySorted_reverse {A} (R : A -> A -> Prop) (l : list A) :
  StronglySorted R l -> StronglySorted (fun x y => R y x) (reverse l).
Proof.
  induction l as [|x l IH]; intros Hs; [constructor|].
  apply StronglySorted_cons in Hs as [Hx Hl].
  rewrite reverse_cons.
  apply StronglySorted_app. split; [|split; [auto|repeat constructor]].
  intros a b Ha Hb. apply list_elem_of_singleton in Hb as ->.
  rewrite Forall_forall in Hx. apply Hx. by rewrite elem_of_reverse in Ha.
Qed.

Lemma StronglySorted_omap {A B} (R : A -> A -> Prop) (R' : B -> B -> Prop)
      (f : A -> option B) (l : list A) :
  (forall x y a b, R x y -> f x = Some a -> f y = Some b -> R' a b) ->
  StronglySorted R l -> StronglySorted R' (omap f l).
Proof.
  intros Hf. induction 1 as [|x l Hl IH Hx]; simpl; [constructor|].
  destruct (f x) as [a|] eqn:Ha; [|done].
  constructor; [done|]. apply Forall_forall. intros b Hb.
  apply list_elem_of_omap in Hb as (y & Hy & Hfy).
  rewrite Forall_forall in Hx. apply (Hf x y a b); [by apply Hx|done..].
Qed.

(** *** The clusters of a read of one fragment *)

Section Clusters.
Context `{Aligner} `{QualAdjAligner} `{XG} `{Mapper} `{StdSort}.

(** The weighting function of the mapper is defined on MEMs with a node. *)
Lemma transition_weight_runs aln m1 m2 :
  MaximalExactMatch.nodes m1 <> [] -> MaximalExactMatch.nodes m2 <> [] ->
  is_Some (transition_weight aln m1 m2).
Proof.
  intros Hn1 Hn2. unfold transition_weight.
  destruct (chain_scores aln) as [[match_ gap_extension_] gap_open_].
  destruct (MaximalExactMatch.nodes m1) as [|p1 ?]; [done|].
  destruct (MaximalExactMatch.nodes m2) as [|p2 ?]; [done|].
  simpl. repeat (match goal with |- is_Some (if ?b then _ else _) => destruct b end);
    by eexists.
Qed.

Lemma single_fragment mems (m : Built) :
  hit_of [mems] m -> MaximalExactMatch.fragment (mem_of m) = 1.
Proof.
  intros (i & fragment & mem & node & Hi & _ & _ & -> & _).
  destruct i as [|i]; [done|]. by destruct i.
Qed.

(** In the model of one fragment every transition goes up in the read. *)
Lemma single_fragment_transition tw mems band_width position_depth max_connections
      (M : list Built) u v w :
  MEMChainModel tw [mems] band_width position_depth max_connections = Some M ->
  transition M u v w ->
  (u < length M)%nat /\ begin_of M u < begin_of M v.
Proof.
  intros Hrun Ht.
  pose proof (MEMChainModel_hit_of _ _ _ _ _ _ Hrun) as Hhits.
  pose proof (MEMChainModel_wired _ _ _ _ _ _ Hrun) as Hw.
  rewrite <- (wired_seeds _ _ _ _ Hw) in Hw.
  apply (wired_accepted _ _ _ _ Hw) in Ht as (s1 & s2 & Hs1 & Hs2 & _ & _ & Horder & _).
  rewrite list_lookup_fmap in Hs1, Hs2.
  apply fmap_Some in Hs1 as (m1 & Hm1 & ->). apply fmap_Some in Hs2 as (m2 & Hm2 & ->).
  rewrite Forall_lookup in Hhits.
  simpl in Horder.
  rewrite (single_fragment mems m1), (single_fragment mems m2) in Horder by eauto.
  split; [by apply lookup_lt_Some in Hm1|].
  unfold begin_of. rewrite Hm1, Hm2. simpl. lia.
Qed.

Lemma single_fragment_acyclic tw mems band_width position_depth max_connections
      (M : list Built) :
  MEMChainModel tw [mems] band_width position_depth max_connections = Some M ->
  Chain.acyclic (rank M) (chains M).
Proof.
  intros Hrun. unfold chains. split.
  - intros v. rewrite length_fmap. apply rank_bound.
  - intros v u Hopen. apply open_transition in Hopen as [w Ht].
    destruct (single_fragment_transition _ _ _ _ _ _ _ _ _ Hrun Ht) as [Hu Hlt].
    rewrite length_fmap. split; [done|]. by apply rank_lt.
Qed.

Lemma sound_weights (M : list Built) :
  Forall sound M -> Chain.weights_nonnegative (chains M).
Proof.
  intros Hsound. unfold Chain.weights_nonnegative, chains. apply Forall_fmap.
  eapply Forall_impl; [exact Hsound|]. intros m [Hweight Hle]. simpl. rewrite Hweight.
  unfold MaximalExactMatch.length. rewrite <- (Zle_Qle 0). lia.
Qed.
End Clusters.

(** X15: the clusters of a read of one fragment whose MEMs end at or after
    their begin.  The model is built and has no cycle of transitions: every
    transition goes from a vertex to one that begins later in the read.  For
    [total_multimaps >= 0] the traceback on this model returns at most
    [total_multimaps] clusters; the MEMs of a cluster are MEMs of vertices
    of the model, and their begins go up strictly along the cluster. *)
Theorem chain_clusters_spec `{Aligner} `{QualAdjAligner} `{XG} `{Mapper} `{StdSort}
        (aln : Alignment.t) (mems : list MaximalExactMatch.t)
        (total_multimaps position_depth max_connections : Z) :
  well_formed [mems] -> 0 <= total_multimaps ->
  exists M clusters,
    MEMChainModel (transition_weight aln) [mems] (size (Alignment.sequence aln))
                  position_depth max_connections = Some M
    /\ Chain.acyclic (rank M) (chains M)
    /\ (forall u v w, transition M u v w -> begin_of M u < begin_of M v)
    /\ chain_clusters aln mems total_multimaps position_depth max_connections = Some clusters
    /\ (length clusters <= Z.to_nat total_multimaps)%nat
    /\ (forall cluster, cluster ∈ clusters ->
                        ascending cluster
                        /\ forall mem, mem ∈ cluster -> exists m, m ∈ M /\ mem = mem_of m).
Proof.
  intros Hwf Htotal.
  destruct (MEMChainModel_runs (transition_weight aln) (transition_weight_runs aln)
              [mems] (size (Alignment.sequence aln)) position_depth max_connections)
    as [M Hrun].
  pose proof (single_fragment_acyclic _ _ _ _ _ _ Hrun) as Hacyclic.
  pose proof (sound_weights M (MEMChainModel_sound _ _ _ _ _ _ Hwf Hrun)) as Hweights.
  destruct (ChainProofs.traceback_loop_runs
              (rank M) false (chains M) Hacyclic Hweights (Z.to_nat total_multimaps)
              (Chain.mk_run (chains M) ∅ [] false)
              (ChainProofs.empty_run_invariant false (chains M)) eq_refl)
    as (run & Hloop & Hinv & Hle & _).
  cbn [Chain.traces length] in Hle. rewrite Nat.add_0_r in Hle.
  exists M, (map Chain.mem_trace (Chain.traces run)).
  split; [done|]. split; [done|]. split.
  { intros u v w Ht. by apply (single_fragment_transition _ _ _ _ _ _ _ _ _ Hrun Ht). }
  split.
  { unfold chain_clusters. rewrite Hrun. cbn [mbind option_bind].
    unfold Chain.traceback, Chain.traceback_run.
    destruct (Z.ltb_spec total_multimaps 0) as [|_]; [lia|]. by rewrite Hloop. }
  split; [by rewrite length_map|].
  intros cluster Hcluster.
  apply list_elem_of_In, in_map_iff in Hcluster as (t & <- & Ht).
  apply list_elem_of_In in Ht.
  destruct (Chain.inv_mems _ _ _ Hinv t Ht) as [_ ->].
  unfold Chain.mems_of. split.
  - unfold ascending.
    apply (StronglySorted_omap (fun x y => begin_of M x < begin_of M y)).
    { intros x y a b Hxy Ha Hb. unfold chains in Ha, Hb.
      rewrite list_lookup_fmap in Ha, Hb.
      apply fmap_Some in Ha as (ca & Ha & ->). apply fmap_Some in Hb as (cb & Hb & ->).
      apply fmap_Some in Ha as (ma & Ha & ->). apply fmap_Some in Hb as (mb & Hb & ->).
      unfold begin_of in Hxy. rewrite Ha, Hb in Hxy. exact Hxy. }
    apply (StronglySorted_reverse (fun x y => begin_of M y < begin_of M x)).
    apply adjacent_sorted; [intros x y z; lia|].
    intros v u Hadj.
    apply (Chain.inv_paths _ _ _ Hinv t v u Ht), open_transition in Hadj as [w Hw].
    by apply (single_fragment_transition _ _ _ _ _ _ _ _ _ Hrun Hw).
  - intros mem Hmem. apply list_elem_of_omap in Hmem as (v & _ & Hv).
    unfold chains in Hv. rewrite list_lookup_fmap in Hv.
    apply fmap_Some in Hv as (c & Hc & ->). apply fmap_Some in Hc as (m & Hm & ->).
    exists m. split; [apply list_elem_of_lookup; eauto|done].
Qed.

(** The theorem at two seeds of a read of one fragment. *)
Lemma chain_clusters_spec_witness :
  exists M clusters,
    @MEMChainModel tie_graph insertion_sort tie_weight near_seeds 10 1 10 = Some M
    /\ @chain_clusters default_aligner flat_qualities tie_graph default_mapper insertion_sort
                       tie_read [seed_left; seed_middle] 2 1 10 = Some clusters
    /\ Forall ascending clusters.
Proof.
  destruct (@chain_clusters_spec default_aligner flat_qualities tie_graph default_mapper
                                 insertion_sort tie_read [seed_left; seed_middle] 2 1 10)
    as (M & clusters & HM & _ & _ & Hclusters & _ & Hsorted).
  - intros fragment mem Hfragment Hmem.
    apply list_elem_of_singleton in Hfragment as ->.
    apply elem_of_cons in Hmem as [->|Hmem]; [simpl; lia|].
    apply list_elem_of_singleton in Hmem as ->. simpl. lia.
  - lia.
  - exists M, clusters. split; [exact HM|]. split; [exact Hclusters|].
    apply Forall_forall. intros cluster Hcluster. by apply Hsorted.
Defined.
End ModelProofs.

(** ** Rescue of a mate *)

Module RescueProofs.
Import FragmentModel Rescue.

Section Facts.
Context `{Aligner} `{QualAdjAligner} `{XG} `{Mapper} `{Layout} `{RescueEngines}.

(** A rescue gives an alignment only when it scores higher than the mate. *)
Lemma rescue_off_better m mate_pos length anchor mate aln :
  rescue_off m mate_pos length anchor mate = Some (Some aln) ->
  Alignment.score mate < Alignment.score aln.
Proof.
  unfold rescue_off. destruct (head (Alignment.path anchor)) as [first|]; [|done].
  cbn [mbind option_bind]. unfold Rescore.set_rescore.
  destruct (Rescore.score_alignment _) as [score|]; [|done].
  cbn [mbind option_bind].
  match goal with |- (if ?b then _ else _) = _ -> _ => destruct b eqn:Hbetter end; [|done].
  intros [= <-]. by apply Z.ltb_lt.
Qed.
End Facts.

(** X16: [pair_rescue] never lowers the score of a mate.  When it returns
    false both mates are as they were, and it returns false whenever
    [fragment_size] is 0.  When it returns true exactly one mate was
    replaced, by an alignment with a higher score: the replaced mate had an
    identity below 0.7, and the other mate, which is kept, an identity above
    0.9. *)
Theorem pair_rescue_spec
        `{Aligner} `{QualAdjAligner} `{XG} `{Mapper} `{Layout} `{RescueEngines}
        (m : FragmentModel.t) (mate1 mate2 mate1' mate2' : Alignment.t) (rescued : bool) :
  pair_rescue m mate1 mate2 = Some (rescued, mate1', mate2') ->
  Alignment.score mate1 <= Alignment.score mate1'
  /\ Alignment.score mate2 <= Alignment.score mate2'
  /\ (fragment_size m = 0 -> rescued = false)
  /\ (rescued = false -> mate1' = mate1 /\ mate2' = mate2)
  /\ (rescued = true ->
      (mate1' = mate1 /\ Alignment.score mate2 < Alignment.score mate2'
       /\ (9 # 10 < Alignment.identity mate1)%Q /\ (Alignment.identity mate2 < 7 # 10)%Q)
      \/ (mate2' = mate2 /\ Alignment.score mate1 < Alignment.score mate1'
          /\ (9 # 10 < Alignment.identity mate2)%Q /\ (Alignment.identity mate1 < 7 # 10)%Q)).
Proof.
  unfold pair_rescue. destruct (Z.eqb_spec (fragment_size m) 0) as [Hzero|Hsize].
  { intros [= <- <- <-]. repeat split; (lia || done). }
  match goal with |- (if ?b then _ else _) = _ -> _ => destruct b eqn:Hfirst end.
  - apply andb_true_iff in Hfirst as [Hfirst Hretry].
    apply andb_true_iff in Hfirst as [_ Hhang].
    apply ChainProofs.Qgtb_true in Hhang, Hretry.
    destruct (Mates.likely_mate_position m mate1 true) as [mate_pos|]; [|done].
    cbn [mbind option_bind].
    destruct (rescue_off m mate_pos _ mate1 mate2) as [[aln2|]|] eqn:Hrescue; [| |done];
      cbn [mbind option_bind]; intros [= <- <- <-].
    + apply rescue_off_better in Hrescue.
      split; [lia|]. split; [lia|]. split; [done|]. split; [done|].
      intros _. left. done.
    + repeat split; (lia || done).
  - match goal with |- (if ?b then _ else _) = _ -> _ => destruct b eqn:Hsecond end.
    + apply andb_true_iff in Hsecond as [Hsecond Hretry].
      apply andb_true_iff in Hsecond as [_ Hhang].
      apply ChainProofs.Qgtb_true in Hhang, Hretry.
      destruct (Mates.likely_mate_position m mate2 false) as [mate_pos|]; [|done].
      cbn [mbind option_bind].
      destruct (rescue_off m mate_pos _ mate2 mate1) as [[aln1|]|] eqn:Hrescue; [| |done];
        cbn [mbind option_bind]; intros [= <- <- <-].
      * apply rescue_off_better in Hrescue.
        split; [lia|]. split; [lia|]. split; [done|]. split; [done|].
        intros _. right. done.
      * repeat split; (lia || done).
    + intros [= <- <- <-]. repeat split; (lia || done).
Qed.

(** The theorem at a mate that is not aligned, next to a mate that is. *)
Lemma pair_rescue_spec_witness :
  exists mate2',
    @pair_rescue default_aligner flat_qualities one_node_graph default_mapper plain_layout
                 placing_engines estimated_model forward_mate lost_mate
    = Some (true, forward_mate, mate2')
    /\ Alignment.score lost_mate <= Alignment.score mate2'.
Proof.
  eexists. split; [vm_compute; reflexivity|].
  eapply (@pair_rescue_spec default_aligner flat_qualities one_node_graph default_mapper
                            plain_layout placing_engines estimated_model
                            forward_mate lost_mate).
  vm_compute. reflexivity.
Defined.
End RescueProofs.

(** ** The MEMs that can be paired *)

Module PairableProofs.
Import FragmentModel Pairable.

(** *** Maps as sorted lists *)

Section Maps.
Context {K V : Type} (ltb eqb : K -> K -> bool).
Hypothesis eqb_eq : forall x y, eqb x y = true <-> x = y.
Hypothesis ltb_irreflexive : forall x, ltb x x = false.
Hypothesis ltb_transitive : forall x y z, ltb x y = true -> ltb y z = true -> ltb x z = true.
Hypothesis ltb_total : forall x y, ltb x y = false -> eqb x y = false -> ltb y x = true.

Lemma map_find_elem k (m : list (K * V)) v : map_find eqb k m = Some v -> (k, v) ∈ m.
Proof.
  induction m as [|[k' v'] rest IH]; simpl; [done|].
  destruct (eqb k k') eqn:Hk.
  - intros [= ->]. apply eqb_eq in Hk as ->. left.
  - intros Hfind. right. by apply IH.
Qed.

Lemma map_find_below k (m : list (K * V)) :
  Forall (fun e => ltb k (fst e) = true) m -> map_find eqb k m = None.
Proof.
  induction m as [|[k' v'] rest IH]; simpl; [done|]. intros Hall.
  apply Forall_cons in Hall as [Hk Hrest]. simpl in Hk.
  destruct (eqb k k') eqn:Heq; [|by apply IH].
  apply eqb_eq in Heq as ->. by rewrite ltb_irreflexive in Hk.
Qed.

Lemma map_update_find k f (m : list (K * V)) :
  ascending_keys ltb m ->
  map_find eqb k (map_update ltb eqb k f m) = Some (f (map_find eqb k m)).
Proof.
  assert (Hrefl : eqb k k = true) by (by apply eqb_eq).
  induction m as [|[k' v'] rest IH]; intros Hs; simpl; [by rewrite Hrefl|].
  apply StronglySorted_cons in Hs as [Hk' Hrest].
  destruct (ltb k k') eqn:Hlt; simpl.
  - rewrite Hrefl. destruct (eqb k k') eqn:Heq.
    { apply eqb_eq in Heq as ->. by rewrite ltb_irreflexive in Hlt. }
    rewrite map_find_below; [done|].
    eapply Forall_impl; [exact Hk'|]. intros e He. simpl in He. eauto.
  - destruct (eqb k k') eqn:Heq; simpl; rewrite Heq; [done|]. by apply IH.
Qed.

Lemma map_update_find_other k k0 f (m : list (K * V)) :
  k0 <> k -> map_find eqb k0 (map_update ltb eqb k f m) = map_find eqb k0 m.
Proof.
  intros Hne. assert (Hk0 : eqb k0 k = false).
  { destruct (eqb k0 k) eqn:Heq; [|done]. by apply eqb_eq in Heq. }
  induction m as [|[k' v'] rest IH]; simpl; [by rewrite Hk0|].
  destruct (ltb k k'); simpl; [by rewrite Hk0|].
  destruct (eqb k k') eqn:Heq; simpl.
  - apply eqb_eq in Heq as <-. by rewrite Hk0.
  - by rewrite IH.
Qed.

Lemma map_update_keys (P : K -> Prop) k f (m : list (K * V)) :
  P k -> Forall (fun e => P (fst e)) m -> Forall (fun e => P (fst e)) (map_update ltb eqb k f m).
Proof.
  intros Hk. induction m as [|[k' v'] rest IH]; simpl; intros Hm.
  - repeat constructor. done.
  - apply Forall_cons in Hm as [Hk' Hrest].
    destruct (ltb k k'); [repeat constructor; done|].
    destruct (eqb k k'); constructor; auto.
Qed.

Lemma map_update_ascending k f (m : list (K * V)) :
  ascending_keys ltb m -> ascending_keys ltb (map_update ltb eqb k f m).
Proof.
  unfold ascending_keys.
  induction m as [|[k' v'] rest IH]; intros Hs; simpl; [repeat constructor|].
  apply StronglySorted_cons in Hs as [Hk' Hrest].
  destruct (ltb k k') eqn:Hlt.
  - apply StronglySorted_cons. split.
    + constructor; [done|]. eapply Forall_impl; [exact Hk'|]. intros e He. simpl in *. eauto.
    + by apply StronglySorted_cons.
  - destruct (eqb k k') eqn:Heq.
    + by apply StronglySorted_cons.
    + apply StronglySorted_cons. split; [|auto].
      apply (map_update_keys (fun x => ltb k' x = true)); [|done]. by apply ltb_total.
Qed.
End Maps.

(** The order of the positions. *)
Lemma Z_eqb_eq (x y : Z) : (x =? y) = true <-> x = y.
Proof. apply Z.eqb_eq. Qed.
Lemma Z_ltb_irreflexive (x : Z) : (x <? x) = false.
Proof. apply Z.ltb_irrefl. Qed.
Lemma Z_ltb_transitive (x y z : Z) : (x <? y) = true -> (y <? z) = true -> (x <? z) = true.
Proof. rewrite !Z.ltb_lt. lia. Qed.
Lemma Z_ltb_total (x y : Z) : (x <? y) = false -> (x =? y) = false -> (y <? x) = true.
Proof. rewrite Z.ltb_ge, Z.eqb_neq, Z.ltb_lt. lia. Qed.

(** The order of the names. *)
Lemma string_compare_refl (s : string) : String.compare s s = Eq.
Proof.
  pose proof (String.compare_antisym s s) as Hanti.
  destruct (String.compare s s); simpl in Hanti; congruence.
Qed.

Lemma string_ltb_irreflexive (s : string) : String.ltb s s = false.
Proof. unfold String.ltb. by rewrite string_compare_refl. Qed.

Lemma string_ltb_total (x y : string) :
  String.ltb x y = false -> String.eqb x y = false -> String.ltb y x = true.
Proof.
  unfold String.ltb. rewrite (String.compare_antisym y x).
  destruct (String.compare x y) eqn:Hcmp; simpl; try done.
  apply String.compare_eq_iff in Hcmp as ->. by rewrite String.eqb_refl.
Qed.

Lemma string_compare_transitive (x : string) :
  forall y z, String.compare x y = Lt -> String.compare y z = Lt -> String.compare x z = Lt.
Proof.
  induction x as [|a x IH]; intros [|b y] [|c z]; simpl; try done.
  unfold Ascii.compare.
  destruct (N.compare_spec (Ascii.N_of_ascii a) (Ascii.N_of_ascii b)) as [Hab|Hab|Hab];
    destruct (N.compare_spec (Ascii.N_of_ascii b) (Ascii.N_of_ascii c)) as [Hbc|Hbc|Hbc];
    try done; intros Hxy Hyz.
  - rewrite Hab, Hbc, N.compare_refl. by apply (IH y z).
  - rewrite Hab. by apply N.compare_lt_iff in Hbc as ->.
  - rewrite <- Hbc. by apply N.compare_lt_iff in Hab as ->.
  - assert (Hac : (Ascii.N_of_ascii a < Ascii.N_of_ascii c)%N) by lia.
    by apply N.compare_lt_iff in Hac as ->.
Qed.

Lemma string_ltb_transitive (x y z : string) :
  String.ltb x y = true -> String.ltb y z = true -> String.ltb x z = true.
Proof.
  unfold String.ltb.
  destruct (String.compare x y) eqn:Hxy; try done.
  destruct (String.compare y z) eqn:Hyz; try done.
  by rewrite (string_compare_transitive x y z).
Qed.

Lemma map_update_values {K V} (ltb eqb : K -> K -> bool) (P : V -> Prop) k f (m : list (K * V)) :
  P (f None) -> (forall v, P v -> P (f (Some v))) ->
  Forall (fun e => P (snd e)) m -> Forall (fun e => P (snd e)) (map_update ltb eqb k f m).
Proof.
  intros Hnone Hsome. induction m as [|[k' v'] rest IH]; simpl; intros Hm.
  - by repeat constructor.
  - pose proof Hm as Hm'. apply Forall_cons in Hm' as [Hv Hrest].
    destruct (ltb k k'); [by constructor|].
    destruct (eqb k k'); constructor; simpl; auto.
Qed.

Lemma fold_left_established {A B} (I Q : B -> Prop) (g : B -> A -> B) (l : list A) x0 :
  (forall acc x, I acc -> I (g acc x)) ->
  (forall acc x, I acc -> Q acc -> Q (g acc x)) ->
  (forall acc, I acc -> Q (g acc x0)) ->
  x0 ∈ l -> forall acc, I acc -> Q (fold_left g l acc).
Proof.
  intros HI HQ Hnew. induction l as [|x l IH]; intros Hin acc Hacc.
  { by apply elem_of_nil in Hin. }
  simpl. apply elem_of_cons in Hin as [->|Hin]; [|by apply IH; auto].
  assert (Hboth : I (g acc x) /\ Q (g acc x)) by auto.
  revert Hboth. generalize (g acc x). clear -HI HQ.
  induction l as [|y l IH]; intros acc [? ?]; simpl; [done|]. apply IH. auto.
Qed.

(** *** The positions of the hits *)

Section Facts.
Context `{XG}.

Lemma add_node_position_indexed name pos id np :
  indexed np -> indexed (Positions.add_node_position name pos id np).
Proof.
  intros [Houter Hinner]. unfold Positions.add_node_position. split.
  - apply (map_update_ascending String.ltb String.eqb); [| |done].
    + apply string_ltb_transitive.
    + apply string_ltb_total.
  - apply (map_update_values String.ltb String.eqb (ascending_keys Z.ltb)); [| |done].
    + repeat constructor.
    + intros by_pos Hs. simpl.
      apply (map_update_ascending Z.ltb Z.eqb); [apply Z_ltb_transitive|apply Z_ltb_total|done].
Qed.

Lemma add_node_position_recorded name pos id np :
  indexed np -> recorded (Positions.add_node_position name pos id np) name pos id.
Proof.
  intros [Houter Hinner]. unfold recorded, Positions.add_node_position.
  rewrite (map_update_find String.ltb String.eqb String.eqb_eq string_ltb_irreflexive
                           string_ltb_transitive) by done.
  eexists _, _. split; [reflexivity|].
  rewrite (map_update_find Z.ltb Z.eqb Z_eqb_eq Z_ltb_irreflexive Z_ltb_transitive).
  - split; [reflexivity|]. apply elem_of_app. right. left.
  - destruct (map_find String.eqb name np) as [by_pos|] eqn:Hfind; simpl; [|constructor].
    apply (map_find_elem String.eqb String.eqb_eq) in Hfind.
    rewrite Forall_forall in Hinner. apply (Hinner _ Hfind).
Qed.

Lemma add_node_position_keeps name pos id np n p i :
  indexed np -> recorded np n p i ->
  recorded (Positions.add_node_position name pos id np) n p i.
Proof.
  intros [Houter Hinner] (by_pos & l & Hn & Hp & Hi).
  unfold recorded, Positions.add_node_position.
  destruct (decide (n = name)) as [->|Hname].
  - rewrite (map_update_find String.ltb String.eqb String.eqb_eq string_ltb_irreflexive
                             string_ltb_transitive) by done.
    rewrite Hn. simpl.
    destruct (decide (p = pos)) as [->|Hpos].
    + eexists _, _. split; [reflexivity|].
      rewrite (map_update_find Z.ltb Z.eqb Z_eqb_eq Z_ltb_irreflexive Z_ltb_transitive).
      * rewrite Hp. simpl. split; [reflexivity|]. apply elem_of_app. by left.
      * apply (map_find_elem String.eqb String.eqb_eq) in Hn.
        rewrite Forall_forall in Hinner. apply (Hinner _ Hn).
    + eexists _, l. split; [reflexivity|].
      rewrite (map_update_find_other Z.ltb Z.eqb Z_eqb_eq) by done. done.
  - exists by_pos, l.
    rewrite (map_update_find_other String.ltb String.eqb String.eqb_eq) by done. done.
Qed.

Lemma add_node_indexed id np : indexed np -> indexed (Positions.add_node id np).
Proof.
  intros Hnp. unfold Positions.add_node.
  apply ModelProofs.fold_left_invariant; [|done]. intros np1 ref Hnp1.
  apply ModelProofs.fold_left_invariant; [|done]. intros np2 pos. apply add_node_position_indexed.
Qed.

Lemma add_node_keeps id np n p i :
  indexed np -> recorded np n p i -> recorded (Positions.add_node id np) n p i.
Proof.
  intros Hnp Hrec. unfold Positions.add_node.
  apply (ModelProofs.fold_left_invariant (fun np => indexed np /\ recorded np n p i)); [|done].
  intros np1 ref Hnp1.
  apply (ModelProofs.fold_left_invariant (fun np => indexed np /\ recorded np n p i)); [|done].
  intros np2 pos [Hnp2 Hrec2].
  split; [by apply add_node_position_indexed|by apply add_node_position_keeps].
Qed.

Lemma add_node_recorded id np name offsets offset :
  indexed np ->
  (name, offsets) ∈ position_in_paths id false 0 -> offset ∈ offsets ->
  recorded (Positions.add_node id np) name offset id.
Proof.
  intros Hnp Hname Hoffset. unfold Positions.add_node.
  apply (fold_left_established indexed (fun np => recorded np name offset id) _ _
                               (name, offsets)); [| | |done|done].
  - intros np1 ref Hnp1. apply ModelProofs.fold_left_invariant; [|done].
    intros np2 pos. apply add_node_position_indexed.
  - intros np1 ref Hnp1 Hrec.
    apply (ModelProofs.fold_left_invariant (fun np => indexed np /\ recorded np name offset id)); [|done].
    intros np2 pos [Hnp2 Hrec2].
    split; [by apply add_node_position_indexed|by apply add_node_position_keeps].
  - intros np1 Hnp1. simpl.
    apply (fold_left_established indexed (fun np => recorded np name offset id) _ _ offset);
      [| | |done|done].
    + intros np2 pos. apply add_node_position_indexed.
    + intros np2 pos Hnp2. by apply add_node_position_keeps.
    + intros np2 Hnp2. by apply add_node_position_recorded.
Qed.

Lemma node_positions_indexed ids : indexed (node_positions ids).
Proof.
  unfold node_positions. apply ModelProofs.fold_left_invariant.
  - intros np id. apply add_node_indexed.
  - split; constructor.
Qed.

Lemma node_positions_recorded ids id name offsets offset :
  id ∈ ids -> (name, offsets) ∈ position_in_paths id false 0 -> offset ∈ offsets ->
  recorded (node_positions ids) name offset id.
Proof.
  intros Hid Hname Hoffset. unfold node_positions.
  apply (fold_left_established indexed (fun np => recorded np name offset id) _ _ id);
    [| | |done|split; constructor].
  - intros np i. apply add_node_indexed.
  - intros np i Hnp. by apply add_node_keeps.
  - intros np Hnp. by apply (add_node_recorded id np name offsets).
Qed.
End Facts.

(** *** The clusters of one path *)

Lemma holds_subseteq ids ids' clusters :
  ids' ⊆ ids -> holds ids clusters -> holds ids' clusters.
Proof.
  intros Hsub (cluster & Hin & Hids). exists cluster. split; [done|].
  intros x Hx. apply Hids, Hsub, Hx.
Qed.

Lemma cluster_step_keeps fragment_size ids st x :
  holds ids (fst st) -> holds ids (fst (cluster_step fragment_size st x)).
Proof.
  intros (cluster & Hin & Hids). unfold cluster_step. simpl.
  destruct (_ && _).
  - exists cluster. split; [by right|done].
  - destruct (fst st) as [|c rest]; [by apply elem_of_nil in Hin|].
    apply elem_of_cons in Hin as [->|Hin].
    + exists (c ++ snd x). split; [left|]. intros y Hy. apply elem_of_app. left. by apply Hids.
    + exists cluster. split; [by right|done].
Qed.

Lemma cluster_steps_keep fragment_size ids l :
  forall st, holds ids (fst st) -> holds ids (fst (fold_left (cluster_step fragment_size) l st)).
Proof.
  induction l as [|x l IH]; intros st Hst; simpl; [done|].
  apply IH. by apply cluster_step_keeps.
Qed.

(** A step puts the ids of its position into the most recent cluster. *)
Lemma cluster_step_adds fragment_size st x :
  fst st <> [] ->
  exists c rest, fst (cluster_step fragment_size st x) = c :: rest /\ snd x ⊆ c.
Proof.
  intros Hne. unfold cluster_step. simpl. destruct (_ && _).
  - eexists _, _. split; [reflexivity|]. intros y Hy. by apply elem_of_app; right.
  - destruct (fst st) as [|c rest]; [done|].
    eexists _, _. split; [reflexivity|]. intros y Hy. by apply elem_of_app; right.
Qed.

(** A step within the fragment size goes on with the most recent cluster. *)
Lemma cluster_step_near fragment_size c rest prev x :
  fst x - prev <= fragment_size ->
  cluster_step fragment_size (c :: rest, prev) x = ((c ++ snd x) :: rest, fst x).
Proof.
  intros Hnear. unfold cluster_step. simpl.
  destruct (Z.leb_spec (fst x - prev) fragment_size) as [_|?]; [|lia].
  by rewrite andb_false_r.
Qed.

Lemma ascending_cons (k : Z) (v : list Z) (l : list (Z * list Z)) :
  ascending_keys Z.ltb ((k, v) :: l) ->
  ascending_keys Z.ltb l
  /\ forall q lq, map_find Z.eqb q l = Some lq -> k < q.
Proof.
  intros Hs. apply StronglySorted_cons in Hs as [Hk Hl]. split; [done|].
  intros q lq Hq. apply (map_find_elem Z.eqb Z_eqb_eq) in Hq.
  rewrite Forall_forall in Hk. specialize (Hk _ Hq). simpl in Hk. by apply Z.ltb_lt.
Qed.

Lemma cluster_run_to fragment_size p q lp lq l :
  q - p <= fragment_size ->
  forall c rest prev,
    ascending_keys Z.ltb l -> map_find Z.eqb q l = Some lq ->
    (forall k v, map_find Z.eqb k l = Some v -> p <= k) ->
    p <= prev -> lp ⊆ c ->
    holds (lp ++ lq)
          (fst (fold_left (cluster_step fragment_size) l (c :: rest, prev))).
Proof.
  intros Hnear. induction l as [|[k ids] l IH]; intros c rest prev Hs Hq Hfrom Hprev Hlp;
    [done|].
  destruct (ascending_cons k ids l Hs) as [Hl Hkeys].
  assert (Hk : p <= k).
  { apply (Hfrom k ids). simpl. by rewrite Z.eqb_refl. }
  simpl in Hq. simpl. destruct (Z.eqb_spec q k) as [->|Hne].
  - injection Hq as ->.
    rewrite cluster_step_near by (simpl; lia).
    apply cluster_steps_keep. exists (c ++ lq). split; [left|].
    intros y Hy. apply elem_of_app in Hy as [Hy|Hy]; apply elem_of_app; [left; by apply Hlp|by right].
  - pose proof (Hkeys q lq Hq).
    rewrite cluster_step_near by (simpl; lia).
    apply IH; [done|done| |simpl; lia|].
    + intros k' v Hk'. specialize (Hkeys k' v Hk'). lia.
    + intros y Hy. apply elem_of_app. left. by apply Hlp.
Qed.

Lemma cluster_run fragment_size p q lp lq l :
  p <= q -> q - p <= fragment_size ->
  forall st,
    ascending_keys Z.ltb l ->
    map_find Z.eqb p l = Some lp -> map_find Z.eqb q l = Some lq ->
    fst st <> [] ->
    holds (lp ++ lq) (fst (fold_left (cluster_step fragment_size) l st)).
Proof.
  intros Hpq Hnear. induction l as [|[k ids] l IH]; intros st Hs Hp Hq Hne; [done|].
  destruct (ascending_cons k ids l Hs) as [Hl Hkeys].
  simpl in Hp, Hq. simpl.
  destruct (cluster_step_adds fragment_size st (k, ids) Hne) as (c & rest & Hstep & Hids).
  destruct (Z.eqb_spec p k) as [->|Hpk].
  - injection Hp as ->.
    destruct (cluster_step fragment_size st (k, lp)) as [cs prev] eqn:Hst.
    assert (prev = k) as -> by (unfold cluster_step in Hst; by injection Hst as _ <-).
    simpl in Hstep. subst cs.
    destruct (Z.eqb_spec q k) as [->|Hqk].
    + injection Hq as ->. apply cluster_steps_keep. exists c. split; [left|].
      intros y Hy. apply elem_of_app in Hy as [Hy|Hy]; by apply Hids.
    + apply (cluster_run_to fragment_size k q); try (done || lia).
      intros k' v Hk'. specialize (Hkeys k' v Hk'). lia.
  - pose proof (Hkeys p lp Hp).
    destruct (Z.eqb_spec q k) as [->|Hqk]; [lia|].
    apply IH; [done..|]. by rewrite Hstep.
Qed.

Lemma cluster_path_keeps fragment_size ids clusters g :
  holds ids clusters -> holds ids (cluster_path fragment_size clusters g).
Proof.
  intros (cluster & Hin & Hids). unfold cluster_path. apply cluster_steps_keep.
  exists cluster. split; [by right|done].
Qed.

Lemma cluster_path_near fragment_size clusters name by_pos p q lp lq id1 id2 :
  ascending_keys Z.ltb by_pos ->
  map_find Z.eqb p by_pos = Some lp -> map_find Z.eqb q by_pos = Some lq ->
  id1 ∈ lp -> id2 ∈ lq -> Z.abs (p - q) <= fragment_size ->
  holds [id1; id2] (cluster_path fragment_size clusters (name, by_pos)).
Proof.
  intros Hs Hp Hq Hid1 Hid2 Hnear. unfold cluster_path. simpl.
  destruct (decide (p <= q)) as [Hpq|Hqp].
  - apply (holds_subseteq (lp ++ lq)).
    + intros y Hy. apply elem_of_app.
      apply elem_of_cons in Hy as [->|Hy]; [by left|].
      apply list_elem_of_singleton in Hy as ->. by right.
    + apply (cluster_run fragment_size p q); (done || lia).
  - apply (holds_subseteq (lq ++ lp)).
    + intros y Hy. apply elem_of_app.
      apply elem_of_cons in Hy as [->|Hy]; [by right|].
      apply list_elem_of_singleton in Hy as ->. by left.
    + apply (cluster_run fragment_size q p); (done || lia).
Qed.

(** Two ids that are recorded on a path within the fragment size are in a
    cluster. *)
Lemma clusters_near fragment_size np name p q id1 id2 :
  indexed np -> recorded np name p id1 -> recorded np name q id2 ->
  Z.abs (p - q) <= fragment_size ->
  holds [id1; id2] (fold_left (cluster_path fragment_size) np []).
Proof.
  intros [_ Hinner] (by_pos & lp & Hname & Hp & Hid1) (by_pos' & lq & Hname' & Hq & Hid2) Hnear.
  rewrite Hname in Hname'. injection Hname' as <-.
  apply (map_find_elem String.eqb String.eqb_eq) in Hname.
  apply (fold_left_established (fun _ => True) (holds [id1; id2]) _ _ (name, by_pos));
    [done| | |done|done].
  - intros clusters g _. apply cluster_path_keeps.
  - intros clusters _. apply (cluster_path_near _ _ _ _ p q lp lq); try done.
    rewrite Forall_forall in Hinner. apply (Hinner _ Hname).
Qed.

(** *** The hits of the two reads *)

Lemma add_hit_ascending second index h node :
  ascending_keys Z.ltb (id_to_mems h) ->
  ascending_keys Z.ltb (id_to_mems (add_hit second index h node)).
Proof.
  intros Hs. simpl.
  apply (map_update_ascending Z.ltb Z.eqb); [apply Z_ltb_transitive|apply Z_ltb_total|done].
Qed.

Lemma add_hit_keeps second index h node ptr id :
  ascending_keys Z.ltb (id_to_mems h) ->
  filed h ptr id -> filed (add_hit second index h node) ptr id.
Proof.
  intros Hs [Hid Hptr]. split; simpl.
  - apply elem_of_app. by left.
  - destruct (decide (id = Position.node_id node)) as [->|Hne].
    + rewrite (map_update_find Z.ltb Z.eqb Z_eqb_eq Z_ltb_irreflexive Z_ltb_transitive) by done.
      simpl. apply elem_of_app. by left.
    + by rewrite (map_update_find_other Z.ltb Z.eqb Z_eqb_eq).
Qed.

Lemma add_hit_filed second index h node :
  ascending_keys Z.ltb (id_to_mems h) ->
  filed (add_hit second index h node) (second, index) (Position.node_id node)
  /\ Position.node_id node ∈ ids_of_read (add_hit second index h node).
Proof.
  intros Hs. split; [split|]; simpl.
  - apply elem_of_app. right. left.
  - rewrite (map_update_find Z.ltb Z.eqb Z_eqb_eq Z_ltb_irreflexive Z_ltb_transitive) by done.
    simpl. apply elem_of_app. right. left.
  - apply elem_of_union. left. by apply elem_of_singleton.
Qed.

Lemma add_hits_ascending second mems itm0 ids0 :
  ascending_keys Z.ltb itm0 ->
  ascending_keys Z.ltb (id_to_mems (add_hits second mems itm0 ids0)).
Proof.
  intros Hs. unfold add_hits.
  apply (ModelProofs.fold_left_invariant (fun h => ascending_keys Z.ltb (id_to_mems h)));
    [|done].
  intros h im Hh.
  apply (ModelProofs.fold_left_invariant (fun h => ascending_keys Z.ltb (id_to_mems h)));
    [|done].
  intros h1 node. apply add_hit_ascending.
Qed.

Lemma add_hits_keeps second mems itm0 ids0 ptr id :
  ascending_keys Z.ltb itm0 ->
  id ∈ ids0 -> ptr ∈ default [] (map_find Z.eqb id itm0) ->
  filed (add_hits second mems itm0 ids0) ptr id.
Proof.
  intros Hs Hid Hptr. unfold add_hits.
  apply (ModelProofs.fold_left_invariant
           (fun h => ascending_keys Z.ltb (id_to_mems h) /\ filed h ptr id)); [|done].
  intros h im Hh.
  apply (ModelProofs.fold_left_invariant
           (fun h => ascending_keys Z.ltb (id_to_mems h) /\ filed h ptr id)); [|done].
  intros h1 node [Hs1 Hf1]. split; [by apply add_hit_ascending|by apply add_hit_keeps].
Qed.

Lemma add_hits_filed second (mems : list MaximalExactMatch.t) itm0 ids0 (i : nat) mem node :
  ascending_keys Z.ltb itm0 ->
  mems !! i = Some mem -> node ∈ MaximalExactMatch.nodes mem ->
  filed (add_hits second mems itm0 ids0) (second, i) (Position.node_id node)
  /\ Position.node_id node ∈ ids_of_read (add_hits second mems itm0 ids0).
Proof.
  intros Hs Hmem Hnode. unfold add_hits.
  set (Q := fun h => filed h (second, i) (Position.node_id node)
                     /\ Position.node_id node ∈ ids_of_read h).
  assert (Hstep : forall h n, ascending_keys Z.ltb (id_to_mems h) -> Q h ->
                              forall j, Q (add_hit second j h n)).
  { intros h n Hh [Hf Hr] j. split; [by apply add_hit_keeps|].
    simpl. apply elem_of_union. by right. }
  apply (fold_left_established (fun h => ascending_keys Z.ltb (id_to_mems h)) Q _ _ (i, mem));
    [| | |by apply (elem_of_lookup_imap_2 pair)|done].
  - intros h im Hh.
    apply (ModelProofs.fold_left_invariant (fun h => ascending_keys Z.ltb (id_to_mems h)));
      [|done].
    intros h1 n. apply add_hit_ascending.
  - intros h im Hh HQ.
    apply (ModelProofs.fold_left_invariant
             (fun h => ascending_keys Z.ltb (id_to_mems h) /\ Q h)); [|done].
    intros h1 n [Hs1 HQ1]. split; [by apply add_hit_ascending|by apply Hstep].
  - intros h Hh. simpl.
    apply (fold_left_established (fun h => ascending_keys Z.ltb (id_to_mems h)) Q _ _ node);
      [| | |done|done].
    + intros h1 n. apply add_hit_ascending.
    + intros h1 n Hs1 HQ1. by apply Hstep.
    + intros h1 Hs1. by apply add_hit_filed.
Qed.

(** A read without a hit leaves its set of ids empty. *)
Lemma add_hits_none second mems itm0 ids0 :
  Forall (fun mem => MaximalExactMatch.nodes mem = []) mems ->
  ids_of_read (add_hits second mems itm0 ids0) = ∅.
Proof.
  intros Hnone. unfold add_hits.
  assert (Hgen : forall (l : list (nat * MaximalExactMatch.t)) (h : Hits),
             Forall (fun im => MaximalExactMatch.nodes (snd im) = []) l ->
             ids_of_read h = ∅ ->
             ids_of_read
               (fold_left (fun h im => fold_left (add_hit second (fst im))
                                                 (MaximalExactMatch.nodes (snd im)) h) l h)
             = ∅).
  { induction l as [|im l IH]; intros h Hall Hh; simpl; [exact Hh|].
    apply Forall_cons in Hall as [Him Hl]. apply IH; [done|]. rewrite Him. exact Hh. }
  apply Hgen; [|done].
  apply Forall_forall. intros im Him.
  apply elem_of_lookup_imap in Him as (j & mem & -> & Hj).
  rewrite Forall_lookup in Hnone. by apply (Hnone j).
Qed.

(** *** The last loop *)

Lemma insert_all_elem (l : list pointer) (pairable : gset pointer) (ptr : pointer) :
  ptr ∈ fold_left (fun (pairable : gset pointer) memptr => {[memptr]} ∪ pairable) l pairable
  <-> ptr ∈ l \/ ptr ∈ pairable.
Proof.
  revert pairable. induction l as [|x l IH]; intros pairable; simpl.
  - rewrite elem_of_nil. tauto.
  - rewrite IH, elem_of_cons, elem_of_union, elem_of_singleton. tauto.
Qed.

Lemma insert_cluster_elem (itm : list (Z * list pointer)) (cluster : list Z)
      (pairable : gset pointer) (ptr : pointer) :
  ptr ∈ fold_left (fun (pairable : gset pointer) id =>
                     fold_left (fun (pairable : gset pointer) memptr => {[memptr]} ∪ pairable)
                               (default [] (map_find Z.eqb id itm)) pairable)
                  cluster pairable
  <-> (exists id, id ∈ cluster /\ ptr ∈ default [] (map_find Z.eqb id itm)) \/ ptr ∈ pairable.
Proof.
  revert pairable. induction cluster as [|x l IH]; intros pairable; simpl.
  - split; [by right|]. intros [(id & Hid & _)|?]; [by apply elem_of_nil in Hid|done].
  - rewrite IH, insert_all_elem. split.
    + intros [(id & Hid & Hptr)|[Hptr|Hptr]].
      * left. exists id. split; [by right|done].
      * left. exists x. split; [left|done].
      * by right.
    + intros [(id & Hid & Hptr)|Hptr]; [|by right; right].
      apply elem_of_cons in Hid as [->|Hid]; [by right; left|].
      left. by exists id.
Qed.

Lemma add_cluster_keeps (itm : list (Z * list pointer)) (ids1 ids2 : gset Z)
      (pairable : gset pointer) (cluster : list Z) (ptr : pointer) :
  ptr ∈ pairable -> ptr ∈ add_cluster itm ids1 ids2 pairable cluster.
Proof.
  intros Hptr. unfold add_cluster. destruct (_ || _); [done|].
  apply insert_cluster_elem. by right.
Qed.

Lemma add_cluster_adds (itm : list (Z * list pointer)) (ids1 ids2 : gset Z)
      (pairable : gset pointer) (cluster : list Z) (id1 id2 id : Z) (ptr : pointer) :
  id1 ∈ cluster -> id1 ∈ ids1 -> id2 ∈ cluster -> id2 ∈ ids2 ->
  id ∈ cluster -> ptr ∈ default [] (map_find Z.eqb id itm) ->
  ptr ∈ add_cluster itm ids1 ids2 pairable cluster.
Proof.
  intros Hc1 Hi1 Hc2 Hi2 Hid Hptr. unfold add_cluster.
  assert (Hfirst : existsb (fun id => bool_decide (id ∈ ids1)) cluster = true).
  { apply existsb_exists. exists id1. split; [by apply list_elem_of_In|by apply bool_decide_eq_true]. }
  assert (Hsecond : existsb (fun id => bool_decide (id ∈ ids2)) cluster = true).
  { apply existsb_exists. exists id2. split; [by apply list_elem_of_In|by apply bool_decide_eq_true]. }
  rewrite Hfirst, Hsecond. simpl. apply insert_cluster_elem. left. by exists id.
Qed.

Lemma add_cluster_one_sided (itm : list (Z * list pointer)) (ids1 ids2 : gset Z)
      (pairable : gset pointer) (cluster : list Z) :
  ids1 = ∅ \/ ids2 = ∅ -> add_cluster itm ids1 ids2 pairable cluster = pairable.
Proof.
  intros Hempty. unfold add_cluster.
  assert (Hnone : forall ids : gset Z,
             ids = ∅ -> existsb (fun id => bool_decide (id ∈ ids)) cluster = false).
  { intros ids Hids. induction cluster as [|x l IH]; [done|]. cbn [existsb]. rewrite IH.
    rewrite bool_decide_eq_false_2; [done|]. rewrite Hids. apply not_elem_of_empty. }
  destruct Hempty as [Hids|Hids]; rewrite (Hnone _ Hids); simpl; [done|].
  by rewrite orb_true_r.
Qed.

Lemma add_clusters_holds (itm : list (Z * list pointer)) (ids1 ids2 : gset Z)
      (clusters : list (list Z)) (id1 id2 : Z) :
  id1 ∈ ids1 -> id2 ∈ ids2 -> holds [id1; id2] clusters ->
  forall (id : Z) (ptr : pointer) (pairable : gset pointer),
    id = id1 \/ id = id2 -> ptr ∈ default [] (map_find Z.eqb id itm) ->
    ptr ∈ fold_left (add_cluster itm ids1 ids2) clusters pairable.
Proof.
  intros Hi1 Hi2 (cluster & Hin & Hids) id ptr pairable Hid Hptr.
  assert (Hc1 : id1 ∈ cluster) by (apply Hids; left).
  assert (Hc2 : id2 ∈ cluster) by (apply Hids; right; left).
  apply (fold_left_established (fun _ => True) (fun pairable => ptr ∈ pairable) _ _ cluster);
    [done| | |done|done].
  - intros acc c _. apply add_cluster_keeps.
  - intros acc _. apply (add_cluster_adds _ _ _ _ _ id1 id2 id); try done.
    by destruct Hid as [-> | ->].
Qed.

Lemma holds_reverse ids clusters : holds ids clusters -> holds ids (reverse clusters).
Proof.
  intros (cluster & Hin & Hids). exists cluster. split; [by apply elem_of_reverse|done].
Qed.

(** X17: two MEMs of the two reads that have hits on the same path, at
    offsets that differ by at most [fragment_size], are both in the set that
    [resolve_paired_mems] returns. *)
Theorem resolve_paired_mems_near `{XG} (m : FragmentModel.t)
        (mems1 mems2 : list MaximalExactMatch.t) (i j : nat)
        (mem1 mem2 : MaximalExactMatch.t) (name : string) (p q : Z) :
  mems1 !! i = Some mem1 -> mems2 !! j = Some mem2 ->
  on_path mem1 name p -> on_path mem2 name q ->
  Z.abs (p - q) <= fragment_size m ->
  (false, i) ∈ resolve_paired_mems m mems1 mems2
  /\ (true, j) ∈ resolve_paired_mems m mems1 mems2.
Proof.
  intros Hmem1 Hmem2 (node1 & offsets1 & Hnode1 & Hpath1 & Hp)
         (node2 & offsets2 & Hnode2 & Hpath2 & Hq) Hnear.
  unfold resolve_paired_mems.
  set (hits1 := add_hits false mems1 [] []).
  set (hits2 := add_hits true mems2 (id_to_mems hits1) (ids hits1)).
  assert (Hempty : ascending_keys Z.ltb ([] : list (Z * list pointer))) by constructor.
  pose proof (add_hits_ascending false mems1 [] [] Hempty) as Hs1. fold hits1 in Hs1.
  destruct (add_hits_filed false mems1 [] [] i mem1 node1 Hempty Hmem1 Hnode1)
    as [[Hids1 Hptr1] Hread1]. fold hits1 in Hids1, Hptr1, Hread1.
  destruct (add_hits_keeps true mems2 (id_to_mems hits1) (ids hits1)
                           (false, i) (Position.node_id node1) Hs1 Hids1 Hptr1)
    as [Hids1' Hptr1']. fold hits2 in Hids1', Hptr1'.
  destruct (add_hits_filed true mems2 (id_to_mems hits1) (ids hits1) j mem2 node2
                           Hs1 Hmem2 Hnode2) as [[Hids2 Hptr2] Hread2].
  fold hits2 in Hids2, Hptr2, Hread2.
  assert (Hholds : holds [Position.node_id node1; Position.node_id node2]
                         (clusters m (ids hits2))).
  { unfold clusters. apply holds_reverse.
    apply (clusters_near _ _ name p q); [apply node_positions_indexed| | |done].
    - by apply (node_positions_recorded _ _ _ offsets1).
    - by apply (node_positions_recorded _ _ _ offsets2). }
  split.
  - apply (add_clusters_holds _ _ _ _ _ _ Hread1 Hread2 Hholds (Position.node_id node1));
      [by left|done].
  - apply (add_clusters_holds _ _ _ _ _ _ Hread1 Hread2 Hholds (Position.node_id node2));
      [by right|done].
Qed.

(** The theorem at the hits of two mates on the nodes 2 and 3 of a path. *)
Lemma resolve_paired_mems_near_witness :
  (false, 0%nat) ∈ @resolve_paired_mems three_node_path estimated_model [hit_on 2] [hit_on 3]
  /\ (true, 0%nat) ∈ @resolve_paired_mems three_node_path estimated_model [hit_on 2] [hit_on 3].
Proof.
  apply (@resolve_paired_mems_near three_node_path estimated_model [hit_on 2] [hit_on 3]
                                   0%nat 0%nat (hit_on 2) (hit_on 3) "ref" 0 2).
  - reflexivity.
  - reflexivity.
  - exists (Position.mk 2 0 false), [0]. split; [left|]. split; left.
  - exists (Position.mk 3 0 false), [2]. split; [left|]. split; left.
  - simpl. lia.
Defined.

(** X18: when the MEMs of one of the two reads have no hit, and so when one
    of the two lists is empty, [resolve_paired_mems] returns the empty set. *)
Theorem resolve_paired_mems_one_sided `{XG} (m : FragmentModel.t)
        (mems1 mems2 : list MaximalExactMatch.t) :
  Forall (fun mem => MaximalExactMatch.nodes mem = []) mems1
  \/ Forall (fun mem => MaximalExactMatch.nodes mem = []) mems2 ->
  resolve_paired_mems m mems1 mems2 = ∅.
Proof.
  intros Hnone. unfold resolve_paired_mems.
  apply (ModelProofs.fold_left_invariant (fun pairable : gset pointer => pairable = ∅));
    [|done].
  intros pairable cluster ->. apply add_cluster_one_sided.
  destruct Hnone as [Hnone|Hnone]; [left|right]; by apply add_hits_none.
Qed.

(** The theorem at a read without MEMs. *)
Lemma resolve_paired_mems_one_sided_witness :
  @resolve_paired_mems three_node_path estimated_model [hit_on 2] [] = ∅.
Proof.
  apply (@resolve_paired_mems_one_sided three_node_path estimated_model [hit_on 2] []).
  right. constructor.
Defined.
End PairableProofs.

(** ** The best path through the bands *)

Module BandsProofs.
Import Bands.

(** *** The scan of the scores of the band before *)

Lemma scan_previous_steps (n : nat) (l : list score_t) :
  forall p j,
    (best_idx p < n)%nat -> (unmapped_idx p < n)%nat -> (j + length l <= n)%nat ->
    let p' := fst (fold_left scan_previous_step l (p, j)) in
    (best_idx p' < n)%nat /\ (unmapped_idx p' < n)%nat.
Proof.
  induction l as [|t l IH]; intros p j Hbest Hunmapped Hj; simpl; [done|].
  simpl in Hj.
  set (p1 := if score_of (best_prev p) <? score_of t
             then mk_previous t j (unmapped_prev p) (unmapped_idx p) else p).
  set (p2 := if score_of t =? 0 then mk_previous (best_prev p1) (best_idx p1) t j else p1).
  apply (IH p2 (S j)); [| |lia].
  - unfold p2, p1. destruct (_ =? 0), (_ <? _); simpl; lia.
  - unfold p2, p1. destruct (_ =? 0), (_ <? _); simpl; lia.
Qed.

Lemma scan_previous_runs (prev_scores : list score_t) :
  prev_scores <> [] ->
  exists previous,
    scan_previous prev_scores = Some previous
    /\ (best_idx previous < length prev_scores)%nat
    /\ (unmapped_idx previous < length prev_scores)%nat.
Proof.
  intros Hne. unfold scan_previous. destruct prev_scores as [|first rest] eqn:E; [done|].
  cbn [head mbind option_bind]. rewrite <- E. eexists. split; [reflexivity|].
  apply scan_previous_steps; rewrite E; simpl; lia.
Qed.

(** *** The candidates of an alignment *)

Section Facts.
Context `{BandEngines}.

Lemma candidates_below_weaken n n' candidates :
  (n <= n')%nat -> candidates_below n candidates -> candidates_below n' candidates.
Proof.
  intros Hle Hbelow. unfold candidates_below in *.
  eapply Forall_impl; [exact Hbelow|]. intros entry [Hne Hall].
  split; [done|]. eapply Forall_impl; [exact Hall|]. simpl. lia.
Qed.

Lemma candidate_step_runs prev_alns curr_start n candidates (k : nat) (t : score_t) :
  (alignment_of t < length prev_alns)%nat -> (k < n)%nat ->
  candidates_below n candidates ->
  exists st, candidate_step prev_alns curr_start (candidates, k) t = Some st
             /\ candidates_below n (fst st) /\ (snd st <= S k)%nat.
Proof.
  intros Ht Hk Hbelow. unfold candidate_step.
  apply lookup_lt_is_Some in Ht as [old ->]. cbn [mbind option_bind].
  destruct (Alignment.score old =? 0).
  { eexists. split; [reflexivity|]. simpl. split; [done|lia]. }
  eexists. split; [reflexivity|]. cbn [fst snd]. split; [|lia].
  destruct (adjacent_positions _ _); [|done].
  apply (PairableProofs.map_update_values
           Z.ltb Z.eqb (fun v => v <> [] /\ Forall (fun c => (snd c < n)%nat) v));
    [| |done].
  - split; [done|]. by repeat constructor.
  - intros v [Hne Hall]. simpl. split; [by destruct v|].
    apply Forall_app. split; [done|]. by repeat constructor.
Qed.

Lemma candidate_steps_run prev_alns curr_start n (l : list score_t) :
  Forall (fun t => (alignment_of t < length prev_alns)%nat) l ->
  forall candidates k,
    (k + length l <= n)%nat -> candidates_below n candidates ->
    exists st, Model.fold_option (candidate_step prev_alns curr_start) l (candidates, k)
               = Some st
               /\ candidates_below n (fst st).
Proof.
  induction l as [|t l IH]; intros Hvalid candidates k Hk Hbelow; simpl; [eauto|].
  apply Forall_cons in Hvalid as [Ht Hl]. simpl in Hk.
  destruct (candidate_step_runs prev_alns curr_start n candidates k t Ht) as
    ([candidates' k'] & -> & Hbelow' & Hk'); [lia|done|].
  cbn [mbind option_bind]. simpl in Hk'. apply IH; [done|lia|done].
Qed.

Lemma best_candidate_below n candidates :
  candidates <> [] -> candidates_below n candidates ->
  exists opt, best_candidate candidates = Some opt /\ (snd opt < n)%nat.
Proof.
  intros Hne Hbelow. unfold best_candidate.
  destruct (last candidates) as [entry|] eqn:Hlast.
  - apply last_Some in Hlast as [front ->].
    apply Forall_app in Hbelow as [_ Hentry]. apply Forall_cons in Hentry as [[He Hall] _].
    simpl. destruct (snd entry) as [|opt rest]; [done|].
    apply Forall_cons in Hall as [Hopt _]. by exists opt.
  - apply last_None in Hlast. done.
Qed.

(** *** The scores of a band *)

Lemma score_alignment_in_band_runs parents prev_alns prev_scores previous a aln :
  scores_of_band parents prev_alns prev_scores ->
  (best_idx previous < length prev_scores)%nat ->
  (unmapped_idx previous < length prev_scores)%nat ->
  (Alignment.score aln <> 0 -> Alignment.path aln <> []) ->
  exists t, score_alignment_in_band prev_alns prev_scores previous a aln = Some t
            /\ alignment_of t = a /\ (parent_of t < length prev_scores)%nat.
Proof.
  intros [Hlen Hscores] Hbest Hunmapped Hpath. unfold score_alignment_in_band.
  destruct (Z.eqb_spec (Alignment.score aln) 0) as [|Hscore]; [by eexists|].
  destruct (Alignment.path aln) as [|first rest]; [by destruct (Hpath Hscore)|].
  cbn [head mbind option_bind].
  assert (Hvalid : Forall (fun t => (alignment_of t < length prev_alns)%nat) prev_scores).
  { apply Forall_lookup. intros j t Ht. destruct (Hscores j t Ht) as [-> _].
    apply lookup_lt_Some in Ht. lia. }
  destruct (candidate_steps_run prev_alns (Mapping.position first) (length prev_scores)
              prev_scores Hvalid [] 0%nat) as (st & -> & Hbelow); [simpl; lia|constructor|].
  cbn [mbind option_bind].
  destruct (fst st) as [|entry entries] eqn:Hst.
  - apply lookup_lt_is_Some in Hbest as [best_score Hbest_score]. rewrite Hbest_score.
    cbn [mbind option_bind].
    destruct (Hscores _ _ Hbest_score) as [Hptr _].
    assert (Hold : (alignment_of best_score < length prev_alns)%nat).
    { rewrite Hptr, <- Hlen. by apply lookup_lt_Some in Hbest_score. }
    apply lookup_lt_is_Some in Hold as [best_prev_aln ->]. cbn [mbind option_bind].
    apply lookup_lt_Some in Hbest_score.
    destruct (has_path best_prev_aln); by eexists.
  - destruct (best_candidate_below (length prev_scores) (entry :: entries)) as (opt & -> & Hopt);
      [done|done|].
    cbn [mbind option_bind]. by eexists.
Qed.

Lemma band_scores_runs parents prev_alns prev_scores curr_alns :
  scores_of_band parents prev_alns prev_scores -> prev_alns <> [] ->
  Forall (fun aln => Alignment.score aln <> 0 -> Alignment.path aln <> []) curr_alns ->
  exists curr_scores,
    band_scores prev_alns prev_scores curr_alns = Some curr_scores
    /\ scores_of_band (length prev_scores) curr_alns curr_scores.
Proof.
  intros Hprev Hne Hpaths. unfold band_scores.
  destruct (scan_previous_runs prev_scores) as (previous & -> & Hbest & Hunmapped).
  { destruct Hprev as [Hlen _]. destruct prev_scores; [|done].
    destruct prev_alns; [done|]. simpl in Hlen. lia. }
  cbn [mbind option_bind].
  match goal with |- context [mapM ?f _] => set (score := f) end.
  assert (Hsome : is_Some (mapM score (imap pair curr_alns))).
  { apply mapM_is_Some_2, Forall_forall. intros ja Hja.
    apply elem_of_lookup_imap in Hja as (j & aln & -> & Hj).
    rewrite Forall_lookup in Hpaths.
    destruct (score_alignment_in_band_runs parents prev_alns prev_scores previous j aln
                Hprev Hbest Hunmapped (Hpaths j aln Hj)) as (t & Ht & _).
    unfold score. simpl. by rewrite Ht. }
  destruct Hsome as [curr_scores Hrun]. exists curr_scores. split; [done|].
  apply mapM_Some in Hrun. split.
  - apply Forall2_length in Hrun. rewrite length_imap in Hrun. done.
  - intros j t Ht.
    destruct (Forall2_lookup_r _ _ _ _ _ Hrun Ht) as (ja & Hja & Hscore).
    rewrite list_lookup_imap in Hja. apply fmap_Some in Hja as (aln & Hj & ->).
    rewrite Forall_lookup in Hpaths.
    destruct (score_alignment_in_band_runs parents prev_alns prev_scores previous j aln
                Hprev Hbest Hunmapped (Hpaths j aln Hj)) as (t' & Ht' & Hptr & Hparent).
    unfold score in Hscore. simpl in Hscore. rewrite Ht' in Hscore. injection Hscore as <-.
    done.
Qed.

(** The bands that were scored, with the band before on top, stay chained
    when the other bands are scored. *)
Lemma all_scores_chained bands :
  resolvable bands ->
  forall prev_alns prev_scores rb rs,
    chained (prev_alns :: rb) (prev_scores :: rs) ->
    exists later,
      all_scores prev_alns prev_scores bands = Some later
      /\ chained (reverse bands ++ prev_alns :: rb) (reverse later ++ prev_scores :: rs).
Proof.
  induction bands as [|curr_alns rest IH]; intros Hbands prev_alns prev_scores rb rs Hchain.
  { exists []. done. }
  apply Forall_cons in Hbands as [[Hne Hpaths] Hrest].
  pose proof Hchain as (Hprev & Hprev_ne & _).
  destruct (band_scores_runs _ prev_alns prev_scores curr_alns Hprev Hprev_ne Hpaths)
    as (curr_scores & Hrun & Hcurr).
  destruct (IH Hrest curr_alns curr_scores (prev_alns :: rb) (prev_scores :: rs))
    as (later & Hlater & Hchained).
  { split; [done|]. split; [done|]. done. }
  exists (curr_scores :: later). simpl. rewrite Hrun. cbn [mbind option_bind].
  rewrite Hlater. cbn [mbind option_bind]. split; [done|].
  rewrite !reverse_cons, <- !(assoc_L (++)). done.
Qed.

(** *** The walk back *)

Lemma best_last_idx_runs (last_scores : list score_t) :
  last_scores <> [] ->
  exists idx, best_last_idx last_scores = Some idx /\ (idx < length last_scores)%nat.
Proof.
  intros Hne. unfold best_last_idx. destruct last_scores as [|first rest] eqn:E; [done|].
  cbn [head mbind option_bind]. rewrite <- E. eexists. split; [reflexivity|].
  assert (Hgen : forall (l : list score_t) (best : score_t) (idx j n : nat),
             (idx < n)%nat -> (j + length l <= n)%nat ->
             (snd (fst (fold_left (fun (st : score_t * nat * nat) (s : score_t) =>
                                     let '(best, idx, j) := st in
                                     if (score_of best <? score_of s)%Z
                                     then (s, j, S j) else (best, idx, S j))
                                  l (best, idx, j))) < n)%nat).
  { induction l as [|s l IH]; intros best idx j n Hidx Hj; simpl; [done|].
    simpl in Hj. destruct (_ <? _); apply IH; lia. }
  apply Hgen; rewrite E; simpl; lia.
Qed.

Lemma trace_back_runs rb :
  forall rs idx,
    chained rb rs ->
    (match rs with [] => True | sc :: _ => (idx < length sc)%nat end) ->
    exists alns, trace_back rb rs idx = Some alns
                 /\ Forall2 (fun aln band => aln ∈ band) alns (reverse rb).
Proof.
  induction rb as [|band rb IH]; intros rs idx Hchain Hidx.
  { destruct rs; [|done]. exists []. split; [done|constructor]. }
  destruct rs as [|sc rs]; [done|].
  destruct Hchain as ([Hlen Hscores] & Hne & Hrest).
  apply lookup_lt_is_Some in Hidx as [score Hscore].
  destruct (Hscores idx score Hscore) as [Hptr Hparent].
  assert (Haln : (alignment_of score < length band)%nat).
  { rewrite Hptr, <- Hlen. by apply lookup_lt_Some in Hscore. }
  apply lookup_lt_is_Some in Haln as [aln Haln].
  destruct (IH rs (parent_of score) Hrest) as (earlier & Hearlier & Hall).
  { destruct rs; [done|exact Hparent]. }
  exists (earlier ++ [aln]). simpl. rewrite Hscore. cbn [mbind option_bind].
  rewrite Haln. cbn [mbind option_bind]. rewrite Hearlier. cbn [mbind option_bind].
  split; [done|]. rewrite reverse_cons. apply Forall2_app; [done|].
  constructor; [|constructor]. apply list_elem_of_lookup. eauto.
Qed.

Lemma first_scores_band alns : scores_of_band 1 alns (first_scores alns).
Proof.
  unfold first_scores. split; [by rewrite length_imap|].
  intros j t Ht. rewrite list_lookup_imap in Ht.
  apply fmap_Some in Ht as (aln & _ & ->). simpl. split; [done|lia].
Qed.
End Facts.

(** X19: when every band has an alignment and every alignment with a score
    has a mapping, [resolve_banded_multi] reads no vector out of its bounds,
    and returns one alignment for each band, taken from the alignments of
    that band. *)
Theorem resolve_banded_multi_spec `{BandEngines} (multi_alns : list (list Alignment.t)) :
  multi_alns <> [] -> resolvable multi_alns ->
  exists alns,
    resolve_banded_multi multi_alns = Some alns
    /\ Forall2 (fun aln band => aln ∈ band) alns multi_alns.
Proof.
  intros Hne Hbands. unfold resolve_banded_multi.
  destruct multi_alns as [|first rest] eqn:E; [done|]. clear Hne.
  pose proof Hbands as Hall. apply Forall_cons in Hall as [[Hfirst _] Hrest].
  destruct (all_scores_chained rest Hrest first (first_scores first) [] [])
    as (later & -> & Hchain).
  { split; [apply first_scores_band|]. split; [done|]. done. }
  cbn [mbind option_bind].
  set (scores := first_scores first :: later) in *.
  assert (Hrev : reverse later ++ [first_scores first] = reverse scores).
  { unfold scores. by rewrite reverse_cons. }
  assert (Hrevb : reverse rest ++ [first] = reverse (first :: rest)).
  { by rewrite reverse_cons. }
  rewrite Hrev, Hrevb in Hchain.
  destruct (reverse scores) as [|last_scores rs] eqn:Hscores.
  { apply (f_equal reverse) in Hscores. rewrite reverse_involutive in Hscores. done. }
  assert (Hlast : last scores = Some last_scores).
  { rewrite <- head_reverse, Hscores. done. }
  rewrite Hlast. cbn [mbind option_bind].
  destruct (reverse (first :: rest)) as [|last_band rb] eqn:Hrb; [done|].
  pose proof Hchain as ([Hlen _] & Hband & _).
  destruct (best_last_idx_runs last_scores) as (idx & -> & Hidx).
  { destruct last_scores; [|done]. destruct last_band; [done|]. simpl in Hlen. lia. }
  cbn [mbind option_bind].
  destruct (trace_back_runs (last_band :: rb) (last_scores :: rs) idx Hchain Hidx)
    as (alns & -> & Hin).
  exists alns. split; [done|].
  rewrite <- Hrb, reverse_involutive in Hin. done.
Qed.

(** The theorem at two bands with an alignment and a read that is not
    aligned. *)
Lemma resolve_banded_multi_spec_witness :
  exists alns,
    @resolve_banded_multi plain_bands [[forward_mate; lost_mate]; [lost_mate; forward_mate]]
    = Some alns
    /\ Forall2 (fun aln band => aln ∈ band) alns
               [[forward_mate; lost_mate]; [lost_mate; forward_mate]].
Proof.
  apply (@resolve_banded_multi_spec plain_bands); [done|].
  repeat constructor; (done || (intros Hscore; by vm_compute in Hscore)).
Defined.
End BandsProofs.

(** ** The pieces of the perfect-match alignment *)

Module PerfectProofs.
Import Perfect.

Lemma substr_runs s pos n : 0 <= pos <= size s -> is_Some (substr s pos n).
Proof.
  intros Hpos. unfold substr.
  assert (Hle : to_size_t pos <= pos).
  { unfold to_size_t. apply Z.mod_le; lia. }
  destruct (Z.ltb_spec (size s) (to_size_t pos)); [lia|by eexists].
Qed.

Section Facts.
Context `{MatchEngines}.

Lemma mem_to_alignment_runs read mem :
  0 <= MaximalExactMatch.begin mem ->
  MaximalExactMatch.begin mem <= MaximalExactMatch.end' mem ->
  MaximalExactMatch.end' mem <= size read ->
  MaximalExactMatch.nodes mem <> [] ->
  is_Some (mem_to_alignment read mem).
Proof.
  intros Hbegin Horder Hend Hnodes. unfold mem_to_alignment, mem_sequence.
  destruct (Z.leb_spec 0 (MaximalExactMatch.begin mem)); [|lia].
  destruct (Z.leb_spec (MaximalExactMatch.begin mem) (MaximalExactMatch.end' mem)); [|lia].
  destruct (Z.leb_spec (MaximalExactMatch.end' mem) (size read)); [|lia].
  simpl. destruct (MaximalExactMatch.nodes mem); [done|by eexists].
Qed.

Lemma piece_step_spec read alns last_end (k : nat) mem aln :
  mem_to_alignment read mem = Some aln ->
  0 <= last_end <= size read -> (k = 0%nat -> last_end = 0) ->
  0 <= MaximalExactMatch.begin mem ->
  piece_step read (alns, last_end) (k, mem)
  = if MaximalExactMatch.end' mem <=? last_end then Some (alns, last_end)
    else Some (alns ++ one_mem read last_end mem aln, MaximalExactMatch.end' mem).
Proof.
  intros Haln Hlast Hfirst Hbegin. unfold piece_step, one_mem. cbn [fst snd].
  destruct (MaximalExactMatch.end' mem <=? last_end); [done|].
  assert (Hstrip :
            (if (0 <? k)%nat
             then if 0 <? last_end - MaximalExactMatch.begin mem
                  then strip_from_start aln (last_end - MaximalExactMatch.begin mem)
                  else aln
             else aln)
            = (if MaximalExactMatch.begin mem <? Z.max last_end (MaximalExactMatch.begin mem)
               then strip_from_start
                      aln (Z.max last_end (MaximalExactMatch.begin mem)
                           - MaximalExactMatch.begin mem)
               else aln)).
  { destruct (Nat.ltb_spec 0 k) as [_|Hzero].
    - destruct (Z.ltb_spec 0 (last_end - MaximalExactMatch.begin mem)).
      + rewrite Z.max_l by lia.
        destruct (Z.ltb_spec (MaximalExactMatch.begin mem) last_end); [done|lia].
      + rewrite Z.max_r by lia. by rewrite Z.ltb_irrefl.
    - rewrite Hfirst by lia. rewrite Z.max_r by lia. by rewrite Z.ltb_irrefl. }
  destruct (Z.ltb_spec last_end (MaximalExactMatch.begin mem)) as [Hgap|Hnogap].
  - destruct (substr_runs read last_end (MaximalExactMatch.begin mem - last_end) Hlast)
      as [gap ->].
    cbn [mbind option_bind default]. rewrite Haln. cbn [mbind option_bind].
    rewrite Hstrip. by rewrite <- (assoc_L (++)).
  - cbn [mbind option_bind]. rewrite Haln. cbn [mbind option_bind]. by rewrite Hstrip.
Qed.

Lemma mapM_cons_Some {A B} (f : A -> option B) x y (l : list A) :
  f x = Some y -> mapM f (x :: l) = k ← mapM f l; Some (y :: k).
Proof. intros Hx. simpl. rewrite Hx. done. Qed.

Lemma layout_spec read last_end mem rest aln :
  mem_to_alignment read mem = Some aln -> 0 <= last_end <= size read ->
  mapM (realize read) (layout last_end (mem :: rest) (size read))
  = if MaximalExactMatch.end' mem <=? last_end
    then mapM (realize read) (layout last_end rest (size read))
    else later ← mapM (realize read) (layout (MaximalExactMatch.end' mem) rest (size read));
         Some (one_mem read last_end mem aln ++ later).
Proof.
  intros Haln Hlast. cbn [layout]. unfold one_mem.
  destruct (MaximalExactMatch.end' mem <=? last_end); [done|].
  assert (Hmatched :
            realize read (Matched mem (Z.max last_end (MaximalExactMatch.begin mem)))
            = Some (if MaximalExactMatch.begin mem
                       <? Z.max last_end (MaximalExactMatch.begin mem)
                    then strip_from_start aln (Z.max last_end (MaximalExactMatch.begin mem)
                                               - MaximalExactMatch.begin mem)
                    else aln)).
  { simpl. by rewrite Haln. }
  destruct (Z.ltb_spec last_end (MaximalExactMatch.begin mem)) as [Hgap|Hnogap].
  - destruct (substr_runs read last_end (MaximalExactMatch.begin mem - last_end) Hlast)
      as [gap Hgap_seq].
    assert (Hunaligned :
              realize read (Unaligned last_end (MaximalExactMatch.begin mem))
              = Some (Alignment.set_sequence Alignment.default gap)).
    { simpl. by rewrite Hgap_seq. }
    cbn [app]. rewrite (mapM_cons_Some _ _ _ _ Hunaligned), (mapM_cons_Some _ _ _ _ Hmatched).
    rewrite Hgap_seq. destruct (mapM (realize read) _); done.
  - cbn [app]. rewrite (mapM_cons_Some _ _ _ _ Hmatched).
    destruct (mapM (realize read) _); done.
Qed.

(** The loop from the MEM at index [i] on makes the pieces of the layout. *)
Lemma pieces_from read mems :
  forall (i : nat) alns last_end,
    within read mems -> 0 <= last_end <= size read -> (i = 0%nat -> last_end = 0) ->
    exists realized,
      mapM (realize read) (layout last_end mems (size read)) = Some realized
      /\ (st ← Model.fold_option (piece_step read)
                                 (imap (fun j mem => ((i + j)%nat, mem)) mems)
                                 (alns, last_end);
          tail ← substr read (snd st) (size read - (0 + snd st));
          Some (fst st ++ [Alignment.set_sequence Alignment.default tail]))
         = Some (alns ++ realized).
Proof.
  induction mems as [|mem rest IH]; intros i alns last_end Hwithin Hlast Hfirst.
  - simpl. destruct (substr_runs read last_end (size read - last_end) Hlast) as [tail Htail].
    rewrite Z.add_0_l, Htail. simpl. eexists. split; [reflexivity|]. done.
  - apply Forall_cons in Hwithin as [(Hbegin & Horder & Hend & Hnodes) Hrest].
    destruct (mem_to_alignment_runs read mem Hbegin Horder Hend Hnodes) as [aln Haln].
    rewrite (layout_spec read last_end mem rest aln Haln Hlast).
    rewrite imap_cons. cbn [Model.fold_option].
    rewrite (piece_step_spec read alns last_end (i + 0) mem aln Haln Hlast) by (done || lia).
    assert (Hnext : forall alns' last_end',
               0 <= last_end' <= size read ->
               exists realized,
                 mapM (realize read) (layout last_end' rest (size read)) = Some realized
                 /\ (st ← Model.fold_option (piece_step read)
                                            (imap ((fun j mem => ((i + j)%nat, mem)) ∘ S) rest)
                                            (alns', last_end');
                     tail ← substr read (snd st) (size read - (0 + snd st));
                     Some (fst st ++ [Alignment.set_sequence Alignment.default tail]))
                    = Some (alns' ++ realized)).
    { intros alns' last_end' Hlast'.
      destruct (IH (S i) alns' last_end' Hrest Hlast') as (realized & Hrealized & Hrun); [done|].
      exists realized. split; [done|]. rewrite <- Hrun. f_equal. f_equal.
      apply imap_ext. intros j m _. simpl. f_equal. lia. }
    destruct (Z.leb_spec (MaximalExactMatch.end' mem) last_end) as [Hskip|Huse];
      cbn [mbind option_bind].
    + by apply Hnext.
    + destruct (Hnext (alns ++ one_mem read last_end mem aln) (MaximalExactMatch.end' mem))
        as (realized & -> & Hrun); [lia|].
      cbn [mbind option_bind]. eexists. split; [reflexivity|].
      rewrite Hrun. by rewrite <- (assoc_L (++)).
Qed.
End Facts.

(** *** The layout *)

Lemma layout_tiles read mems :
  within read mems ->
  forall last_end, last_end <= size read -> tiles last_end (size read) (layout last_end mems (size read)).
Proof.
  induction mems as [|mem rest IH]; intros Hwithin last_end Hlast; simpl; [done|].
  apply Forall_cons in Hwithin as [(Hbegin & Horder & Hend & _) Hrest].
  destruct (Z.leb_spec (MaximalExactMatch.end' mem) last_end) as [Hskip|Huse]; [by apply IH|].
  destruct (Z.ltb_spec last_end (MaximalExactMatch.begin mem)) as [Hgap|Hnogap]; simpl.
  - split; [done|]. split; [lia|]. split; [lia|]. split; [lia|]. by apply IH.
  - split; [lia|]. split; [lia|]. by apply IH.
Qed.

Lemma layout_matched mems length mem from :
  forall last_end,
    Matched mem from ∈ layout last_end mems length ->
    mem ∈ mems /\ from = Z.max last_end (MaximalExactMatch.begin mem)
    \/ mem ∈ mems /\ MaximalExactMatch.begin mem <= from.
Proof.
  induction mems as [|m rest IH]; intros last_end Hin; simpl in Hin.
  { apply list_elem_of_singleton in Hin. done. }
  destruct (MaximalExactMatch.end' m <=? last_end).
  { destruct (IH last_end Hin) as [[? ?]|[? ?]]; [right|right]; (split; [by right|lia]). }
  apply elem_of_app in Hin as [Hin|Hin].
  { destruct (last_end <? MaximalExactMatch.begin m); [|by apply elem_of_nil in Hin].
    apply list_elem_of_singleton in Hin. done. }
  apply elem_of_cons in Hin as [[= -> ->]|Hin].
  - left. split; [left|done].
  - destruct (IH _ Hin) as [[? ?]|[? ?]]; right; (split; [by right|lia]).
Qed.

(** X20: for MEMs that are ranges of the read and have a hit, the pieces
    that [mems_to_alignment] merges are the pieces of a layout of spans that
    follow one another from the start of the read to its end: the bases that
    no MEM covers, and every MEM that reaches past the one before it, from
    the end of that one on.  So every base of the read is in one piece. *)
Theorem mems_to_alignment_tiles `{MatchEngines}
        (aln : Alignment.t) (mems : list MaximalExactMatch.t) :
  within (Alignment.sequence aln) mems ->
  exists alns,
    pieces aln mems = Some alns
    /\ mapM (realize (Alignment.sequence aln))
            (layout 0 mems (size (Alignment.sequence aln))) = Some alns
    /\ tiles 0 (size (Alignment.sequence aln)) (layout 0 mems (size (Alignment.sequence aln)))
    /\ (forall mem from,
           Matched mem from ∈ layout 0 mems (size (Alignment.sequence aln)) ->
           mem ∈ mems /\ MaximalExactMatch.begin mem <= from)
    /\ (mems <> [] ->
        mems_to_alignment aln mems
        = Some (Alignment.set_quality (merge_alignments alns) (Alignment.quality aln))).
Proof.
  intros Hwithin.
  assert (Hsize : 0 <= size (Alignment.sequence aln)) by (unfold size; lia).
  destruct (pieces_from (Alignment.sequence aln) mems 0 [] 0 Hwithin) as (alns & Hlayout & Hrun);
    [lia|done|].
  assert (Hpieces : pieces aln mems = Some alns).
  { change (Some alns) with (Some ([] ++ alns)). rewrite <- Hrun. reflexivity. }
  exists alns. split; [done|]. split; [done|]. split; [by apply layout_tiles|]. split.
  - intros mem from Hin.
    destruct (layout_matched _ _ _ _ _ Hin) as [[Hmem ->]|[Hmem Hfrom]]; (split; [done|lia]).
  - intros Hne. unfold mems_to_alignment. destruct mems; [done|]. by rewrite Hpieces.
Qed.

(** The theorem at a seed in the second half of a read of ten bases. *)
Lemma mems_to_alignment_tiles_witness :
  exists alns,
    @pieces plain_matches tie_read [seed_middle] = Some alns
    /\ tiles 0 10 (layout 0 [seed_middle] 10).
Proof.
  destruct (@mems_to_alignment_tiles plain_matches tie_read [seed_middle])
    as (alns & Hpieces & _ & Htiles & _).
  - repeat constructor; simpl; (lia || done).
  - exists alns. split; [exact Hpieces|exact Htiles].
Defined.
End PerfectProofs.

(* ===================================================================== *)
(** * Clusters of node ids                                                *)
(* ===================================================================== *)

Module ThreadsProofs.
Import Threads.

(** *** The ids of the hits *)

Lemma add_hits_ids mem nodes : forall h,
  ids (fold_left (add_hit mem) nodes h) = ids h ++ (Position.node_id <$> nodes).
Proof.
  induction nodes as [|node rest IH]; intros h; simpl.
  - by rewrite app_nil_r.
  - rewrite IH. simpl. by rewrite <- app_assoc.
Qed.

Lemma hits_ids mems :
  ids (hits mems)
  = mems ≫= (fun mem => Position.node_id <$> MaximalExactMatch.nodes mem).
Proof.
  unfold hits.
  assert (Hgen : forall h,
             ids (fold_left (fun h mem => fold_left (add_hit mem) (MaximalExactMatch.nodes mem) h)
                            mems h)
             = ids h ++ (mems ≫= (fun mem => Position.node_id <$> MaximalExactMatch.nodes mem))).
  { induction mems as [|mem rest IH]; intros h; simpl.
    - by rewrite app_nil_r.
    - rewrite IH, add_hits_ids. by rewrite <- app_assoc. }
  by rewrite Hgen.
Qed.

Lemma hits_ids_elem mems id :
  id ∈ ids (hits mems) <-> exists rc, hit_on mems rc id.
Proof.
  rewrite hits_ids, list_elem_of_bind. split.
  - intros (mem & Hid & Hmem). apply list_elem_of_fmap in Hid as (node & -> & Hnode).
    exists (Position.is_reverse node), mem, node. done.
  - intros (rc & mem & node & Hmem & Hnode & <- & _).
    exists mem. split; [|done]. by apply list_elem_of_fmap_2.
Qed.

(** *** [std::unique] of sorted ids *)

Lemma unique_elem ids x : x ∈ unique ids <-> x ∈ ids.
Proof.
  induction ids as [|id rest IH]; [done|].
  destruct rest as [|next rest']; [done|].
  change (unique (id :: next :: rest'))
    with (if id =? next then unique (next :: rest') else id :: unique (next :: rest')).
  destruct (Z.eqb_spec id next) as [->|Hne].
  - rewrite IH. rewrite !elem_of_cons. tauto.
  - rewrite (elem_of_cons (unique _)), IH. rewrite !elem_of_cons. tauto.
Qed.

Lemma unique_ascending ids :
  StronglySorted Z.le ids -> StronglySorted Z.lt (unique ids).
Proof.
  induction ids as [|id rest IH]; intros Hs; [constructor|].
  apply StronglySorted_cons in Hs as [Hid Hrest].
  destruct rest as [|next rest']; [repeat constructor|].
  change (unique (id :: next :: rest'))
    with (if id =? next then unique (next :: rest') else id :: unique (next :: rest')).
  destruct (Z.eqb_spec id next) as [->|Hne]; [by apply IH|].
  apply StronglySorted_cons. split; [|by apply IH].
  apply Forall_forall. intros x Hx. apply (proj1 (unique_elem _ _)) in Hx.
  apply StronglySorted_cons in Hrest as [Hnext _].
  apply Forall_cons in Hid as [Hle _].
  apply elem_of_cons in Hx as [->|Hx]; [lia|].
  rewrite Forall_forall in Hnext. specialize (Hnext x Hx). lia.
Qed.

Lemma sorted_ids_ascending mems : StronglySorted Z.lt (sorted_ids mems).
Proof. apply unique_ascending, StronglySorted_merge_sort; apply _. Qed.

Lemma sorted_ids_elem mems id :
  id ∈ sorted_ids mems <-> exists rc, hit_on mems rc id.
Proof.
  unfold sorted_ids. rewrite unique_elem, <- hits_ids_elem.
  by rewrite (merge_sort_Permutation Z.le).
Qed.

(** *** The loop over the ids *)

Lemma follows_short {A} (a x y : A) : ~ follows [a] x y.
Proof.
  intros (before & after & Heq). apply (f_equal length) in Heq.
  rewrite length_app in Heq. simpl in Heq. lia.
Qed.

Lemma follows_cons {A} (a : A) l x y :
  follows (a :: l) x y -> x = a /\ head l = Some y \/ follows l x y.
Proof.
  intros (before & after & Heq). destruct before as [|b before]; simpl in Heq.
  - injection Heq as -> ->. by left.
  - injection Heq as -> ->. right. by exists before, after.
Qed.

Lemma follows_snoc {A} (l : list A) (a x y : A) :
  follows (l ++ [a]) x y -> follows l x y \/ last l = Some x /\ y = a.
Proof.
  induction l as [|b l IH]; simpl; intros Hf.
  { by apply follows_short in Hf. }
  apply follows_cons in Hf as [[-> Hhead]|Hf].
  - destruct l as [|c l]; simpl in Hhead.
    + injection Hhead as <-. by right.
    + injection Hhead as <-. left. by exists [], l.
  - destruct (IH Hf) as [(before & after & ->)|[Hlast ->]].
    + left. by exists (b :: before), after.
    + right. split; [|done]. destruct l; [done|]. done.
Qed.

Lemma follows_ascending (l : list Z) x y :
  StronglySorted Z.lt l -> follows l x y -> x < y.
Proof.
  intros Hs (before & after & ->).
  apply StronglySorted_app_1_r, StronglySorted_cons in Hs as [Hx _].
  by apply Forall_cons in Hx as [? _].
Qed.

Section Clusters.
Context `{ThreadSettings}.

Lemma extend_concat ids : forall back prev,
  concat (extend back prev ids) = back ++ prev :: ids.
Proof.
  induction ids as [|id rest IH]; intros back prev; simpl.
  - by rewrite app_nil_r.
  - destruct (id - prev <=? thread_extension); simpl; rewrite IH.
    + by rewrite <- app_assoc.
    + by rewrite <- app_assoc.
Qed.

Lemma extend_nonempty ids : forall back prev,
  Forall (fun cluster => cluster <> []) (extend back prev ids).
Proof.
  induction ids as [|id rest IH]; intros back prev; simpl.
  - repeat constructor. by destruct back.
  - destruct (id - prev <=? thread_extension); [by apply IH|].
    constructor; [by destruct back|by apply IH].
Qed.

Lemma extend_head ids : forall back prev cluster,
  head (extend back prev ids) = Some cluster -> head cluster = head (back ++ [prev]).
Proof.
  induction ids as [|id rest IH]; intros back prev cluster; simpl.
  - by intros [= <-].
  - destruct (id - prev <=? thread_extension).
    + intros Hhead. rewrite (IH _ _ _ Hhead). by destruct back.
    + by intros [= <-].
Qed.

Lemma extend_within ids : forall back prev cluster x y,
  cluster ∈ extend back prev ids -> follows cluster x y ->
  follows (back ++ [prev]) x y \/ y - x <= thread_extension.
Proof.
  induction ids as [|id rest IH]; intros back prev cluster x y; simpl.
  - intros Hin Hf. apply list_elem_of_singleton in Hin as ->. by left.
  - destruct (Z.leb_spec (id - prev) thread_extension) as [Hnear|Hfar]; intros Hin Hf.
    + destruct (IH _ _ _ _ _ Hin Hf) as [Hold|Hgap]; [|by right].
      apply follows_snoc in Hold as [Hold|[Hlast ->]]; [by left|right].
      rewrite last_snoc in Hlast. injection Hlast as <-. done.
    + apply elem_of_cons in Hin as [->|Hin]; [by left|].
      destruct (IH _ _ _ _ _ Hin Hf) as [Hold|Hgap]; [|by right].
      by apply follows_short in Hold.
Qed.

Lemma extend_apart ids : forall back prev c1 c2 x y,
  follows (extend back prev ids) c1 c2 -> last c1 = Some x -> head c2 = Some y ->
  thread_extension < y - x.
Proof.
  induction ids as [|id rest IH]; intros back prev c1 c2 x y; simpl.
  - intros Hf. by apply follows_short in Hf.
  - destruct (Z.leb_spec (id - prev) thread_extension) as [Hnear|Hfar]; intros Hf Hlast Hhead.
    + by apply (IH _ _ _ _ _ _ Hf).
    + apply follows_cons in Hf as [[-> Hnext]|Hf]; [|by apply (IH _ _ _ _ _ _ Hf)].
      rewrite last_snoc in Hlast. injection Hlast as <-.
      apply extend_head in Hnext. simpl in Hnext. rewrite Hnext in Hhead.
      injection Hhead as <-. done.
Qed.

Lemma id_clusters_concat ids : concat (id_clusters ids) = ids.
Proof. destruct ids as [|id rest]; [done|]. simpl. by rewrite extend_concat. Qed.

Lemma id_clusters_length ids : (length (id_clusters ids) <= length ids)%nat.
Proof.
  rewrite <- (id_clusters_concat ids) at 2.
  assert (Hne : Forall (fun cluster : list Z => cluster <> []) (id_clusters ids)).
  { destruct ids; [constructor|]. apply extend_nonempty. }
  induction Hne as [|cluster l Hc _ IH]; simpl; [done|].
  rewrite length_app. destruct cluster; [done|]. simpl. lia.
Qed.
End Clusters.

(** X21: the clusters of node ids.  The clusters are the ids of the nodes
    with a hit, each one once and in ascending order, cut into runs that are
    not empty: two ids that follow one another in a cluster are at most
    [thread_extension] apart, and the last id of a cluster and the first id
    of the next one are more than [thread_extension] apart. *)
Theorem id_clusters_spec `{ThreadSettings} (mems : list MaximalExactMatch.t) :
  StronglySorted Z.lt (concat (id_clusters (sorted_ids mems)))
  /\ (forall id, id ∈ concat (id_clusters (sorted_ids mems)) <-> exists rc, hit_on mems rc id)
  /\ Forall (fun cluster => cluster <> []) (id_clusters (sorted_ids mems))
  /\ (forall cluster x y,
         cluster ∈ id_clusters (sorted_ids mems) -> follows cluster x y ->
         0 < y - x <= thread_extension)
  /\ (forall c1 c2 x y,
         follows (id_clusters (sorted_ids mems)) c1 c2 ->
         last c1 = Some x -> head c2 = Some y ->
         thread_extension < y - x).
Proof.
  pose proof (sorted_ids_ascending mems) as Hs.
  rewrite id_clusters_concat.
  split; [done|]. split; [by apply sorted_ids_elem|]. split; [|split].
  - destruct (sorted_ids mems); [constructor|]. apply extend_nonempty.
  - intros cluster x y Hin Hf. split.
    + assert (Hc : StronglySorted Z.lt cluster).
      { rewrite <- (id_clusters_concat (sorted_ids mems)) in Hs.
        apply list_elem_of_split in Hin as (l1 & l2 & Heq). rewrite Heq in Hs.
        rewrite concat_app in Hs. simpl in Hs.
        by apply StronglySorted_app_1_r, StronglySorted_app_1_l in Hs. }
      pose proof (follows_ascending _ _ _ Hc Hf). lia.
    + destruct (sorted_ids mems) as [|id rest]; [by apply elem_of_nil in Hin|].
      destruct (extend_within _ _ _ _ _ _ Hin Hf) as [Hold|Hgap]; [|done].
      by apply follows_short in Hold.
  - intros c1 c2 x y Hf Hlast Hhead.
    destruct (sorted_ids mems) as [|id rest].
    + destruct Hf as (before & after & Heq). by destruct before.
    + by apply (extend_apart _ _ _ _ _ _ _ Hf).
Qed.
(** *** The hits of the nodes *)

Lemma fold_left_invariant_elem {A B} (P : B -> Prop) (f : B -> A -> B) (l : list A) :
  (forall b x, x ∈ l -> P b -> P (f b x)) -> forall b, P b -> P (fold_left f l b).
Proof.
  induction l as [|x l IH]; intros Hf b Hb; simpl; [done|].
  apply IH.
  - intros b' y Hy. apply Hf. by right.
  - apply Hf; [left|done].
Qed.

Lemma map_update_entries {V} (Q : Z * V -> Prop) k f (m : list (Z * V)) :
  Q (k, f None) -> (forall v, Q (k, v) -> Q (k, f (Some v))) ->
  Forall Q m -> Forall Q (map_update Z.ltb Z.eqb k f m).
Proof.
  intros Hnone Hsome. induction m as [|[k' v'] rest IH]; simpl; intros Hm.
  - by repeat constructor.
  - pose proof Hm as Hm'. apply Forall_cons in Hm' as [Hv Hrest].
    destruct (k <? k'); [by constructor|].
    destruct (Z.eqb_spec k k') as [->|Hne]; constructor; auto.
Qed.

Lemma hits_invariant (P : Hits -> Prop) mems :
  P (mk_hits [] [] []) ->
  (forall h mem node,
      mem ∈ mems -> node ∈ MaximalExactMatch.nodes mem -> P h -> P (add_hit mem h node)) ->
  P (hits mems).
Proof.
  intros Hinit Hstep. unfold hits.
  apply (fold_left_invariant_elem P); [|done].
  intros h mem Hmem Hh.
  apply (fold_left_invariant_elem P); [|done].
  intros h' node Hnode Hh'. by apply Hstep.
Qed.

Lemma to_uint32_sum a b : to_uint32 (a + b) <> 0 -> a <> 0 \/ b <> 0.
Proof.
  intros Hsum. destruct (Z.eq_dec a 0) as [->|]; [|by left].
  destruct (Z.eq_dec b 0) as [->|]; [|by right]. done.
Qed.

Lemma hits_counted mems : Forall (counted mems) (node_strands (hits mems)).
Proof.
  apply (hits_invariant (fun h => Forall (counted mems) (node_strands h))); [constructor|].
  intros h mem node Hmem Hnode Hh. simpl.
  assert (Hhit : hit_on mems (Position.is_reverse node) (Position.node_id node)).
  { by exists mem, node. }
  apply map_update_entries; [| |done].
  - unfold counted, count_strand. simpl.
    destruct (Position.is_reverse node); simpl; split; done.
  - intros c [Hfw Hrc]. simpl in Hfw, Hrc. unfold counted, count_strand. simpl.
    destruct (Position.is_reverse node); simpl; split; done.
Qed.

Lemma hits_well_formed mems :
  Forall Clusters.well_formed mems ->
  Forall (fun entry => Forall Clusters.well_formed (snd entry)) (id_to_mems (hits mems)).
Proof.
  intros Hwf.
  apply (hits_invariant
           (fun h => Forall (fun entry => Forall Clusters.well_formed (snd entry))
                            (id_to_mems h))); [constructor|].
  intros h mem node Hmem Hnode Hh. simpl.
  rewrite Forall_forall in Hwf.
  apply map_update_entries; [| |done]; simpl.
  - repeat constructor. by apply Hwf.
  - intros l Hl. apply Forall_app. split; [done|]. repeat constructor. by apply Hwf.
Qed.

Lemma strand_totals_hits mems ns nodes :
  Forall (counted mems) ns ->
  (forward (strand_totals ns nodes) <> 0 -> exists id, id ∈ nodes /\ hit_on mems false id)
  /\ (reverse' (strand_totals ns nodes) <> 0 -> exists id, id ∈ nodes /\ hit_on mems true id).
Proof.
  intros Hns. unfold strand_totals.
  assert (Hgen : forall c,
             (forward c <> 0 -> exists id, id ∈ nodes /\ hit_on mems false id)
             /\ (reverse' c <> 0 -> exists id, id ∈ nodes /\ hit_on mems true id)
             -> let r := fold_left
                           (fun c n =>
                              match map_find Z.eqb n ns with
                              | Some s => mk_counts (to_uint32 (forward c + forward s))
                                                    (to_uint32 (reverse' c + reverse' s))
                              | None => c
                              end) nodes c in
                (forward r <> 0 -> exists id, id ∈ nodes /\ hit_on mems false id)
                /\ (reverse' r <> 0 -> exists id, id ∈ nodes /\ hit_on mems true id)).
  { intros c Hc. simpl.
    apply (fold_left_invariant_elem
             (fun r => (forward r <> 0 -> exists id, id ∈ nodes /\ hit_on mems false id)
                       /\ (reverse' r <> 0 -> exists id, id ∈ nodes /\ hit_on mems true id)));
      [|done].
    intros r n Hn [Hfw Hrc].
    destruct (map_find Z.eqb n ns) as [s|] eqn:Hfind; [|done].
    apply (PairableProofs.map_find_elem Z.eqb PairableProofs.Z_eqb_eq) in Hfind.
    rewrite Forall_forall in Hns. destruct (Hns _ Hfind) as [Hsfw Hsrc]. simpl in *.
    split; intros Hsum; apply to_uint32_sum in Hsum as [?|?]; eauto. }
  apply Hgen. simpl. done.
Qed.

(** *** The coverage of the clusters *)

Lemma query_coverage_runs itm cluster :
  Forall (fun entry => Forall Clusters.well_formed (snd entry)) itm ->
  is_Some (query_coverage itm cluster).
Proof.
  intros Hitm. unfold query_coverage.
  destruct (ModelProofs.fold_option_runs
              (fun _ : gset Z => True)
              (fun seen id => Clusters.cover_all seen (default [] (map_find Z.eqb id itm)))
              cluster) with (b := (∅ : gset Z)) as (seen & -> & _); [|done|by eexists].
  intros seen id _. eexists. split; [|done].
  apply ClustersProofs.cover_all_covered.
  destruct (map_find Z.eqb id itm) as [l|] eqn:Hfind; simpl; [|constructor].
  apply (PairableProofs.map_find_elem Z.eqb PairableProofs.Z_eqb_eq) in Hfind.
  rewrite Forall_forall in Hitm. by apply (Hitm _ Hfind).
Qed.

(** *** The loop over the clusters *)

Section Attempts.
Context `{Mapper} `{ThreadSettings} `{SubgraphEngines} `{StdSort}.
Variable alignment : Alignment.t.
Variable mems : list MaximalExactMatch.t.
Variable clusters : list (list Z).
Variable total_multimaps : Z.
Variable ns : list (Z * StrandCounts).
Hypothesis Hns : Forall (counted mems) ns.

Let aln_fw := Alignment.set_score (Alignment.clear_path alignment) 0.
Let aln_rc := reverse_complement_alignment aln_fw.

Lemma align_cluster_spec attempts cluster alns :
  cluster ∈ clusters ->
  to_size_t cluster_min <= Z.of_nat (length cluster) ->
  subgraph_too_long alignment cluster = false ->
  exists new,
    fst (align_cluster total_multimaps attempts aln_fw aln_rc
                       (strand_totals ns (subgraph_nodes cluster)) cluster alns)
    = alns ++ new
    /\ (length new <= 2)%nat
    /\ Forall (attempted alignment mems clusters) new.
Proof.
  intros Hin Hsize Hlong.
  destruct (strand_totals_hits mems ns (subgraph_nodes cluster) Hns) as [Hfw Hrc].
  assert (Hforward : forward (strand_totals ns (subgraph_nodes cluster)) <> 0 ->
                     attempted alignment mems clusters (align_to_subgraph aln_fw cluster)).
  { intros Hne. exists cluster. split; [done|]. split; [done|]. split; [done|].
    left. split; [done|]. by apply Hfw. }
  assert (Hreverse : reverse' (strand_totals ns (subgraph_nodes cluster)) <> 0 ->
                     attempted alignment mems clusters
                               (reverse_complement_alignment (align_to_subgraph aln_rc cluster))).
  { intros Hne. exists cluster. split; [done|]. split; [done|]. split; [done|].
    right. split; [done|]. by apply Hrc. }
  unfold align_cluster.
  destruct (Z.eqb_spec (forward (strand_totals ns (subgraph_nodes cluster))) 0) as [_|Hf];
    cbn [fst snd].
  - destruct (Z.eqb_spec (reverse' (strand_totals ns (subgraph_nodes cluster))) 0) as [_|Hr];
      cbn [fst snd].
    + exists []. split; [by rewrite app_nil_r|]. split; [simpl; lia|constructor].
    + eexists [_]. split; [done|]. split; [simpl; lia|]. repeat constructor. by apply Hreverse.
  - destruct (accepted total_multimaps attempts (align_to_subgraph aln_fw cluster));
      cbn [fst snd].
    { eexists [_]. split; [done|]. split; [simpl; lia|]. repeat constructor. by apply Hforward. }
    destruct (Z.eqb_spec (reverse' (strand_totals ns (subgraph_nodes cluster))) 0) as [_|Hr];
      cbn [fst snd].
    + eexists [_]. split; [done|]. split; [simpl; lia|]. repeat constructor. by apply Hforward.
    + eexists [_; _]. split; [by rewrite <- app_assoc|]. split; [simpl; lia|].
      repeat constructor; [by apply Hforward|by apply Hreverse].
Qed.

Lemma attempt_clusters_spec ranked_clusters :
  Forall (fun cptr => (cptr < length clusters)%nat) ranked_clusters ->
  forall attempts alns,
    exists out,
      attempt_clusters alignment total_multimaps aln_fw aln_rc ns clusters
                       ranked_clusters attempts alns = Some (alns ++ out)
      /\ Z.of_nat (length out)
         <= 2 * Z.max 0 (to_size_t (Z.max max_attempts total_multimaps) - attempts)
      /\ (length out <= 2 * length ranked_clusters)%nat
      /\ Forall (attempted alignment mems clusters) out.
Proof.
  induction 1 as [|cptr rest Hcptr _ IH]; intros attempts alns.
  { exists []. simpl. rewrite app_nil_r. split; [done|]. split; [lia|]. split; [lia|constructor]. }
  apply lookup_lt_is_Some_2 in Hcptr as [cluster Hcluster].
  cbn [attempt_clusters]. rewrite Hcluster. cbn [mbind option_bind].
  destruct (Z.ltb_spec (Z.of_nat (length cluster)) (to_size_t cluster_min)) as [Hsmall|Hsize].
  { destruct (IH attempts alns) as (out & -> & Hbound & Hlen & Hall).
    exists out. split; [done|]. split; [done|]. split; [simpl; lia|done]. }
  destruct (Z.ltb_spec (to_size_t (Z.max max_attempts total_multimaps)) (attempts + 1))
    as [Hstop|Hgo].
  { exists []. rewrite app_nil_r. split; [done|]. split; [simpl; lia|].
    split; [simpl; lia|constructor]. }
  destruct (subgraph_too_long alignment cluster) eqn:Hlong.
  { destruct (IH (attempts + 1) alns) as (out & -> & Hbound & Hlen & Hall).
    exists out. split; [done|]. split; [lia|]. split; [simpl; lia|done]. }
  destruct (align_cluster_spec (attempts + 1) cluster alns) as (new & Hnew & Htwo & Hattempted);
    [by eapply list_elem_of_lookup_2|done|done|].
  destruct (snd (align_cluster total_multimaps (attempts + 1) aln_fw aln_rc
                               (strand_totals ns (subgraph_nodes cluster)) cluster alns)).
  { exists new. rewrite Hnew. split; [done|]. split; [lia|]. split; [simpl; lia|done]. }
  rewrite Hnew.
  destruct (IH (attempts + 1) (alns ++ new)) as (out & -> & Hbound & Hlen & Hall).
  exists (new ++ out). split; [by rewrite app_assoc|].
  rewrite length_app. split; [lia|]. split; [simpl; lia|]. by apply Forall_app.
Qed.
End Attempts.

(** X22: the attempts on the clusters.  For MEMs that end at or after their
    begin, and a sort that returns the pointers to the clusters that it was
    given, [mems_id_clusters_to_alignments] returns, and what it returns is
    bounded: at most two alignments for each of the first
    [max(max_attempts, total_multimaps)] clusters that are large enough, so
    never more than twice that number nor twice the number of clusters, and
    none without a hit.  Every alignment is the alignment of the read, on
    one strand, to the subgraph of a cluster of at least [cluster_min] ids
    that is not too long and has a node with a hit on that strand. *)
Theorem mems_id_clusters_to_alignments_spec
        `{Mapper} `{ThreadSettings} `{SubgraphEngines} `{StdSort}
        (alignment : Alignment.t) (mems : list MaximalExactMatch.t)
        (additional_multimaps : Z) :
  Forall Clusters.well_formed mems ->
  ranking mems ≡ₚ seq 0 (length (id_clusters (sorted_ids mems))) ->
  exists alns,
    mems_id_clusters_to_alignments alignment mems additional_multimaps = Some alns
    /\ Z.of_nat (length alns)
       <= 2 * to_size_t (Z.max max_attempts (max_multimaps + additional_multimaps))
    /\ (length alns <= 2 * length (id_clusters (sorted_ids mems)))%nat
    /\ Forall (attempted alignment mems (id_clusters (sorted_ids mems))) alns
    /\ (Forall (fun mem => MaximalExactMatch.nodes mem = []) mems -> alns = []).
Proof.
  intros Hwf Hperm.
  destruct (mapM_is_Some_2 (query_coverage (id_to_mems (hits mems)))
                           (id_clusters (sorted_ids mems))) as [coverage Hcoverage].
  { apply Forall_forall. intros cluster _.
    by apply query_coverage_runs, hits_well_formed. }
  unfold ranking in Hperm. rewrite Hcoverage in Hperm. simpl in Hperm.
  destruct (attempt_clusters_spec alignment mems (id_clusters (sorted_ids mems))
                                  (max_multimaps + additional_multimaps)
                                  (node_strands (hits mems)) (hits_counted mems)
                                  (ranked (id_clusters (sorted_ids mems)) coverage))
    with (attempts := 0) (alns := @nil Alignment.t) as (alns & Hrun & Hbound & Hlen & Hall).
  { apply Forall_forall. intros cptr Hcptr. rewrite Hperm in Hcptr.
    apply elem_of_seq in Hcptr. lia. }
  rewrite (Permutation_length Hperm), length_seq in Hlen.
  exists alns. split; [|split; [|split; [|split]]].
  - unfold mems_id_clusters_to_alignments. fold (sorted_ids mems). rewrite Hcoverage.
    exact Hrun.
  - assert (0 <= to_size_t (Z.max max_attempts (max_multimaps + additional_multimaps))).
    { unfold to_size_t. apply Z.mod_pos_bound. lia. }
    lia.
  - exact Hlen.
  - done.
  - intros Hnone.
    assert (Hids : sorted_ids mems = []).
    { unfold sorted_ids. rewrite hits_ids.
      replace (mems ≫= (fun mem => Position.node_id <$> MaximalExactMatch.nodes mem))
        with (@nil Z); [done|].
      clear -Hnone. induction Hnone as [|mem rest Hmem _ IH]; [done|].
      simpl. rewrite Hmem. simpl. exact IH. }
    rewrite Hids in Hlen. simpl in Hlen. destruct alns; [done|simpl in Hlen; lia].
Qed.

(** The theorem at three seeds with hits on the nodes 1, 2 and 40. *)
Lemma mems_id_clusters_to_alignments_spec_witness :
  exists alns,
    @mems_id_clusters_to_alignments default_mapper default_threads plain_subgraphs
                                    insertion_sort tie_read
                                    [seed_left; seed_far; seed_right] 0 = Some alns
    /\ Z.of_nat (length alns)
       <= 2 * to_size_t (Z.max (@max_attempts default_threads)
                               (@max_multimaps default_mapper + 0)).
Proof.
  destruct (@mems_id_clusters_to_alignments_spec
              default_mapper default_threads plain_subgraphs insertion_sort tie_read
              [seed_left; seed_far; seed_right] 0)
    as (alns & Hrun & Hbound & _).
  - repeat constructor; unfold Clusters.well_formed; simpl; lia.
  - vm_compute. reflexivity.
  - exists alns. split; [exact Hrun|exact Hbound].
Defined.
End ThreadsProofs.

(* ===================================================================== *)
(** * The weight of a cluster                                             *)
(* ===================================================================== *)

Module QualityProofs.
Import Clusters Quality.

Lemma covered_elem cluster x :
  x ∈ covered cluster
  <-> exists mem, mem ∈ cluster
                  /\ MaximalExactMatch.begin mem <= x < MaximalExactMatch.end' mem.
Proof.
  induction cluster as [|mem rest IH].
  - split; [intros Hx; by apply elem_of_empty in Hx|].
    intros (mem & Hmem & _). by apply elem_of_nil in Hmem.
  - rewrite ClustersProofs.covered_cons, elem_of_union, IH, elem_of_list_to_set.
    unfold span. rewrite elem_of_seqZ. split.
    + intros [Hx|(other & Hother & Hx)].
      * exists mem. split; [left|lia].
      * exists other. split; [by right|done].
    + intros (other & Hother & Hx). apply elem_of_cons in Hother as [->|Hother].
      * left. lia.
      * right. by exists other.
Qed.

Lemma in_read_order_begins mem rest :
  in_read_order (mem :: rest) ->
  Forall (fun other => MaximalExactMatch.begin mem <= MaximalExactMatch.begin other)
         (mem :: rest).
Proof.
  revert mem. induction rest as [|next rest IH]; intros mem Horder.
  - repeat constructor. lia.
  - destruct Horder as (_ & _ & (_ & Hbegin & _) & Hrest).
    constructor; [lia|]. eapply Forall_impl; [exact (IH _ Hrest)|].
    intros other Hother. simpl in Hother. lia.
Qed.

Lemma in_read_order_well_formed cluster :
  in_read_order cluster -> Forall well_formed cluster.
Proof.
  induction cluster as [|mem rest IH]; [constructor|].
  intros (_ & Hmem & _ & Hrest). constructor; [exact Hmem|by apply IH].
Qed.

Lemma coverage_single mem :
  well_formed mem ->
  Z.of_nat (stdpp.base.size (covered [mem])) = MaximalExactMatch.length mem.
Proof.
  intros Hwf. rewrite ClustersProofs.covered_cons.
  change (covered []) with (∅ : gset Z).
  replace (list_to_set (span mem) ∪ ∅) with (list_to_set (span mem) : gset Z)
    by (apply leibniz_equiv; by rewrite (right_id ∅ (∪))).
  by apply ClustersProofs.size_span.
Qed.

Lemma coverage_step mem next rest :
  in_read_order (mem :: next :: rest) ->
  Z.of_nat (stdpp.base.size (covered (mem :: next :: rest)))
  = MaximalExactMatch.length mem
    + Z.of_nat (stdpp.base.size (covered (next :: rest)))
    - shared mem next.
Proof.
  intros Horder. pose proof Horder as (_ & Hmem & (Hfragment & Hbegin & Hend) & Hrest).
  pose proof (in_read_order_begins _ _ Hrest) as Hbegins.
  set (cut := Z.min (MaximalExactMatch.end' mem) (MaximalExactMatch.begin next)).
  set (before := list_to_set (seqZ (MaximalExactMatch.begin mem)
                                   (cut - MaximalExactMatch.begin mem)) : gset Z).
  assert (Heq : covered (mem :: next :: rest) = before ∪ covered (next :: rest)).
  { apply set_eq. intros x. rewrite ClustersProofs.covered_cons, !elem_of_union.
    unfold before, span. rewrite !elem_of_list_to_set, !elem_of_seqZ, covered_elem.
    split.
    - intros [Hx|Hx]; [|by right].
      destruct (Z.lt_ge_cases x (MaximalExactMatch.begin next)); [left; lia|].
      right. exists next. split; [left|lia].
    - intros [Hx|Hx]; [left; lia|by right]. }
  assert (Hdisjoint : before ## covered (next :: rest)).
  { apply elem_of_disjoint. intros x Hbefore Hx.
    unfold before in Hbefore. apply elem_of_list_to_set, elem_of_seqZ in Hbefore.
    apply covered_elem in Hx as (other & Hother & Hx).
    rewrite Forall_forall in Hbegins. specialize (Hbegins other Hother). lia. }
  rewrite Heq, (size_union _ _ Hdisjoint), Nat2Z.inj_add.
  unfold before. rewrite size_list_to_set by apply NoDup_seqZ. rewrite length_seqZ.
  unfold shared, MaximalExactMatch.length. rewrite Hfragment, Z.eqb_refl.
  destruct (Z.leb_spec (MaximalExactMatch.end' mem) (MaximalExactMatch.begin next)); lia.
Qed.

(** The loop from a MEM on: the rest of the cluster counts with its
    coverage, less half of what its first MEM shares with the MEM before. *)
Lemma weight_loop_spec read_length cluster :
  read_length <> 0 ->
  forall prev weight,
    in_read_order cluster ->
    exists w,
      weight_loop read_length prev cluster weight = Some w
      /\ (w == weight
               + (inject_Z (Z.of_nat (stdpp.base.size (covered cluster)))
                  - inject_Z (match prev, cluster with
                              | Some prev, mem :: _ => shared prev mem
                              | _, _ => 0
                              end) / 2)
                 / inject_Z read_length)%Q.
Proof.
  intros Hlength.
  assert (Hnonzero : ~ (inject_Z read_length == 0)%Q).
  { intros Heq. apply Hlength. unfold Qeq in Heq. simpl in Heq. lia. }
  induction cluster as [|mem rest IH]; intros prev weight Horder.
  { exists weight. split; [done|].
    change (covered []) with (∅ : gset Z). rewrite size_empty.
    destruct prev; simpl; field; exact Hnonzero. }
  pose proof Horder as (Hcount & Hmem & Hnext & Hrest).
  cbn [weight_loop]. unfold mem_weight.
  destruct (Z.eqb_spec read_length 0) as [|_]; [done|].
  rewrite Hcount. cbn [orb Z.eqb mbind option_bind].
  destruct (IH (Some mem)
               (weight + (inject_Z (MaximalExactMatch.length mem)
                          - inject_Z (shared_coverage prev mem (head rest)) / 2)
                         / inject_Z read_length / inject_Z 1)%Q Hrest)
    as (w & Hrun & Hw).
  exists w. split; [exact Hrun|]. rewrite Hw. clear Hrun Hw IH.
  destruct rest as [|next rest].
  - rewrite coverage_single by exact Hmem.
    change (covered []) with (∅ : gset Z). rewrite size_empty.
    unfold shared_coverage. cbn [head].
    destruct prev as [prev|]; rewrite ?Z.add_0_l; simpl inject_Z; field; exact Hnonzero.
  - rewrite (coverage_step _ _ _ Horder).
    unfold shared_coverage. cbn [head].
    destruct prev as [prev|]; rewrite ?Z.add_0_l;
      unfold Z.sub; rewrite ?inject_Z_plus, ?inject_Z_opp; field; exact Hnonzero.
Qed.

(** X23: the weight of a cluster is the share of the read that it covers.
    For a read length that is not 0 and a cluster of MEMs of one fragment in
    the order of the read, each with one hit, the weight that
    [compute_cluster_mapping_quality] gives the cluster is the coverage of
    [cluster_coverage] divided by the read length: the bases that two MEMs
    share count once. *)
Theorem cluster_weight_coverage (read_length : Z) (cluster : list MaximalExactMatch.t) :
  read_length <> 0 ->
  in_read_order cluster ->
  exists w coverage,
    cluster_weight read_length cluster = Some w
    /\ cluster_coverage cluster = Some coverage
    /\ (w == inject_Z coverage / inject_Z read_length)%Q.
Proof.
  intros Hlength Horder.
  destruct (weight_loop_spec read_length cluster Hlength None 0%Q Horder) as (w & Hrun & Hw).
  exists w, (Z.of_nat (stdpp.base.size (covered cluster))).
  split; [exact Hrun|]. split.
  - unfold cluster_coverage.
    rewrite (ClustersProofs.cover_all_covered _ ∅ (in_read_order_well_formed _ Horder)).
    cbn [mbind option_bind].
    replace (covered cluster ∪ ∅) with (covered cluster)
      by (apply leibniz_equiv; by rewrite (right_id ∅ (∪))).
    done.
  - rewrite Hw. simpl inject_Z at 2. field.
    intros Heq. apply Hlength. unfold Qeq in Heq. simpl in Heq. lia.
Qed.

(** The theorem at two seeds that overlap in three bases of a read of ten
    bases. *)
Lemma cluster_weight_coverage_witness :
  exists w,
    cluster_weight 10 [seed_wide; seed_middle] = Some w /\ (w == 10 # 10)%Q.
Proof.
  destruct (cluster_weight_coverage 10 [seed_wide; seed_middle])
    as (w & coverage & Hrun & Hcoverage & Hw).
  - lia.
  - simpl. repeat split; lia.
  - exists w. split; [exact Hrun|].
    vm_compute in Hcoverage. injection Hcoverage as <-. exact Hw.
Defined.
End QualityProofs.
